(** * VScript: a shallow embedding of the lexer, the parser, the evaluator
    and the top-level driver, and the properties of the language pipeline.

    Source files embedded here:
    - [src/lexer.ts]        (module [Lexer])
    - [src/parser.ts]       (the classes of the tree in module [Ast], the
                             class [Parser] in module [Parser])
    - [src/interpreter.ts]  (module [Interpreter], with [Environment] in
                             its submodule [Env])
    - the driver class [VScript] (module [Runtime])

    JavaScript strings are sequences of UTF-16 code units, numbers are
    IEEE-754 binary64 floats (Rocq's primitive floats), objects with
    identity (environments, arrays, function objects) are named by the
    address they were allocated at, and the environments live in a store.
    A [throw] is an outcome of its own, next to the normal one; loops and
    recursive methods take a bound on their turns or their depth, and the
    outcome says so when the bound is hit. *)

From Stdlib Require Import ZArith NArith List String Ascii Floats Uint63 Lia DecimalString.
From stdpp Require Import gmap.
Import ListNotations.

Set Implicit Arguments.
Unset Strict Implicit.

(* ===================================================================== *)
(** * The host: JavaScript strings and numbers *)
(* ===================================================================== *)

Module JS.

(** A JavaScript string: its UTF-16 code units. *)
Abbreviation jsstring := (list N).

(** String literals of the source files are written here as Rocq strings
    (UTF-8 bytes) and decoded to code units by [js]. *)
Fixpoint utf16 (bytes : list N) : jsstring :=
  match bytes with
  | [] => []
  | b0 :: rest =>
      if (b0 <? 128)%N then b0 :: utf16 rest
      else if (b0 <? 224)%N then
        match rest with
        | b1 :: rest1 =>
            (N.shiftl (N.land b0 31) 6 + N.land b1 63)%N :: utf16 rest1
        | _ => []
        end
      else if (b0 <? 240)%N then
        match rest with
        | b1 :: b2 :: rest2 =>
            (N.shiftl (N.land b0 15) 12 + N.shiftl (N.land b1 63) 6
             + N.land b2 63)%N :: utf16 rest2
        | _ => []
        end
      else
        match rest with
        | b1 :: b2 :: b3 :: rest3 =>
            let cp := (N.shiftl (N.land b0 7) 18 + N.shiftl (N.land b1 63) 12
                       + N.shiftl (N.land b2 63) 6 + N.land b3 63)%N in
            let c := (cp - 65536)%N in
            (55296 + N.shiftr c 10)%N :: (56320 + N.land c 1023)%N :: utf16 rest3
        | _ => []
        end
  end.

Definition js (s : string) : jsstring :=
  utf16 (List.map N_of_ascii (list_ascii_of_string s)).

(** [a === b] on strings. *)
Definition str_eqb (a b : jsstring) : bool := bool_decide (a = b).

(** [a <= b] on strings: code units compared lexicographically. *)
Fixpoint str_leb (a b : jsstring) : bool :=
  match a, b with
  | [], _ => true
  | _ :: _, [] => false
  | x :: a', y :: b' =>
      if (x <? y)%N then true else if (y <? x)%N then false else str_leb a' b'
  end.

(** [s.charAt(i)]: the one-unit string at [i], the empty string out of range. *)
Definition charAt (s : jsstring) (i : nat) : jsstring :=
  match s !! i with
  | Some c => [c]
  | None => []
  end.

(** [s.substring(a, b)]: the arguments are swapped when [a > b] and clamped
    to the length. *)
Definition substring (s : jsstring) (a b : nat) : jsstring :=
  take (Nat.max a b - Nat.min a b) (drop (Nat.min a b) s).

(** [String(n)] for an integer-valued number. *)
Definition ofZ (z : Z) : jsstring := js (NilZero.string_of_int (Z.to_int z)).
Definition ofNat (n : nat) : jsstring := ofZ (Z.of_nat n).

(** ** Numbers *)

Abbreviation jsnumber := float.

(** The number with the value of an integer of magnitude below [2^63]
    (a length, an index). *)
Definition numOfZ (z : Z) : jsnumber :=
  match z with
  | Z0 => 0%float
  | Zpos _ => PrimFloat.of_uint63 (Uint63.of_Z z)
  | Zneg _ => PrimFloat.opp (PrimFloat.of_uint63 (Uint63.of_Z (- z)))
  end.

(** [a === b] on numbers: IEEE equality ([NaN] differs from itself, the two
    zeros are equal). *)
Definition num_eqb (a b : jsnumber) : bool := PrimFloat.eqb a b.

(** The value [m * 2^e] of a finite float, as the pair of a numerator and a
    power-of-two exponent brought to the common exponent [e0]. *)
Definition scaled (m : positive) (e e0 : Z) : Z := Z.pos m * 2 ^ (e - e0).

(** [a % b]: the remainder of the truncated division, computed exactly;
    it has the sign of the dividend. *)
Definition rem (a b : jsnumber) : jsnumber :=
  match Prim2SF a, Prim2SF b with
  | S754_nan, _ | _, S754_nan => PrimFloat.nan
  | S754_infinity _, _ => PrimFloat.nan
  | _, S754_zero _ => PrimFloat.nan
  | _, S754_infinity _ => a
  | S754_zero _, _ => a
  | S754_finite sa ma ea, S754_finite _ mb eb =>
      let e0 := Z.min ea eb in
      let r := Z.rem (scaled ma ea e0) (scaled mb eb e0) in
      let f := Z.ldexp (PrimFloat.of_uint63 (Uint63.of_Z r)) e0 in
      if sa then PrimFloat.opp f else f
  end.

(** [parseFloat] on the text of a number literal: digits, then optionally a
    dot and digits. The decimal value is rounded to the nearest float. *)
Definition isDigitUnit (c : N) : bool := ((48 <=? c) && (c <=? 57))%N.

Fixpoint digitsValue (acc : Z) (s : jsstring) : Z * jsstring :=
  match s with
  | c :: s' =>
      if isDigitUnit c then digitsValue (10 * acc + Z.of_N (c - 48)) s'
      else (acc, s)
  | [] => (acc, [])
  end.

Definition ratio (p q : Z) : jsnumber :=
  match p, q with
  | Zpos p', Zpos q' =>
      SF2Prim (SFdiv 53 1024 (S754_finite false p' 0) (S754_finite false q' 0))
  | _, _ => 0%float
  end.

Definition parseFloat (s : jsstring) : jsnumber :=
  let (int, rest) := digitsValue 0 s in
  match rest with
  | 46%N :: frac =>
      let (all, rest') := digitsValue int frac in
      let places := (List.length frac - List.length rest')%nat in
      ratio all (10 ^ Z.of_nat places)
  | _ => ratio int 1
  end.

(** [ToLength(x)]: truncation to an integer, clamped to [0, 2^53 - 1]. *)
Definition toLength (x : jsnumber) : Z :=
  match Prim2SF x with
  | S754_finite false m e =>
      Z.min (2 ^ 53 - 1)
            (if (0 <=? e)%Z then Z.pos m * 2 ^ e else Z.pos m / 2 ^ (- e))
  | S754_infinity false => 2 ^ 53 - 1
  | _ => 0
  end.

(** Error objects of the host: [new Error(msg)] and the errors the host
    itself throws. *)
Inductive ErrorClass := Error | TypeError | RangeError.

Record JSError := mkError { errClass : ErrorClass; message : jsstring }.

(** The literals and the numeric operations stay folded under [simpl]. *)
Arguments js : simpl never.
Arguments ofZ : simpl never.
Arguments rem : simpl never.
Arguments parseFloat : simpl never.
Arguments toLength : simpl never.
Arguments numOfZ : simpl never.

End JS.
Export JS.

(* ===================================================================== *)
(** * src/lexer.ts *)
(* ===================================================================== *)

Module Lexer.

(** [enum TokenType]. *)
Inductive TokenType :=
  (* keywords *)
  | FUNCTION | IF | ELSE | RETURN | FOR | IN | LET | TRUE | FALSE | NULL
  (* identifiers and literals *)
  | IDENTIFIER | NUMBER | STRING
  (* operators *)
  | PLUS | MINUS | MULTIPLY | DIVIDE | MODULO | ASSIGN
  (* comparison operators *)
  | EQUAL | NOT_EQUAL | LESS | LESS_EQUAL | GREATER | GREATER_EQUAL
  (* logical operators *)
  | AND | OR | NOT
  (* delimiters *)
  | LEFT_PAREN | RIGHT_PAREN | LEFT_BRACE | RIGHT_BRACE
  | LEFT_BRACKET | RIGHT_BRACKET | COMMA
  | EOF.

#[export] Instance TokenType_eq_dec : EqDecision TokenType.
Proof. solve_decision. Defined.

(** The string value of each member of the enum. *)
Definition enumValue (t : TokenType) : jsstring :=
  js match t with
     | FUNCTION => "函数" | IF => "如果" | ELSE => "否则" | RETURN => "返回"
     | FOR => "对于" | IN => "在" | LET => "就是" | TRUE => "真"
     | FALSE => "假" | NULL => "空"
     | IDENTIFIER => "IDENTIFIER" | NUMBER => "NUMBER" | STRING => "STRING"
     | PLUS => "+" | MINUS => "-" | MULTIPLY => "*" | DIVIDE => "/"
     | MODULO => "%" | ASSIGN => "="
     | EQUAL => "==" | NOT_EQUAL => "!=" | LESS => "<" | LESS_EQUAL => "<="
     | GREATER => ">" | GREATER_EQUAL => ">="
     | AND => "并" | OR => "或" | NOT => "非"
     | LEFT_PAREN => "(" | RIGHT_PAREN => ")" | LEFT_BRACE => "{"
     | RIGHT_BRACE => "}" | LEFT_BRACKET => "[" | RIGHT_BRACKET => "]"
     | COMMA => ","
     | EOF => "EOF"
     end.

(** The [literal] field of a token: [null], the decoded number, or the
    contents of a string literal. *)
Inductive TokenLiteral :=
  | LitNull
  | LitNumber (n : jsnumber)
  | LitString (s : jsstring).

(** [class Token]. *)
Record Token := mkToken {
  type : TokenType;
  lexeme : jsstring;
  literal : TokenLiteral;
  line : Z;
  column : Z
}.

(** The fields of [class Lexer]. *)
Record Lexer := mkLexer {
  source : jsstring;
  tokens : list Token;
  start : nat;
  current : nat;
  lline : Z;
  lcolumn : Z
}.

(** [new Lexer(source)]. *)
Definition new (src : jsstring) : Lexer :=
  {| source := src; tokens := []; start := 0; current := 0;
     lline := 1; lcolumn := 1 |}.

(** [private keywords: Map<string, TokenType>], in the order of the source. *)
Definition keywords : list (jsstring * TokenType) :=
  [ (js "函数", FUNCTION);
    (js "如果", IF);
    (js "否则", ELSE);
    (js "返回", RETURN);
    (js "对于", FOR);
    (js "在", IN);
    (js "就是", LET);
    (js "真", TRUE);
    (js "假", FALSE);
    (js "空", NULL) ].

(** [keywords.get(text)]. The keys of the map literal are distinct, so the
    first match is the only one. *)
Fixpoint mapGet (m : list (jsstring * TokenType)) (text : jsstring)
  : option TokenType :=
  match m with
  | [] => None
  | (k, t) :: m' => if str_eqb k text then Some t else mapGet m' text
  end.

(** What running the lexer yields: a value and the new state of the lexer,
    a thrown error, or no answer within the given number of loop turns. *)
Inductive Res (A : Type) :=
  | Ok (a : A) (l : Lexer)
  | Throw (e : JSError)
  | Timeout.
Arguments Throw {A} e.
Arguments Timeout {A}.

Definition isAtEnd (l : Lexer) : bool :=
  bool_decide (List.length (source l) <= current l)%nat.

Definition isDigit (c : jsstring) : bool :=
  str_leb (js "0") c && str_leb c (js "9").

(** The class [[一-龥_a-zA-Z]]. *)
Definition alphaUnit (u : N) : bool :=
  ((19968 <=? u) && (u <=? 40869) || (u =? 95)
   || (97 <=? u) && (u <=? 122) || (65 <=? u) && (u <=? 90))%N.

(** [/[一-龥_a-zA-Z]/.test(c)]: some unit of [c] is in the class. *)
Definition isAlpha (c : jsstring) : bool := existsb alphaUnit c.

Definition isAlphaNumeric (c : jsstring) : bool := isAlpha c || isDigit c.

Definition peek (l : Lexer) : jsstring :=
  if isAtEnd l then [0%N] else charAt (source l) (current l).

Definition peekNext (l : Lexer) : jsstring :=
  if bool_decide (List.length (source l) <= current l + 1)%nat then [0%N]
  else charAt (source l) (current l + 1).

(** [advance()]: returns the unit at [current], then moves on. *)
Definition advance (l : Lexer) : jsstring * Lexer :=
  (charAt (source l) (current l),
   {| source := source l; tokens := tokens l; start := start l;
      current := S (current l); lline := lline l;
      lcolumn := (lcolumn l + 1)%Z |}).

Definition Lmatch (expected : jsstring) (l : Lexer) : bool * Lexer :=
  if isAtEnd l then (false, l)
  else if negb (str_eqb (charAt (source l) (current l)) expected) then (false, l)
  else (true,
        {| source := source l; tokens := tokens l; start := start l;
           current := S (current l); lline := lline l;
           lcolumn := (lcolumn l + 1)%Z |}).

Definition addToken (ty : TokenType) (lit : TokenLiteral) (l : Lexer) : Lexer :=
  let text := substring (source l) (start l) (current l) in
  {| source := source l;
     tokens := tokens l ++
       [mkToken ty text lit (lline l) (lcolumn l - Z.of_nat (List.length text))];
     start := start l; current := current l;
     lline := lline l; lcolumn := lcolumn l |}.

Definition setLine (ln : Z) (l : Lexer) : Lexer :=
  {| source := source l; tokens := tokens l; start := start l;
     current := current l; lline := ln; lcolumn := lcolumn l |}.

Definition setColumn (c : Z) (l : Lexer) : Lexer :=
  {| source := source l; tokens := tokens l; start := start l;
     current := current l; lline := lline l; lcolumn := c |}.

Definition setStart (s : nat) (l : Lexer) : Lexer :=
  {| source := source l; tokens := tokens l; start := s;
     current := current l; lline := lline l; lcolumn := lcolumn l |}.

(** [while (p(this.peek())) this.advance();] *)
Fixpoint advanceWhile (p : jsstring -> bool) (turns : nat) (l : Lexer)
  : Res unit :=
  if p (peek l) then
    match turns with
    | O => Timeout
    | S n => advanceWhile p n (snd (advance l))
    end
  else Ok tt l.

(** [identifier()]. *)
Definition identifier (turns : nat) (l : Lexer) : Res unit :=
  match advanceWhile isAlphaNumeric turns l with
  | Ok _ l1 =>
      let text := substring (source l1) (start l1) (current l1) in
      let ty := match mapGet keywords text with
                | Some t => t
                | None => IDENTIFIER
                end in
      Ok tt (addToken ty LitNull l1)
  | Throw e => Throw e
  | Timeout => Timeout
  end.

(** [number()]. *)
Definition number (turns : nat) (l : Lexer) : Res unit :=
  match advanceWhile isDigit turns l with
  | Ok _ l1 =>
      let frac :=
        if str_eqb (peek l1) (js ".") && isDigit (peekNext l1)
        then advanceWhile isDigit turns (snd (advance l1))
        else Ok tt l1 in
      match frac with
      | Ok _ l2 =>
          let value :=
            parseFloat (substring (source l2) (start l2) (current l2)) in
          Ok tt (addToken NUMBER (LitNumber value) l2)
      | other => other
      end
  | other => other
  end.

(** The loop of [string()]. *)
Fixpoint stringLoop (turns : nat) (l : Lexer) : Res unit :=
  if negb (str_eqb (peek l) [34%N]) && negb (isAtEnd l) then
    match turns with
    | O => Timeout
    | S n =>
        let l1 := if str_eqb (peek l) [10%N]
                  then setColumn 1 (setLine (lline l + 1) l) else l in
        stringLoop n (snd (advance l1))
    end
  else Ok tt l.

(** [string()]. *)
Definition Lstring (turns : nat) (l : Lexer) : Res unit :=
  match stringLoop turns l with
  | Ok _ l1 =>
      if isAtEnd l1 then
        Throw (mkError Error (js "未闭合的字符串在第 " ++ ofZ (lline l1) ++ js " 行"))
      else
        (* the closing quote *)
        let l2 := snd (advance l1) in
        (* the value, without the quotes *)
        let value := substring (source l2) (start l2 + 1) (current l2 - 1) in
        Ok tt (addToken STRING (LitString value) l2)
  | other => other
  end.

(** [multilineComment()]. *)
Fixpoint multilineComment (turns : nat) (l : Lexer) : Res unit :=
  if negb (isAtEnd l) then
    match turns with
    | O => Timeout
    | S n =>
        if str_eqb (peek l) (js "*") && str_eqb (peekNext l) (js "/") then
          Ok tt (snd (advance (snd (advance l))))
        else
          let l1 := if str_eqb (peek l) [10%N] then setLine (lline l + 1) l
                    else l in
          multilineComment n (snd (advance l1))
    end
  else
    Throw (mkError Error (js "未闭合的多行注释在第 " ++ ofZ (lline l) ++ js " 行")).

(** [this.addToken(this.match('=') ? a : b)]. *)
Definition addEither (a b : TokenType) (l : Lexer) : Res unit :=
  let (m, l1) := Lmatch (js "=") l in
  Ok tt (addToken (if m then a else b) LitNull l1).

(** [while (this.peek() !== '\n' && !this.isAtEnd()) this.advance();] *)
Fixpoint lineComment (turns : nat) (l : Lexer) : Res unit :=
  if negb (str_eqb (peek l) [10%N]) && negb (isAtEnd l) then
    match turns with
    | O => Timeout
    | S n => lineComment n (snd (advance l))
    end
  else Ok tt l.

(** [c === 's'] in the [switch] of [scanToken]. *)
Definition isChar (c : jsstring) (s : string) : bool := str_eqb c (js s).

(** [scanToken()]. *)
Definition scanToken (turns : nat) (l : Lexer) : Res unit :=
  let (c, l) := advance l in
  if isChar c "(" then Ok tt (addToken LEFT_PAREN LitNull l)
  else if isChar c ")" then Ok tt (addToken RIGHT_PAREN LitNull l)
  else if isChar c "{" then Ok tt (addToken LEFT_BRACE LitNull l)
  else if isChar c "}" then Ok tt (addToken RIGHT_BRACE LitNull l)
  else if isChar c "[" then Ok tt (addToken LEFT_BRACKET LitNull l)
  else if isChar c "]" then Ok tt (addToken RIGHT_BRACKET LitNull l)
  else if isChar c "," then Ok tt (addToken COMMA LitNull l)
  else if isChar c "+" then Ok tt (addToken PLUS LitNull l)
  else if isChar c "-" then Ok tt (addToken MINUS LitNull l)
  else if isChar c "*" then Ok tt (addToken MULTIPLY LitNull l)
  else if isChar c "%" then Ok tt (addToken MODULO LitNull l)
  (* operators of one or two characters *)
  else if isChar c "=" then addEither EQUAL ASSIGN l
  else if isChar c "!" then addEither NOT_EQUAL NOT l
  else if isChar c "<" then addEither LESS_EQUAL LESS l
  else if isChar c ">" then addEither GREATER_EQUAL GREATER l
  (* white space *)
  else if isChar c " " || str_eqb c [13%N] || str_eqb c [9%N] then Ok tt l
  else if str_eqb c [10%N] then Ok tt (setColumn 1 (setLine (lline l + 1) l))
  (* strings *)
  else if str_eqb c [34%N] then Lstring turns l
  (* comments *)
  else if isChar c "/" then
    let (m, l1) := Lmatch (js "/") l in
    if m then lineComment turns l1
    else
      let (m2, l2) := Lmatch (js "*") l1 in
      if m2 then multilineComment turns l2
      else Ok tt (addToken DIVIDE LitNull l2)
  else if isDigit c then number turns l
  else if isAlpha c then identifier turns l
  else
    Throw (mkError Error
             (js "意外的字符 '" ++ c ++ js "' 在第 " ++ ofZ (lline l)
              ++ js " 行，第 " ++ ofZ (lcolumn l) ++ js " 列")).

(** The loop of [scanTokens()]. Every turn consumes at least one unit, so
    the number of units of the source bounds every loop of the lexer. *)
Fixpoint scanLoop (turns : nat) (l : Lexer) : Res unit :=
  if negb (isAtEnd l) then
    match turns with
    | O => Timeout
    | S n =>
        match scanToken (List.length (source l)) (setStart (current l) l) with
        | Ok _ l1 => scanLoop n l1
        | other => other
        end
    end
  else Ok tt l.

(** [scanTokens()]. *)
Definition scanTokens (l : Lexer) : Res (list Token) :=
  match scanLoop (List.length (source l)) l with
  | Ok _ l1 =>
      let l2 :=
        {| source := source l1;
           tokens := tokens l1 ++ [mkToken EOF [] LitNull (lline l1) (lcolumn l1)];
           start := start l1; current := current l1;
           lline := lline l1; lcolumn := lcolumn l1 |} in
      Ok (tokens l2) l2
  | Throw e => Throw e
  | Timeout => Timeout
  end.

End Lexer.

(* ===================================================================== *)
(** * Control flow of the host: state, [throw], [try] *)
(* ===================================================================== *)

Module Control.

(** Why a computation has no outcome: it follows an address that is not in
    the store, or it does not finish within the given recursion depth. *)
Inductive Reason := Dangling | OutOfFuel.

(** The outcome of a computation over a state [S] that may throw an [E]. *)
Inductive Outcome (E S A : Type) :=
  | Normal (a : A) (s : S)
  | Abrupt (e : E) (s : S)
  | NoOutcome (r : Reason).
Arguments Normal {E S A} a s.
Arguments Abrupt {E S A} e s.
Arguments NoOutcome {E S A} r.

Definition M (E S A : Type) : Type := S -> Outcome E S A.

Definition ret {E S A} (a : A) : M E S A := fun s => Normal a s.
Definition throw {E S A} (e : E) : M E S A := fun s => Abrupt e s.
Definition stuck {E S A} (r : Reason) : M E S A := fun _ => NoOutcome r.
Definition bind {E S A B} (m : M E S A) (k : A -> M E S B) : M E S B :=
  fun s =>
    match m s with
    | Normal a s' => k a s'
    | Abrupt e s' => Abrupt e s'
    | NoOutcome r => NoOutcome r
    end.

Definition gets {E S A} (f : S -> A) : M E S A := fun s => Normal (f s) s.
Definition modify {E S} (f : S -> S) : M E S unit := fun s => Normal tt (f s).

#[export] Instance M_ret {E S} : MRet (M E S) := fun A a => ret a.
#[export] Instance M_bind {E S} : MBind (M E S) := fun A B k m => bind m k.

(** [for (const x of l) f(x);] *)
Fixpoint forEach {E S A} (f : A -> M E S unit) (l : list A) : M E S unit :=
  match l with
  | [] => ret tt
  | x :: l' => f x ;; forEach f l'
  end.

(** [l.map(x => f(x))], the calls in the order of the elements. *)
Fixpoint mapM {E S A B} (f : A -> M E S B) (l : list A) : M E S (list B) :=
  match l with
  | [] => ret []
  | x :: l' => y ← f x; ys ← mapM f l'; ret (y :: ys)
  end.

(** [try { m } finally { f }]. *)
Definition tryFinally {E S A} (m : M E S A) (f : M E S unit) : M E S A :=
  fun s =>
    match m s with
    | Normal a s' =>
        match f s' with
        | Normal _ s'' => Normal a s''
        | Abrupt e s'' => Abrupt e s''
        | NoOutcome r => NoOutcome r
        end
    | Abrupt e s' =>
        match f s' with
        | Normal _ s'' => Abrupt e s''
        | Abrupt e' s'' => Abrupt e' s''
        | NoOutcome r => NoOutcome r
        end
    | NoOutcome r => NoOutcome r
    end.

(** [try { m } catch (e) { h(e) }]. *)
Definition tryCatch {E S A} (m : M E S A) (h : E -> M E S A) : M E S A :=
  fun s =>
    match m s with
    | Abrupt e s' => h e s'
    | other => other
    end.

End Control.
Export Control.

(* ===================================================================== *)
(** * src/parser.ts: the classes of the syntax tree *)
(* ===================================================================== *)

Module Ast.
Import Lexer.

(** The four objects registered by the constructor of [Interpreter]. *)
Inductive Builtin := BuiltinPrint | BuiltinRange | BuiltinLength | BuiltinType.

#[export] Instance Builtin_eq_dec : EqDecision Builtin.
Proof. solve_decision. Defined.

(** The classes implementing [Expr] and [Stmt] (each constructor is named
    after the visitor method it dispatches to), and the values of the
    evaluator ([any] in the source). A [Literal] node holds a value. Arrays and [VSFunction] objects carry
    the address they were allocated at, which is their identity; a
    [VSFunction] holds the fields of its declaration and the address of its
    closure environment. *)
#[warnings="-register-all"]
Inductive Expr :=
  | BinaryExpr (left : Expr) (operator : Token) (right : Expr)
  | GroupingExpr (expression : Expr)
  | LiteralExpr (value : Value)
  | UnaryExpr (operator : Token) (right : Expr)
  | VariableExpr (name : Token)
  | AssignExpr (name : Token) (value : Expr)
  | CallExpr (callee : Expr) (paren : Token) (args : list Expr)
  | ArrayExpr (elements : list Expr)
with Stmt :=
  | ExpressionStmt (expression : Expr)
  | FunctionStmt (name : Token) (params : list Token) (body : list Stmt)
  | IfStmt (condition : Expr) (thenBranch : Stmt) (elseBranch : option Stmt)
  | LetStmt (name : Token) (initializer : option Expr)
  | ReturnStmt (keyword : Token) (value : option Expr)
  | WhileStmt (condition : Expr) (body : Stmt)
  | BlockStmt (statements : list Stmt)
  | ForStmt (variable : Token) (iterable : Expr) (body : Stmt)
with Value :=
  | VUndefined
  | VNull
  | VBoolean (b : bool)
  | VNumber (n : jsnumber)
  | VString (s : jsstring)
  | VArray (addr : nat) (elems : list Value)
  | VFunction (addr : nat) (name : Token) (params : list Token)
              (body : list Stmt) (closure : nat)
  | VBuiltin (b : Builtin).

End Ast.

(* ===================================================================== *)
(** * src/parser.ts: [class Parser] *)
(* ===================================================================== *)

Module Parser.
Import Lexer Ast.

(** A method of the parser: a computation over the field [current] that may
    throw an error object. *)
Abbreviation Parse := (M JSError nat).

Section Methods.

(** [this.tokens]. *)
Variable tokens : list Token.

(** The [TypeError] of the host for a field read from [undefined]. *)
Definition undefinedRead (field : string) : JSError :=
  mkError TypeError
    (js "Cannot read properties of undefined (reading '" ++ js field ++ js "')").

(** [this.peek()]. Every caller reads a field of the token at once, first
    of all [type], which throws in the host when [current] is past the end
    of the array. *)
Definition peek : Parse Token :=
  fun current =>
    match tokens !! current with
    | Some t => Normal t current
    | None => Abrupt (undefinedRead "type") current
    end.

(** [this.previous()], i.e. [tokens[current - 1]]. It is read after a
    successful [check], where it is the token that [peek] had returned. *)
Definition previous : Parse Token :=
  fun current =>
    match current with
    | S c =>
        match tokens !! c with
        | Some t => Normal t current
        | None => Abrupt (undefinedRead "type") current
        end
    | O => Abrupt (undefinedRead "type") current
    end.

Definition isAtEnd : Parse bool :=
  t ← peek;
  ret (bool_decide (type t = EOF)).

Definition check (ty : TokenType) : Parse bool :=
  e ← isAtEnd;
  if (e : bool) then ret false
  else t ← peek; ret (bool_decide (type t = ty)).

(** [advance()]; the token it returns is [previous()]. *)
Definition advance : Parse unit :=
  e ← isAtEnd;
  if (e : bool) then ret tt else modify S.

(** [match(...types)]. *)
Fixpoint Pmatch (types : list TokenType) : Parse bool :=
  match types with
  | [] => ret false
  | ty :: rest =>
      c ← check ty;
      if (c : bool) then advance;; ret true else Pmatch rest
  end.

(** [error(token, message)]. *)
Definition error (token : Token) (msg : jsstring) : JSError :=
  let where_ :=
    if bool_decide (type token = EOF) then js "文件末尾"
    else js "'" ++ lexeme token ++ js "'" in
  mkError Error
    (js "第 " ++ ofZ (line token) ++ js " 行，第 " ++ ofZ (column token)
     ++ js " 列，在 " ++ where_ ++ js " 处：" ++ msg).

(** [throw this.error(this.peek(), message)]. *)
Definition errorAtPeek {A} (msg : string) : Parse A :=
  t ← peek;
  throw (error t (js msg)).

Definition consume (ty : TokenType) (msg : string) : Parse Token :=
  c ← check ty;
  if (c : bool) then advance;; previous else errorAtPeek msg.

(** The loop of [synchronize()]. *)
Fixpoint synchronizeLoop (turns : nat) : Parse unit :=
  e ← isAtEnd;
  if (e : bool) then ret tt
  else
    match turns with
    | O => stuck OutOfFuel
    | S n =>
        p ← previous;
        if bool_decide (type p = RIGHT_BRACE) then ret tt
        else
          t ← peek;
          if bool_decide (type t ∈ [FUNCTION; LET; IF; FOR; RETURN]) then ret tt
          else advance;; synchronizeLoop n
    end.

Definition synchronize : Parse unit :=
  advance;;
  synchronizeLoop (List.length tokens).

(** [do { guard; acc.push(item()) } while (this.match(COMMA))]. *)
Fixpoint commaLoop {A} (guard : list A -> Parse unit) (item : Parse A)
    (turns : nat) (acc : list A) : Parse (list A) :=
  guard acc;;
  x ← item;
  m ← Pmatch [COMMA];
  if (m : bool) then
    match turns with
    | O => stuck OutOfFuel
    | S n => commaLoop guard item n (acc ++ [x])
    end
  else ret (acc ++ [x]).

(** [if (acc.length >= 255) throw this.error(this.peek(), ...)]. *)
Definition atMost255 {A} (acc : list A) : Parse unit :=
  if bool_decide (255 <= List.length acc)%nat
  then errorAtPeek "函数参数不能超过 255 个"
  else ret tt.

(** [while (this.match(...types)) { expr = new Binary(expr, previous(), operand()) }]. *)
Fixpoint binaryLoop (types : list TokenType) (operand : Parse Expr)
    (turns : nat) (expr : Expr) : Parse Expr :=
  m ← Pmatch types;
  if (m : bool) then
    match turns with
    | O => stuck OutOfFuel
    | S n =>
        operator ← previous;
        right ← operand;
        binaryLoop types operand n (BinaryExpr expr operator right)
    end
  else ret expr.

(** A level of left-associative binary operators. *)
Definition binary (types : list TokenType) (operand : Parse Expr) : Parse Expr :=
  expr ← operand;
  binaryLoop types operand (List.length tokens) expr.

(** [previous().literal] as a value. *)
Definition literalValue (l : TokenLiteral) : Value :=
  match l with
  | LitNull => VNull
  | LitNumber n => VNumber n
  | LitString s => VString s
  end.

(** The methods of the grammar, over the methods that they call back:
    [expression], [assignment] and [unary] through the expression levels,
    [declaration] and [statement] through the statements. *)
Variable expression : Parse Expr.
Variable assignmentRec : Parse Expr.
Variable unaryRec : Parse Expr.
Variable declaration : Parse Stmt.
Variable statementRec : Parse Stmt.

Definition primary : Parse Expr :=
  m ← Pmatch [FALSE];
  if (m : bool) then ret (LiteralExpr (VBoolean false)) else
  m ← Pmatch [TRUE];
  if (m : bool) then ret (LiteralExpr (VBoolean true)) else
  m ← Pmatch [NULL];
  if (m : bool) then ret (LiteralExpr VNull) else
  m ← Pmatch [NUMBER; STRING];
  if (m : bool) then p ← previous; ret (LiteralExpr (literalValue (literal p))) else
  m ← Pmatch [LEFT_BRACKET];
  if (m : bool) then
    c ← check RIGHT_BRACKET;
    elements ← (if (c : bool) then ret []
                else commaLoop (fun _ => ret tt) expression (List.length tokens) []);
    consume RIGHT_BRACKET "数组需要 ']'";;
    ret (ArrayExpr elements)
  else
  m ← Pmatch [IDENTIFIER];
  if (m : bool) then p ← previous; ret (VariableExpr p) else
  m ← Pmatch [LEFT_PAREN];
  if (m : bool) then
    expr ← expression;
    consume RIGHT_PAREN "表达式后需要 ')'";;
    ret (GroupingExpr expr)
  else errorAtPeek "需要表达式".

Definition finishCall (callee : Expr) : Parse Expr :=
  c ← check RIGHT_PAREN;
  args ← (if (c : bool) then ret []
          else commaLoop atMost255 expression (List.length tokens) []);
  paren ← consume RIGHT_PAREN "函数调用需要 ')'";
  ret (CallExpr callee paren args).

(** The loop of [call()]. *)
Fixpoint callLoop (turns : nat) (expr : Expr) : Parse Expr :=
  m ← Pmatch [LEFT_PAREN];
  if (m : bool) then
    match turns with
    | O => stuck OutOfFuel
    | S n => expr' ← finishCall expr; callLoop n expr'
    end
  else ret expr.

Definition call : Parse Expr :=
  expr ← primary;
  callLoop (List.length tokens) expr.

Definition unary : Parse Expr :=
  m ← Pmatch [NOT; MINUS];
  if (m : bool) then
    operator ← previous;
    right ← unaryRec;
    ret (UnaryExpr operator right)
  else call.

Definition factor : Parse Expr := binary [DIVIDE; MULTIPLY; MODULO] unary.
Definition term : Parse Expr := binary [MINUS; PLUS] factor.
Definition comparison : Parse Expr :=
  binary [GREATER; GREATER_EQUAL; LESS; LESS_EQUAL] term.
Definition equality : Parse Expr := binary [NOT_EQUAL; EQUAL] comparison.
Definition and : Parse Expr := binary [AND] equality.
Definition or : Parse Expr := binary [OR] and.

Definition assignment : Parse Expr :=
  expr ← or;
  m ← Pmatch [ASSIGN];
  if (m : bool) then
    equals ← previous;
    value ← assignmentRec;
    match expr with
    | VariableExpr name => ret (AssignExpr name value)
    | _ => throw (error equals (js "无效的赋值目标"))
    end
  else ret expr.

(** The loop of [block()]. *)
Fixpoint blockLoop (turns : nat) (statements : list Stmt) : Parse (list Stmt) :=
  c ← check RIGHT_BRACE;
  if (c : bool) then ret statements else
  e ← isAtEnd;
  if (e : bool) then ret statements else
  match turns with
  | O => stuck OutOfFuel
  | S n => d ← declaration; blockLoop n (statements ++ [d])
  end.

Definition block : Parse (list Stmt) :=
  statements ← blockLoop (List.length tokens) [];
  consume RIGHT_BRACE "代码块需要 '}'";;
  ret statements.

Definition function : Parse Stmt :=
  name ← consume IDENTIFIER "需要函数名";
  consume LEFT_PAREN "函数名后需要 '('";;
  c ← check RIGHT_PAREN;
  parameters ← (if (c : bool) then ret []
                else commaLoop atMost255 (consume IDENTIFIER "需要参数名")
                               (List.length tokens) []);
  consume RIGHT_PAREN "参数列表后需要 ')'";;
  consume LEFT_BRACE "函数体需要 '{'";;
  body ← block;
  ret (FunctionStmt name parameters body).

Definition letDeclaration : Parse Stmt :=
  name ← consume IDENTIFIER "需要变量名";
  m ← Pmatch [ASSIGN];
  initializer ← (if (m : bool) then e ← expression; ret (Some e) else ret None);
  ret (LetStmt name initializer).

Definition ifStatement : Parse Stmt :=
  consume LEFT_PAREN "'如果' 后需要 '('";;
  condition ← expression;
  consume RIGHT_PAREN "条件后需要 ')'";;
  thenBranch ← statementRec;
  m ← Pmatch [ELSE];
  elseBranch ← (if (m : bool) then s ← statementRec; ret (Some s) else ret None);
  ret (IfStmt condition thenBranch elseBranch).

Definition forStatement : Parse Stmt :=
  variable ← consume IDENTIFIER "需要循环变量名";
  consume IN "需要关键字 '在'";;
  iterable ← expression;
  body ← statementRec;
  ret (ForStmt variable iterable body).

Definition returnStatement : Parse Stmt :=
  keyword ← previous;
  c ← check RIGHT_BRACE;
  value ← (if (c : bool) then ret None else e ← expression; ret (Some e));
  ret (ReturnStmt keyword value).

Definition expressionStatement : Parse Stmt :=
  expr ← expression;
  ret (ExpressionStmt expr).

Definition statement : Parse Stmt :=
  m ← Pmatch [IF];
  if (m : bool) then ifStatement else
  m ← Pmatch [FOR];
  if (m : bool) then forStatement else
  m ← Pmatch [RETURN];
  if (m : bool) then returnStatement else
  m ← Pmatch [LEFT_BRACE];
  if (m : bool) then b ← block; ret (BlockStmt b) else
  expressionStatement.

Definition declarationBody : Parse Stmt :=
  tryCatch
    (m ← Pmatch [FUNCTION];
     if (m : bool) then function else
     m ← Pmatch [LET];
     if (m : bool) then letDeclaration else
     statement)
    (fun error => synchronize;; throw error).

End Methods.

(** The methods that call each other in a cycle, to a given depth of
    nesting. *)
Fixpoint expression (tokens : list Token) (fuel : nat) : Parse Expr :=
  fun current =>
    match fuel with
    | O => NoOutcome OutOfFuel
    | S n => assignment tokens (expression tokens n) (assignmentF tokens n)
                        (unaryF tokens n) current
    end
with assignmentF (tokens : list Token) (fuel : nat) : Parse Expr :=
  fun current =>
    match fuel with
    | O => NoOutcome OutOfFuel
    | S n => assignment tokens (expression tokens n) (assignmentF tokens n)
                        (unaryF tokens n) current
    end
with unaryF (tokens : list Token) (fuel : nat) : Parse Expr :=
  fun current =>
    match fuel with
    | O => NoOutcome OutOfFuel
    | S n => unary tokens (expression tokens n) (unaryF tokens n) current
    end.

Fixpoint declaration (tokens : list Token) (fuel : nat) : Parse Stmt :=
  fun current =>
    match fuel with
    | O => NoOutcome OutOfFuel
    | S n => declarationBody tokens (expression tokens n) (declaration tokens n)
                             (statementF tokens n) current
    end
with statementF (tokens : list Token) (fuel : nat) : Parse Stmt :=
  fun current =>
    match fuel with
    | O => NoOutcome OutOfFuel
    | S n => statement tokens (expression tokens n) (declaration tokens n)
                       (statementF tokens n) current
    end.

(** The loop of [parse()]. *)
Fixpoint parseLoop (tokens : list Token) (fuel turns : nat)
    (statements : list Stmt) : Parse (list Stmt) :=
  e ← isAtEnd tokens;
  if (e : bool) then ret statements
  else
    match turns with
    | O => stuck OutOfFuel
    | S n =>
        d ← declaration tokens fuel;
        parseLoop tokens fuel n (statements ++ [d])
    end.

(** [new Parser(tokens).parse()]. *)
Definition parse (fuel : nat) (tokens : list Token) : Outcome JSError nat (list Stmt) :=
  parseLoop tokens fuel (List.length tokens) [] 0.

End Parser.

(* ===================================================================== *)
(** * src/interpreter.ts *)
(* ===================================================================== *)

Module Interpreter.
Import Lexer Ast.

(** What a [throw] carries: a [RuntimeError], the [ReturnValue] of a
    [返回] statement, or an error object of the host. *)
Inductive Thrown :=
  | RuntimeError (token : Token) (msg : jsstring)
  | ReturnValue (value : Value)
  | HostError (e : JSError).

(** [class Environment]: the map [values] and the address of the enclosing
    environment. *)
Record Environment := mkEnvironment {
  values : gmap jsstring Value;
  enclosing : option nat
}.

(** The store of environments, by address. *)
Abbreviation Heap := (gmap nat Environment).

(** Computations over the store. *)
Abbreviation Store := (M Thrown Heap).

(** ** [class Environment] *)

Module Env.

(** [this.values.has(name)]. *)
Definition has (e : Environment) (name : jsstring) : bool :=
  bool_decide (is_Some (values e !! name)).

(** [define(name, value)]. *)
Definition define (this : nat) (name : jsstring) (value : Value) : Store unit :=
  fun h =>
    match h !! this with
    | Some e =>
        Normal tt (<[this := mkEnvironment (<[name := value]> (values e))
                                           (enclosing e)]> h)
    | None => NoOutcome Dangling
    end.

Definition undefinedVariable (name : Token) : Thrown :=
  RuntimeError name (js "未定义的变量 '" ++ lexeme name ++ js "'").

(** [assign(name, value)]. The recursion follows [enclosing]; [depth] bounds
    the length of the chain. *)
Fixpoint assignFrom (depth : nat) (this : nat) (name : Token) (value : Value)
  : Store unit :=
  fun h =>
    match h !! this with
    | None => NoOutcome Dangling
    | Some e =>
        if has e (lexeme name) then
          Normal tt (<[this := mkEnvironment (<[lexeme name := value]> (values e))
                                             (enclosing e)]> h)
        else
          match enclosing e with
          | Some outer =>
              match depth with
              | O => NoOutcome Dangling
              | S d => assignFrom d outer name value h
              end
          | None => Abrupt (undefinedVariable name) h
          end
    end.

(** [get(name)]. *)
Fixpoint getFrom (depth : nat) (this : nat) (name : Token) : Store Value :=
  fun h =>
    match h !! this with
    | None => NoOutcome Dangling
    | Some e =>
        match values e !! lexeme name with
        | Some v => Normal v h
        | None =>
            match enclosing e with
            | Some outer =>
                match depth with
                | O => NoOutcome Dangling
                | S d => getFrom d outer name h
                end
            | None => Abrupt (undefinedVariable name) h
            end
        end
    end.

(** An environment is allocated after the one it encloses, so its own
    address bounds the length of its chain. *)
Definition assign (this : nat) (name : Token) (value : Value) : Store unit :=
  assignFrom this this name value.

Definition get (this : nat) (name : Token) : Store Value :=
  getFrom this this name.

End Env.

(** ** [class Interpreter] *)

(** The state of an interpreter: the store of environments, the next free
    address, the fields [globals] and [environment], and what [console.log]
    has written (one entry per call: the arguments it was given). *)
Record Interp := mkInterp {
  heap : Heap;
  next : nat;
  globals : nat;
  environment : nat;
  stdout : list (list Value)
}.

(** Computations of the interpreter. *)
Abbreviation Eval := (M Thrown Interp).

Definition setHeap (h : Heap) (i : Interp) : Interp :=
  mkInterp h (next i) (globals i) (environment i) (stdout i).

Definition withEnvironment (e : nat) (i : Interp) : Interp :=
  mkInterp (heap i) (next i) (globals i) e (stdout i).

(** [this.environment = e]. *)
Definition setEnvironment (e : nat) : Eval unit :=
  modify (withEnvironment e).

(** [this.environment]. *)
Definition getEnvironment : Eval nat := gets environment.

(** A method of [Environment] run on the store of the interpreter. *)
Definition onHeap {A} (m : Store A) : Eval A :=
  fun i =>
    match m (heap i) with
    | Normal a h => Normal a (setHeap h i)
    | Abrupt t h => Abrupt t (setHeap h i)
    | NoOutcome r => NoOutcome r
    end.

(** A fresh address, for an object with identity. *)
Definition fresh : Eval nat :=
  a ← gets next;
  modify (fun i => mkInterp (heap i) (S a) (globals i) (environment i) (stdout i));;
  ret a.

(** [new Environment(enclosing)]. *)
Definition newEnvironment (outer : option nat) : Eval nat :=
  a ← fresh;
  modify (fun i => setHeap (<[a := mkEnvironment ∅ outer]> (heap i)) i);;
  ret a.

(** [console.log(...args)]. *)
Definition consoleLog (args : list Value) : Eval unit :=
  modify (fun i => mkInterp (heap i) (next i) (globals i) (environment i)
                            (stdout i ++ [args])).

(** [typeof v]. *)
Inductive TypeOf := TUndefined | TObject | TBoolean | TNumber | TString.

Definition typeof (v : Value) : TypeOf :=
  match v with
  | VUndefined => TUndefined
  | VBoolean _ => TBoolean
  | VNumber _ => TNumber
  | VString _ => TString
  | VNull | VArray _ _ | VFunction _ _ _ _ _ | VBuiltin _ => TObject
  end.

(** [a === b]: by value on primitives, by identity on objects. *)
Definition strictEquals (a b : Value) : bool :=
  match a, b with
  | VUndefined, VUndefined => true
  | VNull, VNull => true
  | VBoolean x, VBoolean y => bool_decide (x = y)
  | VNumber x, VNumber y => num_eqb x y
  | VString x, VString y => str_eqb x y
  | VArray x _, VArray y _ => bool_decide (x = y)
  | VFunction x _ _ _ _, VFunction y _ _ _ _ => bool_decide (x = y)
  | VBuiltin x, VBuiltin y => bool_decide (x = y)
  | _, _ => false
  end.

(** [args[i]]. *)
Definition index (args : list Value) (i : nat) : Value :=
  match args !! i with
  | Some v => v
  | None => VUndefined
  end.

Definition isTruthy (object : Value) : bool :=
  match object with
  | VNull => false
  | VBoolean b => b
  | _ => true
  end.

Definition isEqual (a b : Value) : bool :=
  match a, b with
  | VNull, VNull => true
  | VNull, _ => false
  | _, _ => strictEquals a b
  end.

Definition checkNumberOperand (operator : Token) (operand : Value)
  : Eval jsnumber :=
  match operand with
  | VNumber n => ret n
  | _ => throw (RuntimeError operator (js "操作数必须是数字"))
  end.

Definition checkNumberOperands (operator : Token) (left right : Value)
  : Eval (jsnumber * jsnumber) :=
  match left, right with
  | VNumber l, VNumber r => ret (l, r)
  | _, _ => throw (RuntimeError operator (js "操作数必须是数字"))
  end.

(** *** The built-in functions *)

(** [Array.from({ length: len }, (_, i) => f(i))]: the host refuses a length
    above [2^32 - 1]. *)
Definition arrayFrom (len : Z) (f : Z -> Value) : Eval Value :=
  if (2 ^ 32 - 1 <? len)%Z then
    throw (HostError (mkError RangeError (js "Invalid array length")))
  else
    a ← fresh;
    ret (VArray a (f <$> seqZ 0 len)).

(** [arity()] of the four built-in objects. *)
Definition builtinArity (b : Builtin) : nat :=
  match b with
  | BuiltinPrint => 1
  | BuiltinRange => 2
  | BuiltinLength => 1
  | BuiltinType => 1
  end.

(** [call(_interpreter, args)] of the four built-in objects. *)
Definition builtinCall (b : Builtin) (args : list Value) : Eval Value :=
  match b with
  | BuiltinPrint =>
      consoleLog args;;
      ret VNull
  | BuiltinRange =>
      match index args 0, index args 1 with
      | VNumber start, VNumber end_ =>
          arrayFrom (toLength (end_ - start)%float)
                    (fun i => VNumber (start + numOfZ i)%float)
      | _, _ => throw (HostError (mkError Error (js "范围函数需要两个数字参数")))
      end
  | BuiltinLength =>
      match index args 0 with
      | VArray _ elems => ret (VNumber (numOfZ (Z.of_nat (List.length elems))))
      | VString s => ret (VNumber (numOfZ (Z.of_nat (List.length s))))
      | _ => throw (HostError (mkError Error (js "长度函数需要数组或字符串参数")))
      end
  | BuiltinType =>
      ret (VString (js match index args 0 with
                       | VArray _ _ => "数组"
                       | VNumber _ => "数字"
                       | VString _ => "字符串"
                       | VBoolean _ => "布尔"
                       | VNull => "空"
                       | VFunction _ _ _ _ _ => "函数"
                       | _ => "未知"
                       end))
  end.

(** [interface VSCallable]: what the property [call] of a value is. Reading
    a property of [null] or [undefined] throws a [TypeError] in the host;
    numbers, strings, booleans and arrays have no such property. *)
Inductive Callable :=
  | CFunction (params : list Token) (body : list Stmt) (closure : nat)
  | CBuiltin (b : Builtin).

Definition getCall (v : Value) : JSError + option Callable :=
  match v with
  | VUndefined =>
      inl (mkError TypeError
             (js "Cannot read properties of undefined (reading 'call')"))
  | VNull =>
      (* the text of the message is the one of V8 *)
      inl (mkError TypeError
             (js "Cannot read properties of null (reading 'call')"))
  | VFunction _ _ params body closure => inr (Some (CFunction params body closure))
  | VBuiltin b => inr (Some (CBuiltin b))
  | _ => inr None
  end.

Definition arity (f : Callable) : nat :=
  match f with
  | CFunction params _ _ => List.length params
  | CBuiltin b => builtinArity b
  end.

(** The [switch (expr.operator.type)] of [visitBinaryExpr], on the values
    of the two operands. *)
Definition binarySwitch (operator : Token) (left right : Value) : Eval Value :=
  match type operator with
  | MINUS =>
      lr ← checkNumberOperands operator left right;
      ret (VNumber (lr.1 - lr.2)%float)
  | PLUS =>
      match left, right with
      | VNumber l, VNumber r => ret (VNumber (l + r)%float)
      | VString l, VString r => ret (VString (l ++ r))
      | _, _ =>
          throw (RuntimeError operator (js "操作数必须都是数字或都是字符串"))
      end
  | DIVIDE =>
      lr ← checkNumberOperands operator left right;
      if num_eqb lr.2 0%float then
        throw (RuntimeError operator (js "除数不能为零"))
      else ret (VNumber (lr.1 / lr.2)%float)
  | MULTIPLY =>
      lr ← checkNumberOperands operator left right;
      ret (VNumber (lr.1 * lr.2)%float)
  | MODULO =>
      lr ← checkNumberOperands operator left right;
      ret (VNumber (rem lr.1 lr.2))
  | GREATER =>
      lr ← checkNumberOperands operator left right;
      ret (VBoolean (PrimFloat.ltb lr.2 lr.1))
  | GREATER_EQUAL =>
      lr ← checkNumberOperands operator left right;
      ret (VBoolean (PrimFloat.leb lr.2 lr.1))
  | LESS =>
      lr ← checkNumberOperands operator left right;
      ret (VBoolean (PrimFloat.ltb lr.1 lr.2))
  | LESS_EQUAL =>
      lr ← checkNumberOperands operator left right;
      ret (VBoolean (PrimFloat.leb lr.1 lr.2))
  | EQUAL => ret (VBoolean (isEqual left right))
  | NOT_EQUAL => ret (VBoolean (negb (isEqual left right)))
  | AND => ret (VBoolean (isTruthy left && isTruthy right))
  | OR => ret (VBoolean (isTruthy left || isTruthy right))
  | _ => ret VNull
  end.

(** *** The visitor

    [evaluate] and [execute] dispatch to the [visit] methods, which call
    them back on the parts of the node. The methods are written here over
    the two dispatchers; the recursion is tied below. *)
Section Visitor.

Variable evaluate : Expr -> Eval Value.
Variable execute : Stmt -> Eval unit.

(** [executeBlock(statements, environment)]. *)
Definition executeBlock (statements : list Stmt) (env : nat) : Eval unit :=
  previous ← getEnvironment;
  tryFinally (setEnvironment env;; forEach execute statements)
             (setEnvironment previous).

(** [VSFunction.call(interpreter, args)]. *)
Definition functionCall (params : list Token) (body : list Stmt) (closure : nat)
    (args : list Value) : Eval Value :=
  env ← newEnvironment (Some closure);
  forEach (fun ip => onHeap (Env.define env (lexeme ip.2) (index args ip.1)))
          (imap pair params);;
  tryCatch (executeBlock body env;; ret VNull)
           (fun returnValue =>
              match returnValue with
              | ReturnValue value => ret value
              | _ => throw returnValue
              end).

Definition call (f : Callable) (args : list Value) : Eval Value :=
  match f with
  | CFunction params body closure => functionCall params body closure args
  | CBuiltin b => builtinCall b args
  end.

Definition visitBinaryExpr (left : Expr) (operator : Token) (right : Expr)
  : Eval Value :=
  left ← evaluate left;
  right ← evaluate right;
  binarySwitch operator left right.

Definition visitGroupingExpr (expression : Expr) : Eval Value :=
  evaluate expression.

Definition visitLiteralExpr (value : Value) : Eval Value :=
  ret value.

Definition visitUnaryExpr (operator : Token) (right : Expr) : Eval Value :=
  right ← evaluate right;
  match type operator with
  | MINUS =>
      n ← checkNumberOperand operator right;
      ret (VNumber (- n)%float)
  | NOT => ret (VBoolean (negb (isTruthy right)))
  | _ => ret VNull
  end.

Definition visitVariableExpr (name : Token) : Eval Value :=
  env ← getEnvironment;
  onHeap (Env.get env name).

Definition visitAssignExpr (name : Token) (value : Expr) : Eval Value :=
  value ← evaluate value;
  env ← getEnvironment;
  onHeap (Env.assign env name value);;
  ret value.

Definition visitCallExpr (callee : Expr) (paren : Token) (args : list Expr)
  : Eval Value :=
  callee ← evaluate callee;
  args ← mapM evaluate args;
  match getCall callee with
  | inl typeError => throw (HostError typeError)
  | inr None => throw (RuntimeError paren (js "只能调用函数"))
  | inr (Some func) =>
      if bool_decide (List.length args ≠ arity func) then
        throw (RuntimeError paren
                 (js "期望 " ++ ofNat (arity func) ++ js " 个参数但得到 "
                  ++ ofNat (List.length args) ++ js " 个"))
      else call func args
  end.

Definition visitArrayExpr (elements : list Expr) : Eval Value :=
  elems ← mapM evaluate elements;
  a ← fresh;
  ret (VArray a elems).

Definition visitExpressionStmt (expression : Expr) : Eval unit :=
  evaluate expression;;
  ret tt.

Definition visitFunctionStmt (name : Token) (params : list Token)
    (body : list Stmt) : Eval unit :=
  a ← fresh;
  env ← getEnvironment;
  onHeap (Env.define env (lexeme name) (VFunction a name params body env)).

Definition visitIfStmt (condition : Expr) (thenBranch : Stmt)
    (elseBranch : option Stmt) : Eval unit :=
  c ← evaluate condition;
  if isTruthy c then execute thenBranch
  else match elseBranch with
       | Some s => execute s
       | None => ret tt
       end.

Definition visitLetStmt (name : Token) (initializer : option Expr)
  : Eval unit :=
  value ← match initializer with
          | Some e => evaluate e
          | None => ret VNull
          end;
  env ← getEnvironment;
  onHeap (Env.define env (lexeme name) value).

Definition visitReturnStmt (keyword : Token) (value : option Expr)
  : Eval unit :=
  value ← match value with
          | Some e => evaluate e
          | None => ret VNull
          end;
  throw (ReturnValue value).

(** [while (c) b]: one test, one turn of the body, and the loop again. *)
Definition visitWhileStmt (condition : Expr) (body : Stmt) : Eval unit :=
  c ← evaluate condition;
  if isTruthy c then
    execute body;;
    execute (WhileStmt condition body)
  else ret tt.

Definition visitBlockStmt (statements : list Stmt) : Eval unit :=
  current ← getEnvironment;
  env ← newEnvironment (Some current);
  executeBlock statements env.

Definition visitForStmt (variable : Token) (iterable : Expr) (body : Stmt)
  : Eval unit :=
  iterable ← evaluate iterable;
  match iterable with
  | VArray _ elems =>
      current ← getEnvironment;
      env ← newEnvironment (Some current);
      forEach (fun value =>
                 onHeap (Env.define env (lexeme variable) value);;
                 executeBlock [body] env)
              elems
  | _ => throw (RuntimeError variable (js "'对于' 循环需要一个数组"))
  end.

(** [expr.accept(this)] and [stmt.accept(this)]. *)
Definition acceptExpr (expr : Expr) : Eval Value :=
  match expr with
  | BinaryExpr l op r => visitBinaryExpr l op r
  | GroupingExpr e => visitGroupingExpr e
  | LiteralExpr v => visitLiteralExpr v
  | UnaryExpr op r => visitUnaryExpr op r
  | VariableExpr n => visitVariableExpr n
  | AssignExpr n v => visitAssignExpr n v
  | CallExpr c p a => visitCallExpr c p a
  | ArrayExpr es => visitArrayExpr es
  end.

Definition acceptStmt (stmt : Stmt) : Eval unit :=
  match stmt with
  | ExpressionStmt e => visitExpressionStmt e
  | FunctionStmt n ps b => visitFunctionStmt n ps b
  | IfStmt c t e => visitIfStmt c t e
  | LetStmt n i => visitLetStmt n i
  | ReturnStmt k v => visitReturnStmt k v
  | WhileStmt c b => visitWhileStmt c b
  | BlockStmt ss => visitBlockStmt ss
  | ForStmt v i b => visitForStmt v i b
  end.

End Visitor.

(** [evaluate(expr)] and [execute(stmt)], to a given depth of nested calls
    of the two. *)
Fixpoint evaluate (fuel : nat) (expr : Expr) : Eval Value :=
  match fuel with
  | O => stuck OutOfFuel
  | S n => acceptExpr (evaluate n) (execute n) expr
  end
with execute (fuel : nat) (stmt : Stmt) : Eval unit :=
  match fuel with
  | O => stuck OutOfFuel
  | S n => acceptStmt (evaluate n) (execute n) stmt
  end.

(** The text of a [RuntimeError] as [interpret] rethrows it. *)
Definition runtimeErrorText (token : Token) (msg : jsstring) : jsstring :=
  js "运行时错误（第 " ++ ofZ (line token) ++ js " 行，第 "
  ++ ofZ (column token) ++ js " 列）：" ++ msg.

(** [interpret(statements)]. *)
Definition interpret (fuel : nat) (statements : list Stmt) : Eval unit :=
  tryCatch (forEach (execute fuel) statements)
           (fun error =>
              match error with
              | RuntimeError token msg =>
                  throw (HostError (mkError Error (runtimeErrorText token msg)))
              | _ => throw error
              end).

(** [new Interpreter()]: the global environment, at address 0, holds the
    four built-in functions and is the current environment. *)
Definition newInterpreter : Interp :=
  mkInterp
    {[ 0 := mkEnvironment
              (<[js "类型" := VBuiltin BuiltinType]>
                 (<[js "长度" := VBuiltin BuiltinLength]>
                    (<[js "范围" := VBuiltin BuiltinRange]>
                       (<[js "输出" := VBuiltin BuiltinPrint]> ∅))))
              None ]}
    1 0 0 [].

End Interpreter.

(* ===================================================================== *)
(** * The driver: [class VScript] *)
(* ===================================================================== *)

Module Runtime.
Import Lexer Ast Interpreter.

(** A [VScript] object: its interpreter, and what [console.error] has
    written (one entry per call). *)
Record VScript := mkVScript {
  interpreter : Interp;
  stderr : list jsstring
}.

(** [new VScript()]. *)
Definition newVScript : VScript := mkVScript newInterpreter [].

(** [console.error('\x1b[31m%s\x1b[0m', text)]: the text, in red. *)
Definition consoleError (text : jsstring) (vs : VScript) : VScript :=
  mkVScript (interpreter vs)
            (stderr vs ++ [[27; 91; 51; 49; 109]%N ++ text ++ [27; 91; 48; 109]%N]).

(** What is caught in [run]: an error of the lexer or of the parser, or
    what [interpret] has thrown. *)

(** [error instanceof Error]: a [RuntimeError] and the errors of the host
    are; a [ReturnValue] is not. The result is [error.message]. *)
Definition instanceofError (error : Thrown) : option jsstring :=
  match error with
  | RuntimeError _ msg => Some msg
  | HostError e => Some (message e)
  | ReturnValue _ => None
  end.

(** The [catch] clause of [run]. *)
Definition runCatch (error : Thrown) (vs : VScript) : VScript :=
  match instanceofError error with
  | Some msg => consoleError msg vs
  | None => consoleError (js "发生未知错误") vs
  end.

(** [run(source)]. [fuel] bounds the nesting of the parser and of the
    evaluator; the result is [inl] when the bound is hit. *)
Definition run (fuel : nat) (source : jsstring) (vs : VScript) : Reason + VScript :=
  match scanTokens (Lexer.new source) with
  | Timeout => inl OutOfFuel
  | Throw e => inr (runCatch (HostError e) vs)
  | Ok tokens _ =>
      match Parser.parse fuel tokens with
      | NoOutcome r => inl r
      | Abrupt e _ => inr (runCatch (HostError e) vs)
      | Normal statements _ =>
          match interpret fuel statements (interpreter vs) with
          | NoOutcome r => inl r
          | Abrupt error i => inr (runCatch error (mkVScript i (stderr vs)))
          | Normal _ i => inr (mkVScript i (stderr vs))
          end
      end
  end.

(** [console.log(...args)] in the driver: the console is the one that the
    built-in function 输出 writes to. *)
Definition log (args : list Value) (vs : VScript) : VScript :=
  let i := interpreter vs in
  mkVScript (mkInterp (heap i) (next i) (globals i) (environment i)
                      (stdout i ++ [args]))
            (stderr vs).

(** The format ['\x1b[36m%s\x1b[0m']. *)
Definition cyan : jsstring := [27; 91; 51; 54; 109; 37; 115; 27; 91; 48; 109]%N.

(** [runFile(path)], over what [fs.readFileSync(path, 'utf8')] does: it
    returns the text of the file or throws. The second component is the
    status given to [process.exit], when it is called. *)
Definition runFile (fuel : nat) (readFileSync : jsstring -> JSError + jsstring)
    (path : jsstring) (vs : VScript) : Reason + (VScript * option Z) :=
  match readFileSync path with
  | inr source =>
      match run fuel source vs with
      | inl r => inl r
      | inr vs' => inr (vs', None)
      end
  | inl error =>
      inr (consoleError (message error)
             (consoleError (js "错误：无法读取文件 '" ++ path ++ js "'") vs),
           Some 70%Z)
  end.

(** The loop of [runPrompt()], over the lines that [rl.question] delivers
    one after the other; when the input ends, the question that is pending
    is never answered. *)
Fixpoint promptLoop (fuel : nat) (lines : list jsstring) (vs : VScript)
  : Reason + VScript :=
  match lines with
  | [] => inr vs
  | line :: rest =>
      if str_eqb line (js ".退出") then inr vs
      else
        match run fuel line vs with
        | inl r => inl r
        | inr vs' => promptLoop fuel rest vs'
        end
  end.

(** [runPrompt()]. *)
Definition runPrompt (fuel : nat) (lines : list jsstring) (vs : VScript)
  : Reason + VScript :=
  promptLoop fuel lines
    (log [VString cyan;
          VString (js "输入 " ++ [34%N] ++ js ".退出" ++ [34%N]
                   ++ js " 退出程序" ++ [10%N])]
       (log [VString cyan; VString (js "VScript 交互式环境 v0.1.0")] vs)).

(** [main()] of [index.ts], over the arguments of the command line after
    the name of the script, the file system and the lines of the input.
    The result is the console and the exit status of the process: the one
    given to [process.exit], or 0 when [main] returns. *)
Definition main (fuel : nat) (readFileSync : jsstring -> JSError + jsstring)
    (args : list jsstring) (lines : list jsstring) : Reason + (VScript * Z) :=
  let vscript := newVScript in
  if bool_decide (1 < List.length args) then
    inr (log [VString (js "用法: vscript [脚本文件]")] vscript, 64%Z)
  else
    match args with
    | [path] =>
        match runFile fuel readFileSync path vscript with
        | inl r => inl r
        | inr (vs, Some status) => inr (vs, status)
        | inr (vs, None) => inr (vs, 0%Z)
        end
    | _ =>
        match runPrompt fuel lines vscript with
        | inl r => inl r
        | inr vs => inr (vs, 0%Z)
        end
    end.

End Runtime.

(* ===================================================================== *)
(** * Notions used in the statements *)
(* ===================================================================== *)

Import Lexer Ast Interpreter Runtime.

(** The token of an operator, as the lexer makes it at line 1, column 1. *)
Definition operatorToken (ty : TokenType) : Token :=
  mkToken ty (enumValue ty) LitNull 1 1.

Definition nameToken (name : string) : Token :=
  mkToken IDENTIFIER (js name) LitNull 1 1.

(** [就是 x = 0] has run in the global scope. *)
Definition withX : Interp :=
  match execute 2 (LetStmt (nameToken "x") (Some (LiteralExpr (VNumber 0))))
                newInterpreter with
  | Normal _ s => s
  | _ => newInterpreter
  end.

(** A computation respects a relation between states when, on every path
    on which it ends, by returning or by throwing, the final state is
    related to the initial one. *)
Definition respects (R : Interp -> Interp -> Prop) {A} (m : Eval A) : Prop :=
  forall s,
    match m s with
    | Normal _ s' | Abrupt _ s' => R s s'
    | NoOutcome _ => True
    end.


(** The scopes of a chain, innermost first: the environment at [a], then
    the one it encloses, and so on to the root. Every environment was
    allocated after the one it encloses. *)
Fixpoint scopesFrom (depth : nat) (h : Heap) (a : nat) : option (list nat) :=
  match h !! a with
  | None => None
  | Some e =>
      match enclosing e with
      | None => Some [a]
      | Some outer =>
          if bool_decide (outer < a) then
            match depth with
            | O => None
            | S d =>
                match scopesFrom d h outer with
                | Some rest => Some (a :: rest)
                | None => None
                end
            end
          else None
      end
  end.

Definition scopes (h : Heap) (a : nat) : option (list nat) := scopesFrom a h a.

(** The scope at [a] contains [name]. *)
Definition contains (h : Heap) (name : jsstring) (a : nat) : bool :=
  match h !! a with
  | Some e => Env.has e name
  | None => false
  end.

(** The nearest scope of a chain that contains [name]. *)
Definition nearest (h : Heap) (chain : list nat) (name : jsstring) : option nat :=
  List.find (contains h name) chain.

(** The binding of [name] in the scope at [a] is overwritten with [v]. *)
Definition overwrite (a : nat) (name : jsstring) (v : Value) (h : Heap) : Heap :=
  match h !! a with
  | Some e => <[a := mkEnvironment (<[name := v]> (values e)) (enclosing e)]> h
  | None => h
  end.

(** [name] is bound in the scope at [a]. *)
Definition bound (h : Heap) (a : nat) (name : jsstring) : Prop :=
  exists e, h !! a = Some e /\ is_Some (values e !! name).

(** The global scope binds [x]; a child scope binds [y]. *)
Definition twoScopes : Heap :=
  {[ 0 := mkEnvironment {[ js "x" := VNumber 1 ]} None;
     1 := mkEnvironment {[ js "y" := VNumber 2 ]} (Some 0) ]}.

(** The link of the environment at [a]: whether it is there, and what it
    encloses. *)
Definition link (h : Heap) (a : nat) : option (option nat) :=
  enclosing <$> h !! a.

(** Every environment of the store lies below the next free address. *)
Definition allocated (s : Interp) : Prop :=
  forall a, is_Some (heap s !! a) -> a < next s.

(** From a store in which every environment lies below the next free
    address, a step leads to another such store, with the next free
    address no lower, in which the links of the environments that were
    there are what they were. *)
Definition grows (s s' : Interp) : Prop :=
  allocated s ->
  allocated s' /\ next s <= next s'
  /\ forall a, a < next s -> link (heap s') a = link (heap s) a.

(** A method of [Environment] that leaves every link as it was. *)
Definition keepsLinks {A} (m : Store A) : Prop :=
  forall h,
    match m h with
    | Normal _ h' | Abrupt _ h' => forall a, link h' a = link h a
    | NoOutcome _ => True
    end.

(** The loop of [VSFunction.call] over the parameters: the bindings it
    adds to [vals], the parameter at index [i] bound to [args[i]]. *)
Definition bindParams (params : list Token) (args : list Value)
    (vals : gmap jsstring Value) : gmap jsstring Value :=
  foldl (fun m ip => <[lexeme ip.2 := index args ip.1]> m) vals
        (imap pair params).

(** The second state continues the first: the same source, the cursor no
    further back. *)
Definition continues (l l' : Lexer) : Prop :=
  source l' = source l /\ (current l <= current l')%nat.

(** A loop of the lexer that has enough turns left for the rest of the
    source ends, and ends in a state that continues the initial one. *)
Definition ends (r : Res unit) (l : Lexer) : Prop :=
  match r with
  | Ok _ l' => continues l l'
  | Throw _ => True
  | Timeout => False
  end.

(** [P] holds of every element of the list. *)
Fixpoint All {A} (P : A -> Prop) (l : list A) : Prop :=
  match l with
  | [] => True
  | x :: l' => P x /\ All P l'
  end.

(** The values that the parser puts in a [Literal] node. *)
Definition primitive (v : Value) : Prop :=
  match v with
  | VNull | VBoolean _ | VNumber _ | VString _ => True
  | _ => False
  end.

(** A tree in which every [Literal] node holds a primitive value. *)
Fixpoint plainExpr (e : Expr) : Prop :=
  match e with
  | BinaryExpr l _ r => plainExpr l /\ plainExpr r
  | GroupingExpr e => plainExpr e
  | LiteralExpr v => primitive v
  | UnaryExpr _ r => plainExpr r
  | VariableExpr _ => True
  | AssignExpr _ v => plainExpr v
  | CallExpr c _ args => plainExpr c /\ All plainExpr args
  | ArrayExpr es => All plainExpr es
  end.

Fixpoint plainStmt (s : Stmt) : Prop :=
  match s with
  | ExpressionStmt e => plainExpr e
  | FunctionStmt _ _ body => All plainStmt body
  | IfStmt c t e =>
      plainExpr c /\ plainStmt t
      /\ match e with Some s' => plainStmt s' | None => True end
  | LetStmt _ i => match i with Some e => plainExpr e | None => True end
  | ReturnStmt _ v => match v with Some e => plainExpr e | None => True end
  | WhileStmt c b => plainExpr c /\ plainStmt b
  | BlockStmt ss => All plainStmt ss
  | ForStmt _ i b => plainExpr i /\ plainStmt b
  end.

(** A value all of whose function objects have their closure in the store
    and a plain body. *)
Fixpoint okValue (h : Heap) (v : Value) : Prop :=
  match v with
  | VArray _ elems => All (okValue h) elems
  | VFunction _ _ _ body closure => is_Some (h !! closure) /\ All plainStmt body
  | _ => True
  end.

Definition okThrown (h : Heap) (t : Thrown) : Prop :=
  match t with
  | ReturnValue v => okValue h v
  | _ => True
  end.

(** A well-formed store: every environment lies below the next free
    address; an enclosing environment is in the store, at a lower address;
    the values bound in the environments are well-formed. *)
Definition wfHeap (n : nat) (h : Heap) : Prop :=
  (forall a, is_Some (h !! a) -> a < n)
  /\ (forall a e o, h !! a = Some e -> enclosing e = Some o ->
                    o < a /\ is_Some (h !! o))
  /\ (forall a e k v, h !! a = Some e -> values e !! k = Some v -> okValue h v).

(** A well-formed state: a well-formed store that holds the current
    environment. *)
Definition wf (s : Interp) : Prop :=
  wfHeap (next s) (heap s) /\ is_Some (heap s !! environment s).

(** The second store has every environment of the first. *)
Definition extends (h h' : Heap) : Prop :=
  forall a, is_Some (h !! a) -> is_Some (h' !! a).

(** A property of stores that never gets lost when the store grows. *)
Definition stable (P : Heap -> Prop) : Prop :=
  forall h h', extends h h' -> P h -> P h'.

(** From a well-formed state whose store satisfies [P], the computation
    does not follow a dangling address; when it ends, the state is
    well-formed, the store has grown, and the result satisfies [Q]. *)
Definition sound {A} (P : Heap -> Prop) (m : Eval A) (Q : Heap -> A -> Prop)
  : Prop :=
  forall s,
    wf s -> P (heap s) ->
    match m s with
    | Normal a s' => wf s' /\ extends (heap s) (heap s') /\ Q (heap s') a
    | Abrupt t s' => wf s' /\ extends (heap s) (heap s') /\ okThrown (heap s') t
    | NoOutcome r => r = OutOfFuel
    end.

(** A computation that returns a primitive value or throws a
    [RuntimeError], and leaves the state as it is. *)
Definition pure (m : Eval Value) : Prop :=
  forall s,
    match m s with
    | Normal v s' => s' = s /\ primitive v
    | Abrupt t s' => s' = s /\ exists tok msg, t = RuntimeError tok msg
    | NoOutcome _ => False
    end.

(** Whatever the method of the parser returns satisfies [Q], and the
    method has no outcome only when it exceeds the depth. *)
Definition yields {A} (Q : A -> Prop) (m : Parser.Parse A) : Prop :=
  forall current,
    match m current with
    | Normal a _ => Q a
    | Abrupt _ _ => True
    | NoOutcome r => r = OutOfFuel
    end.

(** The value bound to [name] in the scope at [a], if there is one. *)
Definition binding (h : Heap) (a : nat) (name : jsstring) : option Value :=
  match h !! a with
  | Some e => values e !! name
  | None => None
  end.

(** What no computation of the evaluator undoes: the fields [globals] and
    [environment] are what they were, the next free address is no lower,
    and the output has only got longer. *)
Definition steady (s s' : Interp) : Prop :=
  globals s' = globals s /\ environment s' = environment s
  /\ next s <= next s' /\ stdout s `prefix_of` stdout s'.

(** The names bound in the scope at [a]. *)
Definition names (h : Heap) (a : nat) : option (gset jsstring) :=
  (fun e => dom (values e)) <$> h !! a.

(** Between two states, the current environment is the same, the next free
    address is no lower, and every environment that was in the store,
    except the one at [x], binds the names it did. *)
Definition namesKept (x : option nat) (s s' : Interp) : Prop :=
  environment s' = environment s /\ next s <= next s'
  /\ forall a, a < next s -> x <> Some a -> names (heap s') a = names (heap s) a.

(** The same, the current environment excepted. *)
Definition namesKeptOutside (s s' : Interp) : Prop :=
  namesKept (Some (environment s)) s s'.

(** The lexemes, in their order, are pieces of the text that follow each
    other without overlap; what lies between them is skipped. *)
Fixpoint sliced (lexemes : list jsstring) (text : jsstring) : Prop :=
  match lexemes with
  | [] => True
  | x :: rest =>
      exists skipped text', text = skipped ++ x ++ text' /\ sliced rest text'
  end.

(** The literal that fits a kind and a lexeme: the number that the host
    reads from the lexeme, for a number; the lexeme without its two quotes,
    which has no quote inside, for a string; [null] for every other kind. *)
Definition literalFits (ty : TokenType) (text : jsstring) (lit : TokenLiteral)
  : Prop :=
  match ty with
  | NUMBER => lit = LitNumber (parseFloat text)
  | STRING =>
      exists s,
        text = [34%N] ++ s ++ [34%N] /\ (34%N ∉ s) /\ lit = LitString s
  | _ => lit = LitNull
  end.

(** The lexeme that fits a kind: the string of the kind in [enum
    TokenType] for the keywords, the operators and the delimiters, with
    one exception, [!] for the kind whose string is 非; a lexeme that the
    keyword table does not have, for an identifier. No lexeme fits the
    kinds whose strings are 并 and 或. *)
Definition kindFits (ty : TokenType) (text : jsstring) : Prop :=
  match ty with
  | IDENTIFIER => mapGet keywords text = None
  | NUMBER | STRING => True
  | AND | OR | EOF => False
  | NOT => text = js "!"
  | _ => text = enumValue ty
  end.

(** A token of the source: not the end-of-input token, a lexeme that is
    not empty and fits the kind, and the literal that fits. *)
Definition sourceToken (tok : Token) : Prop :=
  type tok <> EOF /\ lexeme tok <> []
  /\ literalFits (type tok) (lexeme tok) (literal tok)
  /\ kindFits (type tok) (lexeme tok).

(** The kinds whose tokens carry no literal. *)
Definition plainKind (ty : TokenType) : Prop :=
  match ty with
  | EOF | NUMBER | STRING => False
  | _ => True
  end.

(** A loop of the lexer has moved the cursor on within the source and has
    left the tokens and the start of the lexeme as they were. *)
Definition within (l l' : Lexer) : Prop :=
  source l' = source l /\ tokens l' = tokens l /\ start l' = start l
  /\ (current l <= current l' <= List.length (source l'))%nat.

(** The lexer is in the middle of the lexeme that starts at the cursor of
    [l0]. *)
Definition opened (l0 l : Lexer) : Prop :=
  source l = source l0 /\ tokens l = tokens l0 /\ start l = current l0
  /\ (current l0 < current l <= List.length (source l0))%nat.

(** One turn of the loop of [scanTokens]: the cursor has moved on, and
    either no token was added, or one token of the source whose lexeme is
    what the cursor has passed. *)
Definition scanned (l l' : Lexer) : Prop :=
  source l' = source l
  /\ (current l < current l' <= List.length (source l))%nat
  /\ (tokens l' = tokens l
      \/ exists tok,
           tokens l' = tokens l ++ [tok]
           /\ lexeme tok = substring (source l) (current l) (current l')
           /\ sourceToken tok
           /\ line tok = lline l'
           /\ column tok = (lcolumn l' - Z.of_nat (List.length (lexeme tok)))%Z).

Definition scannedIf (l : Lexer) (r : Res unit) : Prop :=
  match r with
  | Ok _ l' => scanned l l'
  | _ => True
  end.

(** The tokens so far are tokens of the source, and their lexemes are
    pieces of what the cursor has passed. *)
Definition lexed (l : Lexer) : Prop :=
  Forall sourceToken (tokens l)
  /\ sliced (lexeme <$> tokens l) (take (current l) (source l))
  /\ (current l <= List.length (source l))%nat.

(** On a source of one line, the counters of the lexer follow the cursor:
    the line is 1 and the column is one more than the offset. *)
Definition tracks (l : Lexer) : Prop :=
  lline l = 1%Z /\ lcolumn l = (1 + Z.of_nat (current l))%Z.

Definition tracksIf (r : Res unit) : Prop :=
  match r with
  | Ok _ l' => tracks l'
  | _ => True
  end.

(** The tokens are on line 1 of the text, each at the column of the first
    unit of its lexeme, counted from 1; [offset] is where the text starts. *)
Fixpoint placed (toks : list Token) (offset : nat) (text : jsstring) : Prop :=
  match toks with
  | [] => True
  | tok :: rest =>
      exists skipped text',
        text = skipped ++ lexeme tok ++ text'
        /\ line tok = 1%Z
        /\ column tok = (1 + Z.of_nat (offset + List.length skipped))%Z
        /\ placed rest (offset + List.length skipped + List.length (lexeme tok))
                  text'
  end.

(** The tokens so far are placed in what the cursor has passed. *)
Definition lexedLine (l : Lexer) : Prop :=
  tracks l /\ placed (tokens l) 0 (take (current l) (source l))
  /\ (current l <= List.length (source l))%nat.

(** The list of tokens ends with an end-of-input token, as the lexer makes
    it. *)
Definition terminated (tokens : list Token) : Prop :=
  exists t, last tokens = Some t /\ type t = EOF.

(** An error of the parser: what [error()] makes of a token of the list
    and a message. *)
Definition syntaxError (tokens : list Token) (e : JSError) : Prop :=
  exists tok msg, tok ∈ tokens /\ e = Parser.error tok msg.

(** The method has ended, by returning or by throwing, with the cursor
    within the list; what it has returned and the cursor satisfy [Q]; what
    it has thrown is an error of the parser. *)
Definition finishes (tokens : list Token) {A} (o : Outcome JSError nat A)
    (Q : A -> nat -> Prop) : Prop :=
  match o with
  | Normal a c => c < List.length tokens /\ Q a c
  | Abrupt e c => c < List.length tokens /\ syntaxError tokens e
  | NoOutcome _ => False
  end.

(** Started with the cursor at [k] or further, within the list, the method
    finishes. *)
Definition advances (tokens : list Token) {A} (k : nat) (m : Parser.Parse A)
    (Q : A -> nat -> Prop) : Prop :=
  forall c, k <= c -> c < List.length tokens -> finishes tokens (m c) Q.

(** The cursor is at [j] or further. *)
Definition reaches {A} (j : nat) (_ : A) (c : nat) : Prop := j <= c.

(** A method of the expression levels with [f] levels of nesting left: it
    finishes, one token further at least, from every cursor that leaves
    no more than [f] tokens. *)
Definition progresses (tokens : list Token) (f : nat) {A} (m : Parser.Parse A)
  : Prop :=
  forall j, List.length tokens <= f + j -> advances tokens j m (reaches (S j)).

(** The same for the methods of the statements, which need one level more. *)
Definition progressesStmt (tokens : list Token) (f : nat) {A}
    (m : Parser.Parse A) : Prop :=
  forall j, List.length tokens < f + j -> advances tokens j m (reaches (S j)).

(** The three errors of the lexer. *)
Definition lexicalError (e : JSError) : Prop :=
  errClass e = Error
  /\ ((exists c ln col,
         message e = js "意外的字符 '" ++ c ++ js "' 在第 " ++ ofZ ln
                     ++ js " 行，第 " ++ ofZ col ++ js " 列")
      \/ (exists ln, message e = js "未闭合的字符串在第 " ++ ofZ ln ++ js " 行")
      \/ (exists ln, message e = js "未闭合的多行注释在第 " ++ ofZ ln ++ js " 行")).

Definition throwsLexical {A} (r : Res A) : Prop :=
  match r with
  | Throw e => lexicalError e
  | _ => True
  end.

(** A statement without a [While] node in it. *)
Fixpoint noWhile (s : Stmt) : Prop :=
  match s with
  | WhileStmt _ _ => False
  | FunctionStmt _ _ body => All noWhile body
  | IfStmt _ t e =>
      noWhile t /\ match e with Some s' => noWhile s' | None => True end
  | BlockStmt ss => All noWhile ss
  | ForStmt _ _ b => noWhile b
  | ExpressionStmt _ | LetStmt _ _ | ReturnStmt _ _ => True
  end.

(** The number of line feeds in a text. *)
Definition lineFeeds (text : jsstring) : nat :=
  List.length (List.filter (N.eqb 10) text).

(** The line counter of the lexer is one more than the number of line
    feeds that the cursor has passed. *)
Definition counts (l : Lexer) : Prop :=
  lline l = (1 + Z.of_nat (lineFeeds (take (current l) (source l))))%Z.

Definition countsIf (r : Res unit) : Prop :=
  match r with
  | Ok _ l' => counts l'
  | _ => True
  end.

(** The line of each token is one more than the number of line feeds of
    the text up to the end of its lexeme; [before] is the text that comes
    before [text]. *)
Fixpoint lined (toks : list Token) (before text : jsstring) : Prop :=
  match toks with
  | [] => True
  | tok :: rest =>
      exists skipped text',
        text = skipped ++ lexeme tok ++ text'
        /\ line tok
           = (1 + Z.of_nat (lineFeeds (before ++ skipped ++ lexeme tok)))%Z
        /\ lined rest (before ++ skipped ++ lexeme tok) text'
  end.

(** The tokens so far have their lines, in what the cursor has passed. *)
Definition lexedLines (l : Lexer) : Prop :=
  counts l /\ lined (tokens l) [] (take (current l) (source l))
  /\ (current l <= List.length (source l))%nat.

(** Every operator token of the tree, of a binary or of a unary node,
    satisfies [P]. *)
Fixpoint operatorsExpr (P : Token -> Prop) (e : Expr) : Prop :=
  match e with
  | BinaryExpr l op r => P op /\ operatorsExpr P l /\ operatorsExpr P r
  | GroupingExpr e => operatorsExpr P e
  | LiteralExpr _ | VariableExpr _ => True
  | UnaryExpr op r => P op /\ operatorsExpr P r
  | AssignExpr _ v => operatorsExpr P v
  | CallExpr c _ args => operatorsExpr P c /\ All (operatorsExpr P) args
  | ArrayExpr es => All (operatorsExpr P) es
  end.

Fixpoint operatorsStmt (P : Token -> Prop) (s : Stmt) : Prop :=
  match s with
  | ExpressionStmt e => operatorsExpr P e
  | FunctionStmt _ _ body => All (operatorsStmt P) body
  | IfStmt c t e =>
      operatorsExpr P c /\ operatorsStmt P t
      /\ match e with Some s' => operatorsStmt P s' | None => True end
  | LetStmt _ i => match i with Some e => operatorsExpr P e | None => True end
  | ReturnStmt _ v => match v with Some e => operatorsExpr P e | None => True end
  | WhileStmt c b => operatorsExpr P c /\ operatorsStmt P b
  | BlockStmt ss => All (operatorsStmt P) ss
  | ForStmt _ i b => operatorsExpr P i /\ operatorsStmt P b
  end.

(** The token is not of the kinds [AND] and [OR]. *)
Definition notLogical (t : Token) : Prop := type t <> AND /\ type t <> OR.

(** Truthiness, in the words of the specification: 空 is false, a boolean
    value is itself, every other value (a number, [0] included, a string,
    the empty one included, an array, a function) is true. *)
Definition truthy (v : Value) : bool :=
  match v with
  | VNull => false
  | VBoolean b => b
  | VUndefined | VNumber _ | VString _ | VArray _ _
  | VFunction _ _ _ _ _ | VBuiltin _ => true
  end.

(** The errors of the host that leave the evaluator: the two plain errors
    and the [RangeError] of the built-in functions 范围 and 长度, and the
    [TypeError] of the read of the property [call] of 空 or of
    [undefined]. *)
Definition hostFailure (e : JSError) : Prop :=
  e = mkError Error (js "范围函数需要两个数字参数")
  \/ e = mkError Error (js "长度函数需要数组或字符串参数")
  \/ e = mkError RangeError (js "Invalid array length")
  \/ e = mkError TypeError (js "Cannot read properties of null (reading 'call')")
  \/ e = mkError TypeError
           (js "Cannot read properties of undefined (reading 'call')").

(** The messages of the [RuntimeError]s: an operand of the wrong type, a
    division by zero, an undefined variable, a callee that is no function,
    a wrong number of arguments, a loop over what is no array. *)
Definition runtimeFailure (token : Token) (msg : jsstring) : Prop :=
  msg = js "操作数必须是数字"
  \/ msg = js "操作数必须都是数字或都是字符串"
  \/ msg = js "除数不能为零"
  \/ msg = js "未定义的变量 '" ++ lexeme token ++ js "'"
  \/ msg = js "只能调用函数"
  \/ (exists n m : nat,
        m <> n
        /\ msg = js "期望 " ++ ofNat n ++ js " 个参数但得到 " ++ ofNat m ++ js " 个")
  \/ msg = js "'对于' 循环需要一个数组".

(** What the evaluator throws: a [RuntimeError] with one of these messages,
    the [ReturnValue] of a 返回 statement, or one of these errors of the
    host. *)
Definition evaluatorThrows (t : Thrown) : Prop :=
  match t with
  | RuntimeError token msg => runtimeFailure token msg
  | ReturnValue _ => True
  | HostError e => hostFailure e
  end.

(** A computation throws nothing else. *)
Definition throwsOnly (T : Thrown -> Prop) {A} (m : Eval A) : Prop :=
  forall s t s', m s = Abrupt t s' -> T t.

(** The global scope binds [x] to 1 and [f] to the value of
    [函数 f() { 返回 x }]; a child scope, at 2, binds another [x], to 2. *)
Definition shadowing : Heap :=
  {[ 0 := mkEnvironment
            {[ js "x" := VNumber 1;
               js "f" := VFunction 1 (nameToken "f") []
                           [ReturnStmt (operatorToken RETURN)
                              (Some (VariableExpr (nameToken "x")))] 0 ]}
            None;
     2 := mkEnvironment {[ js "x" := VNumber 2 ]} (Some 0) ]}.

(* ===================================================================== *)
(** * Properties *)
(* ===================================================================== *)

(** String literals are compared by computation ([vm_compute]), never by
    unification. *)
Opaque js ofZ.

(** ** The lexer *)

(** The keyword table answers with the kind of each of its ten strings. *)
Lemma keywords_get_listed (k : TokenType) :
  k ∈ [FUNCTION; IF; ELSE; RETURN; FOR; IN; LET; TRUE; FALSE; NULL] ->
  mapGet keywords (enumValue k) = Some k.
Proof.
  rewrite !elem_of_cons, elem_of_nil.
  intros H; repeat (destruct H as [-> | H]; [vm_compute; reflexivity |]).
  contradiction.
Qed.

(** The strings of the three logical operators are not in the table. *)
Lemma keywords_get_logical (k : TokenType) :
  k ∈ [AND; OR; NOT] -> mapGet keywords (enumValue k) = None.
Proof.
  rewrite !elem_of_cons, elem_of_nil.
  intros H; repeat (destruct H as [-> | H]; [vm_compute; reflexivity |]).
  contradiction.
Qed.

(** C1, on the code: the lexemes 并, 或 and 非 are scanned as identifiers,
    not as the logical-and, logical-or and logical-not kinds. Each of the
    three sources below is one identifier-shaped lexeme; the token list is
    that lexeme with kind [IDENTIFIER], then the end-of-input token. *)
Theorem logical_keywords_scanned_as_identifiers :
  (exists l, scanTokens (Lexer.new (js "并")) =
             Ok [mkToken IDENTIFIER (js "并") LitNull 1 1;
                 mkToken EOF [] LitNull 1 2] l)
  /\ (exists l, scanTokens (Lexer.new (js "或")) =
                Ok [mkToken IDENTIFIER (js "或") LitNull 1 1;
                    mkToken EOF [] LitNull 1 2] l)
  /\ (exists l, scanTokens (Lexer.new (js "非")) =
                Ok [mkToken IDENTIFIER (js "非") LitNull 1 1;
                    mkToken EOF [] LitNull 1 2] l)
  /\ enumValue AND = js "并" /\ enumValue OR = js "或" /\ enumValue NOT = js "非".
Proof.
  repeat split; try (eexists; vm_compute; reflexivity).
Qed.

Lemma advanceWhile_keeps p turns :
  forall l l',
    advanceWhile p turns l = Ok tt l' ->
    tokens l' = tokens l /\ start l' = start l /\ source l' = source l.
Proof.
  induction turns as [| n IH]; intros l l'; cbn [advanceWhile];
    destruct (p (peek l)); try discriminate;
    try (intros [= <-]; repeat split).
  intros H. apply IH in H. exact H.
Qed.

(** The token that [identifier()] adds: its kind is the one the keyword
    table gives for its lexeme, and [IDENTIFIER] when the table has no
    entry for it. *)
Lemma identifier_kind turns l l' :
  identifier turns l = Ok tt l' ->
  exists tok,
    tokens l' = tokens l ++ [tok]
    /\ lexeme tok = substring (source l) (start l) (current l')
    /\ type tok = match mapGet keywords (lexeme tok) with
                  | Some k => k
                  | None => IDENTIFIER
                  end.
Proof.
  unfold identifier.
  destruct (advanceWhile isAlphaNumeric turns l) as [[] l1 | e |] eqn:H;
    try discriminate.
  apply advanceWhile_keeps in H as (Ht & Hst & Hsrc).
  intros [= <-]. eexists. cbn [addToken tokens current].
  rewrite Ht, Hst, Hsrc. split; [reflexivity |]. split; reflexivity.
Qed.

(** An identifier-shaped lexeme that is one of the ten strings of the
    table gets that keyword's kind; one that is 并, 或 or 非 gets the kind
    [IDENTIFIER]. *)
Lemma identifier_kind_by_lexeme turns l l' tok :
  identifier turns l = Ok tt l' ->
  last (tokens l') = Some tok ->
  (forall k, k ∈ [FUNCTION; IF; ELSE; RETURN; FOR; IN; LET; TRUE; FALSE; NULL] ->
             lexeme tok = enumValue k -> type tok = k)
  /\ (forall k, k ∈ [AND; OR; NOT] ->
                lexeme tok = enumValue k -> type tok = IDENTIFIER).
Proof.
  intros H Hlast. apply identifier_kind in H as (tok' & Ht & _ & Hty).
  rewrite Ht, last_snoc in Hlast. injection Hlast as ->.
  split; intros k Hk Hlex; rewrite Hty, Hlex.
  - rewrite keywords_get_listed by assumption. reflexivity.
  - rewrite keywords_get_logical by assumption. reflexivity.
Qed.

(** ** The lexer ends on every source *)

Lemma continues_refl l : continues l l.
Proof. split; [reflexivity | lia]. Qed.

Lemma continues_trans l1 l2 l3 :
  continues l1 l2 -> continues l2 l3 -> continues l1 l3.
Proof. intros [H1 H2] [H3 H4]. split; [congruence | lia]. Qed.

Lemma isAtEnd_false l :
  isAtEnd l = false -> (current l < List.length (source l))%nat.
Proof. unfold isAtEnd. intros H. apply bool_decide_eq_false in H. lia. Qed.

Lemma peek_end l : isAtEnd l = true -> peek l = [0%N].
Proof. unfold peek. intros ->. reflexivity. Qed.

Lemma advance_continues l : continues l (snd (advance l)).
Proof. split; [reflexivity | cbn; lia]. Qed.

Lemma ends_later r l l1 :
  source l1 = source l -> (current l <= current l1)%nat -> ends r l1 -> ends r l.
Proof.
  intros Hs Hc. destruct r as [u l' | e |]; cbn; trivial.
  intros [E H]. split; [congruence | lia].
Qed.

Lemma advanceWhile_ends p turns :
  p [0%N] = false ->
  forall l, (List.length (source l) - current l <= turns)%nat ->
            ends (advanceWhile p turns l) l.
Proof.
  intros Hp. induction turns as [| n IH]; intros l Hl; cbn [advanceWhile];
    destruct (p (peek l)) eqn:Hpeek; try apply continues_refl;
    (destruct (isAtEnd l) eqn:Hend;
     [rewrite (peek_end Hend) in Hpeek; congruence |]);
    apply isAtEnd_false in Hend; [cbn; lia |].
  apply (@ends_later _ l (snd (advance l))); [reflexivity | cbn; lia |].
  apply IH. cbn. lia.
Qed.


Lemma lineComment_ends turns :
  forall l, (List.length (source l) - current l <= turns)%nat ->
            ends (lineComment turns l) l.
Proof.
  induction turns as [| n IH]; intros l Hl; cbn [lineComment];
    destruct (negb (str_eqb (peek l) [10%N])); cbn [andb];
    try apply continues_refl;
    destruct (isAtEnd l) eqn:Hend; cbn [negb]; try apply continues_refl;
    apply isAtEnd_false in Hend; [cbn; lia |].
  apply (@ends_later _ l (snd (advance l))); [reflexivity | cbn; lia |].
  apply IH. cbn. lia.
Qed.

Lemma stringLoop_ends turns :
  forall l, (List.length (source l) - current l <= turns)%nat ->
            ends (stringLoop turns l) l.
Proof.
  induction turns as [| n IH]; intros l Hl; cbn [stringLoop];
    destruct (negb (str_eqb (peek l) [34%N])); cbn [andb];
    try apply continues_refl;
    destruct (isAtEnd l) eqn:Hend; cbn [negb]; try apply continues_refl;
    apply isAtEnd_false in Hend; [cbn; lia |].
  match goal with
  | |- ends (stringLoop n (snd (advance ?l1))) l =>
      assert (Hs : source l1 = source l /\ current l1 = current l)
        by (destruct (str_eqb (peek l) [10%N]); split; reflexivity);
      destruct Hs as [Hs Hc];
      apply (@ends_later _ l (snd (advance l1)));
        [exact Hs | cbn; lia | apply IH; cbn; rewrite Hs, Hc; lia]
  end.
Qed.

Lemma multilineComment_ends turns :
  forall l, (List.length (source l) - current l <= turns)%nat ->
            ends (multilineComment turns l) l.
Proof.
  induction turns as [| n IH]; intros l Hl; cbn [multilineComment];
    destruct (isAtEnd l) eqn:Hend; cbn [negb]; try exact I;
    apply isAtEnd_false in Hend; [cbn; lia |].
  destruct (str_eqb (peek l) (js "*") && str_eqb (peekNext l) (js "/")).
  - split; [reflexivity | cbn; lia].
  - match goal with
    | |- ends (multilineComment n (snd (advance ?l1))) l =>
        assert (Hs : source l1 = source l /\ current l1 = current l)
          by (destruct (str_eqb (peek l) [10%N]); split; reflexivity);
        destruct Hs as [Hs Hc];
        apply (@ends_later _ l (snd (advance l1)));
          [exact Hs | cbn; lia | apply IH; cbn; rewrite Hs, Hc; lia]
    end.
Qed.

Lemma isAlphaNumeric_sentinel : isAlphaNumeric [0%N] = false.
Proof. vm_compute. reflexivity. Qed.

Lemma isDigit_sentinel : isDigit [0%N] = false.
Proof. vm_compute. reflexivity. Qed.

Lemma identifier_ends turns l :
  (List.length (source l) - current l <= turns)%nat -> ends (identifier turns l) l.
Proof.
  intros Hl. unfold identifier.
  pose proof (advanceWhile_ends isAlphaNumeric_sentinel Hl) as H.
  destruct (advanceWhile isAlphaNumeric turns l); cbn in *; trivial.
Qed.

Lemma number_ends turns l :
  (List.length (source l) - current l <= turns)%nat -> ends (number turns l) l.
Proof.
  intros Hl. unfold number.
  pose proof (advanceWhile_ends isDigit_sentinel Hl) as H.
  destruct (advanceWhile isDigit turns l) as [u l1 | e |]; cbn [ends] in *;
    trivial.
  destruct H as [Hs Hc].
  destruct (str_eqb (peek l1) (js ".") && isDigit (peekNext l1)).
  - assert (H2 : ends (advanceWhile isDigit turns (snd (advance l1)))
                      (snd (advance l1)))
      by (apply advanceWhile_ends; [exact isDigit_sentinel | cbn; rewrite Hs; lia]).
    destruct (advanceWhile isDigit turns (snd (advance l1))); cbn in *; trivial.
    destruct H2 as [E H]. cbn in E, H. split; cbn; [congruence | lia].
  - split; [exact Hs | exact Hc].
Qed.

Lemma Lstring_ends turns l :
  (List.length (source l) - current l <= turns)%nat -> ends (Lstring turns l) l.
Proof.
  intros Hl. unfold Lstring.
  pose proof (stringLoop_ends Hl) as H.
  destruct (stringLoop turns l) as [u l1 | e |]; cbn [ends] in *; trivial.
  destruct (isAtEnd l1); [exact I |].
  destruct H as [Hs Hc]. split; [exact Hs | cbn; lia].
Qed.

Lemma Lmatch_continues c l : continues l (snd (Lmatch c l)).
Proof.
  unfold Lmatch. destruct (isAtEnd l); [apply continues_refl |].
  destruct (negb _); [apply continues_refl |].
  split; [reflexivity | cbn; lia].
Qed.

Lemma addEither_ends a b l : ends (addEither a b l) l.
Proof.
  unfold addEither, Lmatch.
  destruct (isAtEnd l); [split; [reflexivity | cbn; lia] |].
  destruct (negb _); split; first [reflexivity | cbn; lia].
Qed.

(** One token: [scanToken] ends, and when it returns, the cursor has
    moved on. *)
Lemma scanToken_ends l :
  ends (scanToken (List.length (source l)) l) (snd (advance l)).
Proof.
  unfold scanToken.
  destruct (advance l) as [c l1] eqn:E. cbn [snd].
  assert (Hturns : (List.length (source l1) - current l1
                    <= List.length (source l))%nat)
    by (unfold advance in E; injection E as _ <-; cbn; lia).
  clear E.
  repeat match goal with
         | |- ends (if ?c then _ else _) _ => destruct c
         end;
    try (split; [reflexivity | cbn; lia]);
    try apply addEither_ends;
    try (apply Lstring_ends; exact Hturns);
    try (apply number_ends; exact Hturns);
    try (apply identifier_ends; exact Hturns);
    try exact I.
  destruct (Lmatch (js "/") l1) as [m l2] eqn:E1.
  pose proof (Lmatch_continues (js "/") l1) as C1. rewrite E1 in C1.
  destruct C1 as [Hs1 Hc1]. cbn [snd] in Hs1, Hc1.
  destruct m.
  - apply (@ends_later _ l1 l2); [exact Hs1 | exact Hc1 |].
    apply lineComment_ends. rewrite Hs1. cbn. lia.
  - destruct (Lmatch (js "*") l2) as [m2 l3] eqn:E2.
    pose proof (Lmatch_continues (js "*") l2) as C2. rewrite E2 in C2.
    destruct C2 as [Hs2 Hc2]. cbn [snd] in Hs2, Hc2.
    destruct m2.
    + apply (@ends_later _ l1 l3); [congruence | lia |].
      apply multilineComment_ends. rewrite Hs2, Hs1. cbn. lia.
    + split; cbn; [congruence | lia].
Qed.

Lemma scanLoop_ends turns :
  forall l, (List.length (source l) - current l <= turns)%nat ->
            ends (scanLoop turns l) l.
Proof.
  induction turns as [| n IH]; intros l Hl; cbn [scanLoop];
    destruct (isAtEnd l) eqn:Hend; cbn [negb]; try apply continues_refl;
    apply isAtEnd_false in Hend; [cbn; lia |].
  pose proof (scanToken_ends (setStart (current l) l)) as H.
  cbn [setStart source] in H |- *.
  destruct (scanToken (List.length (source l)) (setStart (current l) l))
    as [u l1 | e |]; cbn [ends] in *; trivial.
  destruct H as [Hs Hc]. cbn in Hs, Hc.
  apply (@ends_later _ l l1); [exact Hs | lia |].
  apply IH. rewrite Hs. lia.
Qed.

(** [scanTokens()] ends on every source: with its tokens, or with an error. *)
Lemma scanTokens_ends src : scanTokens (Lexer.new src) <> Timeout.
Proof.
  unfold scanTokens.
  pose proof (@scanLoop_ends (List.length (source (Lexer.new src)))
                (Lexer.new src) ltac:(cbn; lia)) as H.
  destruct (scanLoop _ _); cbn in *; [discriminate | discriminate | contradiction].
Qed.

(** ** The evaluator: binary operators *)

(** Unfolding of the monad operations. *)
Ltac unfold_monad :=
  unfold mbind, M_bind, mret, M_ret, bind, ret, throw, stuck, gets, modify in *.

(** One step of [evaluate] on a binary node: both operands are evaluated,
    the left one first, before the operator is looked at. *)
Lemma evaluate_binary_operands fuel l op r s :
  evaluate (S fuel) (BinaryExpr l op r) s =
  match evaluate fuel l s with
  | Normal L s1 =>
      match evaluate fuel r s1 with
      | Normal R s2 => binarySwitch op L R s2
      | Abrupt t s2 => Abrupt t s2
      | NoOutcome why => NoOutcome why
      end
  | Abrupt t s1 => Abrupt t s1
  | NoOutcome why => NoOutcome why
  end.
Proof.
  cbn [evaluate acceptExpr]. unfold visitBinaryExpr. unfold_monad.
  destruct (evaluate fuel l s) as [L s1 | t s1 | why]; reflexivity.
Qed.

(** C6: a binary node whose operator is 并 or 或 evaluates its left operand,
    then its right operand in the state the left one has left, whatever
    the left value is; the right operand's effects (its final state, or
    what it throws) are those of the whole node, and the value is the
    boolean [truthy(L) && truthy(R)], resp. [truthy(L) || truthy(R)],
    where 空 and 假 are the only values that are not truthy. *)
Theorem logical_operators_evaluate_both_operands fuel l op r s L s1 :
  type op = AND \/ type op = OR ->
  evaluate fuel l s = Normal L s1 ->
  evaluate (S fuel) (BinaryExpr l op r) s =
  match evaluate fuel r s1 with
  | Normal R s2 =>
      Normal (VBoolean (if bool_decide (type op = AND)
                        then truthy L && truthy R
                        else truthy L || truthy R)) s2
  | Abrupt t s2 => Abrupt t s2
  | NoOutcome why => NoOutcome why
  end
  /\ (forall v, truthy v = false <-> v = VNull \/ v = VBoolean false).
Proof.
  intros Hop Hl. split.
  - rewrite evaluate_binary_operands, Hl.
    destruct (evaluate fuel r s1) as [R s2 | t s2 | why]; try reflexivity.
    assert (Htruthy : forall v, isTruthy v = truthy v)
      by (intros []; reflexivity).
    unfold binarySwitch. unfold_monad.
    destruct Hop as [-> | ->]; rewrite !Htruthy; reflexivity.
  - intros v. split.
    + destruct v as [| | [] | | | | |]; cbn [truthy]; intros H;
        try discriminate; auto.
    + intros [-> | ->]; reflexivity.
Qed.

(** [假 并 (x = 1)]: the left operand decides the result, and the assignment
    in the right operand is carried out all the same. [0 或 (x = 空)]: the
    number [0] is truthy, and the assignment is carried out. The empty
    string and [0] are truthy, 空 is not. *)
Lemma logical_operators_evaluate_both_operands_witness :
  (exists s2,
     evaluate 3 (BinaryExpr (LiteralExpr (VBoolean false)) (operatorToken AND)
                   (AssignExpr (nameToken "x") (LiteralExpr (VNumber 1))))
              withX
     = Normal (VBoolean false) s2
     /\ Env.get 0 (nameToken "x") (heap withX) = Normal (VNumber 0) (heap withX)
     /\ Env.get 0 (nameToken "x") (heap s2) = Normal (VNumber 1) (heap s2))
  /\ (exists s2,
        evaluate 3 (BinaryExpr (LiteralExpr (VNumber 0)) (operatorToken OR)
                      (AssignExpr (nameToken "x") (LiteralExpr VNull)))
                 withX
        = Normal (VBoolean true) s2
        /\ Env.get 0 (nameToken "x") (heap s2) = Normal VNull (heap s2))
  /\ evaluate 2 (BinaryExpr (LiteralExpr (VString [])) (operatorToken AND)
                   (LiteralExpr (VNumber 0))) newInterpreter
     = Normal (VBoolean true) newInterpreter
  /\ evaluate 2 (BinaryExpr (LiteralExpr (VBoolean true)) (operatorToken AND)
                   (LiteralExpr VNull)) newInterpreter
     = Normal (VBoolean false) newInterpreter
  /\ evaluate 2 (BinaryExpr (LiteralExpr VNull) (operatorToken OR)
                   (LiteralExpr (VBoolean false))) newInterpreter
     = Normal (VBoolean false) newInterpreter.
Proof.
  split; [| split; [| split; [| split]]].
  - eexists. split.
    + rewrite (proj1 (@logical_operators_evaluate_both_operands 2
                 (LiteralExpr (VBoolean false)) (operatorToken AND)
                 (AssignExpr (nameToken "x") (LiteralExpr (VNumber 1)))
                 withX (VBoolean false) withX (or_introl eq_refl) eq_refl)).
      vm_compute. reflexivity.
    + split; vm_compute; reflexivity.
  - eexists. split.
    + rewrite (proj1 (@logical_operators_evaluate_both_operands 2
                 (LiteralExpr (VNumber 0)) (operatorToken OR)
                 (AssignExpr (nameToken "x") (LiteralExpr VNull))
                 withX (VNumber 0) withX (or_intror eq_refl) eq_refl)).
      vm_compute. reflexivity.
    + vm_compute. reflexivity.
  - rewrite (proj1 (@logical_operators_evaluate_both_operands 1
               (LiteralExpr (VString [])) (operatorToken AND)
               (LiteralExpr (VNumber 0))
               newInterpreter (VString []) newInterpreter
               (or_introl eq_refl) eq_refl)).
    reflexivity.
  - rewrite (proj1 (@logical_operators_evaluate_both_operands 1
               (LiteralExpr (VBoolean true)) (operatorToken AND)
               (LiteralExpr VNull)
               newInterpreter (VBoolean true) newInterpreter
               (or_introl eq_refl) eq_refl)).
    reflexivity.
  - rewrite (proj1 (@logical_operators_evaluate_both_operands 1
               (LiteralExpr VNull) (operatorToken OR)
               (LiteralExpr (VBoolean false))
               newInterpreter VNull newInterpreter
               (or_intror eq_refl) eq_refl)).
    reflexivity.
Defined.

(** C10: on number operands, [%] has no zero-divisor guard: the node
    evaluates to the host's remainder for every divisor, zero included;
    the guard that throws 除数不能为零 belongs to [/] alone. *)
Theorem modulo_has_no_zero_divisor_guard fuel l op r s a s1 b s2 :
  evaluate fuel l s = Normal (VNumber a) s1 ->
  evaluate fuel r s1 = Normal (VNumber b) s2 ->
  (type op = MODULO ->
   evaluate (S fuel) (BinaryExpr l op r) s = Normal (VNumber (rem a b)) s2)
  /\ (type op = DIVIDE ->
      evaluate (S fuel) (BinaryExpr l op r) s =
      if num_eqb b 0%float
      then Abrupt (RuntimeError op (js "除数不能为零")) s2
      else Normal (VNumber (a / b)%float) s2).
Proof.
  intros Hl Hr. rewrite evaluate_binary_operands, Hl, Hr.
  unfold binarySwitch.
  split; intros ->; [reflexivity |].
  unfold checkNumberOperands. unfold_monad. cbv beta iota. cbn [fst snd].
  destruct (num_eqb b 0); reflexivity.
Qed.

(** [5 % 0] is [NaN], and [5 / 0] is the error. *)
Lemma modulo_has_no_zero_divisor_guard_witness :
  evaluate 2 (BinaryExpr (LiteralExpr (VNumber 5)) (operatorToken MODULO)
                (LiteralExpr (VNumber 0))) newInterpreter
  = Normal (VNumber nan) newInterpreter
  /\ evaluate 2 (BinaryExpr (LiteralExpr (VNumber 5)) (operatorToken DIVIDE)
                   (LiteralExpr (VNumber 0))) newInterpreter
     = Abrupt (RuntimeError (operatorToken DIVIDE) (js "除数不能为零"))
              newInterpreter.
Proof.
  split.
  - apply (proj1 (@modulo_has_no_zero_divisor_guard 1
             (LiteralExpr (VNumber 5)) (operatorToken MODULO)
             (LiteralExpr (VNumber 0)) newInterpreter 5%float newInterpreter
             0%float newInterpreter eq_refl eq_refl)).
    reflexivity.
  - apply (proj2 (@modulo_has_no_zero_divisor_guard 1
             (LiteralExpr (VNumber 5)) (operatorToken DIVIDE)
             (LiteralExpr (VNumber 0)) newInterpreter 5%float newInterpreter
             0%float newInterpreter eq_refl eq_refl)).
    reflexivity.
Defined.

(** ** The evaluator: calls *)

(** One step of [evaluate] on a call node: the callee, then the arguments
    from left to right, then the checks. *)
Lemma evaluate_call fuel callee paren args s :
  evaluate (S fuel) (CallExpr callee paren args) s =
  match evaluate fuel callee s with
  | Normal f s1 =>
      match mapM (evaluate fuel) args s1 with
      | Normal argv s2 =>
          match getCall f with
          | inl typeError => Abrupt (HostError typeError) s2
          | inr None => Abrupt (RuntimeError paren (js "只能调用函数")) s2
          | inr (Some func) =>
              if bool_decide (List.length argv ≠ arity func) then
                Abrupt (RuntimeError paren
                          (js "期望 " ++ ofNat (arity func) ++ js " 个参数但得到 "
                           ++ ofNat (List.length argv) ++ js " 个")) s2
              else call (execute fuel) func argv s2
          end
      | Abrupt t s2 => Abrupt t s2
      | NoOutcome why => NoOutcome why
      end
  | Abrupt t s1 => Abrupt t s1
  | NoOutcome why => NoOutcome why
  end.
Proof.
  cbn [evaluate acceptExpr]. unfold visitCallExpr. unfold_monad.
  destruct (evaluate fuel callee s) as [f s1 | t s1 | why]; try reflexivity.
  destruct (mapM (evaluate fuel) args s1) as [argv s2 | t s2 | why];
    try reflexivity.
  destruct (getCall f) as [e | [func |]]; try reflexivity.
  destruct (bool_decide _); reflexivity.
Qed.

(** A call node whose callee is a function value, with as many arguments
    as the function has parameters, is a call of that function value. *)
Lemma evaluate_call_function fuel callee paren args s a name params body closure
    s1 argv s2 :
  evaluate fuel callee s = Normal (VFunction a name params body closure) s1 ->
  mapM (evaluate fuel) args s1 = Normal argv s2 ->
  List.length argv = List.length params ->
  evaluate (S fuel) (CallExpr callee paren args) s =
  functionCall (execute fuel) params body closure argv s2.
Proof.
  intros Hf Hargs Hlen. rewrite evaluate_call, Hf, Hargs. cbn [getCall arity].
  rewrite bool_decide_eq_false_2 by (intros H; apply H; exact Hlen).
  reflexivity.
Qed.

(** A call node whose callee is a built-in function, with as many
    arguments as its arity, is a call of that built-in function. *)
Lemma evaluate_call_builtin fuel callee paren args s b s1 argv s2 :
  evaluate fuel callee s = Normal (VBuiltin b) s1 ->
  mapM (evaluate fuel) args s1 = Normal argv s2 ->
  List.length argv = builtinArity b ->
  evaluate (S fuel) (CallExpr callee paren args) s = builtinCall b argv s2.
Proof.
  intros Hf Hargs Hlen. rewrite evaluate_call, Hf, Hargs. cbn [getCall arity].
  rewrite bool_decide_eq_false_2 by (intros H; apply H; exact Hlen).
  reflexivity.
Qed.

(** A callee that is a number, a string, a boolean or an array is refused
    with 只能调用函数 at the closing parenthesis. *)
Lemma call_of_non_callable fuel callee paren args s f s1 argv s2 :
  evaluate fuel callee s = Normal f s1 ->
  mapM (evaluate fuel) args s1 = Normal argv s2 ->
  match f with
  | VBoolean _ | VNumber _ | VString _ | VArray _ _ => True
  | _ => False
  end ->
  evaluate (S fuel) (CallExpr callee paren args) s =
  Abrupt (RuntimeError paren (js "只能调用函数")) s2.
Proof.
  intros Hf Hargs Hkind. rewrite evaluate_call, Hf, Hargs.
  destruct f; try contradiction; reflexivity.
Qed.

(** A callable called with a number of arguments other than its arity is
    refused with 期望 N 个参数但得到 M 个 at the closing parenthesis. *)
Lemma call_arity_mismatch fuel callee paren args s f s1 argv s2 func :
  evaluate fuel callee s = Normal f s1 ->
  mapM (evaluate fuel) args s1 = Normal argv s2 ->
  getCall f = inr (Some func) ->
  List.length argv ≠ arity func ->
  evaluate (S fuel) (CallExpr callee paren args) s =
  Abrupt (RuntimeError paren
            (js "期望 " ++ ofNat (arity func) ++ js " 个参数但得到 "
             ++ ofNat (List.length argv) ++ js " 个")) s2.
Proof.
  intros Hf Hargs Hcall Hlen. rewrite evaluate_call, Hf, Hargs, Hcall.
  rewrite bool_decide_eq_true_2 by assumption. reflexivity.
Qed.

(** A callee that evaluates to 空 makes the host throw its own
    [TypeError] at the read of the property [call], before the check. *)
Lemma call_of_null fuel callee paren args s s1 argv s2 :
  evaluate fuel callee s = Normal VNull s1 ->
  mapM (evaluate fuel) args s1 = Normal argv s2 ->
  evaluate (S fuel) (CallExpr callee paren args) s =
  Abrupt (HostError
            (mkError TypeError
               (js "Cannot read properties of null (reading 'call')"))) s2.
Proof.
  intros Hf Hargs. rewrite evaluate_call, Hf, Hargs. reflexivity.
Qed.

(** C4, on the code: the call [空()] does not fail with the runtime error
    只能调用函数 at the closing parenthesis. It fails with the [TypeError]
    of the host, which carries no token, and [run] prints that message
    without the framing of a runtime error. *)
Theorem call_of_null_is_a_host_type_error :
  evaluate 2 (CallExpr (LiteralExpr VNull) (operatorToken RIGHT_PAREN) [])
           newInterpreter
  = Abrupt (HostError
              (mkError TypeError
                 (js "Cannot read properties of null (reading 'call')")))
           newInterpreter
  /\ run 10 (js "空()") newVScript
     = inr (consoleError (js "Cannot read properties of null (reading 'call')")
                         newVScript).
Proof.
  split; vm_compute; reflexivity.
Qed.

(** ** The built-in functions *)

(** [类型] never fails, and never changes the state. *)
Lemma builtin_type_total args s :
  exists tag, builtinCall BuiltinType args s = Normal (VString tag) s.
Proof. eexists. reflexivity. Qed.

(** The tags of [类型] on the values other than the built-in objects. *)
Lemma builtin_type_tags v s :
  builtinCall BuiltinType [v] s =
  Normal (VString (js match v with
                      | VArray _ _ => "数组"
                      | VNumber _ => "数字"
                      | VString _ => "字符串"
                      | VBoolean _ => "布尔"
                      | VNull => "空"
                      | VFunction _ _ _ _ _ => "函数"
                      | VUndefined | VBuiltin _ => "未知"
                      end)) s.
Proof. destruct v; reflexivity. Qed.

(** C5, on the code: [类型] answers 未知, not 函数, for a built-in callable.
    The test is [arg instanceof VSFunction], and the four built-in objects
    are not instances of that class. *)
Theorem builtin_type_of_builtin_is_unknown :
  (forall b s, builtinCall BuiltinType [VBuiltin b] s = Normal (VString (js "未知")) s)
  /\ evaluate 4 (CallExpr (VariableExpr (nameToken "类型"))
                   (operatorToken RIGHT_PAREN)
                   [VariableExpr (nameToken "输出")]) newInterpreter
     = Normal (VString (js "未知")) newInterpreter
  /\ (exists f, getCall (VBuiltin BuiltinPrint) = inr (Some f)).
Proof.
  split; [reflexivity |]. split; [vm_compute; reflexivity |].
  eexists; reflexivity.
Qed.

(** ** How errors surface *)

(** The framed text starts with 运, whatever the token and the message. *)
Lemma runtimeErrorText_head token msg :
  head (runtimeErrorText token msg) = Some 36816%N.
Proof.
  unfold runtimeErrorText.
  change (js "运行时错误（第 ") with (36816%N :: List.tl (js "运行时错误（第 ")).
  reflexivity.
Qed.

(** What the built-in functions throw is an error object of the host:
    no token comes with it. *)
Lemma builtin_failure_is_plain b args s t s' :
  builtinCall b args s = Abrupt t s' ->
  s' = s /\
  (t = HostError (mkError Error (js "范围函数需要两个数字参数")) /\ b = BuiltinRange
   \/ t = HostError (mkError Error (js "长度函数需要数组或字符串参数")) /\ b = BuiltinLength
   \/ t = HostError (mkError RangeError (js "Invalid array length")) /\ b = BuiltinRange).
Proof.
  destruct b; cbn [builtinCall]; unfold consoleLog; unfold_monad.
  - discriminate.
  - destruct (index args 0), (index args 1);
      try (intros [= <- <-]; split; [reflexivity | left; split; reflexivity]).
    unfold arrayFrom, fresh. unfold_monad.
    destruct (_ <? _)%Z; [| discriminate].
    intros [= <- <-]; split; [reflexivity | right; right; split; reflexivity].
  - destruct (index args 0);
      try (intros [= <- <-]; split;
           [reflexivity | right; left; split; reflexivity]);
      discriminate.
  - discriminate.
Qed.

(** The failures of the evaluator itself are [RuntimeError]s, each with
    the token it is attributed to: an arithmetic or comparison operator
    with an operand that is not a number, and a division by zero, at the
    operator; an undefined variable at its name. *)
Lemma evaluator_failures_carry_tokens :
  (forall op L R s,
     type op ∈ [MINUS; DIVIDE; MULTIPLY; MODULO;
                GREATER; GREATER_EQUAL; LESS; LESS_EQUAL] ->
     typeof L <> TNumber \/ typeof R <> TNumber ->
     binarySwitch op L R s = Abrupt (RuntimeError op (js "操作数必须是数字")) s)
  /\ (forall op a b s,
        type op = DIVIDE -> num_eqb b 0%float = true ->
        binarySwitch op (VNumber a) (VNumber b) s
        = Abrupt (RuntimeError op (js "除数不能为零")) s)
  /\ (forall name h a e,
        h !! a = Some e -> values e !! lexeme name = None ->
        enclosing e = None ->
        Env.get a name h
        = Abrupt (RuntimeError name
                    (js "未定义的变量 '" ++ lexeme name ++ js "'")) h).
Proof.
  split; [| split].
  - intros op L R s Hop Hty. unfold binarySwitch, checkNumberOperands.
    rewrite !elem_of_cons, elem_of_nil in Hop.
    assert (Hthrow : (match L, R with
                      | VNumber l, VNumber r => ret (l, r)
                      | _, _ => throw (RuntimeError op (js "操作数必须是数字"))
                      end : Eval (jsnumber * jsnumber))
                     = throw (RuntimeError op (js "操作数必须是数字"))).
    { destruct L, R; try reflexivity; destruct Hty as [H | H]; now elim H. }
    repeat (destruct Hop as [H | Hop];
            [rewrite H; unfold_monad; rewrite Hthrow; reflexivity |]).
    contradiction.
  - intros op a b s Hop Hb. unfold binarySwitch, checkNumberOperands.
    rewrite Hop. unfold_monad. cbv beta iota. cbn [fst snd].
    rewrite Hb. reflexivity.
  - intros name h a e Ha Hv He. unfold Env.get.
    destruct a; cbn [Env.getFrom]; rewrite Ha, Hv, He; reflexivity.
Qed.

(** C3, as the claim states it, fails on [长度(1)]: the failure of the
    built-in function surfaces as its bare message, which is not of the
    form 运行时错误（第 L 行，第 C 列）：MSG for any token and message. *)
Lemma builtin_failure_is_not_framed :
  interpret 4 [ExpressionStmt
                 (CallExpr (VariableExpr (nameToken "长度"))
                    (operatorToken RIGHT_PAREN) [LiteralExpr (VNumber 1)])]
            newInterpreter
  = Abrupt (HostError (mkError Error (js "长度函数需要数组或字符串参数")))
           newInterpreter
  /\ run 10 (js "长度(1)") newVScript
     = inr (consoleError (js "长度函数需要数组或字符串参数") newVScript)
  /\ forall token msg,
       js "长度函数需要数组或字符串参数" <> runtimeErrorText token msg.
Proof.
  split; [vm_compute; reflexivity |]. split; [vm_compute; reflexivity |].
  intros token msg H.
  pose proof (runtimeErrorText_head token msg) as Hhead.
  rewrite <- H in Hhead. vm_compute in Hhead. discriminate.
Qed.

(** C2, on the code: a 返回 statement outside any function unwinds out of
    [interpret], which rethrows the [ReturnValue]; it is not an instance
    of [Error], and the handler of [run] reports it to the user, in red on
    the error stream, as 发生未知错误. *)
Theorem top_level_return_is_reported_as_unknown_error :
  (exists keyword,
     Parser.parse 10 [mkToken RETURN (js "返回") LitNull 1 1;
                      mkToken NUMBER (js "1") (LitNumber 1) 1 4;
                      mkToken EOF [] LitNull 1 5]
     = Normal [ReturnStmt keyword (Some (LiteralExpr (VNumber 1)))] 2
     /\ interpret 10 [ReturnStmt keyword (Some (LiteralExpr (VNumber 1)))]
                  newInterpreter
        = Abrupt (ReturnValue (VNumber 1)) newInterpreter)
  /\ run 10 (js "返回 1") newVScript
     = inr (consoleError (js "发生未知错误") newVScript).
Proof.
  split; [eexists; split |]; vm_compute; reflexivity.
Qed.

(** ** What every computation of the evaluator respects *)

(** The block restores the pointer whatever its statements do with it. *)
Lemma executeBlock_outcome (ex : Stmt -> Eval unit) statements env s :
  executeBlock ex statements env s =
  match forEach ex statements (withEnvironment env s) with
  | Normal _ s' => Normal tt (withEnvironment (environment s) s')
  | Abrupt t s' => Abrupt t (withEnvironment (environment s) s')
  | NoOutcome r => NoOutcome r
  end.
Proof.
  unfold executeBlock, tryFinally, getEnvironment, setEnvironment.
  unfold_monad.
  destruct (forEach ex statements (withEnvironment env s)) as [[] s1 | t s1 | r];
    reflexivity.
Qed.

Section Respects.

Variable R : Interp -> Interp -> Prop.
Hypothesis R_refl : forall s, R s s.
Hypothesis R_trans : forall s1 s2 s3, R s1 s2 -> R s2 s3 -> R s1 s3.

Lemma respects_ret {A} (a : A) : respects R (ret a).
Proof. intros s. apply R_refl. Qed.

Lemma respects_throw {A} t : respects R (throw t : Eval A).
Proof. intros s. apply R_refl. Qed.

Lemma respects_stuck {A} r : respects R (stuck r : Eval A).
Proof. intros s. exact I. Qed.

Lemma respects_gets {A} (f : Interp -> A) : respects R (gets f).
Proof. intros s. apply R_refl. Qed.

Lemma respects_bind {A B} (m : Eval A) (k : A -> Eval B) :
  respects R m -> (forall a, respects R (k a)) -> respects R (bind m k).
Proof.
  intros Hm Hk s. unfold bind. specialize (Hm s).
  destruct (m s) as [a s1 | t s1 | r]; trivial.
  specialize (Hk a s1). destruct (k a s1); eauto.
Qed.

Lemma respects_forEach {A} (f : A -> Eval unit) l :
  (forall x, respects R (f x)) -> respects R (forEach f l).
Proof.
  intros Hf. induction l as [| x l IH]; cbn [forEach].
  - apply respects_ret.
  - apply respects_bind; auto.
Qed.

Lemma respects_mapM {A B} (f : A -> Eval B) l :
  (forall x, respects R (f x)) -> respects R (mapM f l).
Proof.
  intros Hf. induction l as [| x l IH]; cbn [mapM].
  - apply respects_ret.
  - apply respects_bind; [auto |]. intros y.
    apply respects_bind; [auto |]. intros ys. apply respects_ret.
Qed.

Lemma respects_tryCatch {A} (m : Eval A) h :
  respects R m -> (forall t, respects R (h t)) -> respects R (tryCatch m h).
Proof.
  intros Hm Hh s. unfold tryCatch. specialize (Hm s).
  destruct (m s) as [a s1 | t s1 | r]; trivial.
  specialize (Hh t s1). destruct (h t s1); eauto.
Qed.

(** The steps that touch the state. *)
Hypothesis R_define : forall a k v, respects R (onHeap (Env.define a k v)).
Hypothesis R_assign : forall a n v, respects R (onHeap (Env.assign a n v)).
Hypothesis R_get : forall a n, respects R (onHeap (Env.get a n)).
Hypothesis R_fresh : respects R fresh.
Hypothesis R_newEnvironment : forall o, respects R (newEnvironment o).
Hypothesis R_consoleLog : forall args, respects R (consoleLog args).
Hypothesis R_executeBlock :
  forall (ex : Stmt -> Eval unit) statements env,
    (forall st, respects R (ex st)) -> respects R (executeBlock ex statements env).

Lemma respects_builtinCall b args : respects R (builtinCall b args).
Proof.
  destruct b; cbn [builtinCall].
  - apply respects_bind; [apply R_consoleLog |]. intros; apply respects_ret.
  - destruct (index args 0), (index args 1); try apply respects_throw.
    unfold arrayFrom. destruct (_ <? _)%Z; [apply respects_throw |].
    apply respects_bind; [apply R_fresh |]. intros; apply respects_ret.
  - destruct (index args 0); first [apply respects_ret | apply respects_throw].
  - apply respects_ret.
Qed.

Variable evaluate : Expr -> Eval Value.
Variable execute : Stmt -> Eval unit.
Hypothesis respects_evaluate : forall e, respects R (evaluate e).
Hypothesis respects_execute : forall s, respects R (execute s).

Lemma respects_functionCall params body closure args :
  respects R (functionCall execute params body closure args).
Proof.
  unfold functionCall.
  apply respects_bind; [apply R_newEnvironment |]. intros env.
  apply respects_bind; [apply respects_forEach; intros; apply R_define |].
  intros _. apply respects_tryCatch.
  - apply respects_bind; [apply R_executeBlock; assumption |].
    intros; apply respects_ret.
  - intros [| |]; intros; first [apply respects_ret | apply respects_throw].
Qed.

Lemma respects_binarySwitch op L R' : respects R (binarySwitch op L R').
Proof.
  unfold binarySwitch, checkNumberOperands.
  destruct (type op);
    try apply respects_ret;
    destruct L; try apply respects_throw;
    destruct R'; try apply respects_throw;
    try (apply respects_bind;
         [first [apply respects_ret | apply respects_throw] |];
         intros lr; try apply respects_ret;
         destruct (num_eqb _ _);
         first [apply respects_ret | apply respects_throw]);
    apply respects_ret.
Qed.

Lemma respects_acceptExpr e : respects R (acceptExpr evaluate execute e).
Proof.
  destruct e; cbn [acceptExpr].
  - unfold visitBinaryExpr.
    apply respects_bind; [auto |]. intros L.
    apply respects_bind; [auto |]. intros R'.
    apply respects_binarySwitch.
  - apply respects_evaluate.
  - apply respects_ret.
  - unfold visitUnaryExpr. apply respects_bind; [auto |]. intros v.
    unfold checkNumberOperand.
    destruct (type operator); try apply respects_ret.
    apply respects_bind; [| intros; apply respects_ret].
    destruct v; first [apply respects_ret | apply respects_throw].
  - unfold visitVariableExpr.
    apply respects_bind; [apply respects_gets |]. intros; apply R_get.
  - unfold visitAssignExpr.
    apply respects_bind; [auto |]. intros v.
    apply respects_bind; [apply respects_gets |]. intros env.
    apply respects_bind; [apply R_assign |]. intros; apply respects_ret.
  - unfold visitCallExpr.
    apply respects_bind; [auto |]. intros f.
    apply respects_bind; [apply respects_mapM; auto |]. intros argv.
    destruct (getCall f) as [err | [func |]]; try apply respects_throw.
    destruct (bool_decide _); [apply respects_throw |].
    destruct func; cbn [call].
    + apply respects_functionCall.
    + apply respects_builtinCall.
  - unfold visitArrayExpr.
    apply respects_bind; [apply respects_mapM; auto |]. intros elems.
    apply respects_bind; [apply R_fresh |]. intros; apply respects_ret.
Qed.

Lemma respects_acceptStmt st : respects R (acceptStmt evaluate execute st).
Proof.
  destruct st; cbn [acceptStmt].
  - unfold visitExpressionStmt.
    apply respects_bind; [auto |]. intros; apply respects_ret.
  - unfold visitFunctionStmt.
    apply respects_bind; [apply R_fresh |]. intros a.
    apply respects_bind; [apply respects_gets |]. intros; apply R_define.
  - unfold visitIfStmt. apply respects_bind; [auto |]. intros c.
    destruct (isTruthy c); [auto |].
    destruct elseBranch; [auto | apply respects_ret].
  - unfold visitLetStmt.
    apply respects_bind; [destruct initializer; [auto | apply respects_ret] |].
    intros v. apply respects_bind; [apply respects_gets |].
    intros; apply R_define.
  - unfold visitReturnStmt.
    apply respects_bind; [destruct value; [auto | apply respects_ret] |].
    intros; apply respects_throw.
  - unfold visitWhileStmt. apply respects_bind; [auto |]. intros c.
    destruct (isTruthy c); [| apply respects_ret].
    apply respects_bind; auto.
  - unfold visitBlockStmt.
    apply respects_bind; [apply respects_gets |]. intros current.
    apply respects_bind; [apply R_newEnvironment |].
    intros; apply R_executeBlock; assumption.
  - unfold visitForStmt. apply respects_bind; [auto |]. intros it.
    destruct it; try apply respects_throw.
    apply respects_bind; [apply respects_gets |]. intros current.
    apply respects_bind; [apply R_newEnvironment |]. intros env.
    apply respects_forEach. intros v.
    apply respects_bind; [apply R_define |].
    intros; apply R_executeBlock; assumption.
Qed.

End Respects.

(** Every expression and every statement respects a relation that all the
    steps on the state respect. *)
Lemma respects_evaluate_execute (R : Interp -> Interp -> Prop) :
  (forall s, R s s) ->
  (forall s1 s2 s3, R s1 s2 -> R s2 s3 -> R s1 s3) ->
  (forall a k v, respects R (onHeap (Env.define a k v))) ->
  (forall a n v, respects R (onHeap (Env.assign a n v))) ->
  (forall a n, respects R (onHeap (Env.get a n))) ->
  respects R fresh ->
  (forall o, respects R (newEnvironment o)) ->
  (forall args, respects R (consoleLog args)) ->
  (forall (ex : Stmt -> Eval unit) statements env,
     (forall st, respects R (ex st)) ->
     respects R (executeBlock ex statements env)) ->
  forall fuel,
    (forall e, respects R (evaluate fuel e))
    /\ (forall st, respects R (execute fuel st)).
Proof.
  intros Hrefl Htrans Hdefine Hassign Hget Hfresh Hnew Hlog Hblock.
  induction fuel as [| n [IHe IHs]]; split; intros x; cbn [evaluate execute].
  - apply respects_stuck.
  - apply respects_stuck.
  - apply respects_acceptExpr; assumption.
  - apply respects_acceptStmt; assumption.
Qed.

(** *** The current environment *)





(** ** Environments *)

Lemma has_true e name : Env.has e name = true <-> is_Some (values e !! name).
Proof. unfold Env.has. apply bool_decide_eq_true. Qed.

Lemma assignFrom_nearest h name v depth :
  forall a chain d,
    scopesFrom depth h a = Some chain -> a <= d ->
    Env.assignFrom d a name v h =
    match nearest h chain (lexeme name) with
    | Some b => Normal tt (overwrite b (lexeme name) v h)
    | None => Abrupt (Env.undefinedVariable name) h
    end.
Proof.
  induction depth as [| depth IH]; intros a chain d Hchain Hd;
    cbn [scopesFrom] in Hchain;
    destruct (h !! a) as [[vals [outer |]] |] eqn:Ha; try discriminate;
    cbn [enclosing] in Hchain.
  - destruct (bool_decide (outer < a)); discriminate.
  - injection Hchain as <-. unfold nearest. cbn [List.find].
    unfold contains, overwrite. rewrite Ha.
    destruct d; cbn [Env.assignFrom]; rewrite Ha; cbn [enclosing values];
      destruct (Env.has _ _); rewrite ?Ha; reflexivity.
  - destruct (bool_decide (outer < a)) eqn:Hlt; [| discriminate].
    apply bool_decide_eq_true in Hlt.
    destruct (scopesFrom depth h outer) as [rest |] eqn:Hrest; [| discriminate].
    injection Hchain as <-. unfold nearest. cbn [List.find].
    unfold contains at 1, overwrite at 1. rewrite Ha.
    destruct d as [| d]; [lia |].
    cbn [Env.assignFrom]. rewrite Ha. cbn [enclosing values].
    destruct (Env.has _ _); [rewrite Ha; reflexivity |].
    apply (IH outer rest d Hrest). lia.
  - injection Hchain as <-. unfold nearest. cbn [List.find].
    unfold contains, overwrite. rewrite Ha.
    destruct d; cbn [Env.assignFrom]; rewrite Ha; cbn [enclosing values];
      destruct (Env.has _ _); rewrite ?Ha; reflexivity.
Qed.

Lemma nearest_in_chain h chain name b :
  nearest h chain name = Some b -> b ∈ chain /\ contains h name b = true.
Proof.
  unfold nearest. intros H. apply find_some in H as [Hin Hc].
  split; [apply list_elem_of_In; exact Hin | exact Hc].
Qed.

Lemma overwrite_bound h b name v a k :
  contains h name b = true ->
  bound (overwrite b name v h) a k <-> bound h a k.
Proof.
  unfold contains, overwrite, bound.
  destruct (h !! b) as [e |] eqn:Hb; [| discriminate].
  rewrite has_true. intros Hname.
  destruct (decide (a = b)) as [-> | Hne].
  - rewrite lookup_insert_eq. split.
    + intros (e' & [= <-] & Hk). exists e. split; [assumption |].
      cbn in Hk. destruct (decide (name = k)) as [<- | Hnk]; [assumption |].
      rewrite lookup_insert_ne in Hk by assumption. assumption.
    + intros (e' & He' & Hk). rewrite Hb in He'. injection He' as <-.
      eexists. split; [reflexivity |]. cbn.
      destruct (decide (name = k)) as [<- | Hnk].
      * rewrite lookup_insert_eq. eauto.
      * rewrite lookup_insert_ne by assumption. assumption.
  - rewrite lookup_insert_ne by congruence. reflexivity.
Qed.

(** C8: along the chain of scopes of an environment, [assign] overwrites
    the binding in the nearest scope that contains the name (the innermost
    scope itself when the name is bound there, else the first enclosing
    scope that has it); when no scope of the chain contains the name it
    throws 未定义的变量 'name' at the name token and leaves the store as it
    was; and in no scope does it make a name bound that was not. *)
Theorem assign_overwrites_nearest_binding h this chain name v :
  scopes h this = Some chain ->
  Env.assign this name v h =
  match nearest h chain (lexeme name) with
  | Some b => Normal tt (overwrite b (lexeme name) v h)
  | None =>
      Abrupt (RuntimeError name (js "未定义的变量 '" ++ lexeme name ++ js "'")) h
  end
  /\ (forall h', Env.assign this name v h = Normal tt h' ->
                 forall a k, bound h' a k <-> bound h a k).
Proof.
  intros Hchain.
  pose proof (@assignFrom_nearest h name v this this chain this Hchain
                (Nat.le_refl this)) as Hassign.
  split; [exact Hassign |].
  unfold Env.assign. rewrite Hassign. intros h'.
  destruct (nearest h chain (lexeme name)) as [b |] eqn:Hb; [| discriminate].
  intros [= <-] a k. apply overwrite_bound.
  apply (nearest_in_chain Hb).
Qed.

(** From the child scope, [x = 5] overwrites the binding of the global
    scope and [z = 5] fails. *)
Lemma assign_overwrites_nearest_binding_witness :
  Env.assign 1 (nameToken "x") (VNumber 5) twoScopes
  = Normal tt {[ 0 := mkEnvironment {[ js "x" := VNumber 5 ]} None;
                 1 := mkEnvironment {[ js "y" := VNumber 2 ]} (Some 0) ]}
  /\ Env.assign 1 (nameToken "z") (VNumber 5) twoScopes
     = Abrupt (RuntimeError (nameToken "z") (js "未定义的变量 'z'")) twoScopes.
Proof.
  split.
  - rewrite (proj1 (@assign_overwrites_nearest_binding twoScopes 1 [1; 0]
                      (nameToken "x") (VNumber 5) eq_refl)).
    vm_compute. reflexivity.
  - rewrite (proj1 (@assign_overwrites_nearest_binding twoScopes 1 [1; 0]
                      (nameToken "z") (VNumber 5) eq_refl)).
    vm_compute. reflexivity.
Defined.

(** ** The store only grows *)

Lemma grows_refl s : grows s s.
Proof. intros H. split; [assumption |]. split; [lia | reflexivity]. Qed.

Lemma grows_trans s1 s2 s3 : grows s1 s2 -> grows s2 s3 -> grows s1 s3.
Proof.
  intros H12 H23 H1. destruct (H12 H1) as (H2 & Hn12 & Hl12).
  destruct (H23 H2) as (H3 & Hn23 & Hl23).
  split; [assumption |]. split; [lia |].
  intros a Ha. rewrite Hl23 by lia. apply Hl12. assumption.
Qed.

Lemma link_overwrite h a e name v b :
  h !! a = Some e ->
  link (<[a := mkEnvironment (<[name := v]> (values e)) (enclosing e)]> h) b
  = link h b.
Proof.
  intros Ha. unfold link. destruct (decide (b = a)) as [-> | Hne].
  - rewrite lookup_insert_eq, Ha. reflexivity.
  - rewrite lookup_insert_ne by congruence. reflexivity.
Qed.

Lemma define_keepsLinks a k v : keepsLinks (Env.define a k v).
Proof.
  intros h. unfold Env.define. destruct (h !! a) as [e |] eqn:Ha; [| exact I].
  intros b. apply link_overwrite. assumption.
Qed.

Lemma assignFrom_keepsLinks depth a n v : keepsLinks (Env.assignFrom depth a n v).
Proof.
  revert a. induction depth as [| d IH]; intros a h; cbn [Env.assignFrom];
    destruct (h !! a) as [e |] eqn:Ha; try exact I;
    destruct (Env.has e (lexeme n));
    try (intros b; apply link_overwrite; assumption);
    destruct (enclosing e) as [outer |]; try exact I; try reflexivity.
  apply IH.
Qed.

Lemma getFrom_keepsLinks depth a n : keepsLinks (Env.getFrom depth a n).
Proof.
  revert a. induction depth as [| d IH]; intros a h; cbn [Env.getFrom];
    destruct (h !! a) as [e |] eqn:Ha; try exact I;
    destruct (values e !! lexeme n); try reflexivity;
    destruct (enclosing e) as [outer |]; try exact I; try reflexivity.
  apply IH.
Qed.

Lemma link_is_Some h a : is_Some (h !! a) <-> is_Some (link h a).
Proof. unfold link. rewrite fmap_is_Some. reflexivity. Qed.

Lemma onHeap_grows {A} (m : Store A) : keepsLinks m -> respects grows (onHeap m).
Proof.
  intros Hm s. unfold onHeap. specialize (Hm (heap s)).
  destruct (m (heap s)) as [x h' | t h' | r]; trivial; intros Halloc;
    (split; [| split; [reflexivity | intros a _; apply Hm]]);
    intros a Ha; apply Halloc; cbn in Ha;
    rewrite link_is_Some in Ha |- *; rewrite <- Hm; assumption.
Qed.

Lemma fresh_grows : respects grows fresh.
Proof.
  intros s Halloc. cbn. split; [| split; [lia | reflexivity]].
  intros a Ha. cbn in Ha |- *. specialize (Halloc a Ha). lia.
Qed.

Lemma newEnvironment_grows o : respects grows (newEnvironment o).
Proof.
  intros s Halloc. cbn. split; [| split; [lia |]].
  - intros a Ha. cbn in Ha |- *.
    destruct (decide (a = next s)) as [-> | Hne]; [lia |].
    rewrite lookup_insert_ne in Ha by congruence.
    specialize (Halloc a Ha). lia.
  - intros a Ha. unfold link. rewrite lookup_insert_ne by lia. reflexivity.
Qed.

Lemma executeBlock_grows (ex : Stmt -> Eval unit) statements env :
  (forall st, respects grows (ex st)) ->
  respects grows (executeBlock ex statements env).
Proof.
  intros Hex s. rewrite executeBlock_outcome.
  pose proof (@respects_forEach grows grows_refl grows_trans _ ex statements Hex
                (withEnvironment env s)) as H.
  destruct (forEach ex statements (withEnvironment env s)); trivial;
    intros Halloc; apply (H Halloc).
Qed.

(** Every expression and every statement makes the store grow. *)
Lemma grows_evaluate_execute fuel :
  (forall e, respects grows (evaluate fuel e))
  /\ (forall st, respects grows (execute fuel st)).
Proof.
  apply respects_evaluate_execute.
  - apply grows_refl.
  - apply grows_trans.
  - intros; apply onHeap_grows, define_keepsLinks.
  - intros; apply onHeap_grows, assignFrom_keepsLinks.
  - intros; apply onHeap_grows, getFrom_keepsLinks.
  - apply fresh_grows.
  - apply newEnvironment_grows.
  - intros args s Halloc. split; [exact Halloc |]. split; [cbn; lia | reflexivity].
  - apply executeBlock_grows.
Qed.

Lemma newInterpreter_allocated : allocated newInterpreter.
Proof.
  intros a [e Ha]. cbn in *.
  destruct (decide (a = 0)) as [-> | Hne]; [lia |].
  rewrite lookup_singleton_ne in Ha by congruence. discriminate.
Qed.

(** ** Function values *)

Lemma setHeap_same s : setHeap (heap s) s = s.
Proof. destruct s; reflexivity. Qed.

Lemma define_loop a outer args (l : list (nat * Token)) :
  forall vals s,
    heap s !! a = Some (mkEnvironment vals outer) ->
    forEach (fun ip => onHeap (Env.define a (lexeme ip.2) (index args ip.1))) l s
    = Normal tt
        (setHeap (<[a := mkEnvironment
                            (foldl (fun m ip => <[lexeme ip.2 := index args ip.1]> m)
                                   vals l) outer]> (heap s)) s).
Proof.
  induction l as [| ip l IH]; intros vals s Ha; cbn [forEach foldl].
  - unfold_monad. rewrite insert_id by assumption.
    rewrite setHeap_same. reflexivity.
  - unfold_monad. unfold onHeap at 1, Env.define. rewrite Ha.
    cbn [values enclosing].
    rewrite IH with (vals := <[lexeme ip.2 := index args ip.1]> vals)
      by (cbn; apply lookup_insert_eq).
    cbn. rewrite insert_insert_eq. reflexivity.
Qed.

(** The outcome of a call of a function value. *)
Lemma functionCall_outcome (ex : Stmt -> Eval unit) params body closure args s :
  functionCall ex params body closure args s =
  match forEach ex body
          (mkInterp (<[next s := mkEnvironment (bindParams params args ∅)
                                               (Some closure)]> (heap s))
                    (S (next s)) (globals s) (next s) (stdout s)) with
  | Normal _ s' => Normal VNull (withEnvironment (environment s) s')
  | Abrupt (ReturnValue v) s' => Normal v (withEnvironment (environment s) s')
  | Abrupt t s' => Abrupt t (withEnvironment (environment s) s')
  | NoOutcome r => NoOutcome r
  end.
Proof.
  unfold functionCall, newEnvironment, fresh. unfold_monad.
  rewrite define_loop with (vals := ∅) (outer := Some closure)
    by (cbn; apply lookup_insert_eq).
  unfold tryCatch. rewrite executeBlock_outcome.
  unfold bindParams, withEnvironment at 1, setHeap.
  cbn [heap next globals environment stdout].
  rewrite insert_insert_eq.
  match goal with
  | |- _ = match forEach ex body ?st with _ => _ end =>
      destruct (forEach ex body st) as [[] s1 | t s1 | r] eqn:E;
      try (match goal with
           | |- context [forEach ex body ?st1] =>
               change (forEach ex body st1) with (forEach ex body st);
               rewrite E
           end)
  end; try reflexivity.
  destruct t; reflexivity.
Qed.

(** With pairwise distinct parameter names, the parameter at index [i]
    is bound to the argument at index [i]. *)
Lemma bindParams_positional params args i p :
  NoDup (lexeme <$> params) ->
  params !! i = Some p ->
  bindParams params args ∅ !! lexeme p = Some (index args i).
Proof.
  unfold bindParams. revert i p.
  induction params as [| x l IH] using rev_ind; intros i p Hnd Hi.
  - discriminate.
  - rewrite imap_app, foldl_app. cbn [imap foldl].
    rewrite fmap_app in Hnd. apply NoDup_app in Hnd as (Hl & Hdisj & _).
    cbn. rewrite Nat.add_0_r.
    destruct (decide (i < List.length l)) as [Hlt | Hge].
    + rewrite lookup_app_l in Hi by assumption.
      rewrite lookup_insert_ne.
      * apply IH; assumption.
      * intros Heq. apply (Hdisj (lexeme p)).
        -- apply list_elem_of_fmap. exists p. split; [reflexivity |].
           apply list_elem_of_lookup. eauto.
        -- rewrite <- Heq. cbn. apply list_elem_of_here.
    + rewrite lookup_app_r in Hi by lia.
      destruct (i - List.length l) as [| j] eqn:Hj; [| discriminate].
      injection Hi as ->. replace i with (List.length l) by lia.
      apply lookup_insert_eq.
Qed.

(** C7: a function declaration builds a function value whose closure is
    the environment that is current at the declaration, and binds it in
    that environment. A call node whose callee evaluates to a function
    value, whatever environment is current at the call, allocates an
    environment at the next free address (no environment of the store is
    there, in any state that a program reaches), enclosed by the closure
    recorded in the value, binds the parameters in it by position, and
    runs the body of the value with it as the current environment; the
    call yields the value carried by a 返回 unwinding, or 空 when the body
    completes, and the environment of the caller is the current one
    again. *)
Theorem function_body_runs_in_fresh_child_of_closure :
  (forall fuel name params body s e,
     heap s !! environment s = Some e ->
     execute (S fuel) (FunctionStmt name params body) s =
     Normal tt
       (mkInterp
          (<[environment s :=
               mkEnvironment
                 (<[lexeme name :=
                      VFunction (next s) name params body (environment s)]>
                    (values e))
                 (enclosing e)]> (heap s))
          (S (next s)) (globals s) (environment s) (stdout s)))
  /\ (forall fuel callee paren args s a name params body E s1 argv s2,
        evaluate fuel callee s = Normal (VFunction a name params body E) s1 ->
        mapM (evaluate fuel) args s1 = Normal argv s2 ->
        List.length argv = List.length params ->
        evaluate (S fuel) (CallExpr callee paren args) s =
        match forEach (execute fuel) body
                (mkInterp (<[next s2 := mkEnvironment (bindParams params argv ∅)
                                                      (Some E)]> (heap s2))
                          (S (next s2)) (globals s2) (next s2) (stdout s2)) with
        | Normal _ s' => Normal VNull (withEnvironment (environment s2) s')
        | Abrupt (ReturnValue v) s' =>
            Normal v (withEnvironment (environment s2) s')
        | Abrupt t s' => Abrupt t (withEnvironment (environment s2) s')
        | NoOutcome r => NoOutcome r
        end)
  /\ (forall (ex : Stmt -> Eval unit) params body closure args s,
        functionCall ex params body closure args s =
        match forEach ex body
                (mkInterp (<[next s := mkEnvironment (bindParams params args ∅)
                                                     (Some closure)]> (heap s))
                          (S (next s)) (globals s) (next s) (stdout s)) with
        | Normal _ s' => Normal VNull (withEnvironment (environment s) s')
        | Abrupt (ReturnValue v) s' =>
            Normal v (withEnvironment (environment s) s')
        | Abrupt t s' => Abrupt t (withEnvironment (environment s) s')
        | NoOutcome r => NoOutcome r
        end)
  /\ (forall s, allocated s -> heap s !! next s = None)
  /\ allocated newInterpreter
  /\ (forall fuel e s,
        allocated s ->
        match evaluate fuel e s with
        | Normal _ s' | Abrupt _ s' => allocated s'
        | NoOutcome _ => True
        end)
  /\ (forall fuel st s,
        allocated s ->
        match execute fuel st s with
        | Normal _ s' | Abrupt _ s' => allocated s'
        | NoOutcome _ => True
        end)
  /\ (forall params args i p,
        NoDup (lexeme <$> params) -> params !! i = Some p ->
        bindParams params args ∅ !! lexeme p = Some (index args i)).
Proof.
  repeat match goal with |- _ /\ _ => split end.
  - intros fuel name params body s e He.
    cbn [execute acceptStmt]. unfold visitFunctionStmt, fresh, getEnvironment.
    unfold_monad. unfold onHeap, Env.define. cbn. rewrite He. reflexivity.
  - intros fuel callee paren args s a name params body E s1 argv s2 Hf Hargs Hlen.
    rewrite (evaluate_call_function paren Hf Hargs Hlen).
    apply functionCall_outcome.
  - exact functionCall_outcome.
  - intros s Halloc. destruct (heap s !! next s) eqn:H; [| reflexivity].
    specialize (Halloc (next s) (ex_intro _ _ H)). lia.
  - exact newInterpreter_allocated.
  - intros fuel e s Hs.
    pose proof (proj1 (grows_evaluate_execute fuel) e s) as H.
    destruct (evaluate fuel e s); try exact I; apply (H Hs).
  - intros fuel st s Hs.
    pose proof (proj2 (grows_evaluate_execute fuel) st s) as H.
    destruct (execute fuel st s); try exact I; apply (H Hs).
  - exact bindParams_positional.
Qed.

(** After [就是 x = 0], the declaration [函数 f(a) { 返回 x + a }] at the top
    level; then the call [f(10)] from a scope in which [x] is 2: the body
    runs in a new child of the global scope, where [a] is 10, and reads
    the global [x]. The store is allocated below the next free address
    after [就是 x = 0], and after the array literal [[]] as well. *)
Lemma function_body_runs_in_fresh_child_of_closure_witness :
  exists s2 s3,
    execute 1
      (FunctionStmt (nameToken "f") [nameToken "a"]
         [ReturnStmt (operatorToken RETURN)
            (Some (BinaryExpr (VariableExpr (nameToken "x"))
                     (operatorToken PLUS) (VariableExpr (nameToken "a"))))])
      withX
    = Normal tt s2
    /\ Env.get 0 (nameToken "f") (heap s2)
       = Normal
           (VFunction 1 (nameToken "f") [nameToken "a"]
              [ReturnStmt (operatorToken RETURN)
                 (Some (BinaryExpr (VariableExpr (nameToken "x"))
                          (operatorToken PLUS) (VariableExpr (nameToken "a"))))]
              0)
           (heap s2)
    /\ evaluate 5 (CallExpr (VariableExpr (nameToken "f"))
                     (operatorToken RIGHT_PAREN) [LiteralExpr (VNumber 10)])
         (mkInterp (<[2 := mkEnvironment {[js "x" := VNumber 2]} (Some 0)]>
                      (heap s2)) 3 0 2 [])
       = Normal (VNumber 10) s3
    /\ environment s3 = 2
    /\ heap s3 !! 3 = Some (mkEnvironment {[js "a" := VNumber 10]} (Some 0))
    /\ allocated withX
    /\ heap withX !! next withX = None
    /\ allocated (mkInterp (heap withX) 2 0 0 [])
    /\ bindParams [nameToken "a"; nameToken "b"] [VNumber 10; VNumber 20] ∅
       !! js "b"
       = Some (VNumber 20).
Proof.
  destruct function_body_runs_in_fresh_child_of_closure
    as (Hdecl & Hcall & _ & Hfresh & Hnew & Hevaluate & Hexecute & Hparams).
  assert (HwithX : allocated withX).
  { pose proof (Hexecute 2 (LetStmt (nameToken "x")
                              (Some (LiteralExpr (VNumber 0))))
                  newInterpreter Hnew) as H.
    assert (E : execute 2 (LetStmt (nameToken "x")
                             (Some (LiteralExpr (VNumber 0)))) newInterpreter
                = Normal tt withX) by (vm_compute; reflexivity).
    rewrite E in H. exact H. }
  eexists. eexists.
  split.
  { etrans; [eapply (Hdecl 0 (nameToken "f") [nameToken "a"]);
             vm_compute; reflexivity |].
    vm_compute. reflexivity. }
  split; [vm_compute; reflexivity |].
  split.
  { etrans.
    - eapply (Hcall 4 (VariableExpr (nameToken "f")) (operatorToken RIGHT_PAREN)
                [LiteralExpr (VNumber 10)] _ 1 (nameToken "f") [nameToken "a"]
                _ 0 _ [VNumber 10]);
        [vm_compute; reflexivity | vm_compute; reflexivity | reflexivity].
    - vm_compute. reflexivity. }
  split; [vm_compute; reflexivity |].
  split; [vm_compute; reflexivity |].
  split; [exact HwithX |].
  split; [apply Hfresh; exact HwithX |].
  split.
  { pose proof (Hevaluate 2 (ArrayExpr []) withX HwithX) as H.
    assert (E : evaluate 2 (ArrayExpr []) withX
                = Normal (VArray 1 []) (mkInterp (heap withX) 2 0 0 []))
      by (vm_compute; reflexivity).
    rewrite E in H. exact H. }
  apply (Hparams [nameToken "a"; nameToken "b"] [VNumber 10; VNumber 20] 1
           (nameToken "b")); [| reflexivity].
  apply (bool_decide_unpack _). vm_compute. reflexivity.
Defined.

(** Scoping is lexical: [f], declared at the top level, reads the global
    [x] when it is called from [g], where another [x] is in scope; and a
    closure sees a later assignment to a variable it captures. *)
Lemma closure_reads_defining_scope :
  (exists i,
     run 100 (js "就是 x = 1 函数 f() { 返回 x } 函数 g() { 就是 x = 2 返回 f() } 输出(g())")
         newVScript = inr (mkVScript i [])
     /\ stdout i = [[VNumber 1]] /\ environment i = 0)
  /\ (exists i,
        run 100 (js "就是 x = 10  函数 f(){ 返回 x }  x = 20  输出(f())")
            newVScript = inr (mkVScript i [])
        /\ stdout i = [[VNumber 20]]).
Proof.
  split; eexists; (split; [vm_compute; reflexivity |]); repeat split.
Qed.

(** ** The evaluator never follows a dangling address *)

Lemma All_Forall {A} (P : A -> Prop) l : All P l <-> Forall P l.
Proof.
  induction l as [| x l IH]; cbn; [split; auto |].
  rewrite Forall_cons, IH. reflexivity.
Qed.

Lemma extends_refl h : extends h h.
Proof. intros a H. exact H. Qed.

Lemma extends_trans h1 h2 h3 : extends h1 h2 -> extends h2 h3 -> extends h1 h3.
Proof. intros H12 H23 a H. auto. Qed.

Lemma okValue_extends h h' v : extends h h' -> okValue h v -> okValue h' v.
Proof.
  intros Hext. revert v. fix IH 1. intros [| | | | | addr elems | |]; cbn; trivial.
  - induction elems as [| x l IHl]; cbn; [trivial |].
    intros [Hx Hl]. split; [apply IH; exact Hx | apply IHl; exact Hl].
  - intros [Hc Hb]. split; [apply Hext; exact Hc | exact Hb].
Qed.

Lemma okThrown_extends h h' t : extends h h' -> okThrown h t -> okThrown h' t.
Proof. destruct t; cbn; trivial. apply okValue_extends. Qed.

Lemma stable_okValue v : stable (fun h => okValue h v).
Proof. intros h h' Hext. apply okValue_extends. exact Hext. Qed.

Lemma stable_True : stable (fun _ => True).
Proof. intros h h' _ _. exact I. Qed.

Lemma stable_and P Q : stable P -> stable Q -> stable (fun h => P h /\ Q h).
Proof. intros HP HQ h h' Hext [H1 H2]. split; eauto. Qed.

Lemma stable_is_Some a : stable (fun h => is_Some (h !! a)).
Proof. intros h h' Hext. apply Hext. Qed.

Lemma stable_All {A} (Q : Heap -> A -> Prop) l :
  (forall x, stable (fun h => Q h x)) -> stable (fun h => All (Q h) l).
Proof.
  intros HQ h h' Hext. induction l as [| x l IH]; cbn; [trivial |].
  intros [Hx Hl]. split; [eapply HQ; eauto | auto].
Qed.

(** *** The rules of the monad *)

Lemma sound_ret {A} (P : Heap -> Prop) (a : A) (Q : Heap -> A -> Prop) :
  (forall h, P h -> Q h a) -> sound P (ret a) Q.
Proof.
  intros HQ s Hwf HP. cbn. split; [exact Hwf |].
  split; [apply extends_refl | auto].
Qed.

Lemma sound_throw {A} (P : Heap -> Prop) t (Q : Heap -> A -> Prop) :
  (forall h, P h -> okThrown h t) -> sound P (throw t) Q.
Proof.
  intros HQ s Hwf HP. cbn. split; [exact Hwf |].
  split; [apply extends_refl | auto].
Qed.

Lemma sound_stuck {A} (P : Heap -> Prop) (Q : Heap -> A -> Prop) :
  sound P (stuck OutOfFuel) Q.
Proof. intros s _ _. reflexivity. Qed.

Lemma sound_bind {A B} (P : Heap -> Prop) (m : Eval A) (Q : Heap -> A -> Prop)
    (k : A -> Eval B) (Q' : Heap -> B -> Prop) :
  stable P ->
  sound P m Q ->
  (forall a, sound (fun h => P h /\ Q h a) (k a) Q') ->
  sound P (bind m k) Q'.
Proof.
  intros HP Hm Hk s Hwf HPs. unfold bind. specialize (Hm s Hwf HPs).
  destruct (m s) as [a s1 | t s1 | r]; [| exact Hm | exact Hm].
  destruct Hm as (Hwf1 & Hext1 & HQ).
  specialize (Hk a s1 Hwf1 (conj (HP _ _ Hext1 HPs) HQ)).
  destruct (k a s1) as [b s2 | t s2 | r]; [| | exact Hk];
    destruct Hk as (Hwf2 & Hext2 & HQ2);
    (split; [exact Hwf2 | split; [eapply extends_trans; eauto | exact HQ2]]).
Qed.

Lemma sound_consequence {A} (P P' : Heap -> Prop) (m : Eval A)
    (Q Q' : Heap -> A -> Prop) :
  (forall h, P' h -> P h) -> (forall h a, Q h a -> Q' h a) ->
  sound P m Q -> sound P' m Q'.
Proof.
  intros HP HQ Hm s Hwf HPs. specialize (Hm s Hwf (HP _ HPs)).
  destruct (m s); [| exact Hm | exact Hm].
  destruct Hm as (H1 & H2 & H3). auto.
Qed.

(** The precondition is still there at the end. *)
Lemma sound_frame {A} (P : Heap -> Prop) (m : Eval A) (Q : Heap -> A -> Prop) :
  stable P -> sound P m Q -> sound P m (fun h a => P h /\ Q h a).
Proof.
  intros HP Hm s Hwf HPs. specialize (Hm s Hwf HPs).
  destruct (m s); [| exact Hm | exact Hm].
  destruct Hm as (H1 & H2 & H3). split; [exact H1 |]. split; [exact H2 |].
  split; [eapply HP; eauto | exact H3].
Qed.

Lemma sound_forEach {A} (P : Heap -> Prop) (f : A -> Eval unit) l :
  stable P ->
  (forall x, In x l -> sound P (f x) (fun _ _ => True)) ->
  sound P (forEach f l) (fun _ _ => True).
Proof.
  intros HP. induction l as [| x l IH]; intros Hf; cbn [forEach].
  - apply sound_ret. trivial.
  - eapply sound_bind; [exact HP | apply Hf; left; reflexivity |].
    intros []. eapply sound_consequence; [| | apply IH].
    + intros h [H _]. exact H.
    + trivial.
    + intros y Hy. apply Hf. right. exact Hy.
Qed.

Lemma sound_mapM {A B} (P : Heap -> Prop) (f : A -> Eval B)
    (Q : Heap -> B -> Prop) l :
  stable P -> (forall y, stable (fun h => Q h y)) ->
  (forall x, In x l -> sound P (f x) Q) ->
  sound P (mapM f l) (fun h ys => All (Q h) ys).
Proof.
  intros HP HQ. induction l as [| x l IH]; intros Hf; cbn [mapM].
  - apply sound_ret. intros; exact I.
  - eapply sound_bind; [exact HP | apply Hf; left; reflexivity |].
    intros y. eapply sound_bind.
    + apply stable_and; [exact HP | apply HQ].
    + eapply sound_consequence; [| | apply IH].
      * intros h [H _]. exact H.
      * intros h a H. exact H.
      * intros z Hz. apply Hf. right. exact Hz.
    + intros ys. apply sound_ret. cbn. intros h [[_ Hy] Hys]. auto.
Qed.

Lemma sound_tryCatch {A} (P : Heap -> Prop) (m : Eval A) hd
    (Q : Heap -> A -> Prop) :
  stable P ->
  sound P m Q ->
  (forall t, sound (fun h => P h /\ okThrown h t) (hd t) Q) ->
  sound P (tryCatch m hd) Q.
Proof.
  intros HP Hm Hh s Hwf HPs. unfold tryCatch. specialize (Hm s Hwf HPs).
  destruct (m s) as [a s1 | t s1 | r]; [exact Hm | | exact Hm].
  destruct Hm as (Hwf1 & Hext1 & Ht).
  specialize (Hh t s1 Hwf1 (conj (HP _ _ Hext1 HPs) Ht)).
  destruct (hd t s1) as [b s2 | t2 s2 | r]; [| | exact Hh];
    destruct Hh as (Hwf2 & Hext2 & HQ2);
    (split; [exact Hwf2 | split; [eapply extends_trans; eauto | exact HQ2]]).
Qed.

(** *** The steps on the state *)

Lemma sound_getEnvironment (P : Heap -> Prop) :
  sound P getEnvironment (fun h a => is_Some (h !! a)).
Proof.
  intros s Hwf _. cbn. split; [exact Hwf |].
  split; [apply extends_refl | exact (proj2 Hwf)].
Qed.

Lemma sound_fresh (P : Heap -> Prop) : sound P fresh (fun _ _ => True).
Proof.
  intros s [(Halloc & Hlink & Hval) Henv] _. cbn.
  split; [| split; [apply extends_refl | exact I]].
  split; [| exact Henv]. split; [| split; assumption].
  intros a Ha. cbn in Ha |- *. specialize (Halloc a Ha). lia.
Qed.

Lemma sound_consoleLog (P : Heap -> Prop) args :
  sound P (consoleLog args) (fun _ _ => True).
Proof.
  intros s Hwf _. cbn. split; [exact Hwf |].
  split; [apply extends_refl | exact I].
Qed.

Lemma extends_insert (h : Heap) a e : extends h (<[a := e]> h).
Proof.
  intros b Hb. destruct (decide (b = a)) as [-> | Hne].
  - rewrite lookup_insert_eq. eauto.
  - rewrite lookup_insert_ne by congruence. exact Hb.
Qed.

Lemma sound_newEnvironment (P : Heap -> Prop) outer :
  (forall h, P h -> match outer with
                    | Some o => is_Some (h !! o)
                    | None => True
                    end) ->
  sound P (newEnvironment outer) (fun h a => is_Some (h !! a)).
Proof.
  intros Houter s [(Halloc & Hlink & Hval) Henv] HP.
  unfold newEnvironment, fresh, setHeap, wf. unfold_monad.
  cbn [heap next globals environment stdout].
  specialize (Houter _ HP).
  assert (Hext : extends (heap s)
                   (<[next s := mkEnvironment ∅ outer]> (heap s)))
    by apply extends_insert.
  split; [| split; [exact Hext | rewrite lookup_insert_eq; eauto]].
  split; [| apply Hext; exact Henv].
  split; [| split].
  - intros a Ha. destruct (decide (a = next s)) as [-> | Hne]; [lia |].
    rewrite lookup_insert_ne in Ha by congruence.
    specialize (Halloc a Ha). lia.
  - intros a e o Ha Ho. destruct (decide (a = next s)) as [-> | Hne].
    + rewrite lookup_insert_eq in Ha. injection Ha as <-. cbn in Ho. subst outer.
      split; [apply Halloc; exact Houter | apply Hext; exact Houter].
    + rewrite lookup_insert_ne in Ha by congruence.
      destruct (Hlink a e o Ha Ho) as [Hlt Hin].
      split; [exact Hlt | apply Hext; exact Hin].
  - intros a e k v Ha Hk. destruct (decide (a = next s)) as [-> | Hne].
    + rewrite lookup_insert_eq in Ha. injection Ha as <-. cbn in Hk.
      rewrite lookup_empty in Hk. discriminate.
    + rewrite lookup_insert_ne in Ha by congruence.
      eapply okValue_extends; [exact Hext | eapply Hval; eauto].
Qed.

(** Overwriting or adding a binding in an environment of the store. *)
Lemma wfHeap_bind n (h : Heap) b e k v :
  wfHeap n h -> h !! b = Some e -> okValue h v ->
  wfHeap n (<[b := mkEnvironment (<[k := v]> (values e)) (enclosing e)]> h).
Proof.
  intros (Halloc & Hlink & Hval) Hb Hv.
  set (h' := <[b := _]> h).
  assert (Hext : extends h h') by apply extends_insert.
  assert (Hback : forall a, is_Some (h' !! a) -> is_Some (h !! a)).
  { intros a Ha. subst h'. destruct (decide (a = b)) as [-> | Hne]; [eauto |].
    rewrite lookup_insert_ne in Ha by congruence. exact Ha. }
  split; [| split].
  - intros a Ha. apply Halloc, Hback, Ha.
  - intros a e' o Ha Ho. subst h'. destruct (decide (a = b)) as [-> | Hne].
    + rewrite lookup_insert_eq in Ha. injection Ha as <-. cbn in Ho.
      destruct (Hlink b e o Hb Ho) as [Hlt Hin].
      split; [exact Hlt | apply Hext; exact Hin].
    + rewrite lookup_insert_ne in Ha by congruence.
      destruct (Hlink a e' o Ha Ho) as [Hlt Hin].
      split; [exact Hlt | apply Hext; exact Hin].
  - intros a e' k' v' Ha Hk. eapply okValue_extends; [exact Hext |].
    subst h'. destruct (decide (a = b)) as [-> | Hne].
    + rewrite lookup_insert_eq in Ha. injection Ha as <-. cbn in Hk.
      destruct (decide (k' = k)) as [-> | Hnk].
      * rewrite lookup_insert_eq in Hk. injection Hk as <-. exact Hv.
      * rewrite lookup_insert_ne in Hk by congruence. eapply Hval; eauto.
    + rewrite lookup_insert_ne in Ha by congruence. eapply Hval; eauto.
Qed.

Lemma sound_onHeap_bind (P : Heap -> Prop) s b e k v :
  wf s -> heap s !! b = Some e -> okValue (heap s) v ->
  let s' := setHeap (<[b := mkEnvironment (<[k := v]> (values e))
                                          (enclosing e)]> (heap s)) s in
  wf s' /\ extends (heap s) (heap s').
Proof.
  intros [Hwf Henv] Hb Hv. cbn.
  split; [| apply extends_insert].
  split; [apply wfHeap_bind; assumption | apply extends_insert; exact Henv].
Qed.

Lemma sound_define (P : Heap -> Prop) a k v :
  (forall h, P h -> is_Some (h !! a) /\ okValue h v) ->
  sound P (onHeap (Env.define a k v)) (fun _ _ => True).
Proof.
  intros Hpre s Hwf HP. destruct (Hpre _ HP) as [[e Ha] Hv].
  unfold onHeap, Env.define. rewrite Ha.
  destruct (@sound_onHeap_bind P s a e k v Hwf Ha Hv) as [H1 H2].
  split; [exact H1 | split; [exact H2 | exact I]].
Qed.

(** In a well-formed store the chain of scopes of every environment is
    defined. *)
Lemma scopes_defined n (h : Heap) :
  wfHeap n h ->
  forall depth a, a <= depth -> is_Some (h !! a) ->
                  is_Some (scopesFrom depth h a).
Proof.
  intros (_ & Hlink & _). induction depth as [| d IH]; intros a Hle [e Ha];
    cbn [scopesFrom]; rewrite Ha;
    destruct (enclosing e) as [o |] eqn:Ho; eauto;
    destruct (Hlink a e o Ha Ho) as [Hlt Hin];
    rewrite bool_decide_eq_true_2 by exact Hlt; [lia |].
  destruct (IH o ltac:(lia) Hin) as [rest ->]. eauto.
Qed.

Lemma sound_assign (P : Heap -> Prop) a n v :
  (forall h, P h -> is_Some (h !! a) /\ okValue h v) ->
  sound P (onHeap (Env.assign a n v)) (fun _ _ => True).
Proof.
  intros Hpre s Hwf HP. destruct (Hpre _ HP) as [Ha Hv].
  destruct (@scopes_defined _ _ (proj1 Hwf) a a (Nat.le_refl a) Ha)
    as [chain Hchain].
  unfold onHeap, Env.assign.
  rewrite (@assignFrom_nearest (heap s) n v a a chain a Hchain (Nat.le_refl a)).
  destruct (nearest (heap s) chain (lexeme n)) as [b |] eqn:Hb.
  - apply nearest_in_chain in Hb as [_ Hc]. unfold contains in Hc.
    unfold overwrite. destruct (heap s !! b) as [e |] eqn:He; [| discriminate].
    destruct (@sound_onHeap_bind P s b e (lexeme n) v Hwf He Hv) as [H1 H2].
    split; [exact H1 | split; [exact H2 | exact I]].
  - rewrite setHeap_same. split; [exact Hwf |].
    split; [apply extends_refl | exact I].
Qed.

Lemma getFrom_sound n (h : Heap) name :
  wfHeap n h ->
  forall depth a, a <= depth -> is_Some (h !! a) ->
    match Env.getFrom depth a name h with
    | Normal v h' => h' = h /\ okValue h v
    | Abrupt t h' => h' = h /\ t = Env.undefinedVariable name
    | NoOutcome _ => False
    end.
Proof.
  intros (_ & Hlink & Hval). induction depth as [| d IH]; intros a Hle [e Ha];
    cbn [Env.getFrom]; rewrite Ha;
    (destruct (values e !! lexeme name) as [v |] eqn:Hv;
     [split; [reflexivity | eapply Hval; eauto] |]);
    (destruct (enclosing e) as [o |] eqn:Ho; [| split; reflexivity]);
    destruct (Hlink a e o Ha Ho) as [Hlt Hin]; [lia |].
  apply IH; [lia | exact Hin].
Qed.

Lemma sound_get (P : Heap -> Prop) a n :
  (forall h, P h -> is_Some (h !! a)) ->
  sound P (onHeap (Env.get a n)) okValue.
Proof.
  intros Hpre s Hwf HP. specialize (Hpre _ HP).
  pose proof (@getFrom_sound _ _ n (proj1 Hwf) a a (Nat.le_refl a) Hpre) as H.
  unfold onHeap, Env.get.
  destruct (Env.getFrom a a n (heap s)) as [v h' | t h' | r];
    [| | contradiction]; destruct H as [-> H]; rewrite setHeap_same;
    (split; [exact Hwf | split; [apply extends_refl |]]).
  - exact H.
  - subst t. exact I.
Qed.

Lemma sound_executeBlock (P : Heap -> Prop) (ex : Stmt -> Eval unit)
    statements env :
  stable P ->
  (forall h, P h -> is_Some (h !! env)) ->
  (forall st, In st statements -> sound P (ex st) (fun _ _ => True)) ->
  sound P (executeBlock ex statements env) (fun _ _ => True).
Proof.
  intros HP Henv Hex s [Hwf Hcur] HPs. rewrite executeBlock_outcome.
  pose proof (@sound_forEach _ P ex statements HP Hex (withEnvironment env s)
                (conj Hwf (Henv _ HPs)) HPs) as H.
  destruct (forEach ex statements (withEnvironment env s)) as [u s1 | t s1 | r];
    [| | exact H]; destruct H as ([Hwf1 _] & Hext & Hq);
    (split; [split; [exact Hwf1 | apply Hext; exact Hcur] |
             split; [exact Hext | exact Hq]]).
Qed.

(** *** The visitor *)

Lemma sound_any {A} (P : Heap -> Prop) (m : Eval A) (Q : Heap -> A -> Prop) :
  sound (fun _ => True) m Q -> sound P m Q.
Proof. apply sound_consequence; auto. Qed.

Lemma sound_pure_fact {A} (P : Heap -> Prop) (fact : Prop) (m : Eval A)
    (Q : Heap -> A -> Prop) :
  (forall h, P h -> fact) -> (fact -> sound P m Q) -> sound P m Q.
Proof. intros Hfact Hm s Hwf HP. apply Hm; eauto. Qed.

Lemma pure_ret v : primitive v -> pure (ret v).
Proof. intros H s. split; [reflexivity | exact H]. Qed.

Lemma pure_throw tok msg : pure (throw (RuntimeError tok msg)).
Proof. intros s. split; [reflexivity | eauto]. Qed.

Lemma pure_sound (P : Heap -> Prop) m : pure m -> sound P m okValue.
Proof.
  intros Hm s Hwf _. specialize (Hm s).
  destruct (m s) as [v s' | t s' | r]; [| | contradiction];
    destruct Hm as [-> H]; (split; [exact Hwf | split; [apply extends_refl |]]).
  - destruct v; try contradiction; exact I.
  - destruct H as (tok & msg & ->). exact I.
Qed.

Lemma binarySwitch_pure op L R : pure (binarySwitch op L R).
Proof.
  unfold binarySwitch, checkNumberOperands.
  destruct (type op);
    try (apply pure_ret; exact I);
    destruct L; try apply pure_throw;
    destruct R; try apply pure_throw;
    try (apply pure_ret; exact I);
    unfold_monad; cbv beta iota; cbn [fst snd];
    try (intros s; split; [reflexivity | exact I]).
  intros s. destruct (num_eqb _ _); (split; [reflexivity |]); [eauto | exact I].
Qed.

Lemma unarySwitch_pure op (v : Value) :
  pure (match type op with
        | MINUS => n ← checkNumberOperand op v; ret (VNumber (- n)%float)
        | NOT => ret (VBoolean (negb (isTruthy v)))
        | _ => ret VNull
        end).
Proof.
  unfold checkNumberOperand.
  destruct (type op); try (apply pure_ret; exact I).
  destruct v; unfold_monad; intros st; split; try reflexivity; eauto; exact I.
Qed.

Lemma sound_builtinCall (P : Heap -> Prop) b args :
  stable P -> sound P (builtinCall b args) okValue.
Proof.
  intros HP. destruct b; cbn [builtinCall].
  - eapply sound_bind; [exact HP | apply sound_consoleLog |].
    intros u. apply sound_ret. intros; exact I.
  - destruct (index args 0), (index args 1);
      try (apply sound_throw; intros; exact I).
    unfold arrayFrom. destruct (_ <? _)%Z; [apply sound_throw; intros; exact I |].
    eapply sound_bind; [exact HP | apply sound_fresh |].
    intros a. apply sound_ret. intros h _. cbn.
    induction (seqZ 0 _) as [| z l IH]; cbn; auto.
  - destruct (index args 0);
      first [apply sound_ret; intros; exact I | apply sound_throw; intros; exact I].
  - apply sound_ret. intros; exact I.
Qed.

Lemma All_In {A} (P : A -> Prop) l x : All P l -> In x l -> P x.
Proof.
  induction l as [| y l IH]; cbn; [contradiction |].
  intros [Hy Hl] [<- | Hin]; auto.
Qed.

Lemma All_lookup {A} (P : A -> Prop) (l : list A) i x :
  All P l -> l !! i = Some x -> P x.
Proof.
  intros H Hi. apply (All_In H). apply list_elem_of_In.
  eapply list_elem_of_lookup_2. exact Hi.
Qed.

Section SoundVisitor.

Variable evaluate : Expr -> Eval Value.
Variable execute : Stmt -> Eval unit.
Hypothesis sound_evaluate :
  forall e, plainExpr e -> sound (fun _ => True) (evaluate e) okValue.
Hypothesis sound_execute :
  forall st, plainStmt st -> sound (fun _ => True) (execute st) (fun _ _ => True).

Ltac stab :=
  repeat first [ assumption
               | apply stable_True
               | apply stable_okValue
               | apply stable_is_Some
               | apply stable_and
               | apply stable_All; intros ].

Ltac pre := let h := fresh "h" in intros h; cbn; intuition eauto.

Local Tactic Notation "step" ident(x) :=
  eapply sound_bind; [stab | | intros x].

Lemma sound_functionCall (P : Heap -> Prop) params body closure args :
  stable P ->
  (forall h, P h -> is_Some (h !! closure) /\ All (okValue h) args) ->
  All plainStmt body ->
  sound P (functionCall execute params body closure args) okValue.
Proof.
  intros HP Hpre Hbody. unfold functionCall.
  step env.
  { apply sound_newEnvironment. intros h H. apply Hpre, H. }
  step u.
  { apply sound_forEach; [stab |]. intros ip _. apply sound_define.
    intros h [HPh Henv]. split; [exact Henv |].
    destruct (Hpre _ HPh) as [_ Hargs]. unfold index.
    destruct (args !! ip.1) as [v |] eqn:Hv; [| exact I].
    exact (All_lookup Hargs Hv). }
  apply sound_tryCatch; [stab | |].
  - step u'.
    + apply sound_executeBlock; [stab | pre |].
      intros st Hst. apply sound_any, sound_execute.
      exact (All_In Hbody Hst).
    + apply sound_ret. intros; exact I.
  - intros [tok msg | v | e].
    + apply sound_throw. intros; exact I.
    + apply sound_ret. intros h [_ H]. exact H.
    + apply sound_throw. intros; exact I.
Qed.

Lemma sound_acceptExpr e :
  plainExpr e -> sound (fun _ => True) (acceptExpr evaluate execute e) okValue.
Proof.
  destruct e; cbn [acceptExpr plainExpr]; intros Hplain.
  - unfold visitBinaryExpr. destruct Hplain as [Hl Hr].
    step L. { apply sound_any, sound_evaluate, Hl. }
    step R. { apply sound_any, sound_evaluate, Hr. }
    apply pure_sound, binarySwitch_pure.
  - apply sound_evaluate, Hplain.
  - apply sound_ret. intros h _. destruct value; try contradiction; exact I.
  - unfold visitUnaryExpr.
    step R. { apply sound_any, sound_evaluate, Hplain. }
    apply pure_sound, unarySwitch_pure.
  - unfold visitVariableExpr.
    step env. { apply sound_getEnvironment. }
    apply sound_get. pre.
  - unfold visitAssignExpr.
    step v. { apply sound_any, sound_evaluate, Hplain. }
    step env. { apply sound_getEnvironment. }
    step u. { apply sound_assign. pre. }
    apply sound_ret. pre.
  - unfold visitCallExpr. destruct Hplain as [Hc Hargs].
    step f. { apply sound_any, sound_evaluate, Hc. }
    step argv.
    { apply sound_mapM; [stab | intros; apply stable_okValue |].
      intros x Hx. apply sound_any, sound_evaluate.
      eapply All_In; eauto. }
    destruct (getCall f) as [err | [func |]] eqn:Hcall;
      try (apply sound_throw; intros; exact I).
    destruct (bool_decide _); [apply sound_throw; intros; exact I |].
    destruct func as [params body closure | b]; cbn [call].
    + destruct f; try discriminate. cbn in Hcall. injection Hcall as -> -> ->.
      apply sound_pure_fact with (fact := All plainStmt body).
      { intros h [[_ [_ Hb]] _]. exact Hb. }
      intros Hbody. apply sound_functionCall; [stab | | exact Hbody].
      intros h [[_ [Hclo _]] Hargv]. auto.
    + apply sound_builtinCall. stab.
  - unfold visitArrayExpr.
    step elems.
    { apply sound_mapM; [stab | intros; apply stable_okValue |].
      intros x Hx. apply sound_any, sound_evaluate.
      eapply All_In; eauto. }
    step a. { apply sound_fresh. }
    apply sound_ret. pre.
Qed.

Lemma sound_acceptStmt st :
  plainStmt st ->
  sound (fun _ => True) (acceptStmt evaluate execute st) (fun _ _ => True).
Proof.
  destruct st; cbn [acceptStmt plainStmt]; intros Hplain.
  - unfold visitExpressionStmt.
    step v. { apply sound_any, sound_evaluate, Hplain. }
    apply sound_ret. trivial.
  - unfold visitFunctionStmt.
    step a. { apply sound_fresh. }
    step env. { apply sound_getEnvironment. }
    apply sound_define. intros h [_ Henv]. cbn. auto.
  - unfold visitIfStmt. destruct Hplain as (Hc & Ht & He).
    step c. { apply sound_any, sound_evaluate, Hc. }
    destruct (isTruthy c); [apply sound_any, sound_execute, Ht |].
    destruct elseBranch; [apply sound_any, sound_execute, He |].
    apply sound_ret. trivial.
  - unfold visitLetStmt.
    step v.
    { destruct initializer; [apply sound_any, sound_evaluate, Hplain |].
      apply sound_ret. intros; exact I. }
    step env. { apply sound_getEnvironment. }
    apply sound_define. pre.
  - unfold visitReturnStmt.
    step v.
    { destruct value; [apply sound_any, sound_evaluate, Hplain |].
      apply sound_ret. intros; exact I. }
    apply sound_throw. pre.
  - unfold visitWhileStmt. destruct Hplain as [Hc Hb].
    step c. { apply sound_any, sound_evaluate, Hc. }
    destruct (isTruthy c); [| apply sound_ret; trivial].
    step u. { apply sound_any, sound_execute, Hb. }
    apply sound_any, sound_execute. cbn. auto.
  - unfold visitBlockStmt.
    step cur. { apply sound_getEnvironment. }
    step env. { apply sound_newEnvironment. pre. }
    apply sound_executeBlock; [stab | pre |].
    intros st' Hst. apply sound_any, sound_execute. exact (All_In Hplain Hst).
  - unfold visitForStmt. destruct Hplain as [Hi Hb].
    step it. { apply sound_any, sound_evaluate, Hi. }
    destruct it; try (apply sound_throw; intros; exact I).
    step cur. { apply sound_getEnvironment. }
    step env. { apply sound_newEnvironment. pre. }
    apply sound_forEach; [stab |]. intros v Hv.
    step u.
    { apply sound_define. intros h [[[_ Hit] _] Henv]. split; [exact Henv |].
      cbn in Hit. exact (All_In Hit Hv). }
    apply sound_executeBlock; [stab | pre |].
    intros st' [<- | []]. apply sound_any, sound_execute, Hb.
Qed.

End SoundVisitor.

(** From a well-formed state, a plain expression or statement never
    follows a dangling address; when it ends, the state is well-formed
    and the store has only grown. *)
Lemma sound_evaluate_execute fuel :
  (forall e, plainExpr e -> sound (fun _ => True) (evaluate fuel e) okValue)
  /\ (forall st, plainStmt st ->
                 sound (fun _ => True) (execute fuel st) (fun _ _ => True)).
Proof.
  induction fuel as [| n [IHe IHs]]; split; intros x Hx; cbn [evaluate execute].
  - apply sound_stuck.
  - apply sound_stuck.
  - apply sound_acceptExpr; assumption.
  - apply sound_acceptStmt; assumption.
Qed.

Lemma newInterpreter_wf : wf newInterpreter.
Proof.
  split; [| vm_compute; eauto]. split; [| split].
  - exact newInterpreter_allocated.
  - intros a e o Ha Ho. cbn in Ha.
    destruct (decide (a = 0)) as [-> | Hne].
    + rewrite lookup_singleton_eq in Ha. injection Ha as <-. discriminate.
    + rewrite lookup_singleton_ne in Ha by congruence. discriminate.
  - intros a e k v Ha Hk. cbn in Ha.
    destruct (decide (a = 0)) as [-> | Hne].
    + rewrite lookup_singleton_eq in Ha. injection Ha as <-. cbn in Hk.
      repeat (apply lookup_insert_Some in Hk as [[_ <-] | [_ Hk]]; [exact I |]).
      rewrite lookup_empty in Hk. discriminate.
    + rewrite lookup_singleton_ne in Ha by congruence. discriminate.
Qed.

(** Whatever [interpret] is given, from the state of a new interpreter or
    from a state that earlier programs have left, it either ends in a
    well-formed state or exceeds the depth; no address it follows is
    dangling. *)
Lemma interpret_never_dangles fuel statements s :
  wf s -> All plainStmt statements ->
  match interpret fuel statements s with
  | Normal _ s' | Abrupt _ s' => wf s'
  | NoOutcome r => r = OutOfFuel
  end.
Proof.
  intros Hwf Hplain.
  assert (H : sound (fun _ => True) (interpret fuel statements) (fun _ _ => True)).
  { unfold interpret. apply sound_tryCatch; [apply stable_True | |].
    - apply sound_forEach; [apply stable_True |]. intros st Hst.
      apply (sound_evaluate_execute fuel). exact (All_In Hplain Hst).
    - intros [tok msg | v | e]; apply sound_throw; intros h [_ H]; exact H || exact I. }
  specialize (H s Hwf I).
  destruct (interpret fuel statements s); [| | exact H]; apply H.
Qed.


(** ** The parser makes plain trees *)

Lemma All_app {A} (P : A -> Prop) l1 l2 : All P (l1 ++ l2) <-> All P l1 /\ All P l2.
Proof. rewrite !All_Forall. apply Forall_app. Qed.

Lemma yields_ret {A} (Q : A -> Prop) a : Q a -> yields Q (ret a).
Proof. intros H c. exact H. Qed.

Lemma yields_throw {A} (Q : A -> Prop) e : yields Q (throw e).
Proof. intros c. exact I. Qed.

Lemma yields_stuck {A} (Q : A -> Prop) : yields Q (stuck OutOfFuel).
Proof. intros c. reflexivity. Qed.

Lemma yields_weaken {A} (Q Q' : A -> Prop) (m : Parser.Parse A) :
  (forall a, Q a -> Q' a) -> yields Q m -> yields Q' m.
Proof.
  intros HQ Hm c. specialize (Hm c). destruct (m c); auto.
Qed.

Lemma yields_bind {A B} (Q : A -> Prop) (Q' : B -> Prop) (m : Parser.Parse A) k :
  yields Q m -> (forall a, Q a -> yields Q' (k a)) -> yields Q' (bind m k).
Proof.
  intros Hm Hk c. unfold bind. specialize (Hm c).
  destruct (m c) as [a c1 | e c1 | r]; trivial. apply (Hk a Hm).
Qed.


Lemma yields_tryCatch {A} (Q : A -> Prop) (m : Parser.Parse A) hd :
  yields Q m -> (forall e, yields Q (hd e)) -> yields Q (tryCatch m hd).
Proof.
  intros Hm Hh c. unfold tryCatch. specialize (Hm c).
  destruct (m c) as [a c1 | e c1 | r]; trivial. apply Hh.
Qed.

Create HintDb yields.

Section PlainParser.

Variable tokens : list Token.

Lemma peek_yields : yields (fun _ => True) (Parser.peek tokens).
Proof. intros c. unfold Parser.peek. destruct (tokens !! c); exact I. Qed.

Lemma previous_yields : yields (fun _ => True) (Parser.previous tokens).
Proof.
  intros [| c]; unfold Parser.previous; [exact I |].
  destruct (tokens !! c); exact I.
Qed.

Lemma isAtEnd_yields : yields (fun _ => True) (Parser.isAtEnd tokens).
Proof.
  unfold Parser.isAtEnd. eapply yields_bind; [apply peek_yields |].
  intros t _. apply yields_ret. exact I.
Qed.

Lemma check_yields ty : yields (fun _ => True) (Parser.check tokens ty).
Proof.
  unfold Parser.check. eapply yields_bind; [apply isAtEnd_yields |].
  intros e _. destruct e; [apply yields_ret; exact I |].
  eapply yields_bind; [apply peek_yields |]. intros t _.
  apply yields_ret. exact I.
Qed.

Lemma advance_yields : yields (fun _ => True) (Parser.advance tokens).
Proof.
  unfold Parser.advance. eapply yields_bind; [apply isAtEnd_yields |].
  intros e _. destruct e; [apply yields_ret; exact I |]. intros c. exact I.
Qed.

Lemma Pmatch_yields types : yields (fun _ => True) (Parser.Pmatch tokens types).
Proof.
  induction types as [| ty rest IH]; cbn [Parser.Pmatch];
    [apply yields_ret; exact I |].
  eapply yields_bind; [apply check_yields |]. intros c _.
  destruct c; [| exact IH].
  eapply yields_bind; [apply advance_yields |]. intros u _.
  apply yields_ret. exact I.
Qed.

Lemma errorAtPeek_yields {A} (Q : A -> Prop) msg :
  yields Q (Parser.errorAtPeek tokens msg).
Proof.
  unfold Parser.errorAtPeek. eapply yields_bind; [apply peek_yields |].
  intros t _. apply yields_throw.
Qed.

Lemma consume_yields ty msg : yields (fun _ => True) (Parser.consume tokens ty msg).
Proof.
  unfold Parser.consume. eapply yields_bind; [apply check_yields |].
  intros c _. destruct c; [| apply errorAtPeek_yields].
  eapply yields_bind; [apply advance_yields |]. intros u _.
  apply previous_yields.
Qed.

Lemma synchronize_yields : yields (fun _ => True) (Parser.synchronize tokens).
Proof.
  unfold Parser.synchronize. eapply yields_bind; [apply advance_yields |].
  intros u _. induction (List.length tokens) as [| n IH];
    cbn [Parser.synchronizeLoop];
    (eapply yields_bind; [apply isAtEnd_yields |]; intros e _;
     destruct e; [apply yields_ret; exact I |]).
  - apply yields_stuck.
  - eapply yields_bind; [apply previous_yields |]. intros p _.
    destruct (bool_decide _); [apply yields_ret; exact I |].
    eapply yields_bind; [apply peek_yields |]. intros t _.
    destruct (bool_decide _); [apply yields_ret; exact I |].
    eapply yields_bind; [apply advance_yields |]. intros u' _. exact IH.
Qed.

Lemma atMost255_yields {A} (acc : list A) :
  yields (fun _ => True) (Parser.atMost255 tokens acc).
Proof.
  unfold Parser.atMost255. destruct (bool_decide _);
    [apply errorAtPeek_yields | apply yields_ret; exact I].
Qed.

#[local] Hint Resolve peek_yields previous_yields isAtEnd_yields check_yields
  advance_yields Pmatch_yields consume_yields synchronize_yields
  atMost255_yields : yields.

Local Tactic Notation "bind" ident(x) :=
  eapply yields_bind; [solve [auto with yields] | intros x _].

Local Tactic Notation "bind" ident(x) "with" constr(post) ident(H) :=
  apply (@yields_bind _ _ post); [| intros x H].

Lemma commaLoop_yields {A} (P : A -> Prop) guard item turns :
  (forall acc, yields (fun _ => True) (guard acc)) ->
  yields P item ->
  forall acc, All P acc -> yields (All P) (Parser.commaLoop tokens guard item turns acc).
Proof.
  intros Hguard Hitem. induction turns as [| n IH]; intros acc Hacc;
    cbn [Parser.commaLoop];
    (eapply yields_bind; [apply Hguard | intros u _];
     bind x with P Hx; [exact Hitem |]; bind m;
     assert (Hnew : All P (acc ++ [x]))
       by (apply All_app; cbn; auto);
     destruct m; [| apply yields_ret; exact Hnew]).
  - apply yields_stuck.
  - apply IH, Hnew.
Qed.

Lemma binaryLoop_yields types operand turns :
  yields plainExpr operand ->
  forall expr, plainExpr expr ->
               yields plainExpr (Parser.binaryLoop tokens types operand turns expr).
Proof.
  intros Hop. induction turns as [| n IH]; intros expr Hexpr;
    cbn [Parser.binaryLoop]; bind m;
    (destruct m; [| apply yields_ret; exact Hexpr]).
  - apply yields_stuck.
  - bind operator. bind right with plainExpr Hr; [exact Hop |].
    apply IH. cbn. auto.
Qed.

Lemma binary_yields types operand :
  yields plainExpr operand -> yields plainExpr (Parser.binary tokens types operand).
Proof.
  intros Hop. unfold Parser.binary.
  bind expr with plainExpr He; [exact Hop |].
  apply binaryLoop_yields; assumption.
Qed.

Variable expression : Parser.Parse Expr.
Variable assignmentRec : Parser.Parse Expr.
Variable unaryRec : Parser.Parse Expr.
Variable declaration : Parser.Parse Stmt.
Variable statementRec : Parser.Parse Stmt.
Hypothesis expression_plain : yields plainExpr expression.
Hypothesis assignmentRec_plain : yields plainExpr assignmentRec.
Hypothesis unaryRec_plain : yields plainExpr unaryRec.
Hypothesis declaration_plain : yields plainStmt declaration.
Hypothesis statementRec_plain : yields plainStmt statementRec.

Lemma primary_yields : yields plainExpr (Parser.primary tokens expression).
Proof.
  unfold Parser.primary.
  bind m. destruct m; [apply yields_ret; exact I |].
  bind m. destruct m; [apply yields_ret; exact I |].
  bind m. destruct m; [apply yields_ret; exact I |].
  bind m. destruct m.
  { bind p. apply yields_ret. cbn. destruct (literal p); exact I. }
  bind m. destruct m.
  { bind c.
    bind elements with (All plainExpr) Hel.
    { destruct c; [apply yields_ret; exact I |].
      apply commaLoop_yields;
        [intros; apply yields_ret; exact I | exact expression_plain | exact I]. }
    bind t. apply yields_ret. exact Hel. }
  bind m. destruct m; [bind p; apply yields_ret; exact I |].
  bind m. destruct m.
  { bind expr with plainExpr He; [exact expression_plain |].
    bind t. apply yields_ret. exact He. }
  apply errorAtPeek_yields.
Qed.

Lemma finishCall_yields callee :
  plainExpr callee ->
  yields plainExpr (Parser.finishCall tokens expression callee).
Proof.
  intros Hc. unfold Parser.finishCall. bind c.
  bind args with (All plainExpr) Hargs.
  { destruct c; [apply yields_ret; exact I |].
    apply commaLoop_yields;
      [intros; apply atMost255_yields | exact expression_plain | exact I]. }
  bind paren. apply yields_ret. cbn. auto.
Qed.

Lemma callLoop_yields turns :
  forall expr, plainExpr expr ->
               yields plainExpr (Parser.callLoop tokens expression turns expr).
Proof.
  induction turns as [| n IH]; intros expr Hexpr; cbn [Parser.callLoop];
    bind m; (destruct m; [| apply yields_ret; exact Hexpr]).
  - apply yields_stuck.
  - bind expr' with plainExpr He; [apply finishCall_yields; exact Hexpr |].
    apply IH, He.
Qed.

Lemma unary_yields : yields plainExpr (Parser.unary tokens expression unaryRec).
Proof.
  unfold Parser.unary. bind m. destruct m.
  - bind operator. bind right with plainExpr Hr; [exact unaryRec_plain |].
    apply yields_ret. exact Hr.
  - unfold Parser.call.
    bind expr with plainExpr He; [apply primary_yields |].
    apply callLoop_yields, He.
Qed.

Lemma assignment_yields :
  yields plainExpr (Parser.assignment tokens expression assignmentRec unaryRec).
Proof.
  unfold Parser.assignment.
  bind expr with plainExpr He.
  { unfold Parser.or, Parser.and, Parser.equality, Parser.comparison,
      Parser.term, Parser.factor.
    repeat apply binary_yields. apply unary_yields. }
  bind m. destruct m; [| apply yields_ret; exact He].
  bind equals. bind value with plainExpr Hv; [exact assignmentRec_plain |].
  destruct expr; first [apply yields_throw | apply yields_ret; exact Hv].
Qed.

Lemma blockLoop_yields turns :
  forall acc, All plainStmt acc ->
              yields (All plainStmt) (Parser.blockLoop tokens declaration turns acc).
Proof.
  induction turns as [| n IH]; intros acc Hacc; cbn [Parser.blockLoop];
    bind c; (destruct c; [apply yields_ret; exact Hacc |]);
    bind e; (destruct e; [apply yields_ret; exact Hacc |]).
  - apply yields_stuck.
  - bind d with plainStmt Hd; [exact declaration_plain |].
    apply IH. apply All_app. cbn. auto.
Qed.

Lemma block_yields : yields (All plainStmt) (Parser.block tokens declaration).
Proof.
  unfold Parser.block.
  bind statements with (All plainStmt) Hs; [apply blockLoop_yields; exact I |].
  bind t. apply yields_ret. exact Hs.
Qed.

Lemma statement_yields :
  yields plainStmt (Parser.statement tokens expression declaration statementRec).
Proof.
  unfold Parser.statement.
  bind m. destruct m.
  { unfold Parser.ifStatement. bind t.
    bind condition with plainExpr Hc; [exact expression_plain |].
    bind t'. bind thenBranch with plainStmt Ht; [exact statementRec_plain |].
    bind m.
    bind elseBranch with (fun e : option Stmt =>
                            match e with Some s => plainStmt s | None => True end) He.
    { destruct m; [| apply yields_ret; exact I].
      bind s with plainStmt Hs; [exact statementRec_plain |].
      apply yields_ret. exact Hs. }
    apply yields_ret. cbn. auto. }
  bind m. destruct m.
  { unfold Parser.forStatement. bind variable. bind t.
    bind iterable with plainExpr Hi; [exact expression_plain |].
    bind body with plainStmt Hb; [exact statementRec_plain |].
    apply yields_ret. cbn. auto. }
  bind m. destruct m.
  { unfold Parser.returnStatement. bind keyword. bind c.
    bind value with (fun e : option Expr =>
                       match e with Some x => plainExpr x | None => True end) Hv.
    { destruct c; [apply yields_ret; exact I |].
      bind e with plainExpr He; [exact expression_plain |].
      apply yields_ret. exact He. }
    apply yields_ret. exact Hv. }
  bind m. destruct m.
  { bind b with (All plainStmt) Hb; [apply block_yields |].
    apply yields_ret. exact Hb. }
  unfold Parser.expressionStatement.
  bind expr with plainExpr He; [exact expression_plain |].
  apply yields_ret. exact He.
Qed.

Lemma declarationBody_yields :
  yields plainStmt
    (Parser.declarationBody tokens expression declaration statementRec).
Proof.
  unfold Parser.declarationBody. apply yields_tryCatch.
  - bind m. destruct m.
    { unfold Parser.function. bind name. bind t. bind c.
      bind parameters with (fun _ : list Token => True) Hp.
      { destruct c; [apply yields_ret; exact I |].
        eapply yields_weaken;
          [| apply commaLoop_yields with (P := fun _ : Token => True);
             [intros; apply atMost255_yields | apply consume_yields | exact I]].
        trivial. }
      bind t1. bind t2.
      bind body with (All plainStmt) Hb; [apply block_yields |].
      apply yields_ret. exact Hb. }
    bind m. destruct m.
    { unfold Parser.letDeclaration. bind name. bind m.
      bind initializer with (fun e : option Expr =>
                               match e with Some x => plainExpr x | None => True end) Hv.
      { destruct m; [| apply yields_ret; exact I].
        bind e with plainExpr He; [exact expression_plain |].
        apply yields_ret. exact He. }
      apply yields_ret. exact Hv. }
    apply statement_yields.
  - intros e. bind u. apply yields_throw.
Qed.

End PlainParser.

Lemma expression_yields tokens fuel :
  yields plainExpr (Parser.expression tokens fuel)
  /\ yields plainExpr (Parser.assignmentF tokens fuel)
  /\ yields plainExpr (Parser.unaryF tokens fuel).
Proof.
  induction fuel as [| n (IH1 & IH2 & IH3)]; repeat split; intros c;
    cbn [Parser.expression Parser.assignmentF Parser.unaryF];
    try reflexivity.
  - apply assignment_yields; assumption.
  - apply assignment_yields; assumption.
  - apply unary_yields; assumption.
Qed.

Lemma declaration_yields tokens fuel :
  yields plainStmt (Parser.declaration tokens fuel)
  /\ yields plainStmt (Parser.statementF tokens fuel).
Proof.
  induction fuel as [| n (IH1 & IH2)]; repeat split; intros c;
    cbn [Parser.declaration Parser.statementF]; try reflexivity.
  - apply declarationBody_yields; try assumption.
    apply (expression_yields tokens n).
  - apply statement_yields; try assumption.
    apply (expression_yields tokens n).
Qed.

(** Every statement that [parse] returns is plain, and [parse] has no
    outcome only when it exceeds the depth. *)
Lemma parse_plain fuel tokens :
  match Parser.parse fuel tokens with
  | Normal statements _ => All plainStmt statements
  | Abrupt _ _ => True
  | NoOutcome r => r = OutOfFuel
  end.
Proof.
  unfold Parser.parse.
  assert (H : forall turns acc,
             All plainStmt acc ->
             yields (All plainStmt) (Parser.parseLoop tokens fuel turns acc)).
  { induction turns as [| n IH]; intros acc Hacc; cbn [Parser.parseLoop];
      (eapply yields_bind; [apply isAtEnd_yields | intros e _]);
      (destruct e; [apply yields_ret; exact Hacc |]).
    - apply yields_stuck.
    - apply yields_bind with (Q := plainStmt);
        [apply (declaration_yields tokens fuel) | intros d Hd].
      apply IH. apply All_app. cbn. auto. }
  exact (H (List.length tokens) [] I 0).
Qed.

(** [run] never follows a dangling address: from a well-formed state of
    the interpreter it ends in one, unless the depth is exceeded. *)
Lemma run_never_dangles fuel src vs :
  wf (interpreter vs) ->
  match run fuel src vs with
  | inl r => r = OutOfFuel
  | inr vs' => wf (interpreter vs')
  end.
Proof.
  intros Hwf. unfold run.
  destruct (scanTokens (Lexer.new src)) as [toks l | e |] eqn:Hlex.
  - pose proof (parse_plain fuel toks) as Hparse.
    destruct (Parser.parse fuel toks) as [statements c | e c | r].
    + pose proof (@interpret_never_dangles fuel statements (interpreter vs) Hwf
                    Hparse) as H.
      destruct (interpret fuel statements (interpreter vs)) as [u i | t i | r];
        [exact H | | exact H].
      unfold runCatch. destruct (instanceofError t); exact H.
    + unfold runCatch. cbn. exact Hwf.
    + exact Hparse.
  - unfold runCatch. cbn. exact Hwf.
  - reflexivity.
Qed.

(** ** Reading a variable *)

Lemma contains_binding h name a :
  contains h name a = true <-> is_Some (binding h a name).
Proof.
  unfold contains, binding. destruct (h !! a) as [e |].
  - apply has_true.
  - split; [discriminate | intros [? ?]; discriminate].
Qed.

Lemma getFrom_nearest h name depth :
  forall a chain d,
    scopesFrom depth h a = Some chain -> a <= d ->
    Env.getFrom d a name h =
    match nearest h chain (lexeme name) with
    | Some b =>
        match binding h b (lexeme name) with
        | Some v => Normal v h
        | None => NoOutcome Dangling
        end
    | None => Abrupt (Env.undefinedVariable name) h
    end.
Proof.
  induction depth as [| depth IH]; intros a chain d Hchain Hd;
    cbn [scopesFrom] in Hchain;
    destruct (h !! a) as [[vals [outer |]] |] eqn:Ha; try discriminate;
    cbn [enclosing] in Hchain.
  - destruct (bool_decide (outer < a)); discriminate.
  - injection Hchain as <-. unfold nearest. cbn [List.find].
    unfold contains, binding, Env.has. rewrite Ha. cbn [values].
    destruct d; cbn [Env.getFrom]; rewrite Ha; cbn [enclosing values];
      destruct (vals !! lexeme name) as [v |] eqn:Hv;
      rewrite ?bool_decide_eq_true_2 by eauto;
      rewrite ?bool_decide_eq_false_2 by (intros [? ?]; discriminate);
      rewrite ?Ha; cbn [values]; rewrite ?Hv; reflexivity.
  - destruct (bool_decide (outer < a)) eqn:Hlt; [| discriminate].
    apply bool_decide_eq_true in Hlt.
    destruct (scopesFrom depth h outer) as [rest |] eqn:Hrest; [| discriminate].
    injection Hchain as <-. unfold nearest. cbn [List.find].
    unfold contains at 1, Env.has. rewrite Ha. cbn [values].
    destruct d as [| d]; [lia |].
    cbn [Env.getFrom]. rewrite Ha. cbn [enclosing values].
    destruct (vals !! lexeme name) as [v |] eqn:Hv.
    + rewrite bool_decide_eq_true_2 by eauto.
      unfold binding. rewrite Ha. cbn [values]. rewrite Hv. reflexivity.
    + rewrite bool_decide_eq_false_2 by (intros [? ?]; discriminate).
      apply (IH outer rest d Hrest). lia.
  - injection Hchain as <-. unfold nearest. cbn [List.find].
    unfold contains, binding, Env.has. rewrite Ha. cbn [values].
    destruct d; cbn [Env.getFrom]; rewrite Ha; cbn [enclosing values];
      destruct (vals !! lexeme name) as [v |] eqn:Hv;
      rewrite ?bool_decide_eq_true_2 by eauto;
      rewrite ?bool_decide_eq_false_2 by (intros [? ?]; discriminate);
      rewrite ?Ha; cbn [values]; rewrite ?Hv; reflexivity.
Qed.

(** X1: along the chain of scopes of an environment, [get] returns the value
    that the nearest scope containing the name binds to it, whatever the
    enclosing scopes bind; when no scope of the chain contains the name it
    throws 未定义的变量 'name' at the name token. The store is left as it
    was in both cases. *)
Theorem get_reads_nearest_binding h this chain name :
  scopes h this = Some chain ->
  match nearest h chain (lexeme name) with
  | Some b =>
      exists v, binding h b (lexeme name) = Some v
                /\ Env.get this name h = Normal v h
  | None =>
      Env.get this name h =
      Abrupt (RuntimeError name (js "未定义的变量 '" ++ lexeme name ++ js "'")) h
  end.
Proof.
  intros Hchain. unfold Env.get.
  rewrite (@getFrom_nearest h name this this chain this Hchain (Nat.le_refl this)).
  destruct (nearest h chain (lexeme name)) as [b |] eqn:Hb; [| reflexivity].
  destruct (nearest_in_chain Hb) as [_ Hc].
  apply contains_binding in Hc as [v Hv]. exists v. rewrite Hv. auto.
Qed.

(** From the child scope, [y] is read there, [x] in the global scope, and
    [z] is undefined. *)
Lemma get_reads_nearest_binding_witness :
  Env.get 1 (nameToken "y") twoScopes = Normal (VNumber 2) twoScopes
  /\ Env.get 1 (nameToken "x") twoScopes = Normal (VNumber 1) twoScopes
  /\ Env.get 1 (nameToken "z") twoScopes
     = Abrupt (RuntimeError (nameToken "z") (js "未定义的变量 'z'")) twoScopes.
Proof.
  pose proof (@get_reads_nearest_binding twoScopes 1 [1; 0] (nameToken "y") eq_refl)
    as Hy.
  pose proof (@get_reads_nearest_binding twoScopes 1 [1; 0] (nameToken "x") eq_refl)
    as Hx.
  pose proof (@get_reads_nearest_binding twoScopes 1 [1; 0] (nameToken "z") eq_refl)
    as Hz.
  vm_compute in Hy, Hx, Hz.
  destruct Hy as (vy & [= <-] & Hy), Hx as (vx & [= <-] & Hx).
  vm_compute. auto.
Defined.

Lemma scopesFrom_links h h' :
  (forall a, link h' a = link h a) ->
  forall depth a, scopesFrom depth h' a = scopesFrom depth h a.
Proof.
  intros Hl. induction depth as [| d IH]; intros a; cbn [scopesFrom];
    specialize (Hl a); unfold link in Hl;
    destruct (h' !! a) as [e' |], (h !! a) as [e |]; try discriminate;
    try reflexivity; injection Hl as ->; try reflexivity.
  destruct (enclosing e) as [outer |]; [| reflexivity].
  rewrite IH. reflexivity.
Qed.

Lemma binding_overwrite h b name v a k :
  contains h name b = true ->
  binding (overwrite b name v h) a k =
  if decide (a = b /\ k = name) then Some v else binding h a k.
Proof.
  unfold contains, overwrite, binding.
  destruct (h !! b) as [e |] eqn:Hb; [| discriminate]. intros _.
  destruct (decide (a = b)) as [-> | Hne].
  - rewrite lookup_insert_eq, Hb. cbn [values].
    destruct (decide (k = name)) as [-> | Hk].
    + rewrite lookup_insert_eq, decide_True by auto. reflexivity.
    + rewrite lookup_insert_ne, decide_False by (try tauto; congruence).
      reflexivity.
  - rewrite lookup_insert_ne, decide_False by (try tauto; congruence).
    reflexivity.
Qed.

Lemma contains_overwrite h b name v a k :
  contains h name b = true ->
  contains (overwrite b name v h) k a = contains h k a.
Proof.
  intros Hb. apply eq_true_iff_eq. rewrite !contains_binding.
  rewrite binding_overwrite by assumption.
  destruct (decide _) as [[-> ->] |]; [| reflexivity].
  apply contains_binding in Hb. split; eauto.
Qed.

Lemma nearest_overwrite h b name v chain k :
  contains h name b = true ->
  nearest (overwrite b name v h) chain k = nearest h chain k.
Proof.
  intros Hb. unfold nearest. induction chain as [| a chain IH]; cbn [List.find].
  - reflexivity.
  - rewrite contains_overwrite by assumption. rewrite IH. reflexivity.
Qed.

Lemma link_overwrite_at h b name v a :
  link (overwrite b name v h) a = link h a.
Proof.
  unfold overwrite. destruct (h !! b) as [e |] eqn:Hb; [| reflexivity].
  apply link_overwrite. assumption.
Qed.

(** X2: after [assign] has succeeded, [get] of the same name from the same
    environment returns the value assigned, and [get] of any other name
    returns or throws what it did before the assignment. *)
Theorem assign_then_get h this chain name v h' :
  scopes h this = Some chain ->
  Env.assign this name v h = Normal tt h' ->
  Env.get this name h' = Normal v h'
  /\ forall other,
       lexeme other <> lexeme name ->
       Env.get this other h' =
       match Env.get this other h with
       | Normal w _ => Normal w h'
       | Abrupt t _ => Abrupt t h'
       | NoOutcome r => NoOutcome r
       end.
Proof.
  intros Hchain. unfold Env.assign.
  rewrite (@assignFrom_nearest h name v this this chain this Hchain
             (Nat.le_refl this)).
  destruct (nearest h chain (lexeme name)) as [b |] eqn:Hb; [| discriminate].
  intros [= <-]. destruct (nearest_in_chain Hb) as [_ Hc].
  assert (Hchain' : scopesFrom this (overwrite b (lexeme name) v h) this
                    = Some chain).
  { rewrite (@scopesFrom_links h) by (intros; apply link_overwrite_at).
    exact Hchain. }
  unfold Env.get. split.
  - rewrite (getFrom_nearest name Hchain' (Nat.le_refl this)).
    rewrite nearest_overwrite, Hb by assumption.
    rewrite binding_overwrite, decide_True by auto. reflexivity.
  - intros other Hother.
    rewrite (getFrom_nearest other Hchain' (Nat.le_refl this)).
    rewrite (getFrom_nearest other Hchain (Nat.le_refl this)).
    rewrite nearest_overwrite by assumption.
    destruct (nearest h chain (lexeme other)) as [c |]; [| reflexivity].
    rewrite binding_overwrite, decide_False by tauto.
    destruct (binding h c (lexeme other)); reflexivity.
Qed.

(** From the child scope, [x = 5] is read back as 5 and [y] is still 2. *)
Lemma assign_then_get_witness :
  Env.get 1 (nameToken "x") (overwrite 0 (js "x") (VNumber 5) twoScopes)
  = Normal (VNumber 5) (overwrite 0 (js "x") (VNumber 5) twoScopes)
  /\ Env.get 1 (nameToken "y") (overwrite 0 (js "x") (VNumber 5) twoScopes)
     = Normal (VNumber 2) (overwrite 0 (js "x") (VNumber 5) twoScopes).
Proof.
  assert (Ha : Env.assign 1 (nameToken "x") (VNumber 5) twoScopes
               = Normal tt (overwrite 0 (js "x") (VNumber 5) twoScopes))
    by (vm_compute; reflexivity).
  destruct (@assign_then_get twoScopes 1 [1; 0] (nameToken "x") (VNumber 5) _
              eq_refl Ha) as [Hx Hy].
  split; [exact Hx |].
  rewrite (Hy (nameToken "y")) by (vm_compute; discriminate).
  vm_compute. reflexivity.
Defined.

(** X3: [define] on an environment of the store always succeeds, also when
    the name is already bound there; [get] from that environment then
    returns the value defined, whatever the enclosing scopes bind; no other
    binding of the store and no link between environments is changed. *)
Theorem define_then_get h a e name v :
  h !! a = Some e ->
  exists h',
    Env.define a (lexeme name) v h = Normal tt h'
    /\ Env.get a name h' = Normal v h'
    /\ (forall b k, (b, k) <> (a, lexeme name) -> binding h' b k = binding h b k)
    /\ (forall b, link h' b = link h b).
Proof.
  intros Ha. eexists. unfold Env.define. rewrite Ha.
  split; [reflexivity |]. split; [| split].
  - unfold Env.get. destruct a; cbn [Env.getFrom];
      rewrite lookup_insert_eq; cbn [values]; rewrite lookup_insert_eq;
      reflexivity.
  - intros b k Hne. unfold binding.
    destruct (decide (b = a)) as [-> | Hb].
    + rewrite lookup_insert_eq, Ha. cbn [values].
      rewrite lookup_insert_ne by congruence. reflexivity.
    + rewrite lookup_insert_ne by congruence. reflexivity.
  - intros b. apply link_overwrite. assumption.
Qed.

(** In the child scope, [就是 x = 7] shadows the global [x]. *)
Lemma define_then_get_witness :
  exists h',
    Env.define 1 (js "x") (VNumber 7) twoScopes = Normal tt h'
    /\ Env.get 1 (nameToken "x") h' = Normal (VNumber 7) h'
    /\ binding h' 0 (js "x") = Some (VNumber 1).
Proof.
  destruct (@define_then_get twoScopes 1 _ (nameToken "x") (VNumber 7) eq_refl)
    as (h' & Hd & Hg & Hb & _).
  exists h'. split; [exact Hd |]. split; [exact Hg |].
  rewrite Hb by (vm_compute; discriminate). vm_compute. reflexivity.
Defined.

(** ** What the evaluator throws *)

Section Throws.

Variable T : Thrown -> Prop.

Lemma throwsOnly_ret {A} (a : A) : throwsOnly T (ret a).
Proof. intros s t s'. discriminate. Qed.

Lemma throwsOnly_throw {A} t : T t -> throwsOnly T (throw t : Eval A).
Proof. intros Ht s t' s' [= <- _]. exact Ht. Qed.

Lemma throwsOnly_stuck {A} r : throwsOnly T (stuck r : Eval A).
Proof. intros s t s'. discriminate. Qed.

Lemma throwsOnly_gets {A} (f : Interp -> A) : throwsOnly T (gets f).
Proof. intros s t s'. discriminate. Qed.

Lemma throwsOnly_modify f : throwsOnly T (modify f : Eval unit).
Proof. intros s t s'. discriminate. Qed.

Lemma throwsOnly_bind {A B} (m : Eval A) (k : A -> Eval B) :
  throwsOnly T m -> (forall a, throwsOnly T (k a)) -> throwsOnly T (bind m k).
Proof.
  intros Hm Hk s t s'. unfold bind.
  destruct (m s) as [a s1 | t1 s1 | r] eqn:E; [| | discriminate].
  - apply Hk.
  - intros [= <- _]. apply (Hm _ _ _ E).
Qed.

Lemma throwsOnly_forEach {A} (f : A -> Eval unit) l :
  (forall x, throwsOnly T (f x)) -> throwsOnly T (forEach f l).
Proof.
  intros Hf. induction l as [| x l IH]; cbn [forEach].
  - apply throwsOnly_ret.
  - apply throwsOnly_bind; auto.
Qed.

Lemma throwsOnly_mapM {A B} (f : A -> Eval B) l :
  (forall x, throwsOnly T (f x)) -> throwsOnly T (mapM f l).
Proof.
  intros Hf. induction l as [| x l IH]; cbn [mapM].
  - apply throwsOnly_ret.
  - apply throwsOnly_bind; [auto |]. intros y.
    apply throwsOnly_bind; [auto |]. intros ys. apply throwsOnly_ret.
Qed.

Lemma throwsOnly_tryCatch {A} (m : Eval A) h :
  throwsOnly T m -> (forall t, T t -> throwsOnly T (h t)) ->
  throwsOnly T (tryCatch m h).
Proof.
  intros Hm Hh s t s'. unfold tryCatch.
  destruct (m s) as [a s1 | t1 s1 | r] eqn:E; try discriminate.
  apply Hh. apply (Hm _ _ _ E).
Qed.

Lemma throwsOnly_executeBlock (ex : Stmt -> Eval unit) statements env :
  (forall st, throwsOnly T (ex st)) ->
  throwsOnly T (executeBlock ex statements env).
Proof.
  intros Hex s t s'. rewrite executeBlock_outcome.
  destruct (forEach ex statements (withEnvironment env s)) as [a s1 | t1 s1 | r]
    eqn:E; try discriminate.
  intros [= <- _]. apply (throwsOnly_forEach Hex E).
Qed.

Lemma throwsOnly_fresh : throwsOnly T fresh.
Proof. intros s t s'. discriminate. Qed.

Lemma throwsOnly_newEnvironment o : throwsOnly T (newEnvironment o).
Proof. intros s t s'. discriminate. Qed.

Lemma throwsOnly_define a k v : throwsOnly T (onHeap (Env.define a k v)).
Proof.
  intros s t s'. unfold onHeap, Env.define.
  destruct (heap s !! a); discriminate.
Qed.

End Throws.

Lemma getFrom_throws depth a name h t h' :
  Env.getFrom depth a name h = Abrupt t h' -> t = Env.undefinedVariable name.
Proof.
  revert a. induction depth as [| d IH]; intros a; cbn [Env.getFrom];
    destruct (h !! a) as [e |]; try discriminate;
    destruct (values e !! lexeme name); try discriminate;
    destruct (enclosing e) as [outer |]; try discriminate;
    try (intros [= <- _]; reflexivity).
  apply IH.
Qed.

Lemma assignFrom_throws depth a name v h t h' :
  Env.assignFrom depth a name v h = Abrupt t h' -> t = Env.undefinedVariable name.
Proof.
  revert a. induction depth as [| d IH]; intros a; cbn [Env.assignFrom];
    destruct (h !! a) as [e |]; try discriminate;
    destruct (Env.has e (lexeme name)); try discriminate;
    destruct (enclosing e) as [outer |]; try discriminate;
    try (intros [= <- _]; reflexivity).
  apply IH.
Qed.

Lemma throws_number op : evaluatorThrows (RuntimeError op (js "操作数必须是数字")).
Proof. left. reflexivity. Qed.

Lemma throws_plus op :
  evaluatorThrows (RuntimeError op (js "操作数必须都是数字或都是字符串")).
Proof. right; left. reflexivity. Qed.

Lemma throws_zero op : evaluatorThrows (RuntimeError op (js "除数不能为零")).
Proof. do 2 right; left. reflexivity. Qed.

Lemma throws_undefined name : evaluatorThrows (Env.undefinedVariable name).
Proof. do 3 right; left. reflexivity. Qed.

Lemma throws_callee paren : evaluatorThrows (RuntimeError paren (js "只能调用函数")).
Proof. do 4 right; left. reflexivity. Qed.

Lemma throws_arity paren n m :
  m <> n ->
  evaluatorThrows
    (RuntimeError paren
       (js "期望 " ++ ofNat n ++ js " 个参数但得到 " ++ ofNat m ++ js " 个")).
Proof. intros H. do 5 right; left. exists n, m. split; [exact H | reflexivity]. Qed.

Lemma throws_iterable variable :
  evaluatorThrows (RuntimeError variable (js "'对于' 循环需要一个数组")).
Proof. do 6 right. reflexivity. Qed.

Lemma getCall_throws f e : getCall f = inl e -> hostFailure e.
Proof.
  destruct f as [| | b | n | str | a elems | a name params body closure | b];
    cbn [getCall]; intros [= <-].
  - do 4 right. reflexivity.
  - do 3 right; left. reflexivity.
Qed.

Lemma get_throws a name : throwsOnly evaluatorThrows (onHeap (Env.get a name)).
Proof.
  intros s t s'. unfold onHeap, Env.get.
  destruct (Env.getFrom a a name (heap s)) as [v h | t1 h | r] eqn:E;
    try discriminate.
  intros [= <- _]. rewrite (getFrom_throws E). apply throws_undefined.
Qed.

Lemma assign_throws a name v :
  throwsOnly evaluatorThrows (onHeap (Env.assign a name v)).
Proof.
  intros s t s'. unfold onHeap, Env.assign.
  destruct (Env.assignFrom a a name v (heap s)) as [x h | t1 h | r] eqn:E;
    try discriminate.
  intros [= <- _]. rewrite (assignFrom_throws E). apply throws_undefined.
Qed.

Lemma builtinCall_throws b args :
  throwsOnly evaluatorThrows (builtinCall b args).
Proof.
  intros s t s' H.
  destruct (builtin_failure_is_plain H) as [_ [[-> _] | [[-> _] | [-> _]]]].
  - left. reflexivity.
  - right; left. reflexivity.
  - do 2 right; left. reflexivity.
Qed.

Lemma checkNumberOperands_throws op L R :
  throwsOnly evaluatorThrows (checkNumberOperands op L R).
Proof.
  unfold checkNumberOperands.
  destruct L; try (apply throwsOnly_throw, throws_number).
  destruct R; first [apply throwsOnly_ret | apply throwsOnly_throw, throws_number].
Qed.

Lemma binarySwitch_throws op L R :
  throwsOnly evaluatorThrows (binarySwitch op L R).
Proof.
  unfold binarySwitch.
  destruct (type op); try apply throwsOnly_ret;
    try (apply throwsOnly_bind; [apply checkNumberOperands_throws |];
         intros lr;
         first [apply throwsOnly_ret
               | destruct (num_eqb _ _);
                 [apply throwsOnly_throw, throws_zero | apply throwsOnly_ret]]).
  destruct L; try (apply throwsOnly_throw, throws_plus);
    destruct R; first [apply throwsOnly_ret | apply throwsOnly_throw, throws_plus].
Qed.

Section ThrowsVisitor.

Variable evaluate : Expr -> Eval Value.
Variable execute : Stmt -> Eval unit.
Hypothesis evaluate_throws : forall e, throwsOnly evaluatorThrows (evaluate e).
Hypothesis execute_throws : forall st, throwsOnly evaluatorThrows (execute st).

Lemma functionCall_throws params body closure args :
  throwsOnly evaluatorThrows (functionCall execute params body closure args).
Proof.
  unfold functionCall.
  apply throwsOnly_bind; [apply throwsOnly_newEnvironment |]. intros env.
  apply throwsOnly_bind;
    [apply throwsOnly_forEach; intros; apply throwsOnly_define |].
  intros _. apply throwsOnly_tryCatch.
  - apply throwsOnly_bind; [apply throwsOnly_executeBlock; assumption |].
    intros; apply throwsOnly_ret.
  - intros [token msg | v | e] Ht;
      first [apply throwsOnly_ret | apply throwsOnly_throw; exact Ht].
Qed.

Lemma acceptExpr_throws e :
  throwsOnly evaluatorThrows (acceptExpr evaluate execute e).
Proof.
  destruct e; cbn [acceptExpr].
  - unfold visitBinaryExpr.
    apply throwsOnly_bind; [auto |]. intros L.
    apply throwsOnly_bind; [auto |]. intros R.
    apply binarySwitch_throws.
  - apply evaluate_throws.
  - apply throwsOnly_ret.
  - unfold visitUnaryExpr. apply throwsOnly_bind; [auto |]. intros v.
    unfold checkNumberOperand.
    destruct (type operator); try apply throwsOnly_ret.
    apply throwsOnly_bind; [| intros; apply throwsOnly_ret].
    destruct v; first [apply throwsOnly_ret | apply throwsOnly_throw, throws_number].
  - unfold visitVariableExpr.
    apply throwsOnly_bind; [apply throwsOnly_gets |]. intros; apply get_throws.
  - unfold visitAssignExpr.
    apply throwsOnly_bind; [auto |]. intros v.
    apply throwsOnly_bind; [apply throwsOnly_gets |]. intros env.
    apply throwsOnly_bind; [apply assign_throws |]. intros; apply throwsOnly_ret.
  - unfold visitCallExpr.
    apply throwsOnly_bind; [auto |]. intros f.
    apply throwsOnly_bind; [apply throwsOnly_mapM; auto |]. intros argv.
    destruct (getCall f) as [err | [func |]] eqn:Hcall.
    + apply throwsOnly_throw. exact (getCall_throws Hcall).
    + destruct (bool_decide _) eqn:Hlen.
      * apply bool_decide_eq_true in Hlen.
        apply throwsOnly_throw, throws_arity, Hlen.
      * destruct func; cbn [call].
        -- apply functionCall_throws.
        -- apply builtinCall_throws.
    + apply throwsOnly_throw, throws_callee.
  - unfold visitArrayExpr.
    apply throwsOnly_bind; [apply throwsOnly_mapM; auto |]. intros elems.
    apply throwsOnly_bind; [apply throwsOnly_fresh |].
    intros; apply throwsOnly_ret.
Qed.

Lemma acceptStmt_throws st :
  throwsOnly evaluatorThrows (acceptStmt evaluate execute st).
Proof.
  destruct st; cbn [acceptStmt].
  - unfold visitExpressionStmt.
    apply throwsOnly_bind; [auto |]. intros; apply throwsOnly_ret.
  - unfold visitFunctionStmt.
    apply throwsOnly_bind; [apply throwsOnly_fresh |]. intros a.
    apply throwsOnly_bind; [apply throwsOnly_gets |].
    intros; apply throwsOnly_define.
  - unfold visitIfStmt. apply throwsOnly_bind; [auto |]. intros c.
    destruct (isTruthy c); [auto |].
    destruct elseBranch; [auto | apply throwsOnly_ret].
  - unfold visitLetStmt.
    apply throwsOnly_bind;
      [destruct initializer; [auto | apply throwsOnly_ret] |].
    intros v. apply throwsOnly_bind; [apply throwsOnly_gets |].
    intros; apply throwsOnly_define.
  - unfold visitReturnStmt.
    apply throwsOnly_bind; [destruct value; [auto | apply throwsOnly_ret] |].
    intros; apply throwsOnly_throw. exact I.
  - unfold visitWhileStmt. apply throwsOnly_bind; [auto |]. intros c.
    destruct (isTruthy c); [| apply throwsOnly_ret].
    apply throwsOnly_bind; auto.
  - unfold visitBlockStmt.
    apply throwsOnly_bind; [apply throwsOnly_gets |]. intros current.
    apply throwsOnly_bind; [apply throwsOnly_newEnvironment |].
    intros; apply throwsOnly_executeBlock; assumption.
  - unfold visitForStmt. apply throwsOnly_bind; [auto |]. intros it.
    destruct it; try (apply throwsOnly_throw, throws_iterable).
    apply throwsOnly_bind; [apply throwsOnly_gets |]. intros current.
    apply throwsOnly_bind; [apply throwsOnly_newEnvironment |]. intros env.
    apply throwsOnly_forEach. intros v.
    apply throwsOnly_bind; [apply throwsOnly_define |].
    intros; apply throwsOnly_executeBlock; assumption.
Qed.

End ThrowsVisitor.

(** Whatever an expression or a statement throws is a [RuntimeError] of
    the evaluator, a [ReturnValue], or one of the errors of the host. *)
Lemma evaluate_execute_throw fuel :
  (forall e, throwsOnly evaluatorThrows (evaluate fuel e))
  /\ (forall st, throwsOnly evaluatorThrows (execute fuel st)).
Proof.
  induction fuel as [| n [IHe IHs]]; split; intros x; cbn [evaluate execute].
  - apply throwsOnly_stuck.
  - apply throwsOnly_stuck.
  - apply acceptExpr_throws; assumption.
  - apply acceptStmt_throws; assumption.
Qed.

Lemma plus_mismatch op L R s :
  type op = PLUS ->
  ~ (typeof L = TNumber /\ typeof R = TNumber) ->
  ~ (typeof L = TString /\ typeof R = TString) ->
  binarySwitch op L R s
  = Abrupt (RuntimeError op (js "操作数必须都是数字或都是字符串")) s.
Proof.
  intros Hop Hn Hs. unfold binarySwitch. rewrite Hop.
  destruct L; try reflexivity; destruct R; try reflexivity;
    [elim Hn | elim Hs]; split; reflexivity.
Qed.

(** C3, amended: what leaves the statements of a program is a
    [RuntimeError] with its token, the unwinding of a 返回, or an error
    object of the host. [interpret] rethrows a [RuntimeError] as an error
    whose message is exactly 运行时错误（第 L 行，第 C 列）：MSG, with the
    line and the column of the token, and [run] prints that message; the
    type mismatches of the operators, a division by zero, an undefined
    variable, a wrong number of arguments, a callee that is no function
    and a loop over what is no array are such errors, at the operator, the
    name, the closing parenthesis and the loop variable, and there are no
    others. An error object of the host has no token and is rethrown and
    printed as it is: these are the failures of the built-in functions 范围
    and 长度 and the [TypeError] of a call of 空. *)
Theorem runtime_errors_are_framed_builtin_failures_are_not :
  (forall fuel statements s,
     match forEach (execute fuel) statements s with
     | Abrupt (RuntimeError token msg) s' =>
         interpret fuel statements s =
         Abrupt (HostError
                   (mkError Error
                      (js "运行时错误（第 " ++ ofZ (line token) ++ js " 行，第 "
                       ++ ofZ (column token) ++ js " 列）：" ++ msg))) s'
         /\ runtimeFailure token msg
     | Abrupt (HostError e) s' =>
         interpret fuel statements s = Abrupt (HostError e) s'
         /\ hostFailure e
     | o => interpret fuel statements s = o
     end)
  /\ (forall fuel source vs tokens l statements c token msg i,
        scanTokens (Lexer.new source) = Ok tokens l ->
        Parser.parse fuel tokens = Normal statements c ->
        forEach (execute fuel) statements (interpreter vs)
        = Abrupt (RuntimeError token msg) i ->
        run fuel source vs =
        inr (consoleError
               (js "运行时错误（第 " ++ ofZ (line token) ++ js " 行，第 "
                ++ ofZ (column token) ++ js " 列）：" ++ msg)
               (mkVScript i (stderr vs))))
  /\ (forall fuel source vs tokens l statements c e i,
        scanTokens (Lexer.new source) = Ok tokens l ->
        Parser.parse fuel tokens = Normal statements c ->
        forEach (execute fuel) statements (interpreter vs)
        = Abrupt (HostError e) i ->
        run fuel source vs =
        inr (consoleError (message e) (mkVScript i (stderr vs))))
  /\ (forall fuel l op r s L s1 R s2,
        evaluate fuel l s = Normal L s1 ->
        evaluate fuel r s1 = Normal R s2 ->
        type op ∈ [MINUS; DIVIDE; MULTIPLY; MODULO;
                   GREATER; GREATER_EQUAL; LESS; LESS_EQUAL] ->
        typeof L <> TNumber \/ typeof R <> TNumber ->
        evaluate (S fuel) (BinaryExpr l op r) s
        = Abrupt (RuntimeError op (js "操作数必须是数字")) s2)
  /\ (forall fuel l op r s L s1 R s2,
        evaluate fuel l s = Normal L s1 ->
        evaluate fuel r s1 = Normal R s2 ->
        type op = PLUS ->
        ~ (typeof L = TNumber /\ typeof R = TNumber) ->
        ~ (typeof L = TString /\ typeof R = TString) ->
        evaluate (S fuel) (BinaryExpr l op r) s
        = Abrupt (RuntimeError op (js "操作数必须都是数字或都是字符串")) s2)
  /\ (forall fuel op r s R s1,
        evaluate fuel r s = Normal R s1 ->
        type op = MINUS ->
        typeof R <> TNumber ->
        evaluate (S fuel) (UnaryExpr op r) s
        = Abrupt (RuntimeError op (js "操作数必须是数字")) s1)
  /\ (forall fuel l op r s a s1 b s2,
        evaluate fuel l s = Normal (VNumber a) s1 ->
        evaluate fuel r s1 = Normal (VNumber b) s2 ->
        type op = DIVIDE ->
        num_eqb b 0%float = true ->
        evaluate (S fuel) (BinaryExpr l op r) s
        = Abrupt (RuntimeError op (js "除数不能为零")) s2)
  /\ (forall fuel name s chain,
        scopes (heap s) (environment s) = Some chain ->
        nearest (heap s) chain (lexeme name) = None ->
        evaluate (S fuel) (VariableExpr name) s
        = Abrupt (RuntimeError name
                    (js "未定义的变量 '" ++ lexeme name ++ js "'")) s)
  /\ (forall fuel name value s v s1 chain,
        evaluate fuel value s = Normal v s1 ->
        scopes (heap s1) (environment s1) = Some chain ->
        nearest (heap s1) chain (lexeme name) = None ->
        evaluate (S fuel) (AssignExpr name value) s
        = Abrupt (RuntimeError name
                    (js "未定义的变量 '" ++ lexeme name ++ js "'")) s1)
  /\ (forall fuel callee paren args s f s1 argv s2 func,
        evaluate fuel callee s = Normal f s1 ->
        mapM (evaluate fuel) args s1 = Normal argv s2 ->
        getCall f = inr (Some func) ->
        List.length argv ≠ arity func ->
        evaluate (S fuel) (CallExpr callee paren args) s
        = Abrupt (RuntimeError paren
                    (js "期望 " ++ ofNat (arity func) ++ js " 个参数但得到 "
                     ++ ofNat (List.length argv) ++ js " 个")) s2)
  /\ (forall fuel callee paren args s f s1 argv s2,
        evaluate fuel callee s = Normal f s1 ->
        mapM (evaluate fuel) args s1 = Normal argv s2 ->
        match f with
        | VBoolean _ | VNumber _ | VString _ | VArray _ _ => True
        | _ => False
        end ->
        evaluate (S fuel) (CallExpr callee paren args) s
        = Abrupt (RuntimeError paren (js "只能调用函数")) s2)
  /\ (forall fuel variable iterable body s v s1,
        evaluate fuel iterable s = Normal v s1 ->
        match v with VArray _ _ => False | _ => True end ->
        execute (S fuel) (ForStmt variable iterable body) s
        = Abrupt (RuntimeError variable (js "'对于' 循环需要一个数组")) s1)
  /\ (forall fuel callee paren args s s1 v s2,
        evaluate fuel callee s = Normal (VBuiltin BuiltinLength) s1 ->
        mapM (evaluate fuel) args s1 = Normal [v] s2 ->
        match v with VArray _ _ | VString _ => False | _ => True end ->
        evaluate (S fuel) (CallExpr callee paren args) s
        = Abrupt (HostError (mkError Error (js "长度函数需要数组或字符串参数")))
                 s2)
  /\ (forall fuel callee paren args s s1 a b s2,
        evaluate fuel callee s = Normal (VBuiltin BuiltinRange) s1 ->
        mapM (evaluate fuel) args s1 = Normal [a; b] s2 ->
        typeof a <> TNumber \/ typeof b <> TNumber ->
        evaluate (S fuel) (CallExpr callee paren args) s
        = Abrupt (HostError (mkError Error (js "范围函数需要两个数字参数"))) s2)
  /\ (forall b args i t i',
        builtinCall b args i = Abrupt t i' ->
        i' = i
        /\ (t = HostError (mkError Error (js "范围函数需要两个数字参数"))
              /\ b = BuiltinRange
            \/ t = HostError (mkError Error (js "长度函数需要数组或字符串参数"))
               /\ b = BuiltinLength
            \/ t = HostError (mkError RangeError (js "Invalid array length"))
               /\ b = BuiltinRange)).
Proof.
  repeat match goal with |- _ /\ _ => split end.
  - intros fuel statements s. unfold interpret, tryCatch.
    pose proof (throwsOnly_forEach (proj2 (evaluate_execute_throw fuel))
                  (l := statements) (s := s)) as H.
    destruct (forEach (execute fuel) statements s) as [[] s' | [token msg | v | e] s' | r];
      try reflexivity; (split; [reflexivity | exact (H _ _ eq_refl)]).
  - intros fuel source vs tokens l statements c token msg i Hscan Hparse Hrun.
    unfold run. rewrite Hscan, Hparse. unfold interpret, tryCatch.
    rewrite Hrun. reflexivity.
  - intros fuel source vs tokens l statements c e i Hscan Hparse Hrun.
    unfold run. rewrite Hscan, Hparse. unfold interpret, tryCatch.
    rewrite Hrun. reflexivity.
  - intros fuel l op r s L s1 R s2 Hl Hr Hop Hty.
    rewrite evaluate_binary_operands, Hl, Hr.
    apply (proj1 evaluator_failures_carry_tokens); assumption.
  - intros fuel l op r s L s1 R s2 Hl Hr Hop Hn Hs.
    rewrite evaluate_binary_operands, Hl, Hr.
    apply plus_mismatch; assumption.
  - intros fuel op r s R s1 Hr Hop Hty.
    cbn [evaluate acceptExpr]. unfold visitUnaryExpr. unfold_monad.
    rewrite Hr, Hop. unfold checkNumberOperand.
    destruct R; try reflexivity. now elim Hty.
  - intros fuel l op r s a s1 b s2 Hl Hr Hop Hb.
    rewrite evaluate_binary_operands, Hl, Hr.
    apply (proj1 (proj2 evaluator_failures_carry_tokens)); assumption.
  - intros fuel name s chain Hchain Hnone.
    cbn [evaluate acceptExpr]. unfold visitVariableExpr, getEnvironment.
    unfold_monad. unfold onHeap, Env.get.
    rewrite (getFrom_nearest name Hchain (Nat.le_refl _)), Hnone.
    rewrite setHeap_same. reflexivity.
  - intros fuel name value s v s1 chain Hv Hchain Hnone.
    cbn [evaluate acceptExpr]. unfold visitAssignExpr, getEnvironment.
    unfold_monad. rewrite Hv. unfold onHeap, Env.assign.
    rewrite (assignFrom_nearest name v Hchain (Nat.le_refl _)), Hnone.
    rewrite setHeap_same. reflexivity.
  - intros fuel callee paren args s f s1 argv s2 func.
    apply call_arity_mismatch.
  - intros fuel callee paren args s f s1 argv s2.
    apply call_of_non_callable.
  - intros fuel variable iterable body s v s1 Hv Hkind.
    cbn [execute acceptStmt]. unfold visitForStmt. unfold_monad.
    rewrite Hv. destruct v; try reflexivity. contradiction.
  - intros fuel callee paren args s s1 v s2 Hf Hargs Hkind.
    rewrite (evaluate_call_builtin paren Hf Hargs eq_refl).
    destruct v; try reflexivity; contradiction.
  - intros fuel callee paren args s s1 a b s2 Hf Hargs Hty.
    rewrite (evaluate_call_builtin paren Hf Hargs eq_refl).
    cbn [builtinCall index lookup list_lookup].
    destruct a; try reflexivity; destruct b; try reflexivity.
    destruct Hty as [H | H]; now elim H.
  - intros b args i t i'. apply builtin_failure_is_plain.
Qed.

(** One program for each kind of failure: [真 < 1], [1 + "a"], [-"a"],
    [1 / 0], a read of and an assignment to the undefined [y], [长度()],
    [1()], a loop over [1], which are runtime errors at their tokens;
    [长度(1)] and [范围(1, "a")], which are plain errors; and what [run]
    prints for a call with too few arguments, for a division by zero in
    the body of a function that is called in an argument of 输出, and for
    [长度(1)]. *)
Lemma runtime_errors_are_framed_builtin_failures_are_not_witness :
  interpret 4 [ExpressionStmt
                 (BinaryExpr (LiteralExpr (VNumber 1)) (operatorToken DIVIDE)
                    (LiteralExpr (VNumber 0)))] newInterpreter
  = Abrupt (HostError
              (mkError Error (js "运行时错误（第 1 行，第 1 列）：除数不能为零")))
           newInterpreter
  /\ run 10 (js "函数 f(a) { 返回 a } f()") newVScript
     = inr (consoleError (js "运行时错误（第 1 行，第 20 列）：期望 1 个参数但得到 0 个")
              (mkVScript
                 (match execute 2
                          (FunctionStmt
                             (mkToken IDENTIFIER (js "f") LitNull 1 4)
                             [mkToken IDENTIFIER (js "a") LitNull 1 6]
                             [ReturnStmt
                                (mkToken RETURN (js "返回") LitNull 1 11)
                                (Some (VariableExpr
                                         (mkToken IDENTIFIER (js "a") LitNull 1 14)))])
                          newInterpreter with
                  | Normal _ i => i
                  | _ => newInterpreter
                  end) []))
  /\ (exists i,
        run 10 (js "函数 f(a) { 返回 a / 0 } 输出(f(1))") newVScript
        = inr (consoleError (js "运行时错误（第 1 行，第 16 列）：除数不能为零")
                 (mkVScript i []))
        /\ environment i = 0 /\ stdout i = [])
  /\ run 10 (js "长度(1)") newVScript
     = inr (consoleError (js "长度函数需要数组或字符串参数") newVScript)
  /\ evaluate 2 (BinaryExpr (LiteralExpr (VBoolean true)) (operatorToken LESS)
                   (LiteralExpr (VNumber 1))) newInterpreter
     = Abrupt (RuntimeError (operatorToken LESS) (js "操作数必须是数字"))
              newInterpreter
  /\ evaluate 2 (BinaryExpr (LiteralExpr (VNumber 1)) (operatorToken PLUS)
                   (LiteralExpr (VString (js "a")))) newInterpreter
     = Abrupt (RuntimeError (operatorToken PLUS)
                 (js "操作数必须都是数字或都是字符串")) newInterpreter
  /\ evaluate 2 (UnaryExpr (operatorToken MINUS) (LiteralExpr (VString (js "a"))))
                newInterpreter
     = Abrupt (RuntimeError (operatorToken MINUS) (js "操作数必须是数字"))
              newInterpreter
  /\ evaluate 2 (BinaryExpr (LiteralExpr (VNumber 1)) (operatorToken DIVIDE)
                   (LiteralExpr (VNumber 0))) newInterpreter
     = Abrupt (RuntimeError (operatorToken DIVIDE) (js "除数不能为零"))
              newInterpreter
  /\ evaluate 1 (VariableExpr (nameToken "y")) newInterpreter
     = Abrupt (RuntimeError (nameToken "y") (js "未定义的变量 'y'"))
              newInterpreter
  /\ evaluate 2 (AssignExpr (nameToken "y") (LiteralExpr (VNumber 1)))
                newInterpreter
     = Abrupt (RuntimeError (nameToken "y") (js "未定义的变量 'y'"))
              newInterpreter
  /\ evaluate 2 (CallExpr (VariableExpr (nameToken "长度"))
                   (operatorToken RIGHT_PAREN) []) newInterpreter
     = Abrupt (RuntimeError (operatorToken RIGHT_PAREN)
                 (js "期望 1 个参数但得到 0 个")) newInterpreter
  /\ evaluate 2 (CallExpr (LiteralExpr (VNumber 1))
                   (operatorToken RIGHT_PAREN) []) newInterpreter
     = Abrupt (RuntimeError (operatorToken RIGHT_PAREN) (js "只能调用函数"))
              newInterpreter
  /\ execute 2 (ForStmt (nameToken "x") (LiteralExpr (VNumber 1)) (BlockStmt []))
               newInterpreter
     = Abrupt (RuntimeError (nameToken "x") (js "'对于' 循环需要一个数组"))
              newInterpreter
  /\ evaluate 2 (CallExpr (VariableExpr (nameToken "长度"))
                   (operatorToken RIGHT_PAREN) [LiteralExpr (VNumber 1)])
                newInterpreter
     = Abrupt (HostError (mkError Error (js "长度函数需要数组或字符串参数")))
              newInterpreter
  /\ evaluate 2 (CallExpr (VariableExpr (nameToken "范围"))
                   (operatorToken RIGHT_PAREN)
                   [LiteralExpr (VNumber 1); LiteralExpr (VString (js "a"))])
                newInterpreter
     = Abrupt (HostError (mkError Error (js "范围函数需要两个数字参数")))
              newInterpreter
  /\ (forall t i,
        builtinCall BuiltinLength [VNumber 1] newInterpreter = Abrupt t i ->
        i = newInterpreter).
Proof.
  destruct runtime_errors_are_framed_builtin_failures_are_not
    as (Hframe & Hrun & Hbare & Hnum & Hplus & Hneg & Hzero & Hget & Hset
        & Harity & Hcallee & Hfor & Hlen & Hrange & Hbuiltin).
  split.
  { pose proof (Hframe 4 [ExpressionStmt
                 (BinaryExpr (LiteralExpr (VNumber 1)) (operatorToken DIVIDE)
                    (LiteralExpr (VNumber 0)))] newInterpreter) as H.
    assert (E : forEach (execute 4)
                  [ExpressionStmt
                     (BinaryExpr (LiteralExpr (VNumber 1)) (operatorToken DIVIDE)
                        (LiteralExpr (VNumber 0)))] newInterpreter
                = Abrupt (RuntimeError (operatorToken DIVIDE) (js "除数不能为零"))
                         newInterpreter)
      by (vm_compute; reflexivity).
    rewrite E in H. destruct H as [H _].
    etrans; [exact H |]. vm_compute. reflexivity. }
  split.
  { etrans; [eapply (Hrun 10 (js "函数 f(a) { 返回 a } f()") newVScript);
             [vm_compute; reflexivity | vm_compute; reflexivity
             | vm_compute; reflexivity] |].
    vm_compute. reflexivity. }
  split.
  { eexists. split; [| split].
    - etrans; [eapply (Hrun 10 (js "函数 f(a) { 返回 a / 0 } 输出(f(1))")
                         newVScript);
               [vm_compute; reflexivity | vm_compute; reflexivity
               | vm_compute; reflexivity] |].
      vm_compute. reflexivity.
    - vm_compute. reflexivity.
    - vm_compute. reflexivity. }
  split.
  { etrans; [eapply (Hbare 10 (js "长度(1)") newVScript);
             [vm_compute; reflexivity | vm_compute; reflexivity
             | vm_compute; reflexivity] |].
    vm_compute. reflexivity. }
  split.
  { eapply Hnum; [reflexivity | reflexivity | | left; discriminate].
    do 6 apply list_elem_of_further. apply list_elem_of_here. }
  split.
  { eapply Hplus; [reflexivity | reflexivity | reflexivity | |];
      intros [H1 H2]; discriminate. }
  split.
  { eapply Hneg; [reflexivity | reflexivity | discriminate]. }
  split.
  { eapply Hzero; reflexivity. }
  split.
  { eapply (Hget 0 (nameToken "y") newInterpreter [0]); vm_compute; reflexivity. }
  split.
  { eapply (Hset 1 (nameToken "y") (LiteralExpr (VNumber 1)) newInterpreter
              (VNumber 1) newInterpreter [0]); vm_compute; reflexivity. }
  split.
  { etrans; [eapply (Harity 1 (VariableExpr (nameToken "长度"))
                       (operatorToken RIGHT_PAREN) [] newInterpreter
                       (VBuiltin BuiltinLength) newInterpreter [] newInterpreter
                       (CBuiltin BuiltinLength));
             [vm_compute; reflexivity | reflexivity | reflexivity
             | cbn; lia] |].
    vm_compute. reflexivity. }
  split.
  { eapply Hcallee; [reflexivity | reflexivity | exact I]. }
  split.
  { eapply Hfor; [reflexivity | exact I]. }
  split.
  { eapply Hlen; [vm_compute; reflexivity | reflexivity | exact I]. }
  split.
  { eapply Hrange; [vm_compute; reflexivity | reflexivity | right; discriminate]. }
  intros t i H. exact (proj1 (Hbuiltin _ _ _ _ _ H)).
Defined.

(** ** Declarations and the variables they bind *)

(** X4: a declaration [就是 name = init] whose initializer evaluates to [v]
    binds [name] to [v] in the current environment, and a variable
    expression with that name, evaluated next, yields [v]; without an
    initializer the variable reads as 空. *)
Theorem let_then_variable fuel name s e :
  (forall init v s1,
     evaluate fuel init s = Normal v s1 ->
     heap s1 !! environment s1 = Some e ->
     exists s2,
       execute (S fuel) (LetStmt name (Some init)) s = Normal tt s2
       /\ forall n other,
            lexeme other = lexeme name ->
            evaluate (S n) (VariableExpr other) s2 = Normal v s2)
  /\ (heap s !! environment s = Some e ->
      exists s2,
        execute (S fuel) (LetStmt name None) s = Normal tt s2
        /\ forall n other,
             lexeme other = lexeme name ->
             evaluate (S n) (VariableExpr other) s2 = Normal VNull s2).
Proof.
  assert (H : forall v s1,
             heap s1 !! environment s1 = Some e ->
             exists s2,
               onHeap (Env.define (environment s1) (lexeme name) v) s1
               = Normal tt s2
               /\ forall n other,
                    lexeme other = lexeme name ->
                    evaluate (S n) (VariableExpr other) s2 = Normal v s2).
  { intros v s1 He. eexists. unfold onHeap, Env.define. rewrite He.
    split; [reflexivity |]. intros n other Hother.
    cbn [evaluate acceptExpr]. unfold visitVariableExpr, getEnvironment.
    unfold_monad. unfold onHeap, Env.get. cbn [environment heap setHeap].
    destruct (environment s1); cbn [Env.getFrom];
      rewrite lookup_insert_eq; cbn [values]; rewrite Hother, lookup_insert_eq;
      reflexivity. }
  split.
  - intros init v s1 Hinit He. destruct (H v s1 He) as (s2 & Hd & Hread).
    exists s2. split; [| exact Hread].
    cbn [execute acceptStmt]. unfold visitLetStmt, getEnvironment.
    unfold_monad. rewrite Hinit. exact Hd.
  - intros He. destruct (H VNull s He) as (s2 & Hd & Hread).
    exists s2. split; [| exact Hread].
    cbn [execute acceptStmt]. unfold visitLetStmt, getEnvironment.
    unfold_monad. exact Hd.
Qed.

(** [就是 x = 0] and [就是 x] at the top level. *)
Lemma let_then_variable_witness :
  (exists s2,
     execute 2 (LetStmt (nameToken "x") (Some (LiteralExpr (VNumber 0))))
             newInterpreter = Normal tt s2
     /\ evaluate 1 (VariableExpr (nameToken "x")) s2 = Normal (VNumber 0) s2)
  /\ (exists s2,
        execute 2 (LetStmt (nameToken "x") None) newInterpreter = Normal tt s2
        /\ evaluate 1 (VariableExpr (nameToken "x")) s2 = Normal VNull s2).
Proof.
  epose proof (@let_then_variable 1 (nameToken "x") newInterpreter _)
    as [H1 H2].
  split.
  - destruct (H1 (LiteralExpr (VNumber 0)) (VNumber 0) newInterpreter
                eq_refl eq_refl) as (s2 & Hs & Hr).
    exists s2. split; [exact Hs | apply Hr; reflexivity].
  - destruct (H2 eq_refl) as (s2 & Hs & Hr).
    exists s2. split; [exact Hs | apply Hr; reflexivity].
Defined.

(** ** What the evaluator never undoes *)

Lemma steady_refl s : steady s s.
Proof. repeat split; reflexivity. Qed.

Lemma steady_trans s1 s2 s3 : steady s1 s2 -> steady s2 s3 -> steady s1 s3.
Proof.
  intros (Hg & He & Hn & Ho) (Hg' & He' & Hn' & Ho').
  repeat split; try congruence; try lia. etrans; eassumption.
Qed.

Lemma onHeap_steady {A} (m : Store A) : respects steady (onHeap m).
Proof.
  intros s. unfold onHeap. destruct (m (heap s)); try exact I;
    repeat split; reflexivity.
Qed.

Lemma executeBlock_steady (ex : Stmt -> Eval unit) statements env :
  (forall st, respects steady (ex st)) ->
  respects steady (executeBlock ex statements env).
Proof.
  intros Hex s. rewrite executeBlock_outcome.
  pose proof (@respects_forEach steady steady_refl steady_trans _ ex statements
                Hex (withEnvironment env s)) as H.
  destruct (forEach ex statements (withEnvironment env s)); trivial;
    destruct H as (Hg & He & Hn & Ho); repeat split; assumption.
Qed.

Lemma steady_evaluate_execute fuel :
  (forall e, respects steady (evaluate fuel e))
  /\ (forall st, respects steady (execute fuel st)).
Proof.
  apply respects_evaluate_execute.
  - apply steady_refl.
  - apply steady_trans.
  - intros; apply onHeap_steady.
  - intros; apply onHeap_steady.
  - intros; apply onHeap_steady.
  - intros s. repeat split; cbn; try reflexivity. lia.
  - intros o s. repeat split; cbn; try reflexivity. lia.
  - intros args s. repeat split; cbn; try reflexivity.
    apply prefix_app_r. reflexivity.
  - apply executeBlock_steady.
Qed.

Lemma steady_interpret fuel statements : respects steady (interpret fuel statements).
Proof.
  unfold interpret.
  apply respects_tryCatch; [apply steady_trans | |].
  - apply respects_forEach; [apply steady_refl | apply steady_trans |].
    apply (steady_evaluate_execute fuel).
  - intros [tok msg | v | e] s; apply steady_refl.
Qed.

(** Whatever the source, [run] leaves the fields [globals] and
    [environment] of the interpreter as they were, only appends to what has
    been printed, and writes at most one line to the error output. *)
Lemma run_steady fuel source vs :
  match run fuel source vs with
  | inr vs' =>
      globals (interpreter vs') = globals (interpreter vs)
      /\ environment (interpreter vs') = environment (interpreter vs)
      /\ stdout (interpreter vs) `prefix_of` stdout (interpreter vs')
      /\ (stderr vs' = stderr vs \/ exists text, stderr vs' = stderr vs ++ [text])
  | inl _ => True
  end.
Proof.
  assert (Hcatch : forall t i,
             steady (interpreter vs) i ->
             let vs' := runCatch t (mkVScript i (stderr vs)) in
             globals (interpreter vs') = globals (interpreter vs)
             /\ environment (interpreter vs') = environment (interpreter vs)
             /\ stdout (interpreter vs) `prefix_of` stdout (interpreter vs')
             /\ (stderr vs' = stderr vs
                 \/ exists text, stderr vs' = stderr vs ++ [text])).
  { intros t i (Hg & He & _ & Ho). unfold runCatch, consoleError.
    destruct (instanceofError t); cbn; repeat split; eauto. }
  assert (Hsame : vs = mkVScript (interpreter vs) (stderr vs))
    by (destruct vs; reflexivity).
  unfold run.
  destruct (scanTokens (Lexer.new source)) as [toks l | e |]; [| | exact I].
  - destruct (Parser.parse fuel toks) as [statements c | e c | r]; [| | exact I].
    + pose proof (steady_interpret fuel statements (interpreter vs)) as H.
      destruct (interpret fuel statements (interpreter vs)) as [u i | t i | r];
        [| | exact I].
      * destruct H as (Hg & He & _ & Ho). cbn. auto.
      * apply Hcatch. exact H.
    + rewrite Hsame at 1. apply Hcatch, steady_refl.
  - rewrite Hsame at 1. apply Hcatch, steady_refl.
Qed.

(** X5: two array literals are never equal, also when their elements are:
    each evaluation of an array literal makes an array of its own, and [==]
    compares arrays by identity. *)
Theorem array_literals_are_never_equal fuel es1 op es2 s v s' :
  evaluate (S (S fuel)) (BinaryExpr (ArrayExpr es1) op (ArrayExpr es2)) s
  = Normal v s' ->
  (type op = EQUAL -> v = VBoolean false)
  /\ (type op = NOT_EQUAL -> v = VBoolean true).
Proof.
  rewrite evaluate_binary_operands.
  cbn [evaluate acceptExpr]. unfold visitArrayExpr, fresh. unfold_monad.
  destruct (mapM (evaluate fuel) es1 s) as [elems1 s1 | |]; try discriminate.
  match goal with
  | |- context [mapM (evaluate fuel) es2 ?st] =>
      pose proof (@respects_mapM steady steady_refl steady_trans _ _
                    (evaluate fuel) es2
                    (proj1 (steady_evaluate_execute fuel)) st) as H;
      destruct (mapM (evaluate fuel) es2 st) as [elems2 s2 | |];
      try discriminate
  end.
  destruct H as (_ & _ & Hnext & _). cbn [next] in Hnext.
  unfold binarySwitch. unfold_monad.
  assert (Hne : isEqual (VArray (next s1) elems1) (VArray (next s2) elems2)
                = false).
  { cbn. apply bool_decide_eq_false. lia. }
  intros Hsw.
  split; intros Hop; rewrite Hop, Hne in Hsw; injection Hsw as <- _;
    reflexivity.
Qed.

(** [[1] == [1]] is false. *)
Lemma array_literals_are_never_equal_witness :
  exists s',
    evaluate 3 (BinaryExpr (ArrayExpr [LiteralExpr (VNumber 1)])
                  (operatorToken EQUAL)
                  (ArrayExpr [LiteralExpr (VNumber 1)])) newInterpreter
    = Normal (VBoolean false) s'.
Proof.
  destruct (evaluate 3 (BinaryExpr (ArrayExpr [LiteralExpr (VNumber 1)])
                          (operatorToken EQUAL)
                          (ArrayExpr [LiteralExpr (VNumber 1)])) newInterpreter)
    as [v s' | |] eqn:E; try (vm_compute in E; discriminate).
  exists s'.
  rewrite (proj1 (array_literals_are_never_equal E) eq_refl). reflexivity.
Defined.

(** ** A list of statements stops at the first one that throws *)

Lemma forEach_stops {E S A} (f : A -> M E S unit) pre x post s s1 t s2 :
  forEach f pre s = Normal tt s1 ->
  f x s1 = Abrupt t s2 ->
  forEach f (pre ++ x :: post) s = Abrupt t s2.
Proof.
  revert s. induction pre as [| y pre IH]; intros s; cbn [forEach app].
  - unfold_monad. intros [= <-] Hx. rewrite Hx. reflexivity.
  - unfold_monad. destruct (f y s) as [[] s0 | |]; try discriminate.
    apply IH.
Qed.

(** X6: a list of statements is executed in order up to the first
    statement that throws, a runtime error or the unwinding of 返回: the
    statements after it are not executed and what the earlier ones have
    done stays. So [interpret] ends with that error in the state the
    failing statement has left, a runtime error in the framed form; and a
    block ends with what was thrown, the current environment restored. *)
Theorem statements_stop_at_first_throw fuel pre st post s s1 t s2 :
  forEach (execute fuel) pre s = Normal tt s1 ->
  execute fuel st s1 = Abrupt t s2 ->
  interpret fuel (pre ++ st :: post) s =
  Abrupt match t with
         | RuntimeError token msg =>
             HostError (mkError Error (runtimeErrorText token msg))
         | _ => t
         end s2
  /\ forall env outer,
       s = withEnvironment env outer ->
       executeBlock (execute fuel) (pre ++ st :: post) env outer
       = Abrupt t (withEnvironment (environment outer) s2).
Proof.
  intros Hpre Hst. split.
  - unfold interpret, tryCatch.
    rewrite (forEach_stops post Hpre Hst). destruct t; reflexivity.
  - intros env outer ->. rewrite executeBlock_outcome.
    rewrite (forEach_stops post Hpre Hst). reflexivity.
Qed.

(** [输出(1) 输出(1 / 0) 输出(2)] prints 1 and stops at the division. *)
Lemma statements_stop_at_first_throw_witness :
  exists s2,
    interpret 5
      [ExpressionStmt (CallExpr (VariableExpr (nameToken "输出"))
                         (operatorToken RIGHT_PAREN) [LiteralExpr (VNumber 1)]);
       ExpressionStmt
         (BinaryExpr (LiteralExpr (VNumber 1)) (operatorToken DIVIDE)
            (LiteralExpr (VNumber 0)));
       ExpressionStmt (CallExpr (VariableExpr (nameToken "输出"))
                         (operatorToken RIGHT_PAREN) [LiteralExpr (VNumber 2)])]
      newInterpreter
    = Abrupt (HostError (mkError Error
                (runtimeErrorText (operatorToken DIVIDE) (js "除数不能为零"))))
             s2
    /\ stdout s2 = [[VNumber 1]].
Proof.
  eexists. split.
  - refine (proj1 (@statements_stop_at_first_throw 5
             [ExpressionStmt (CallExpr (VariableExpr (nameToken "输出"))
                                (operatorToken RIGHT_PAREN)
                                [LiteralExpr (VNumber 1)])]
             (ExpressionStmt
                (BinaryExpr (LiteralExpr (VNumber 1)) (operatorToken DIVIDE)
                   (LiteralExpr (VNumber 0))))
             [ExpressionStmt (CallExpr (VariableExpr (nameToken "输出"))
                                (operatorToken RIGHT_PAREN)
                                [LiteralExpr (VNumber 2)])]
             newInterpreter _ (RuntimeError (operatorToken DIVIDE)
                                 (js "除数不能为零")) _ _ _)).
    + vm_compute. reflexivity.
    + vm_compute. reflexivity.
  - vm_compute. reflexivity.
Defined.

(** ** Declarations stay in their scope *)

Lemma namesKept_refl x s : namesKept x s s.
Proof. repeat split; reflexivity. Qed.

Lemma namesKept_trans x s1 s2 s3 :
  namesKept x s1 s2 -> namesKept x s2 s3 -> namesKept x s1 s3.
Proof.
  intros (He & Hn & Hk) (He' & Hn' & Hk').
  split; [congruence |]. split; [lia |].
  intros a Ha Hx. rewrite Hk' by (try lia; assumption). apply Hk; assumption.
Qed.

Lemma namesKeptOutside_refl s : namesKeptOutside s s.
Proof. apply namesKept_refl. Qed.

Lemma namesKeptOutside_trans s1 s2 s3 :
  namesKeptOutside s1 s2 -> namesKeptOutside s2 s3 -> namesKeptOutside s1 s3.
Proof.
  unfold namesKeptOutside. intros H12 H23.
  apply namesKept_trans with s2; [assumption |].
  destruct H12 as (He & _). rewrite <- He. assumption.
Qed.

Lemma namesKept_weaken x s s' : namesKept None s s' -> namesKept x s s'.
Proof.
  intros (He & Hn & Hk). repeat split; try assumption.
  intros a Ha _. apply Hk; [assumption | discriminate].
Qed.

Lemma respects_everywhere {A} (m : Eval A) x :
  respects (namesKept None) m -> respects (namesKept x) m.
Proof.
  intros H s. specialize (H s).
  destruct (m s); trivial; apply namesKept_weaken; exact H.
Qed.

Lemma respects_outside {A} (m : Eval A) :
  respects (namesKept None) m -> respects namesKeptOutside m.
Proof.
  intros H s. specialize (H s).
  destruct (m s); trivial; apply namesKept_weaken; exact H.
Qed.

Lemma names_define h a e k v b :
  h !! a = Some e -> b <> a ->
  names (<[a := mkEnvironment (<[k := v]> (values e)) (enclosing e)]> h) b
  = names h b.
Proof.
  intros Ha Hne. unfold names. rewrite lookup_insert_ne by congruence.
  reflexivity.
Qed.

Lemma names_overwrite h a e k v b :
  h !! a = Some e -> is_Some (values e !! k) ->
  names (<[a := mkEnvironment (<[k := v]> (values e)) (enclosing e)]> h) b
  = names h b.
Proof.
  intros Ha Hk. unfold names. destruct (decide (b = a)) as [-> | Hne].
  - rewrite lookup_insert_eq, Ha. cbn. f_equal.
    apply dom_insert_lookup_L. assumption.
  - rewrite lookup_insert_ne by congruence. reflexivity.
Qed.

Lemma assignFrom_names depth a n v h :
  match Env.assignFrom depth a n v h with
  | Normal _ h' | Abrupt _ h' => forall b, names h' b = names h b
  | NoOutcome _ => True
  end.
Proof.
  revert a. induction depth as [| d IH]; intros a; cbn [Env.assignFrom];
    destruct (h !! a) as [e |] eqn:Ha; try exact I;
    destruct (Env.has e (lexeme n)) eqn:Hhas;
    try (intros b; apply names_overwrite; [assumption |];
         apply has_true; assumption);
    destruct (enclosing e) as [outer |]; try exact I; try reflexivity.
  apply IH.
Qed.

Lemma getFrom_same depth a n h :
  match Env.getFrom depth a n h with
  | Normal _ h' | Abrupt _ h' => h' = h
  | NoOutcome _ => True
  end.
Proof.
  revert a. induction depth as [| d IH]; intros a; cbn [Env.getFrom];
    destruct (h !! a) as [e |] eqn:Ha; try exact I;
    destruct (values e !! lexeme n); try reflexivity;
    destruct (enclosing e) as [outer |]; try exact I; try reflexivity.
  apply IH.
Qed.

Lemma assign_namesKept x a n v :
  respects (namesKept x) (onHeap (Env.assign a n v)).
Proof.
  intros s. unfold onHeap, Env.assign.
  pose proof (assignFrom_names a a n v (heap s)) as H.
  destruct (Env.assignFrom a a n v (heap s)); trivial;
    repeat split; try reflexivity; intros b _ _; apply H.
Qed.

Lemma get_namesKept x a n : respects (namesKept x) (onHeap (Env.get a n)).
Proof.
  intros s. unfold onHeap, Env.get.
  pose proof (getFrom_same a a n (heap s)) as H.
  destruct (Env.getFrom a a n (heap s)); trivial; subst;
    rewrite setHeap_same; apply namesKept_refl.
Qed.

Lemma define_namesKept a k v :
  respects (namesKept (Some a)) (onHeap (Env.define a k v)).
Proof.
  intros s. unfold onHeap, Env.define.
  destruct (heap s !! a) as [e |] eqn:Ha; [| exact I].
  repeat split; try reflexivity. intros b _ Hb. cbn.
  apply names_define; congruence.
Qed.

(** A declaration binds its name in the current environment. *)
Lemma define_current k (v : nat -> Value) :
  respects namesKeptOutside
    (env ← getEnvironment; onHeap (Env.define env k (v env))).
Proof.
  intros s. unfold getEnvironment. unfold_monad.
  apply (define_namesKept (environment s) k (v (environment s)) s).
Qed.

Lemma fresh_namesKept x : respects (namesKept x) fresh.
Proof. intros s. repeat split; cbn; try reflexivity. lia. Qed.

Lemma consoleLog_namesKept x args : respects (namesKept x) (consoleLog args).
Proof. intros s. repeat split; cbn; reflexivity. Qed.

Lemma executeBlock_namesKept (ex : Stmt -> Eval unit) statements env :
  (forall st, respects namesKeptOutside (ex st)) ->
  respects (namesKept (Some env)) (executeBlock ex statements env).
Proof.
  intros Hex s. rewrite executeBlock_outcome.
  pose proof (@respects_forEach namesKeptOutside namesKeptOutside_refl
                namesKeptOutside_trans _ ex statements Hex
                (withEnvironment env s)) as H.
  destruct (forEach ex statements (withEnvironment env s)); trivial;
    destruct H as (He & Hn & Hk); repeat split; assumption.
Qed.

(** Entering a fresh environment: what is kept outside of it is kept
    everywhere in the store from before. *)
Lemma enter_fresh {A} (m : Eval A) s vals outer :
  respects (namesKept (Some (next s))) m ->
  match m (mkInterp (<[next s := mkEnvironment vals outer]> (heap s))
                    (S (next s)) (globals s) (environment s) (stdout s)) with
  | Normal _ s' | Abrupt _ s' => namesKept None s s'
  | NoOutcome _ => True
  end.
Proof.
  intros H.
  match goal with |- match m ?st with _ => _ end => specialize (H st) end.
  match goal with
  | |- match ?o with _ => _ end => destruct o as [y s' | t s' | r]
  end; trivial;
    destruct H as (He & Hn & Hk); cbn in He, Hn, Hk;
    (split; [assumption |]); (split; [lia |]);
    intros b Hb _; rewrite Hk by (try lia; intros [= Heq]; lia);
    unfold names; cbn [heap]; rewrite lookup_insert_ne by lia; reflexivity.
Qed.

Section Scoped.

Variable evaluate : Expr -> Eval Value.
Variable execute : Stmt -> Eval unit.
Hypothesis evaluate_keeps : forall e, respects (namesKept None) (evaluate e).
Hypothesis execute_keeps : forall st, respects namesKeptOutside (execute st).

Lemma functionCall_namesKept params body closure args :
  respects (namesKept None) (functionCall execute params body closure args).
Proof.
  intros s. rewrite functionCall_outcome.
  pose proof (@enter_fresh _ (executeBlock execute body (next s)) s
                (bindParams params args ∅) (Some closure)
                (@executeBlock_namesKept execute body (next s) execute_keeps)) as H.
  rewrite executeBlock_outcome in H. unfold withEnvironment at 1 in H.
  cbn [heap next globals environment stdout] in H.
  match goal with
  | |- match match ?o with _ => _ end with _ => _ end =>
      destruct o as [[] s1 | [] s1 | r]
  end; trivial; exact H.
Qed.

Lemma visitBlockStmt_namesKept statements :
  respects (namesKept None) (visitBlockStmt execute statements).
Proof.
  intros s. unfold visitBlockStmt, getEnvironment, newEnvironment, fresh.
  unfold_monad. unfold setHeap. cbn [heap next globals environment stdout].
  rewrite insert_insert_eq || idtac.
  apply (@enter_fresh _ (executeBlock execute statements (next s)) s ∅
           (Some (environment s))).
  apply executeBlock_namesKept. exact execute_keeps.
Qed.

Lemma forLoop_namesKept variable body elems :
  respects (namesKept None)
    (current ← getEnvironment;
     env ← newEnvironment (Some current);
     forEach (fun value =>
                onHeap (Env.define env (lexeme variable) value);;
                executeBlock execute [body] env)
             elems).
Proof.
  intros s. unfold getEnvironment, newEnvironment, fresh.
  unfold_monad. unfold setHeap. cbn [heap next globals environment stdout].
  apply (@enter_fresh _
           (forEach (fun value =>
                       bind (onHeap (Env.define (next s) (lexeme variable) value))
                            (fun _ => executeBlock execute [body] (next s)))
                    elems) s ∅ (Some (environment s))).
  apply respects_forEach; [apply namesKept_refl | apply namesKept_trans |].
  intros v. apply respects_bind; [apply namesKept_trans | |].
  - apply define_namesKept.
  - intros _. apply executeBlock_namesKept. exact execute_keeps.
Qed.

Lemma acceptExpr_namesKept e :
  respects (namesKept None) (acceptExpr evaluate execute e).
Proof.
  pose proof (@namesKept_refl None) as Hrefl.
  pose proof (@namesKept_trans None) as Htrans.
  destruct e; cbn [acceptExpr].
  - unfold visitBinaryExpr.
    apply respects_bind; [assumption | auto |]. intros L.
    apply respects_bind; [assumption | auto |]. intros R'.
    apply respects_binarySwitch; assumption.
  - apply evaluate_keeps.
  - apply respects_ret; assumption.
  - unfold visitUnaryExpr. apply respects_bind; [assumption | auto |]. intros v.
    unfold checkNumberOperand.
    destruct (type operator); try (apply respects_ret; assumption).
    apply respects_bind;
      [assumption | | intros; apply respects_ret; assumption].
    destruct v; first [apply respects_ret | apply respects_throw]; assumption.
  - unfold visitVariableExpr.
    apply respects_bind; [assumption | apply respects_gets; assumption |].
    intros; apply get_namesKept.
  - unfold visitAssignExpr.
    apply respects_bind; [assumption | auto |]. intros v.
    apply respects_bind; [assumption | apply respects_gets; assumption |].
    intros env.
    apply respects_bind; [assumption | apply assign_namesKept |].
    intros; apply respects_ret; assumption.
  - unfold visitCallExpr.
    apply respects_bind; [assumption | auto |]. intros f.
    apply respects_bind; [assumption | apply respects_mapM; auto |].
    intros argv.
    destruct (getCall f) as [err | [func |]];
      try (apply respects_throw; assumption).
    destruct (bool_decide _); [apply respects_throw; assumption |].
    destruct func; cbn [call].
    + apply functionCall_namesKept.
    + apply respects_builtinCall; try assumption.
      * apply fresh_namesKept.
      * apply consoleLog_namesKept.
  - unfold visitArrayExpr.
    apply respects_bind; [assumption | apply respects_mapM; auto |].
    intros elems.
    apply respects_bind; [assumption | apply fresh_namesKept |].
    intros; apply respects_ret; assumption.
Qed.

Lemma acceptStmt_namesKept st :
  respects namesKeptOutside (acceptStmt evaluate execute st).
Proof.
  pose proof namesKeptOutside_refl as Hrefl.
  pose proof namesKeptOutside_trans as Htrans.
  assert (Hev : forall e, respects namesKeptOutside (evaluate e))
    by (intros; apply respects_outside, evaluate_keeps).
  destruct st; cbn [acceptStmt].
  - unfold visitExpressionStmt.
    apply respects_bind; [assumption | auto |].
    intros; apply respects_ret; assumption.
  - unfold visitFunctionStmt.
    apply respects_bind;
      [assumption | apply respects_outside, fresh_namesKept |].
    intros a.
    apply (define_current (lexeme name)
             (fun env => VFunction a name params body env)).
  - unfold visitIfStmt. apply respects_bind; [assumption | auto |]. intros c.
    destruct (isTruthy c); [auto |].
    destruct elseBranch; [auto | apply respects_ret; assumption].
  - unfold visitLetStmt.
    apply respects_bind;
      [assumption
      | destruct initializer; [auto | apply respects_ret; assumption] |].
    intros v. apply (define_current (lexeme name) (fun _ => v)).
  - unfold visitReturnStmt.
    apply respects_bind;
      [assumption
      | destruct value; [auto | apply respects_ret; assumption] |].
    intros; apply respects_throw; assumption.
  - unfold visitWhileStmt. apply respects_bind; [assumption | auto |].
    intros c. destruct (isTruthy c); [| apply respects_ret; assumption].
    apply respects_bind; auto.
  - apply respects_outside, visitBlockStmt_namesKept.
  - unfold visitForStmt. apply respects_bind; [assumption | auto |].
    intros it. destruct it; try (apply respects_throw; assumption).
    apply respects_outside, forLoop_namesKept.
Qed.

End Scoped.

Lemma namesKept_evaluate_execute fuel :
  (forall e, respects (namesKept None) (evaluate fuel e))
  /\ (forall st, respects namesKeptOutside (execute fuel st)).
Proof.
  induction fuel as [| n [IHe IHs]]; split; intros x; cbn [evaluate execute].
  - apply respects_stuck.
  - apply respects_stuck.
  - apply acceptExpr_namesKept; assumption.
  - apply acceptStmt_namesKept; assumption.
Qed.

(** X7: declarations stay in their scope. A statement binds new names only
    in the current environment; a block statement and a [对于] loop bind
    none in any environment that was there before them (what they declare
    is declared in their own, fresh environment); and no expression does,
    a call included: the declarations of a function body go to the
    environment of the call. Assignments overwrite and never add a name. *)
Theorem declarations_stay_in_their_scope fuel :
  (forall st s,
     match execute fuel st s with
     | Normal _ s' | Abrupt _ s' =>
         forall a, a < next s -> a <> environment s ->
                   names (heap s') a = names (heap s) a
     | NoOutcome _ => True
     end)
  /\ (forall e s,
        match evaluate fuel e s with
        | Normal _ s' | Abrupt _ s' =>
            forall a, a < next s -> names (heap s') a = names (heap s) a
        | NoOutcome _ => True
        end)
  /\ (forall st s,
        (exists statements, st = BlockStmt statements)
        \/ (exists variable iterable body, st = ForStmt variable iterable body) ->
        match execute (S fuel) st s with
        | Normal _ s' | Abrupt _ s' =>
            forall a, a < next s -> names (heap s') a = names (heap s) a
        | NoOutcome _ => True
        end).
Proof.
  destruct (namesKept_evaluate_execute fuel) as [He Hs].
  split; [| split].
  - intros st s. specialize (Hs st s).
    destruct (execute fuel st s) as [y s1 | t s1 | r]; trivial; destruct Hs as (_ & _ & Hk);
      intros a Ha Hne; (apply Hk; congruence).
  - intros e s. specialize (He e s).
    destruct (evaluate fuel e s) as [y s1 | t s1 | r]; trivial; destruct He as (_ & _ & Hk);
      intros a Ha; (apply Hk; [assumption | discriminate]).
  - intros st s [[statements ->] | (variable & iterable & body & ->)].
    + pose proof (visitBlockStmt_namesKept Hs statements s) as H.
      cbn [execute acceptStmt].
      destruct (visitBlockStmt (execute fuel) statements s)
        as [y s1 | t s1 | r]; trivial;
        destruct H as (_ & _ & Hk);
        intros a Ha; (apply Hk; [assumption | discriminate]).
    + cbn [execute acceptStmt]. unfold visitForStmt.
      assert (H : respects (namesKept None)
                    (visitForStmt (evaluate fuel) (execute fuel) variable
                       iterable body)).
      { unfold visitForStmt.
        apply respects_bind; [apply namesKept_trans | apply He |].
        intros it. destruct it;
          try (apply respects_throw; apply namesKept_refl).
        apply forLoop_namesKept. exact Hs. }
      specialize (H s). unfold visitForStmt in H.
      match goal with
      | |- match ?o with _ => _ end => destruct o as [y s1 | t s1 | r]
      end; trivial; destruct H as (_ & _ & Hk);
        intros a Ha; (apply Hk; [assumption | discriminate]).
Qed.

(** The block [{ 就是 y = 1 }] at the top level leaves the names of the
    global scope as they were. *)
Lemma declarations_stay_in_their_scope_witness :
  match execute 3 (BlockStmt [LetStmt (nameToken "y")
                                (Some (LiteralExpr (VNumber 1)))])
                newInterpreter with
  | Normal _ s' | Abrupt _ s' =>
      names (heap s') 0 = names (heap newInterpreter) 0
  | NoOutcome _ => False
  end.
Proof.
  pose proof (proj2 (proj2 (declarations_stay_in_their_scope 2))
                (BlockStmt [LetStmt (nameToken "y")
                              (Some (LiteralExpr (VNumber 1)))])
                newInterpreter (or_introl (ex_intro _ _ eq_refl))) as H.
  destruct (execute 3 (BlockStmt [LetStmt (nameToken "y")
                                    (Some (LiteralExpr (VNumber 1)))])
                    newInterpreter) eqn:E;
    try (apply H; vm_compute; lia).
  vm_compute in E. discriminate.
Defined.

(** ** The scope chains of the store *)

Lemma scopesFrom_below h h' depth :
  forall a chain,
    scopesFrom depth h a = Some chain ->
    (forall b, b <= a -> link h' b = link h b) ->
    scopesFrom depth h' a = Some chain.
Proof.
  induction depth as [| d IH]; intros a chain Hchain Hl;
    cbn [scopesFrom] in *; pose proof (Hl a (Nat.le_refl a)) as Ha;
    unfold link in Ha;
    destruct (h !! a) as [e |]; try discriminate;
    destruct (h' !! a) as [e' |]; try discriminate;
    injection Ha as ->;
    destruct (enclosing e) as [outer |]; try assumption;
    destruct (bool_decide (outer < a)) eqn:Hlt; try discriminate.
  apply bool_decide_eq_true in Hlt.
  destruct (scopesFrom d h outer) as [rest |] eqn:Hrest; [| discriminate].
  rewrite (IH outer rest Hrest); [assumption |].
  intros b Hb. apply Hl. lia.
Qed.

(** X8: the evaluator never removes an environment from the store and never
    changes what an environment encloses: the chain of scopes of every
    environment of the store, hence of the closure of every function
    value, is after [interpret] what it was before, however [interpret]
    ends; the new environments lie at the addresses that were free. *)
Theorem scope_chains_never_change fuel statements s :
  allocated s ->
  match interpret fuel statements s with
  | Normal _ s' | Abrupt _ s' =>
      allocated s' /\ next s <= next s'
      /\ forall a chain,
           scopes (heap s) a = Some chain -> scopes (heap s') a = Some chain
  | NoOutcome _ => True
  end.
Proof.
  intros Halloc.
  assert (H : respects grows (interpret fuel statements)).
  { unfold interpret. apply respects_tryCatch; [apply grows_trans | |].
    - apply respects_forEach; [apply grows_refl | apply grows_trans |].
      apply (grows_evaluate_execute fuel).
    - intros [tok msg | v | e] s0; apply grows_refl. }
  specialize (H s).
  destruct (interpret fuel statements s) as [u s' | t s' | r]; trivial;
    destruct (H Halloc) as (Halloc' & Hnext & Hlinks);
    (split; [assumption |]); (split; [assumption |]);
    intros a chain Hchain; unfold scopes in *;
    apply (scopesFrom_below Hchain); intros b Hb; apply Hlinks;
    (assert (Ha : a < next s);
     [apply Halloc; destruct a; cbn [scopesFrom] in Hchain;
      destruct (heap s !! _); [eauto | discriminate | eauto | discriminate]
     | lia]).
Qed.

(** After the block [{ 就是 y = 1 }], the chain of the global scope is what
    it was. *)
Lemma scope_chains_never_change_witness :
  match interpret 3 [BlockStmt [LetStmt (nameToken "y")
                                  (Some (LiteralExpr (VNumber 1)))]]
                  newInterpreter with
  | Normal _ s' | Abrupt _ s' => scopes (heap s') 0 = Some [0]
  | NoOutcome _ => False
  end.
Proof.
  pose proof (@scope_chains_never_change 3
                [BlockStmt [LetStmt (nameToken "y")
                              (Some (LiteralExpr (VNumber 1)))]]
                newInterpreter newInterpreter_allocated) as H.
  destruct (interpret 3 [BlockStmt [LetStmt (nameToken "y")
                                      (Some (LiteralExpr (VNumber 1)))]]
                      newInterpreter) as [u s' | t s' | r] eqn:E;
    try (apply H; vm_compute; reflexivity).
  vm_compute in E. discriminate.
Defined.

(** ** The interactive session and the process *)

Lemma promptLoop_quit fuel pre post :
  forall vs,
    promptLoop fuel (pre ++ js ".退出" :: post) vs = promptLoop fuel pre vs.
Proof.
  induction pre as [| line pre IH]; intros vs; cbn [promptLoop app].
  - unfold str_eqb. rewrite bool_decide_eq_true_2 by reflexivity. reflexivity.
  - destruct (str_eqb line (js ".退出")); [reflexivity |].
    destruct (run fuel line vs); [reflexivity | apply IH].
Qed.

(** X9: in the interactive session the lines are run one after the other
    on the same interpreter, so a line sees what the earlier lines have
    defined, and an error in a line does not end the session; the session
    ends at the first line that is exactly [.退出], and the lines after it
    are never run. *)
Theorem session_runs_lines_in_sequence fuel :
  (forall pre post vs,
     promptLoop fuel (pre ++ js ".退出" :: post) vs = promptLoop fuel pre vs)
  /\ (forall line rest vs,
        line <> js ".退出" ->
        promptLoop fuel (line :: rest) vs =
        match run fuel line vs with
        | inl r => inl r
        | inr vs' => promptLoop fuel rest vs'
        end)
  /\ (forall first second vs,
        js ".退出" ∉ first ->
        promptLoop fuel (first ++ second) vs =
        match promptLoop fuel first vs with
        | inl r => inl r
        | inr vs' => promptLoop fuel second vs'
        end).
Proof.
  split; [intros; apply promptLoop_quit |]. split.
  - intros line rest vs Hline. cbn [promptLoop]. unfold str_eqb.
    rewrite bool_decide_eq_false_2 by assumption. reflexivity.
  - intros first second. induction first as [| line first IH]; intros vs Hq;
      cbn [promptLoop app].
    + reflexivity.
    + unfold str_eqb. rewrite bool_decide_eq_false_2.
      * destruct (run fuel line vs); [reflexivity |]. apply IH.
        intros Hin. apply Hq. right. exact Hin.
      * intros ->. apply Hq. left.
Qed.

(** The session [就是 x = 1], [x / 0], [输出(x)], [.退出], [输出(2)]: the
    second line fails, the third prints 1, the last is not run. *)
Lemma session_runs_lines_in_sequence_witness :
  promptLoop 20 ([js "就是 x = 1"; js "x / 0"] ++ [js "输出(x)"]) newVScript
  = match promptLoop 20 [js "就是 x = 1"; js "x / 0"] newVScript with
    | inl r => inl r
    | inr vs' => promptLoop 20 [js "输出(x)"] vs'
    end
  /\ promptLoop 20 [js "输出(2)"; js ".退出"] newVScript
     = match run 20 (js "输出(2)") newVScript with
       | inl r => inl r
       | inr vs' => promptLoop 20 [js ".退出"] vs'
       end
  /\ exists vs,
       promptLoop 20 [js "就是 x = 1"; js "x / 0"; js "输出(x)"; js ".退出";
                      js "输出(2)"] newVScript = inr vs
       /\ stdout (interpreter vs) = [[VNumber 1]]
       /\ List.length (stderr vs) = 1.
Proof.
  split; [| split].
  - apply (proj2 (proj2 (session_runs_lines_in_sequence 20))).
    apply not_elem_of_cons. split; [vm_compute; discriminate |].
    apply not_elem_of_cons. split; [vm_compute; discriminate |].
    apply not_elem_of_nil.
  - apply (proj1 (proj2 (session_runs_lines_in_sequence 20))).
    vm_compute. discriminate.
  - eexists. split; [vm_compute; reflexivity |]. split; reflexivity.
Defined.

Lemma log_interpreter args vs :
  wf (interpreter (log args vs)) <-> wf (interpreter vs).
Proof. unfold log, wf. cbn. reflexivity. Qed.

Lemma promptLoop_invariants fuel lines :
  forall vs,
    wf (interpreter vs) ->
    match promptLoop fuel lines vs with
    | inr vs' =>
        wf (interpreter vs')
        /\ globals (interpreter vs') = globals (interpreter vs)
        /\ environment (interpreter vs') = environment (interpreter vs)
        /\ stdout (interpreter vs) `prefix_of` stdout (interpreter vs')
        /\ stderr vs `prefix_of` stderr vs'
        /\ List.length (stderr vs') <= List.length (stderr vs) + List.length lines
    | inl r => r = OutOfFuel
    end.
Proof.
  assert (Hstay : forall vs n,
             wf (interpreter vs) ->
             wf (interpreter vs)
             /\ globals (interpreter vs) = globals (interpreter vs)
             /\ environment (interpreter vs) = environment (interpreter vs)
             /\ stdout (interpreter vs) `prefix_of` stdout (interpreter vs)
             /\ stderr vs `prefix_of` stderr vs
             /\ List.length (stderr vs) <= List.length (stderr vs) + n).
  { intros vs n Hwf. split; [assumption |]. split; [reflexivity |].
    split; [reflexivity |]. split; [reflexivity |]. split; [reflexivity | lia]. }
  induction lines as [| line lines IH]; intros vs Hwf; cbn [promptLoop].
  - apply Hstay. assumption.
  - destruct (str_eqb line (js ".退出")).
    + apply Hstay. assumption.
    + pose proof (@run_never_dangles fuel line vs Hwf) as Hrun.
      pose proof (run_steady fuel line vs) as Hsteady.
      destruct (run fuel line vs) as [r | vs1]; [exact Hrun |].
      specialize (IH vs1 Hrun).
      destruct (promptLoop fuel lines vs1) as [r | vs2]; [exact IH |].
      destruct Hsteady as (Hg & He & Ho & Herr).
      destruct IH as (Hwf2 & Hg2 & He2 & Ho2 & Herr2 & Hlen).
      split; [assumption |]. split; [congruence |]. split; [congruence |].
      split; [etrans; eassumption |].
      cbn [List.length].
      destruct Herr as [Heq | [text Heq]]; rewrite Heq in *.
      * split; [assumption | lia].
      * split; [etrans; [apply prefix_app_r; reflexivity | exact Herr2] |].
        rewrite length_app in Hlen. cbn in Hlen. lia.
Qed.

(** X10: whatever lines are entered in an interactive session, each line
    is run with the global environment as the current one, also after a
    line has failed in the middle of a function or of a block; the store
    stays well-formed; what has been printed is never taken back; and
    each line adds at most one line to the error output. The session
    never follows a dangling address. *)
Theorem session_keeps_interpreter_sound fuel lines :
  match runPrompt fuel lines newVScript with
  | inr vs =>
      wf (interpreter vs)
      /\ globals (interpreter vs) = 0
      /\ environment (interpreter vs) = 0
      /\ List.length (stderr vs) <= List.length lines
  | inl r => r = OutOfFuel
  end.
Proof.
  unfold runPrompt.
  match goal with
  | |- match promptLoop fuel lines ?vs0 with _ => _ end =>
      pose proof (@promptLoop_invariants fuel lines vs0) as H;
      destruct (promptLoop fuel lines vs0) as [r | vs]
  end.
  - apply H. apply log_interpreter, log_interpreter. exact newInterpreter_wf.
  - destruct H as (Hwf & Hg & He & _ & _ & Hlen).
    + apply log_interpreter, log_interpreter. exact newInterpreter_wf.
    + cbn in Hg, He, Hlen. auto.
Qed.

(** X11: the exit status of the process is 64 when there is more than one
    argument, and then nothing is run; 70 when the one script file cannot
    be read, and then the two lines about the file are all that is
    written; and 0 in every other case: a script that fails, in the
    lexer, in the parser or at run time, is reported on the error output
    and the process still ends with status 0. *)
Theorem exit_status_ignores_script_errors fuel readFileSync args lines :
  match main fuel readFileSync args lines with
  | inr (vs, status) =>
      match args with
      | [] => status = 0%Z /\ runPrompt fuel lines newVScript = inr vs
      | [path] =>
          match readFileSync path with
          | inr source => status = 0%Z /\ run fuel source newVScript = inr vs
          | inl error =>
              status = 70%Z
              /\ interpreter vs = newInterpreter
              /\ List.length (stderr vs) = 2
              /\ List.last (stderr vs) []
                 = [27; 91; 51; 49; 109]%N ++ message error ++ [27; 91; 48; 109]%N
          end
      | _ =>
          status = 64%Z /\ stderr vs = []
          /\ stdout (interpreter vs) = [[VString (js "用法: vscript [脚本文件]")]]
      end
  | inl r =>
      match args with
      | [] => runPrompt fuel lines newVScript = inl r
      | [path] =>
          exists source,
            readFileSync path = inr source /\ run fuel source newVScript = inl r
      | _ => False
      end
  end.
Proof.
  unfold main. destruct args as [| path [| other args]]; cbn [List.length].
  - rewrite bool_decide_eq_false_2 by lia.
    destruct (runPrompt fuel lines newVScript); auto.
  - rewrite bool_decide_eq_false_2 by lia. unfold runFile.
    destruct (readFileSync path) as [error | source].
    + unfold consoleError, newVScript. cbn [stderr interpreter app List.length].
      split; [reflexivity |]. split; [reflexivity |].
      split; reflexivity.
    + destruct (run fuel source newVScript) as [r | vs] eqn:E; [eauto | auto].
  - rewrite bool_decide_eq_true_2 by lia.
    split; [reflexivity |]. split; reflexivity.
Qed.

(** ** The tokens of a source *)

Lemma sliced_more lexemes : forall text more,
  sliced lexemes text -> sliced lexemes (text ++ more).
Proof.
  induction lexemes as [| x rest IH]; intros text more; cbn [sliced].
  - trivial.
  - intros (skipped & text' & -> & Hrest).
    exists skipped, (text' ++ more). split.
    + rewrite <- !app_assoc. reflexivity.
    + apply IH. exact Hrest.
Qed.

Lemma sliced_snoc lexemes : forall text x,
  sliced lexemes text -> sliced (lexemes ++ [x]) (text ++ x).
Proof.
  induction lexemes as [| y rest IH]; intros text x; cbn [sliced app].
  - intros _. exists text, []. rewrite app_nil_r. auto.
  - intros (skipped & text' & -> & Hrest).
    exists skipped, (text' ++ x). split.
    + rewrite <- !app_assoc. reflexivity.
    + apply IH. exact Hrest.
Qed.

Lemma plainKind_fits ty text :
  plainKind ty -> ty <> EOF /\ literalFits ty text LitNull.
Proof. destruct ty; cbn; intros H; try contradiction; split; congruence. Qed.

Lemma keyword_kind text :
  plainKind match mapGet keywords text with
            | Some t => t
            | None => IDENTIFIER
            end.
Proof.
  unfold keywords. cbn [mapGet].
  repeat match goal with
         | |- context [str_eqb ?a text] => destruct (str_eqb a text)
         end; exact I.
Qed.

Lemma keyword_fits text :
  kindFits match mapGet keywords text with
           | Some t => t
           | None => IDENTIFIER
           end text.
Proof.
  destruct (mapGet keywords text) as [t |] eqn:E; [| exact E].
  unfold keywords in E. cbn [mapGet] in E.
  repeat match type of E with
         | (if str_eqb ?a text then _ else _) = _ =>
             destruct (str_eqb a text) eqn:Heq;
             [apply bool_decide_eq_true in Heq; subst text;
              injection E as <-; reflexivity | clear Heq]
         end.
  discriminate.
Qed.

Lemma within_refl l :
  (current l <= List.length (source l))%nat -> within l l.
Proof. intros H. repeat split; try reflexivity; lia. Qed.

Lemma within_trans l1 l2 l3 : within l1 l2 -> within l2 l3 -> within l1 l3.
Proof.
  intros (Hs & Ht & Hst & Hc) (Hs' & Ht' & Hst' & Hc').
  repeat split; try congruence; lia.
Qed.

Lemma opened_within l0 l l' : opened l0 l -> within l l' -> opened l0 l'.
Proof.
  intros (Hs & Ht & Hst & Hc) (Hs' & Ht' & Hst' & Hc').
  repeat split; try congruence; try lia. rewrite <- Hs, <- Hs'. lia.
Qed.

Lemma peek_unit l :
  isAtEnd l = false ->
  exists x, source l !! current l = Some x /\ peek l = [x].
Proof.
  intros Hend. unfold peek, charAt. rewrite Hend.
  apply isAtEnd_false in Hend.
  destruct (lookup_lt_is_Some_2 (source l) (current l) Hend) as [x Hx].
  exists x. rewrite Hx. auto.
Qed.

Lemma advance_within l :
  isAtEnd l = false -> within l (snd (advance l)).
Proof.
  intros Hend. apply isAtEnd_false in Hend.
  repeat split; cbn; try reflexivity; lia.
Qed.

Lemma advanceWhile_within p turns :
  p [0%N] = false ->
  forall l,
    (current l <= List.length (source l))%nat ->
    match advanceWhile p turns l with
    | Ok _ l' => within l l'
    | _ => True
    end.
Proof.
  intros Hp. induction turns as [| n IH]; intros l Hl; cbn [advanceWhile];
    destruct (p (peek l)) eqn:Hpeek; try (apply within_refl; exact Hl);
    try exact I.
  destruct (isAtEnd l) eqn:Hend;
    [rewrite (peek_end Hend) in Hpeek; congruence |].
  pose proof (advance_within Hend) as Hadv.
  specialize (IH (snd (advance l))).
  destruct (advanceWhile p n (snd (advance l))); trivial.
  apply within_trans with (snd (advance l)); [exact Hadv |].
  apply IH. destruct Hadv as (Hs & _ & _ & Hc). lia.
Qed.

Lemma lineComment_within turns :
  forall l,
    (current l <= List.length (source l))%nat ->
    match lineComment turns l with
    | Ok _ l' => within l l'
    | _ => True
    end.
Proof.
  induction turns as [| n IH]; intros l Hl; cbn [lineComment];
    destruct (negb (str_eqb (peek l) [10%N])); cbn [andb];
    try (apply within_refl; exact Hl);
    destruct (isAtEnd l) eqn:Hend; cbn [negb];
    try (apply within_refl; exact Hl); try exact I.
  pose proof (advance_within Hend) as Hadv.
  specialize (IH (snd (advance l))).
  destruct (lineComment n (snd (advance l))); trivial.
  apply within_trans with (snd (advance l)); [exact Hadv |].
  apply IH. destruct Hadv as (Hs & _ & _ & Hc). lia.
Qed.

Lemma multilineComment_within turns :
  forall l,
    (current l <= List.length (source l))%nat ->
    match multilineComment turns l with
    | Ok _ l' => within l l'
    | _ => True
    end.
Proof.
  induction turns as [| n IH]; intros l Hl; cbn [multilineComment];
    destruct (isAtEnd l) eqn:Hend; cbn [negb]; try exact I.
  destruct (str_eqb (peek l) (js "*") && str_eqb (peekNext l) (js "/")) eqn:Hclose.
  - apply andb_true_iff in Hclose as [_ Hnext].
    unfold peekNext in Hnext.
    destruct (bool_decide (List.length (source l) <= current l + 1)%nat) eqn:Hb;
      [vm_compute in Hnext; discriminate |].
    apply bool_decide_eq_false in Hb.
    repeat split; cbn; try reflexivity; lia.
  - match goal with
    | |- match multilineComment n (snd (advance ?l1)) with _ => _ end =>
        assert (H1 : within l l1)
          by (destruct (str_eqb (peek l) [10%N]);
              repeat split; cbn; try reflexivity; lia);
        assert (Hend1 : isAtEnd l1 = false)
          by (destruct (str_eqb (peek l) [10%N]); exact Hend);
        pose proof (advance_within Hend1) as Hadv;
        specialize (IH (snd (advance l1)));
        destruct (multilineComment n (snd (advance l1))); trivial;
        apply within_trans with l1; [exact H1 |];
        apply within_trans with (snd (advance l1)); [exact Hadv |];
        apply IH; destruct Hadv as (Hs & _ & _ & Hc); lia
    end.
Qed.

(** The loop of [string()] stops at the end of the source or at a quote,
    and passes no quote. *)
Lemma stringLoop_within turns :
  forall l,
    (current l <= List.length (source l))%nat ->
    match stringLoop turns l with
    | Ok _ l' =>
        within l l'
        /\ (isAtEnd l' = true \/ source l' !! current l' = Some 34%N)
        /\ forall i, (current l <= i < current l')%nat ->
                     source l !! i <> Some 34%N
    | _ => True
    end.
Proof.
  induction turns as [| n IH]; intros l Hl; cbn [stringLoop];
    destruct (str_eqb (peek l) [34%N]) eqn:Hq; cbn [negb andb];
    destruct (isAtEnd l) eqn:Hend; cbn [negb]; try exact I;
    try (split; [apply within_refl; exact Hl |];
         split; [| intros i Hi; lia];
         first [ left; first [exact Hend | reflexivity]
               | right; destruct (peek_unit Hend) as (x & Hx & Hpeek);
                 rewrite Hpeek in Hq; apply bool_decide_eq_true in Hq;
                 injection Hq as ->; exact Hx ]).
  destruct (peek_unit Hend) as (x & Hx & Hpeek).
  rewrite Hpeek in Hq. apply bool_decide_eq_false in Hq.
  match goal with
  | |- match stringLoop n (snd (advance ?l1)) with _ => _ end =>
      assert (H1 : within l l1)
        by (destruct (str_eqb (peek l) [10%N]);
            repeat split; cbn; try reflexivity; lia);
      assert (Hend1 : isAtEnd l1 = false)
        by (destruct (str_eqb (peek l) [10%N]); exact Hend);
      assert (Hc1 : current (snd (advance l1)) = S (current l))
        by (destruct (str_eqb (peek l) [10%N]); reflexivity);
      pose proof (advance_within Hend1) as Hadv;
      specialize (IH (snd (advance l1)));
      destruct (stringLoop n (snd (advance l1))) as [u l' | e |]; trivial
  end.
  destruct IH as (Hw & Hstop & Hnone);
    [destruct Hadv as (Hs & _ & _ & Hc); lia |].
  pose proof (within_trans H1 Hadv) as H2.
  split; [apply (within_trans H2 Hw) |]. split; [exact Hstop |].
  intros i Hi. destruct (decide (i = current l)) as [-> | Hne].
  - rewrite Hx. congruence.
  - destruct H2 as (Hs2 & _). rewrite <- Hs2. apply Hnone. lia.
Qed.

Lemma Lmatch_within c l :
  (current l <= List.length (source l))%nat -> within l (snd (Lmatch c l)).
Proof.
  intros Hl. unfold Lmatch. destruct (isAtEnd l) eqn:Hend;
    [apply within_refl; exact Hl |].
  destruct (negb _); [apply within_refl; exact Hl |].
  apply isAtEnd_false in Hend. repeat split; cbn; try reflexivity; lia.
Qed.

Lemma substring_length s a b :
  (a <= b <= List.length s)%nat -> List.length (substring s a b) = (b - a)%nat.
Proof.
  intros H. unfold substring.
  rewrite Nat.max_r, Nat.min_l by lia.
  rewrite length_take, length_drop. lia.
Qed.

(** The token that [addToken] makes in the middle of a lexeme. *)
Lemma addToken_scanned l0 l ty lit :
  opened l0 l ->
  ty <> EOF ->
  literalFits ty (substring (source l0) (current l0) (current l)) lit ->
  kindFits ty (substring (source l0) (current l0) (current l)) ->
  scanned l0 (addToken ty lit l).
Proof.
  intros (Hs & Ht & Hst & Hc) Hty Hlit Hkind.
  split; [exact Hs |]. split; [exact Hc |]. right.
  eexists. cbn [addToken tokens]. rewrite Ht, Hs, Hst.
  split; [reflexivity |]. cbn [lexeme type literal current].
  split; [reflexivity |].
  split; [| split; reflexivity].
  split; [exact Hty |].
  split; [| split; [exact Hlit | exact Hkind]].
  intros Hnil. cbn [lexeme] in Hnil.
  apply (f_equal (@List.length N)) in Hnil.
  rewrite substring_length in Hnil by lia. cbn in Hnil. lia.
Qed.

Lemma addPlain_scanned l0 l ty :
  opened l0 l -> plainKind ty ->
  kindFits ty (substring (source l0) (current l0) (current l)) ->
  scanned l0 (addToken ty LitNull l).
Proof.
  intros Hop Hty Hkind.
  apply addToken_scanned;
    [exact Hop
    | exact (proj1 (@plainKind_fits ty [] Hty))
    | exact (proj2 (@plainKind_fits ty _ Hty))
    | exact Hkind].
Qed.

Lemma substring_charAt s a :
  (a < List.length s)%nat -> substring s a (S a) = charAt s a.
Proof.
  intros Ha. unfold substring, charAt.
  rewrite Nat.max_r, Nat.min_l by lia.
  destruct (lookup_lt_is_Some_2 s a Ha) as [x Hx]. rewrite Hx.
  rewrite (drop_S _ _ _ Hx). replace (S a - a)%nat with 1%nat by lia.
  reflexivity.
Qed.

Lemma substring_two s a :
  (S a < List.length s)%nat ->
  substring s a (S (S a)) = charAt s a ++ charAt s (S a).
Proof.
  intros Ha. unfold substring, charAt.
  rewrite Nat.max_r, Nat.min_l by lia.
  destruct (lookup_lt_is_Some_2 s a ltac:(lia)) as [x Hx].
  destruct (lookup_lt_is_Some_2 s (S a) Ha) as [y Hy]. rewrite Hx, Hy.
  rewrite (drop_S _ _ _ Hx), (drop_S _ _ _ Hy).
  replace (S (S a) - a)%nat with 2%nat by lia. reflexivity.
Qed.

(** [match(expected)] either leaves the lexer as it is, or has seen
    [expected] at the cursor and moves on. *)
Lemma Lmatch_outcome expected l :
  Lmatch expected l = (false, l)
  \/ (Lmatch expected l = (true, snd (advance l))
      /\ isAtEnd l = false
      /\ charAt (source l) (current l) = expected).
Proof.
  unfold Lmatch. destruct (isAtEnd l) eqn:Hend; [left; reflexivity |].
  destruct (str_eqb (charAt (source l) (current l)) expected) eqn:Heq;
    cbn [negb]; [| left; reflexivity].
  right. apply bool_decide_eq_true in Heq. auto.
Qed.

(** A token of one character. *)
Lemma addChar_scanned l0 l ty text :
  opened l0 l -> current l = S (current l0) ->
  charAt (source l0) (current l0) = text ->
  plainKind ty -> kindFits ty text ->
  scanned l0 (addToken ty LitNull l).
Proof.
  intros Hop Hcur Hchar Hty Hkind. apply addPlain_scanned; try assumption.
  destruct Hop as (_ & _ & _ & Hc).
  rewrite Hcur, substring_charAt, Hchar by lia. exact Hkind.
Qed.

Lemma skipped_scanned l0 l : opened l0 l -> scanned l0 l.
Proof.
  intros (Hs & Ht & Hst & Hc). split; [exact Hs |]. split; [exact Hc |].
  left. exact Ht.
Qed.

Lemma addEither_scanned l0 l a b text :
  opened l0 l -> current l = S (current l0) ->
  charAt (source l0) (current l0) = text ->
  plainKind a -> plainKind b ->
  kindFits a (text ++ js "=") -> kindFits b text ->
  scannedIf l0 (addEither a b l).
Proof.
  intros Hop Hcur Hchar Ha Hb Hka Hkb. unfold addEither.
  destruct (Lmatch_outcome (js "=") l) as [-> | (-> & Hend & Heq)];
    cbn [scannedIf].
  - apply (addChar_scanned Hop Hcur Hchar Hb Hkb).
  - pose proof (opened_within Hop (advance_within Hend)) as Hop1.
    apply addPlain_scanned; [exact Hop1 | exact Ha |].
    destruct Hop as (Hs & _ & _ & Hc). apply isAtEnd_false in Hend.
    cbn [advance snd current]. rewrite Hcur, substring_two by (rewrite <- Hs; lia).
    rewrite Hchar, <- Hcur, <- Hs, Heq. exact Hka.
Qed.

Lemma identifier_scanned l0 l turns :
  opened l0 l -> scannedIf l0 (identifier turns l).
Proof.
  intros Hop. unfold identifier.
  pose proof (@advanceWhile_within isAlphaNumeric turns isAlphaNumeric_sentinel l)
    as Hw.
  destruct (advanceWhile isAlphaNumeric turns l) as [u l1 | e |]; try exact I.
  cbn [scannedIf].
  assert (Hop1 : opened l0 l1).
  { apply (opened_within Hop). apply Hw.
    destruct Hop as (Hs & _ & _ & Hc). rewrite Hs. lia. }
  apply addPlain_scanned; [exact Hop1 | apply keyword_kind |].
  destruct Hop1 as (Hs & _ & Hst & _). rewrite Hs, Hst. apply keyword_fits.
Qed.

Lemma number_scanned l0 l turns :
  opened l0 l -> scannedIf l0 (number turns l).
Proof.
  intros Hop. unfold number.
  assert (Hl : (current l <= List.length (source l))%nat)
    by (destruct Hop as (Hs & _ & _ & Hc); rewrite Hs; lia).
  pose proof (@advanceWhile_within isDigit turns isDigit_sentinel l Hl) as Hw.
  destruct (advanceWhile isDigit turns l) as [u l1 | e |]; try exact I.
  pose proof (opened_within Hop Hw) as Hop1.
  assert (Hfinal : forall l2,
             opened l0 l2 ->
             scannedIf l0
               (Ok tt (addToken NUMBER
                         (LitNumber (parseFloat (substring (source l2) (start l2)
                                                   (current l2)))) l2))).
  { intros l2 Hop2. cbn [scannedIf].
    apply addToken_scanned; [exact Hop2 | discriminate | | exact I].
    destruct Hop2 as (Hs & _ & Hst & _). rewrite Hs, Hst. reflexivity. }
  destruct (str_eqb (peek l1) (js ".") && isDigit (peekNext l1)) eqn:Hfrac.
  - apply andb_true_iff in Hfrac as [Hdot _].
    assert (Hend : isAtEnd l1 = false).
    { destruct (isAtEnd l1) eqn:Hend; [| reflexivity].
      rewrite (peek_end Hend) in Hdot. vm_compute in Hdot. discriminate. }
    pose proof (advance_within Hend) as Hadv.
    pose proof (@advanceWhile_within isDigit turns isDigit_sentinel
                  (snd (advance l1))) as Hw2.
    destruct (advanceWhile isDigit turns (snd (advance l1))) as [u2 l2 | e |];
      try exact I.
    apply Hfinal. apply (opened_within Hop1).
    apply within_trans with (snd (advance l1)); [exact Hadv |].
    apply Hw2. destruct Hadv as (_ & _ & _ & Hc). lia.
  - apply Hfinal. exact Hop1.
Qed.

Lemma substring_quoted s a b :
  s !! a = Some 34%N -> s !! b = Some 34%N -> (a < b)%nat ->
  substring s a (S b) = [34%N] ++ substring s (a + 1) (S b - 1) ++ [34%N].
Proof.
  intros Ha Hb Hab. unfold substring.
  rewrite !Nat.max_r, !Nat.min_l by lia.
  rewrite (drop_S _ _ _ Ha).
  replace (S b - a)%nat with (S (b - a - 1 + 1)) by lia.
  cbn [take app]. f_equal.
  replace (a + 1)%nat with (S a) by lia.
  replace (S b - 1 - S a)%nat with (b - a - 1)%nat by lia.
  rewrite Nat.add_1_r. apply take_S_r.
  rewrite lookup_drop. replace (S a + (b - a - 1))%nat with b by lia. exact Hb.
Qed.

Lemma Lstring_scanned l0 l turns :
  opened l0 l ->
  current l = S (current l0) ->
  source l0 !! current l0 = Some 34%N ->
  scannedIf l0 (Lstring turns l).
Proof.
  intros Hop Hcur Hquote. unfold Lstring.
  assert (Hl : (current l <= List.length (source l))%nat)
    by (destruct Hop as (Hs & _ & _ & Hc); rewrite Hs; lia).
  pose proof (@stringLoop_within turns l Hl) as Hw.
  destruct (stringLoop turns l) as [u l1 | e |]; try exact I.
  destruct Hw as (Hw & Hstop & Hnone).
  destruct (isAtEnd l1) eqn:Hend; [exact I |].
  destruct Hstop as [Hstop | Hstop]; [congruence |].
  pose proof (opened_within Hop Hw) as Hop1.
  pose proof (advance_within Hend) as Hadv.
  pose proof (opened_within Hop1 Hadv) as Hop2.
  cbn [scannedIf].
  apply addToken_scanned; [exact Hop2 | discriminate | | exact I].
  destruct Hop as (Hs & _ & _ & _).
  destruct Hop1 as (Hs1 & _ & Hst1 & Hc1).
  destruct Hw as (_ & _ & _ & Hcw).
  cbn [advance snd source start current]. rewrite Hs1, Hst1.
  cbn [literalFits]. eexists. split; [| split; [| reflexivity]].
  - apply substring_quoted; [exact Hquote | rewrite <- Hs1; exact Hstop | lia].
  - intros Hin. unfold substring in Hin.
    rewrite Nat.max_r, Nat.min_l in Hin by lia.
    apply list_elem_of_lookup in Hin as [i Hi].
    apply lookup_take_Some in Hi as [Hi Hlt].
    rewrite lookup_drop in Hi.
    apply (Hnone (current l0 + 1 + i)%nat); [lia |].
    rewrite Hs. exact Hi.
Qed.

Lemma slash_scanned l0 l turns :
  opened l0 l -> current l = S (current l0) ->
  charAt (source l0) (current l0) = js "/" ->
  scannedIf l0
    (let (m, l1) := Lmatch (js "/") l in
     if m then lineComment turns l1
     else
       let (m2, l2) := Lmatch (js "*") l1 in
       if m2 then multilineComment turns l2
       else Ok tt (addToken DIVIDE LitNull l2)).
Proof.
  intros Hop Hcur Hchar.
  assert (Hl : (current l <= List.length (source l))%nat)
    by (destruct Hop as (Hs & _ & _ & Hc); rewrite Hs; lia).
  pose proof (@Lmatch_within (js "/") l Hl) as Hw1.
  pose proof (Lmatch_outcome (js "/") l) as Ho1.
  destruct (Lmatch (js "/") l) as [m l1]. cbn [snd] in Hw1.
  assert (Hl1 : (current l1 <= List.length (source l1))%nat)
    by (destruct Hw1 as (_ & _ & _ & Hc); lia).
  destruct m.
  - pose proof (@lineComment_within turns l1 Hl1) as Hw.
    destruct (lineComment turns l1); try exact I.
    apply skipped_scanned, (opened_within Hop), (within_trans Hw1 Hw).
  - pose proof (@Lmatch_within (js "*") l1 Hl1) as Hw2.
    pose proof (Lmatch_outcome (js "*") l1) as Ho2.
    destruct (Lmatch (js "*") l1) as [m2 l2]. cbn [snd] in Hw2.
    assert (Hl2 : (current l2 <= List.length (source l2))%nat)
      by (destruct Hw2 as (_ & _ & _ & Hc); lia).
    destruct m2.
    + pose proof (@multilineComment_within turns l2 Hl2) as Hw.
      destruct (multilineComment turns l2); try exact I.
      apply skipped_scanned, (opened_within Hop).
      apply (within_trans Hw1), (within_trans Hw2), Hw.
    + destruct Ho1 as [[= <-] | [[=] _]].
      destruct Ho2 as [[= <-] | [[=] _]].
      apply (addChar_scanned Hop Hcur Hchar); [exact I | reflexivity].
Qed.

(** One turn of the loop of [scanTokens]. *)
Lemma scanToken_scanned turns l :
  isAtEnd l = false ->
  start l = current l ->
  scannedIf l (scanToken turns l).
Proof.
  intros Hend Hstart. unfold scanToken.
  destruct (advance l) as [c l1] eqn:E.
  assert (Hop : opened l l1).
  { unfold advance in E. injection E as _ <-. apply isAtEnd_false in Hend.
    repeat split; cbn; try assumption; try reflexivity; lia. }
  assert (Hcur : current l1 = S (current l))
    by (unfold advance in E; injection E as _ <-; reflexivity).
  assert (Hc : c = charAt (source l) (current l))
    by (unfold advance in E; injection E as <- _; reflexivity).
  clear E.
  repeat match goal with
         | |- scannedIf _ (if ?b then _ else _) => destruct b eqn:?
         end;
    try (apply skipped_scanned; exact Hop);
    try (apply number_scanned; exact Hop);
    try (apply identifier_scanned; exact Hop);
    try exact I;
    try match goal with
        | H : isChar c ?s = true |- _ =>
            apply bool_decide_eq_true in H; rewrite Hc in H;
            first
              [ apply (addChar_scanned Hop Hcur H); [exact I | reflexivity]
              | apply (addEither_scanned Hop Hcur H);
                [exact I | exact I | vm_compute; reflexivity | reflexivity]
              | apply (slash_scanned _ Hop Hcur H) ]
        end.
  apply Lstring_scanned; [exact Hop | exact Hcur |].
  match goal with
  | H : str_eqb c [34%N] = true |- _ =>
      apply bool_decide_eq_true in H; rewrite Hc in H; unfold charAt in H;
      destruct (source l !! current l) as [x |]; [| discriminate];
      injection H as ->; reflexivity
  end.
Qed.

Lemma substring_take s a b :
  (a <= b)%nat -> take b s = take a s ++ substring s a b.
Proof.
  intros H. unfold substring. rewrite Nat.max_r, Nat.min_l by lia.
  rewrite take_take_drop. f_equal. lia.
Qed.

Lemma scanned_lexed l l' : scanned l l' -> lexed l -> lexed l'.
Proof.
  intros (Hs & Hc & Htok) (Hall & Hsl & Hl).
  assert (Htake : take (current l') (source l')
                  = take (current l) (source l)
                    ++ substring (source l) (current l) (current l'))
    by (rewrite Hs; apply substring_take; lia).
  unfold lexed.
  destruct Htok as [Ht | (tok & Ht & Hlex & Htok & _)]; rewrite Ht.
  - split; [exact Hall |]. split; [| rewrite Hs; lia].
    rewrite Htake. apply sliced_more. exact Hsl.
  - split; [apply Forall_app; split;
             [exact Hall | apply Forall_cons; split; [exact Htok | constructor]] |].
    split; [| rewrite Hs; lia].
    rewrite fmap_app, Htake, <- Hlex. cbn [fmap list_fmap].
    apply sliced_snoc. exact Hsl.
Qed.

Lemma scanLoop_lexed turns :
  forall l,
    lexed l ->
    match scanLoop turns l with
    | Ok _ l' => lexed l' /\ isAtEnd l' = true /\ source l' = source l
    | _ => True
    end.
Proof.
  induction turns as [| n IH]; intros l Hl; cbn [scanLoop];
    destruct (isAtEnd l) eqn:Hend; cbn [negb]; try exact I;
    try (split; [exact Hl | split; [exact Hend | reflexivity]]).
  pose proof (@scanToken_scanned (List.length (source l))
                (setStart (current l) l) Hend eq_refl) as H.
  destruct (scanToken (List.length (source l)) (setStart (current l) l))
    as [u l1 | e |]; try exact I.
  cbn [scannedIf] in H.
  assert (Hl1 : lexed l1) by (apply (scanned_lexed H); exact Hl).
  specialize (IH l1 Hl1).
  destruct (scanLoop n l1) as [u2 l2 | e |]; try exact I.
  destruct IH as (H2 & Hend2 & Hs2). split; [exact H2 |].
  split; [exact Hend2 |]. destruct H as (Hs & _). rewrite Hs2, Hs. reflexivity.
Qed.

(** X12: [scanTokens] gives an answer on every source: an error or the
    list of tokens. The list ends with the one end-of-input token, whose
    lexeme is empty; no token before it has that kind, and none has an
    empty lexeme. The lexemes, in the order of the tokens, are pieces of
    the source that follow each other without overlap: the lexer neither
    invents nor reorders text. *)
Theorem tokens_are_slices_then_eof src :
  match scanTokens (Lexer.new src) with
  | Ok toks _ =>
      exists body eof,
        toks = body ++ [eof]
        /\ type eof = EOF /\ lexeme eof = [] /\ literal eof = LitNull
        /\ Forall (fun tok => type tok <> EOF /\ lexeme tok <> []) body
        /\ sliced (lexeme <$> body) src
  | Throw _ => True
  | Timeout => False
  end.
Proof.
  pose proof (@scanTokens_ends src) as Hends.
  unfold scanTokens in *.
  assert (H0 : lexed (Lexer.new src))
    by (split; [constructor | split; [exact I | cbn; lia]]).
  pose proof (@scanLoop_lexed (List.length (source (Lexer.new src)))
                (Lexer.new src) H0) as H.
  destruct (scanLoop (List.length (source (Lexer.new src))) (Lexer.new src))
    as [u l | e |]; [| exact I | congruence].
  destruct H as ((Hall & Hsl & Hl) & Hend & Hs).
  eexists (tokens l), _. cbn [tokens].
  split; [reflexivity |]. repeat (split; [reflexivity |]).
  split.
  - eapply Forall_impl; [exact Hall |]. intros tok (H1 & H2 & _). auto.
  - unfold isAtEnd in Hend. apply bool_decide_eq_true in Hend.
    rewrite take_ge in Hsl by exact Hend. rewrite Hs in Hsl. exact Hsl.
Qed.

(** X13: in the list of tokens, the literal of a token is the one its kind
    stands for: a [NUMBER] token holds the number that the host reads from
    its lexeme; a [STRING] token holds its lexeme without the two quotes,
    and there is no quote, hence no escape, inside; every other token
    holds [null]. *)
Theorem literals_fit_the_kinds src :
  match scanTokens (Lexer.new src) with
  | Ok toks _ =>
      Forall (fun tok => literalFits (type tok) (lexeme tok) (literal tok)) toks
  | _ => True
  end.
Proof.
  unfold scanTokens.
  assert (H0 : lexed (Lexer.new src))
    by (split; [constructor | split; [exact I | cbn; lia]]).
  pose proof (@scanLoop_lexed (List.length (source (Lexer.new src)))
                (Lexer.new src) H0) as H.
  destruct (scanLoop (List.length (source (Lexer.new src))) (Lexer.new src))
    as [u l | e |]; try exact I.
  destruct H as ((Hall & _) & _). cbn [tokens].
  apply Forall_app. split.
  - eapply Forall_impl; [exact Hall |]. intros tok (_ & _ & H & _). exact H.
  - apply Forall_cons. split; [reflexivity | constructor].
Qed.

(** X14: the kind of a token of the source goes with its lexeme. A token
    whose kind is a keyword, an operator or a delimiter has the string of
    that kind in [enum TokenType] as its lexeme, except that the lexeme
    of the kind [NOT], whose string is 非, is [!]; the lexeme of an
    identifier is not a key of the keyword table. No source has a token
    of the kinds [AND] and [OR]: the words 并 and 或 are scanned as
    identifiers. *)
Theorem kinds_go_with_lexemes src :
  match scanTokens (Lexer.new src) with
  | Ok toks _ =>
      Forall (fun tok => type tok <> AND /\ type tok <> OR) toks
      /\ Forall (fun tok => type tok = EOF \/ kindFits (type tok) (lexeme tok))
                toks
  | _ => True
  end.
Proof.
  unfold scanTokens.
  assert (H0 : lexed (Lexer.new src))
    by (split; [constructor | split; [exact I | cbn; lia]]).
  pose proof (@scanLoop_lexed (List.length (source (Lexer.new src)))
                (Lexer.new src) H0) as H.
  destruct (scanLoop (List.length (source (Lexer.new src))) (Lexer.new src))
    as [u l | e |]; try exact I.
  destruct H as ((Hall & _) & _). cbn [tokens].
  split; apply Forall_app; split;
    try (apply Forall_cons; split; [| constructor]).
  - eapply Forall_impl; [exact Hall |]. intros tok (_ & _ & _ & H).
    destruct (type tok); cbn in H; try contradiction; split; discriminate.
  - cbn. split; discriminate.
  - eapply Forall_impl; [exact Hall |]. intros tok (_ & _ & _ & H). auto.
  - left. reflexivity.
Qed.

(** ** The positions of the tokens of a one-line source *)

Lemma placed_more toks : forall offset text more,
  placed toks offset text -> placed toks offset (text ++ more).
Proof.
  induction toks as [| tok rest IH]; intros offset text more; cbn [placed].
  - trivial.
  - intros (skipped & text' & -> & Hline & Hcol & Hrest).
    exists skipped, (text' ++ more). rewrite <- !app_assoc.
    repeat split; try assumption. apply IH. exact Hrest.
Qed.

Lemma placed_snoc toks : forall offset text tok,
  placed toks offset text ->
  line tok = 1%Z ->
  column tok = (1 + Z.of_nat (offset + List.length text))%Z ->
  placed (toks ++ [tok]) offset (text ++ lexeme tok).
Proof.
  induction toks as [| y rest IH]; intros offset text tok; cbn [placed app].
  - intros _ Hline Hcol. exists text, []. rewrite app_nil_r.
    repeat split; assumption.
  - intros (skipped & text' & -> & Hy & Hcy & Hrest) Hline Hcol.
    exists skipped, (text' ++ lexeme tok). rewrite <- !app_assoc.
    repeat split; try assumption. apply IH; try assumption.
    rewrite Hcol, !length_app. f_equal. lia.
Qed.

Lemma peek_not_newline l : 10%N ∉ source l -> str_eqb (peek l) [10%N] = false.
Proof.
  intros Hsrc. apply bool_decide_eq_false. unfold peek, charAt.
  destruct (isAtEnd l); [discriminate |].
  destruct (source l !! current l) as [x |] eqn:Hx; [| discriminate].
  intros [= ->]. apply Hsrc. apply list_elem_of_lookup. eauto.
Qed.

Lemma advance_tracks l : tracks l -> tracks (snd (advance l)).
Proof. intros [Hl Hc]. split; cbn; [exact Hl | lia]. Qed.

Lemma advanceWhile_tracks p turns :
  forall l, tracks l -> tracksIf (advanceWhile p turns l).
Proof.
  induction turns as [| n IH]; intros l Hl; cbn [advanceWhile];
    destruct (p (peek l)); try exact I; try exact Hl.
  apply IH, advance_tracks, Hl.
Qed.

Lemma lineComment_tracks turns :
  forall l, tracks l -> tracksIf (lineComment turns l).
Proof.
  induction turns as [| n IH]; intros l Hl; cbn [lineComment];
    destruct (_ && _); try exact I; try exact Hl.
  apply IH, advance_tracks, Hl.
Qed.

Lemma stringLoop_tracks turns :
  forall l, 10%N ∉ source l -> tracks l -> tracksIf (stringLoop turns l).
Proof.
  induction turns as [| n IH]; intros l Hsrc Hl; cbn [stringLoop];
    destruct (_ && _); try exact I; try exact Hl.
  rewrite (peek_not_newline Hsrc). apply IH; [exact Hsrc |].
  apply advance_tracks, Hl.
Qed.

Lemma multilineComment_tracks turns :
  forall l, 10%N ∉ source l -> tracks l -> tracksIf (multilineComment turns l).
Proof.
  induction turns as [| n IH]; intros l Hsrc Hl; cbn [multilineComment];
    destruct (negb (isAtEnd l)); try exact I.
  destruct (_ && _).
  - apply advance_tracks, advance_tracks, Hl.
  - rewrite (peek_not_newline Hsrc). apply IH; [exact Hsrc |].
    apply advance_tracks, Hl.
Qed.

Lemma Lmatch_tracks expected l : tracks l -> tracks (snd (Lmatch expected l)).
Proof.
  intros Hl.
  destruct (Lmatch_outcome expected l) as [-> | (-> & _)];
    [exact Hl | apply advance_tracks, Hl].
Qed.

Lemma scanToken_tracks turns l :
  10%N ∉ source l -> tracks l -> tracksIf (scanToken turns l).
Proof.
  intros Hsrc Hl. unfold scanToken.
  destruct (advance l) as [c l1] eqn:E.
  assert (Hl1 : tracks l1)
    by (unfold advance in E; injection E as _ <-; apply advance_tracks, Hl).
  assert (Hs1 : 10%N ∉ source l1)
    by (unfold advance in E; injection E as _ <-; exact Hsrc).
  assert (Hc : str_eqb c [10%N] = false).
  { unfold advance in E. injection E as <- _. apply bool_decide_eq_false.
    unfold charAt. destruct (source l !! current l) as [x |] eqn:Hx;
      [| discriminate].
    intros [= ->]. apply Hsrc. apply list_elem_of_lookup. eauto. }
  clear E. rewrite Hc.
  repeat match goal with
         | |- tracksIf (if ?b then _ else _) => destruct b
         end;
    try exact Hl1; try exact I;
    try (unfold addEither;
         pose proof (Lmatch_tracks (js "=") Hl1) as Hm;
         destruct (Lmatch (js "=") l1); exact Hm).
  - unfold Lstring.
    pose proof (stringLoop_tracks turns Hs1 Hl1) as H.
    destruct (stringLoop turns l1) as [u l2 | e |]; try exact I.
    destruct (isAtEnd l2); [exact I |]. apply advance_tracks, H.
  - destruct (Lmatch_outcome (js "/") l1) as [-> | (-> & _)].
    + destruct (Lmatch_outcome (js "*") l1) as [-> | (-> & _)];
        [exact Hl1 |].
      apply multilineComment_tracks; [exact Hs1 |].
      apply advance_tracks, Hl1.
    + apply lineComment_tracks. apply advance_tracks, Hl1.
  - unfold number.
    pose proof (advanceWhile_tracks isDigit turns Hl1) as H.
    destruct (advanceWhile isDigit turns l1) as [u l2 | e |]; try exact I.
    destruct (_ && _); [| exact H].
    pose proof (advanceWhile_tracks isDigit turns (advance_tracks H)) as H2.
    destruct (advanceWhile isDigit turns (snd (advance l2))); try exact I.
    exact H2.
  - unfold identifier.
    pose proof (advanceWhile_tracks isAlphaNumeric turns Hl1) as H.
    destruct (advanceWhile isAlphaNumeric turns l1); try exact I. exact H.
Qed.

Lemma scanned_lexedLine l l' :
  scanned l l' -> tracks l' -> lexedLine l -> lexedLine l'.
Proof.
  intros (Hs & Hc & Htok) Hl' (Hl & Hpl & Hlen).
  assert (Htake : take (current l') (source l')
                  = take (current l) (source l)
                    ++ substring (source l) (current l) (current l'))
    by (rewrite Hs; apply substring_take; lia).
  unfold lexedLine. split; [exact Hl' |]. split; [| rewrite Hs; lia].
  destruct Htok as [Ht | (tok & Ht & Hlex & _ & Hline & Hcol)]; rewrite Ht.
  - rewrite Htake. apply placed_more. exact Hpl.
  - rewrite Htake, <- Hlex. destruct Hl' as [Hl1 Hc1].
    apply placed_snoc; [exact Hpl | congruence |].
    rewrite Hcol, Hc1, Hlex, substring_length by lia.
    rewrite length_take. lia.
Qed.

Lemma scanLoop_lexedLine turns :
  forall l,
    10%N ∉ source l ->
    lexedLine l ->
    match scanLoop turns l with
    | Ok _ l' => lexedLine l' /\ isAtEnd l' = true /\ source l' = source l
    | _ => True
    end.
Proof.
  induction turns as [| n IH]; intros l Hsrc Hl; cbn [scanLoop];
    destruct (isAtEnd l) eqn:Hend; cbn [negb]; try exact I;
    try (split; [exact Hl | split; [exact Hend | reflexivity]]).
  pose proof (@scanToken_scanned (List.length (source l))
                (setStart (current l) l) Hend eq_refl) as H.
  pose proof (@scanToken_tracks (List.length (source l))
                (setStart (current l) l) Hsrc (proj1 Hl)) as Htr.
  destruct (scanToken (List.length (source l)) (setStart (current l) l))
    as [u l1 | e |]; try exact I.
  cbn [scannedIf tracksIf] in H, Htr.
  assert (Hl1 : lexedLine l1) by (apply (scanned_lexedLine H Htr); exact Hl).
  assert (Hs1 : source l1 = source l) by (destruct H as (Hs & _); exact Hs).
  specialize (IH l1 ltac:(rewrite Hs1; exact Hsrc) Hl1).
  destruct (scanLoop n l1) as [u2 l2 | e |]; try exact I.
  destruct IH as (H2 & Hend2 & Hs2). split; [exact H2 |].
  split; [exact Hend2 |]. congruence.
Qed.

(** X15: on a source of one line, as each line of an interactive session
    is, every token is on line 1 and at the column of the first unit of
    its lexeme, counted from 1, whatever comments and strings come before
    it; the end-of-input token is at the column after the last unit. *)
Theorem one_line_tokens_are_placed src :
  10%N ∉ src ->
  match scanTokens (Lexer.new src) with
  | Ok toks _ =>
      exists body eof,
        toks = body ++ [eof]
        /\ placed body 0 src
        /\ line eof = 1%Z
        /\ column eof = (1 + Z.of_nat (List.length src))%Z
  | _ => True
  end.
Proof.
  intros Hsrc. unfold scanTokens.
  assert (H0 : lexedLine (Lexer.new src)).
  { split; [split; reflexivity |]. split; [exact I | cbn; lia]. }
  pose proof (@scanLoop_lexedLine (List.length (source (Lexer.new src)))
                (Lexer.new src) Hsrc H0) as H.
  destruct (scanLoop (List.length (source (Lexer.new src))) (Lexer.new src))
    as [u l | e |]; try exact I.
  destruct H as (((Hline & Hcol) & Hpl & Hl) & Hend & Hs).
  cbn [Lexer.new source] in Hs.
  unfold isAtEnd in Hend. apply bool_decide_eq_true in Hend.
  eexists (tokens l), _. cbn [tokens]. split; [reflexivity |].
  cbn [line column].
  rewrite take_ge, Hs in Hpl by exact Hend.
  split; [exact Hpl |]. split; [exact Hline |].
  rewrite Hcol. f_equal. rewrite Hs in *. lia.
Qed.

(** The tokens of [x = "a" // c]. *)
Lemma one_line_tokens_are_placed_witness :
  match scanTokens (Lexer.new (js "x = " ++ [34; 97; 34]%N ++ js " // c")) with
  | Ok toks _ =>
      exists body eof,
        toks = body ++ [eof]
        /\ placed body 0 (js "x = " ++ [34; 97; 34]%N ++ js " // c")
        /\ line eof = 1%Z
        /\ column eof
           = (1 + Z.of_nat (List.length (js "x = " ++ [34; 97; 34]%N ++ js " // c")))%Z
  | _ => True
  end.
Proof.
  apply one_line_tokens_are_placed.
  apply (bool_decide_eq_false _). vm_compute. reflexivity.
Defined.

(** ** The parser ends, with the cursor within the tokens *)

Section Cursor.

Variable tokens : list Token.
Hypothesis tokens_terminated : terminated tokens.

Lemma advances_vacuous {A} k (m : Parser.Parse A) Q :
  List.length tokens <= k -> advances tokens k m Q.
Proof. intros H c Hk Hc. lia. Qed.

Lemma advances_ret {A} k (a : A) (Q : A -> nat -> Prop) :
  (forall c, k <= c -> Q a c) -> advances tokens k (ret a) Q.
Proof. intros H c Hk Hc. split; [exact Hc | apply H, Hk]. Qed.

Lemma advances_throw {A} k e (Q : A -> nat -> Prop) :
  syntaxError tokens e -> advances tokens k (throw e) Q.
Proof. intros H c Hk Hc. split; [exact Hc | exact H]. Qed.

Lemma advances_bind {A B} k (m : Parser.Parse A) Q (f : A -> Parser.Parse B) R :
  advances tokens k m Q ->
  (forall a c, c < List.length tokens -> Q a c -> finishes tokens (f a c) R) ->
  advances tokens k (bind m f) R.
Proof.
  intros Hm Hf c Hk Hc. unfold bind. specialize (Hm c Hk Hc).
  destruct (m c) as [a c1 | e c1 | r]; cbn [finishes] in *; try assumption.
  destruct Hm as [Hc1 HQ]. apply Hf; assumption.
Qed.

Lemma advances_then {A B} k j (m : Parser.Parse A) (f : A -> Parser.Parse B) R :
  advances tokens k m (reaches j) ->
  (forall a, advances tokens j (f a) R) ->
  advances tokens k (bind m f) R.
Proof.
  intros Hm Hf. apply (advances_bind Hm). intros a c Hc Hj. apply Hf; assumption.
Qed.

Lemma advances_with {A B} k j (P : A -> Prop) (m : Parser.Parse A)
    (f : A -> Parser.Parse B) R :
  advances tokens k m (fun a c => j <= c /\ P a) ->
  (forall a, P a -> advances tokens j (f a) R) ->
  advances tokens k (bind m f) R.
Proof.
  intros Hm Hf. apply (advances_bind Hm). intros a c Hc [Hj Ha].
  apply Hf; assumption.
Qed.

Lemma advances_test {B} k (m : Parser.Parse bool) (f : bool -> Parser.Parse B) R :
  advances tokens k m (fun b c => (if b then S k else k) <= c) ->
  advances tokens (S k) (f true) R ->
  advances tokens k (f false) R ->
  advances tokens k (bind m f) R.
Proof.
  intros Hm Ht Hf. apply (advances_bind Hm). intros [|] c Hc Hj;
    [apply Ht | apply Hf]; assumption.
Qed.

Lemma advances_further {A} k k' j j' (m : Parser.Parse A) :
  k <= k' -> j' <= j ->
  advances tokens k m (reaches j) -> advances tokens k' m (reaches j').
Proof.
  intros Hk Hj Hm c Hc Hlen. specialize (Hm c ltac:(lia) Hlen).
  destruct (m c) as [a c1 | e c1 | r]; cbn [finishes] in *; try assumption.
  destruct Hm as [Hc1 Ha]. split; [exact Hc1 |]. unfold reaches in *. lia.
Qed.

Lemma advances_tryCatch {A} k (m : Parser.Parse A) hd Q :
  advances tokens k m Q ->
  (forall e c, syntaxError tokens e -> c < List.length tokens ->
               finishes tokens (hd e c) Q) ->
  advances tokens k (tryCatch m hd) Q.
Proof.
  intros Hm Hh c Hk Hc. unfold tryCatch. specialize (Hm c Hk Hc).
  destruct (m c) as [a c1 | e c1 | r]; cbn [finishes] in *; try assumption.
  destruct Hm as [Hc1 He]. apply Hh; assumption.
Qed.

(** *** The steps on the cursor *)

Lemma cursor_token c :
  c < List.length tokens -> exists t, tokens !! c = Some t /\ t ∈ tokens.
Proof.
  intros Hc. destruct (lookup_lt_is_Some_2 tokens c Hc) as [t Ht].
  exists t. split; [exact Ht |]. apply list_elem_of_lookup. eauto.
Qed.

(** A token that is not the end-of-input token is not the last one. *)
Lemma cursor_next c t :
  tokens !! c = Some t -> type t <> EOF -> S c < List.length tokens.
Proof.
  intros Ht Hty. destruct tokens_terminated as (eof & Hlast & Heof).
  rewrite last_lookup in Hlast.
  pose proof (lookup_lt_Some _ _ _ Ht) as Hc.
  destruct (decide (S c = List.length tokens)) as [Heq | Hne]; [| lia].
  rewrite <- Heq in Hlast. cbn in Hlast. congruence.
Qed.

Lemma isAtEnd_outcome c t :
  tokens !! c = Some t ->
  Parser.isAtEnd tokens c = Normal (bool_decide (type t = EOF)) c.
Proof.
  intros Ht. unfold Parser.isAtEnd, Parser.peek. unfold_monad.
  rewrite Ht. reflexivity.
Qed.

Lemma check_outcome ty c t :
  tokens !! c = Some t ->
  Parser.check tokens ty c =
  Normal (negb (bool_decide (type t = EOF)) && bool_decide (type t = ty)) c.
Proof.
  intros Ht. unfold Parser.check. unfold_monad. rewrite (isAtEnd_outcome Ht).
  destruct (bool_decide (type t = EOF)); [reflexivity |].
  unfold Parser.peek. rewrite Ht. reflexivity.
Qed.

Lemma advance_outcome c t :
  tokens !! c = Some t ->
  Parser.advance tokens c =
  Normal tt (if bool_decide (type t = EOF) then c else S c).
Proof.
  intros Ht. unfold Parser.advance. unfold_monad. rewrite (isAtEnd_outcome Ht).
  destruct (bool_decide (type t = EOF)); reflexivity.
Qed.

Lemma Pmatch_outcome types c :
  c < List.length tokens ->
  Parser.Pmatch tokens types c = Normal false c
  \/ (Parser.Pmatch tokens types c = Normal true (S c)
      /\ S c < List.length tokens).
Proof.
  intros Hc. destruct (cursor_token Hc) as (t & Ht & _).
  induction types as [| ty rest IH]; cbn [Parser.Pmatch].
  - left. reflexivity.
  - unfold_monad. rewrite (check_outcome ty Ht).
    destruct (bool_decide (type t = EOF)) eqn:Heof; cbn [negb andb];
      [exact IH |].
    destruct (bool_decide (type t = ty)); [| exact IH].
    right. rewrite (advance_outcome Ht), Heof.
    split; [reflexivity |]. apply bool_decide_eq_false in Heof.
    apply (cursor_next Ht Heof).
Qed.

Lemma consume_outcome ty msg c :
  c < List.length tokens ->
  exists t,
    t ∈ tokens
    /\ ((Parser.consume tokens ty msg c = Normal t (S c)
         /\ S c < List.length tokens)
        \/ Parser.consume tokens ty msg c = Abrupt (Parser.error t (js msg)) c).
Proof.
  intros Hc. destruct (cursor_token Hc) as (t & Ht & Hin).
  exists t. split; [exact Hin |].
  unfold Parser.consume. unfold_monad. rewrite (check_outcome ty Ht).
  destruct (bool_decide (type t = EOF)) eqn:Heof; cbn [negb andb].
  - right. unfold Parser.errorAtPeek, Parser.peek. unfold_monad.
    rewrite Ht. reflexivity.
  - destruct (bool_decide (type t = ty)).
    + left. rewrite (advance_outcome Ht), Heof.
      unfold Parser.previous. rewrite Ht.
      split; [reflexivity |]. apply bool_decide_eq_false in Heof.
      apply (cursor_next Ht Heof).
    + right. unfold Parser.errorAtPeek, Parser.peek. unfold_monad.
      rewrite Ht. reflexivity.
Qed.

Lemma isAtEnd_ok k : advances tokens k (Parser.isAtEnd tokens) (reaches k).
Proof.
  intros c Hk Hc. destruct (cursor_token Hc) as (t & Ht & _).
  rewrite (isAtEnd_outcome Ht). split; assumption.
Qed.

Lemma check_ok k ty : advances tokens k (Parser.check tokens ty) (reaches k).
Proof.
  intros c Hk Hc. destruct (cursor_token Hc) as (t & Ht & _).
  rewrite (check_outcome ty Ht). split; assumption.
Qed.

Lemma Pmatch_ok k types :
  advances tokens k (Parser.Pmatch tokens types)
    (fun b c => (if b then S k else k) <= c).
Proof.
  intros c Hk Hc.
  destruct (Pmatch_outcome types Hc) as [-> | [-> Hnext]]; cbn; split;
    try assumption; lia.
Qed.

Lemma previous_ok k :
  advances tokens (S k) (Parser.previous tokens)
    (fun t c => S k <= c /\ t ∈ tokens).
Proof.
  intros [| c] Hk Hc; [lia |]. unfold Parser.previous.
  destruct (@cursor_token c ltac:(lia)) as (t & Ht & Hin). rewrite Ht.
  split; [exact Hc |]. split; assumption.
Qed.

Lemma consume_ok k ty msg :
  advances tokens k (Parser.consume tokens ty msg)
    (fun t c => S k <= c /\ t ∈ tokens).
Proof.
  intros c Hk Hc.
  destruct (consume_outcome ty msg Hc) as (t & Hin & [[-> Hnext] | ->]); cbn.
  - split; [exact Hnext |]. split; [lia | exact Hin].
  - split; [exact Hc |]. exists t, (js msg). auto.
Qed.

Lemma consume_reaches k ty msg :
  advances tokens k (Parser.consume tokens ty msg) (reaches (S k)).
Proof.
  intros c Hk Hc. pose proof (consume_ok ty msg Hk Hc) as H.
  destruct (Parser.consume tokens ty msg c); cbn [finishes] in *; try assumption.
  destruct H as (H1 & H2 & _). split; assumption.
Qed.

Lemma errorAtPeek_ok {A} k msg (Q : A -> nat -> Prop) :
  advances tokens k (Parser.errorAtPeek tokens msg) Q.
Proof.
  intros c Hk Hc. destruct (cursor_token Hc) as (t & Ht & Hin).
  unfold Parser.errorAtPeek, Parser.peek. unfold_monad. rewrite Ht.
  split; [exact Hc |]. exists t, (js msg). auto.
Qed.

Lemma atMost255_ok {A} k (acc : list A) :
  advances tokens k (Parser.atMost255 tokens acc) (reaches k).
Proof.
  unfold Parser.atMost255. destruct (bool_decide _);
    [apply errorAtPeek_ok | apply advances_ret; intros c Hc; exact Hc].
Qed.

Lemma synchronizeLoop_outcome turns :
  forall c t,
    tokens !! c = Some t ->
    type t = EOF \/ 1 <= c ->
    List.length tokens <= turns + c ->
    exists c', Parser.synchronizeLoop tokens turns c = Normal tt c'
               /\ c' < List.length tokens.
Proof.
  induction turns as [| n IH]; intros c t Ht Hfirst Hturns;
    pose proof (lookup_lt_Some _ _ _ Ht) as Hc;
    cbn [Parser.synchronizeLoop]; unfold_monad;
    rewrite (isAtEnd_outcome Ht);
    destruct (bool_decide (type t = EOF)) eqn:Heof;
    try (exists c; split; [reflexivity | exact Hc]).
  - lia.
  - apply bool_decide_eq_false in Heof.
    destruct Hfirst as [Hfirst | Hfirst]; [contradiction |].
    destruct c as [| c0]; [lia |].
    unfold Parser.previous.
    destruct (@cursor_token c0 ltac:(lia)) as (p & Hp & _). rewrite Hp.
    destruct (bool_decide (type p = RIGHT_BRACE));
      [exists (S c0); split; [reflexivity | exact Hc] |].
    unfold Parser.peek. rewrite Ht.
    destruct (bool_decide (type t ∈ [FUNCTION; LET; IF; FOR; RETURN]));
      [exists (S c0); split; [reflexivity | exact Hc] |].
    rewrite (advance_outcome Ht). rewrite bool_decide_eq_false_2 by exact Heof.
    pose proof (cursor_next Ht Heof) as Hnext.
    destruct (cursor_token Hnext) as (t' & Ht' & _).
    apply (IH (S (S c0)) t' Ht'); [right; lia | lia].
Qed.

Lemma synchronize_outcome c :
  c < List.length tokens ->
  exists c', Parser.synchronize tokens c = Normal tt c'
             /\ c' < List.length tokens.
Proof.
  intros Hc. destruct (cursor_token Hc) as (t & Ht & _).
  unfold Parser.synchronize. unfold_monad. rewrite (advance_outcome Ht).
  destruct (bool_decide (type t = EOF)) eqn:Heof.
  - apply bool_decide_eq_true in Heof.
    apply (synchronizeLoop_outcome Ht); [left; exact Heof | lia].
  - apply bool_decide_eq_false in Heof.
    pose proof (cursor_next Ht Heof) as Hnext.
    destruct (cursor_token Hnext) as (t' & Ht' & _).
    apply (synchronizeLoop_outcome Ht'); [right; lia | lia].
Qed.

(** *** The loops *)

Lemma commaLoop_ok {A} guard (item : Parser.Parse A) turns :
  (forall acc j, advances tokens j (guard acc) (reaches j)) ->
  forall k acc,
    (forall j, k <= j -> advances tokens j item (reaches (S j))) ->
    List.length tokens <= turns + S k ->
    advances tokens k (Parser.commaLoop tokens guard item turns acc)
      (reaches (S k)).
Proof.
  intros Hguard. induction turns as [| n IH]; intros k acc Hitem Hturns;
    cbn [Parser.commaLoop];
    (apply advances_then with (j := k); [apply Hguard | intros _]);
    (apply advances_then with (j := S k); [apply Hitem; lia | intros x]);
    (apply advances_test;
     [apply Pmatch_ok | | apply advances_ret; intros c Hc; exact Hc]).
  - apply advances_vacuous. lia.
  - apply advances_further with (k := S k) (j := S (S k)); [lia | lia |].
    apply IH; [intros j Hj; apply Hitem; lia | lia].
Qed.

Lemma binaryLoop_ok types operand turns :
  forall k expr,
    (forall j, k <= j -> advances tokens (S j) operand (reaches (S (S j)))) ->
    List.length tokens <= turns + k ->
    advances tokens k (Parser.binaryLoop tokens types operand turns expr)
      (reaches k).
Proof.
  induction turns as [| n IH]; intros k expr Hop Hturns.
  - apply advances_vacuous. lia.
  - cbn [Parser.binaryLoop].
    apply advances_test;
      [apply Pmatch_ok | | apply advances_ret; intros c Hc; exact Hc].
    eapply advances_with; [apply previous_ok | intros operator _].
    apply advances_then with (j := S (S k)); [apply Hop; lia | intros right].
    apply advances_further with (k := S k) (j := S k); [lia | lia |].
    apply IH; [intros j Hj; apply Hop; lia | lia].
Qed.

Lemma binary_ok f types (operand : Parser.Parse Expr) :
  progresses tokens f operand ->
  progresses tokens f (Parser.binary tokens types operand).
Proof.
  intros Hop k Hk. unfold Parser.binary.
  apply advances_then with (j := S k); [apply Hop, Hk | intros expr].
  apply binaryLoop_ok; [| lia].
  intros j Hj. apply Hop. lia.
Qed.

Variable n : nat.
Variable expression : Parser.Parse Expr.
Variable assignmentRec : Parser.Parse Expr.
Variable unaryRec : Parser.Parse Expr.
Variable declaration : Parser.Parse Stmt.
Variable statementRec : Parser.Parse Stmt.
Hypothesis expression_ok : progresses tokens n expression.
Hypothesis assignmentRec_ok : progresses tokens n assignmentRec.
Hypothesis unaryRec_ok : progresses tokens n unaryRec.
Hypothesis declaration_ok : progressesStmt tokens n declaration.
Hypothesis statementRec_ok : progressesStmt tokens n statementRec.

Local Ltac done_here := apply advances_ret; unfold reaches; intros; lia.

Local Ltac test :=
  apply advances_test; [apply Pmatch_ok | |].

Lemma elements_ok k guard c :
  (forall acc j, advances tokens j (guard acc) (reaches j)) ->
  List.length tokens <= n + k ->
  advances tokens k
    (if (c : bool) then ret []
     else Parser.commaLoop tokens guard expression (List.length tokens) [])
    (reaches k).
Proof.
  intros Hguard Hk. destruct c; [done_here |].
  apply advances_further with (k := k) (j := S k); [lia | lia |].
  apply commaLoop_ok; [exact Hguard | | lia].
  intros j Hj. apply expression_ok. lia.
Qed.

Lemma primary_ok : progresses tokens (S n) (Parser.primary tokens expression).
Proof.
  intros k Hk. unfold Parser.primary.
  test; [done_here |]. test; [done_here |]. test; [done_here |].
  test.
  { eapply advances_with; [apply previous_ok | intros p _]. done_here. }
  test.
  { apply advances_then with (j := S k); [apply check_ok | intros c].
    apply advances_then with (j := S k);
      [apply elements_ok; [intros; done_here | lia] | intros elements].
    apply advances_then with (j := S (S k)); [apply consume_reaches | intros _].
    done_here. }
  test.
  { eapply advances_with; [apply previous_ok | intros p _]. done_here. }
  test.
  { apply advances_then with (j := S (S k));
      [apply expression_ok; lia | intros expr].
    apply advances_then with (j := S (S (S k)));
      [apply consume_reaches | intros _].
    done_here. }
  apply errorAtPeek_ok.
Qed.

Lemma finishCall_ok k callee :
  List.length tokens <= n + k ->
  advances tokens k (Parser.finishCall tokens expression callee) (reaches (S k)).
Proof.
  intros Hk. unfold Parser.finishCall.
  apply advances_then with (j := k); [apply check_ok | intros c].
  apply advances_then with (j := k);
    [apply elements_ok; [intros; apply atMost255_ok | exact Hk] | intros args].
  apply advances_then with (j := S k); [apply consume_reaches | intros paren].
  done_here.
Qed.

Lemma callLoop_ok turns :
  forall k expr,
    List.length tokens <= S n + k ->
    List.length tokens <= turns + k ->
    advances tokens k (Parser.callLoop tokens expression turns expr) (reaches k).
Proof.
  induction turns as [| t IH]; intros k expr Hk Hturns.
  - apply advances_vacuous. lia.
  - cbn [Parser.callLoop]. test; [| done_here].
    apply advances_then with (j := S (S k));
      [apply finishCall_ok; lia | intros expr'].
    apply advances_further with (k := S k) (j := S k); [lia | lia |].
    apply IH; lia.
Qed.

Lemma unary_ok :
  progresses tokens (S n) (Parser.unary tokens expression unaryRec).
Proof.
  intros k Hk. unfold Parser.unary. test.
  - eapply advances_with; [apply previous_ok | intros operator _].
    apply advances_then with (j := S (S k));
      [apply unaryRec_ok; lia | intros right].
    done_here.
  - unfold Parser.call.
    apply advances_then with (j := S k); [apply primary_ok, Hk | intros expr].
    apply advances_further with (k := S k) (j := S k); [lia | lia |].
    apply callLoop_ok; lia.
Qed.

Lemma assignment_ok :
  progresses tokens (S n)
    (Parser.assignment tokens expression assignmentRec unaryRec).
Proof.
  assert (Hor : progresses tokens (S n)
                  (Parser.or tokens expression unaryRec)).
  { unfold Parser.or, Parser.and, Parser.equality, Parser.comparison,
      Parser.term, Parser.factor.
    repeat apply binary_ok. apply unary_ok. }
  intros k Hk. unfold Parser.assignment.
  apply advances_then with (j := S k); [apply Hor, Hk | intros expr].
  apply advances_test; [apply Pmatch_ok | | done_here].
  eapply advances_with; [apply previous_ok | intros equals Hequals].
  apply advances_then with (j := S (S (S k)));
    [apply assignmentRec_ok; lia | intros value].
  destruct expr; try done_here;
    apply advances_throw; exists equals, (js "无效的赋值目标"); auto.
Qed.

Lemma blockLoop_ok turns :
  forall k acc,
    List.length tokens < n + k ->
    List.length tokens <= turns + k ->
    advances tokens k (Parser.blockLoop tokens declaration turns acc)
      (reaches k).
Proof.
  induction turns as [| t IH]; intros k acc Hk Hturns.
  - apply advances_vacuous. lia.
  - cbn [Parser.blockLoop].
    apply advances_then with (j := k); [apply check_ok | intros c].
    destruct c; [done_here |].
    apply advances_then with (j := k); [apply isAtEnd_ok | intros e].
    destruct e; [done_here |].
    apply advances_then with (j := S k);
      [apply declaration_ok; lia | intros d].
    apply advances_further with (k := S k) (j := S k); [lia | lia |].
    apply IH; lia.
Qed.

Lemma block_ok k :
  List.length tokens < n + k ->
  advances tokens k (Parser.block tokens declaration) (reaches (S k)).
Proof.
  intros Hk. unfold Parser.block.
  apply advances_then with (j := k); [apply blockLoop_ok; lia | intros ss].
  apply advances_then with (j := S k); [apply consume_reaches | intros _].
  done_here.
Qed.

Lemma statement_ok :
  progressesStmt tokens (S n)
    (Parser.statement tokens expression declaration statementRec).
Proof.
  intros k Hk. unfold Parser.statement.
  test.
  { unfold Parser.ifStatement.
    apply advances_then with (j := S (S k)); [apply consume_reaches | intros _].
    apply advances_then with (j := S (S (S k)));
      [apply expression_ok; lia | intros condition].
    apply advances_then with (j := S (S (S (S k))));
      [apply consume_reaches | intros _].
    apply advances_then with (j := S (S (S (S (S k)))));
      [apply statementRec_ok; lia | intros thenBranch].
    test; cbv beta iota.
    - apply advances_then with (j := S k); [| intros elseBranch; done_here].
      apply advances_then with (j := S (S (S (S (S (S (S k)))))));
        [apply statementRec_ok; lia | intros s0].
      done_here.
    - apply advances_then with (j := S k); [done_here | intros elseBranch].
      done_here. }
  test.
  { unfold Parser.forStatement.
    apply advances_then with (j := S (S k)); [apply consume_reaches | intros v].
    apply advances_then with (j := S (S (S k)));
      [apply consume_reaches | intros _].
    apply advances_then with (j := S (S (S (S k))));
      [apply expression_ok; lia | intros iterable].
    apply advances_then with (j := S (S (S (S (S k)))));
      [apply statementRec_ok; lia | intros body].
    done_here. }
  test.
  { unfold Parser.returnStatement.
    eapply advances_with; [apply previous_ok | intros keyword _].
    apply advances_then with (j := S k); [apply check_ok | intros c].
    apply advances_then with (j := S k); [| intros value; done_here].
    destruct c; [done_here |].
    apply advances_then with (j := S (S k));
      [apply expression_ok; lia | intros e].
    done_here. }
  test.
  { apply advances_then with (j := S (S k)); [apply block_ok; lia | intros b].
    done_here. }
  unfold Parser.expressionStatement.
  apply advances_then with (j := S k); [apply expression_ok; lia | intros expr].
  done_here.
Qed.

Lemma declarationBody_ok :
  progressesStmt tokens (S n)
    (Parser.declarationBody tokens expression declaration statementRec).
Proof.
  intros k Hk. unfold Parser.declarationBody. apply advances_tryCatch.
  - test.
    { unfold Parser.function.
      apply advances_then with (j := S (S k)); [apply consume_reaches | intros name].
      apply advances_then with (j := S (S (S k)));
        [apply consume_reaches | intros _].
      apply advances_then with (j := S (S (S k))); [apply check_ok | intros c].
      apply advances_then with (j := S (S (S k))).
      { destruct c; [done_here |].
        apply advances_further with (k := S (S (S k))) (j := S (S (S (S k))));
          [lia | lia |].
        apply commaLoop_ok; [intros; apply atMost255_ok | | lia].
        intros j Hj. apply consume_reaches. }
      intros parameters.
      apply advances_then with (j := S (S (S (S k))));
        [apply consume_reaches | intros _].
      apply advances_then with (j := S (S (S (S (S k)))));
        [apply consume_reaches | intros _].
      apply advances_then with (j := S (S (S (S (S (S k))))));
        [apply block_ok; lia | intros body].
      done_here. }
    test.
    { unfold Parser.letDeclaration.
      apply advances_then with (j := S (S k)); [apply consume_reaches | intros name].
      test; cbv beta iota.
      - apply advances_then with (j := S k); [| intros initializer; done_here].
        apply advances_then with (j := S (S (S (S k))));
          [apply expression_ok; lia | intros e].
        done_here.
      - apply advances_then with (j := S k); [done_here | intros initializer].
        done_here. }
    apply statement_ok. exact Hk.
  - intros e c He Hc. unfold_monad.
    destruct (synchronize_outcome Hc) as (c' & -> & Hc').
    split; [exact Hc' | exact He].
Qed.

End Cursor.

Lemma expression_progresses tokens fuel :
  terminated tokens ->
  progresses tokens fuel (Parser.expression tokens fuel)
  /\ progresses tokens fuel (Parser.assignmentF tokens fuel)
  /\ progresses tokens fuel (Parser.unaryF tokens fuel).
Proof.
  intros Hterm. induction fuel as [| n (IH1 & IH2 & IH3)].
  - repeat split; intros j Hj; apply advances_vacuous; lia.
  - repeat split; intros j Hj c Hc Hlen;
      cbn [Parser.expression Parser.assignmentF Parser.unaryF].
    + apply (assignment_ok Hterm IH1 IH2 IH3); assumption.
    + apply (assignment_ok Hterm IH1 IH2 IH3); assumption.
    + apply (unary_ok Hterm IH1 IH3); assumption.
Qed.

Lemma declaration_progresses tokens fuel :
  terminated tokens ->
  progressesStmt tokens fuel (Parser.declaration tokens fuel)
  /\ progressesStmt tokens fuel (Parser.statementF tokens fuel).
Proof.
  intros Hterm. induction fuel as [| n (IH1 & IH2)].
  - repeat split; intros j Hj; apply advances_vacuous; lia.
  - destruct (expression_progresses n Hterm) as (He & _ & _).
    repeat split; intros j Hj c Hc Hlen;
      cbn [Parser.declaration Parser.statementF].
    + apply (declarationBody_ok Hterm He IH1 IH2); assumption.
    + apply (statement_ok Hterm He IH1 IH2); assumption.
Qed.

Lemma parseLoop_ok tokens fuel :
  terminated tokens ->
  List.length tokens < fuel ->
  forall turns k acc,
    List.length tokens <= turns + k ->
    advances tokens k (Parser.parseLoop tokens fuel turns acc)
      (fun _ c => exists t, tokens !! c = Some t /\ type t = EOF).
Proof.
  intros Hterm Hfuel. induction turns as [| n IH]; intros k acc Hturns.
  - apply advances_vacuous. lia.
  - intros c Hk Hc. cbn [Parser.parseLoop]. unfold_monad.
    destruct (cursor_token Hc) as (t & Ht & _).
    rewrite (isAtEnd_outcome Ht).
    destruct (bool_decide (type t = EOF)) eqn:Heof.
    + apply bool_decide_eq_true in Heof. split; [exact Hc | eauto].
    + pose proof (proj1 (declaration_progresses fuel Hterm) c
                    ltac:(lia) c (Nat.le_refl c) Hc) as Hd.
      destruct (Parser.declaration tokens fuel c) as [d c1 | e c1 | r];
        cbn [finishes] in *; try assumption.
      destruct Hd as [Hc1 Hd]. unfold reaches in Hd.
      apply (IH (S c)); [lia | exact Hd | exact Hc1].
Qed.

Lemma parse_finishes tokens fuel :
  terminated tokens ->
  List.length tokens < fuel ->
  finishes tokens (Parser.parse fuel tokens)
    (fun _ c => exists t, tokens !! c = Some t /\ type t = EOF).
Proof.
  intros Hterm Hfuel. unfold Parser.parse.
  assert (Hlen : 0 < List.length tokens).
  { destruct Hterm as (eof & Hlast & Heof).
    destruct tokens; [discriminate | cbn; lia]. }
  apply (@parseLoop_ok tokens fuel Hterm Hfuel (List.length tokens) 0 []); lia.
Qed.

(** X16: on a list of tokens that ends with an end-of-input token, as the
    lexer makes it, [parse] ends for every depth of nesting beyond the
    number of tokens: no loop of the parser runs without consuming a token.
    The cursor never leaves the list, so no token is read past the end.
    When [parse] returns, the cursor is at an end-of-input token; when it
    throws, the error is one that [error()] has made of a token of the
    list and a message, with the line and the column of that token. *)
Theorem parse_ends_within_tokens tokens fuel :
  terminated tokens ->
  List.length tokens < fuel ->
  match Parser.parse fuel tokens with
  | Normal _ c => exists t, tokens !! c = Some t /\ type t = EOF
  | Abrupt e c =>
      c < List.length tokens
      /\ exists tok msg, tok ∈ tokens /\ e = Parser.error tok msg
  | NoOutcome _ => False
  end.
Proof.
  intros Hterm Hfuel. pose proof (parse_finishes Hterm Hfuel) as H.
  destruct (Parser.parse fuel tokens) as [ss c | e c | r];
    cbn [finishes] in H; [apply H | exact H | exact H].
Qed.

(** The tokens of [x +]: the parser throws at the end-of-input token. *)
Lemma parse_ends_within_tokens_witness :
  match Parser.parse 4 [nameToken "x"; operatorToken PLUS;
                        mkToken EOF [] LitNull 1 4] with
  | Normal _ c => False
  | Abrupt e c =>
      e = Parser.error (mkToken EOF [] LitNull 1 4) (js "需要表达式")
  | NoOutcome _ => False
  end.
Proof.
  pose proof (@parse_ends_within_tokens
                [nameToken "x"; operatorToken PLUS; mkToken EOF [] LitNull 1 4]
                4 (ex_intro _ (mkToken EOF [] LitNull 1 4) (conj eq_refl eq_refl))
                ltac:(cbn; lia)) as H.
  destruct (Parser.parse 4 [nameToken "x"; operatorToken PLUS;
                            mkToken EOF [] LitNull 1 4]) as [ss c | e c | r] eqn:E;
    [vm_compute in E; discriminate | | exact H].
  vm_compute in E. injection E as <- _. vm_compute. reflexivity.
Defined.

Lemma scanTokens_terminated src toks l :
  scanTokens (Lexer.new src) = Ok toks l -> terminated toks.
Proof.
  unfold scanTokens.
  destruct (scanLoop _ _) as [u l1 | e |]; try discriminate.
  intros [= <- _]. cbn [tokens]. eexists. rewrite last_snoc.
  split; reflexivity.
Qed.

(** *** The errors of the lexer *)

Lemma advanceWhile_throws p turns : forall l, throwsLexical (advanceWhile p turns l).
Proof.
  induction turns as [| n IH]; intros l; cbn [advanceWhile];
    destruct (p (peek l)); try exact I. apply IH.
Qed.

Lemma lineComment_throws turns : forall l, throwsLexical (lineComment turns l).
Proof.
  induction turns as [| n IH]; intros l; cbn [lineComment];
    destruct (_ && _); try exact I. apply IH.
Qed.

Lemma stringLoop_throws turns : forall l, throwsLexical (stringLoop turns l).
Proof.
  induction turns as [| n IH]; intros l; cbn [stringLoop];
    destruct (_ && _); try exact I. apply IH.
Qed.

Lemma multilineComment_throws turns :
  forall l, throwsLexical (multilineComment turns l).
Proof.
  induction turns as [| n IH]; intros l; cbn [multilineComment];
    destruct (negb (isAtEnd l));
    try (split; [reflexivity | right; right; eexists; reflexivity]);
    try exact I.
  destruct (_ && _); [exact I | apply IH].
Qed.

Lemma Lstring_throws turns l : throwsLexical (Lstring turns l).
Proof.
  unfold Lstring. pose proof (stringLoop_throws turns l) as H.
  destruct (stringLoop turns l) as [u l1 | e |]; try assumption.
  destruct (isAtEnd l1); [| exact I].
  split; [reflexivity | right; left; eexists; reflexivity].
Qed.

Lemma number_throws turns l : throwsLexical (number turns l).
Proof.
  unfold number. pose proof (advanceWhile_throws isDigit turns l) as H.
  destruct (advanceWhile isDigit turns l) as [u l1 | e |]; try assumption.
  destruct (_ && _); [| exact I].
  pose proof (advanceWhile_throws isDigit turns (snd (advance l1))) as H2.
  destruct (advanceWhile isDigit turns (snd (advance l1))); assumption.
Qed.

Lemma identifier_throws turns l : throwsLexical (identifier turns l).
Proof.
  unfold identifier. pose proof (advanceWhile_throws isAlphaNumeric turns l) as H.
  destruct (advanceWhile isAlphaNumeric turns l); assumption.
Qed.

Lemma scanToken_throws turns l : throwsLexical (scanToken turns l).
Proof.
  unfold scanToken. destruct (advance l) as [c l1].
  repeat match goal with
         | |- throwsLexical (if ?b then _ else _) => destruct b
         end;
    try exact I;
    try apply Lstring_throws; try apply number_throws;
    try apply identifier_throws;
    try (unfold addEither; destruct (Lmatch _ _); exact I).
  - destruct (Lmatch (js "/") l1) as [m l2]. destruct m;
      [apply lineComment_throws |].
    destruct (Lmatch (js "*") l2) as [m2 l3]. destruct m2;
      [apply multilineComment_throws | exact I].
  - split; [reflexivity | left; do 3 eexists; reflexivity].
Qed.

Lemma scanLoop_throws turns : forall l, throwsLexical (scanLoop turns l).
Proof.
  induction turns as [| n IH]; intros l; cbn [scanLoop];
    destruct (negb (isAtEnd l)); try exact I.
  pose proof (scanToken_throws (List.length (source l)) (setStart (current l) l))
    as H.
  destruct (scanToken _ _) as [u l1 | e |]; try assumption. apply IH.
Qed.

(** X17: the lexer and the parser end on every source. Either the lexer
    throws one of its three errors (an unexpected character, a string or
    a block comment that is not closed); or the parser, given a depth of
    nesting beyond the number of tokens, returns statements whose literals
    are numbers, strings, booleans or 空, or throws an error made by
    [error()] of a token of the source. In no case is a token read past
    the end of the list. *)
Theorem front_end_ends_on_every_source src :
  match scanTokens (Lexer.new src) with
  | Ok toks _ =>
      forall fuel,
        List.length toks < fuel ->
        match Parser.parse fuel toks with
        | Normal statements _ => All plainStmt statements
        | Abrupt e _ => exists tok msg, tok ∈ toks /\ e = Parser.error tok msg
        | NoOutcome _ => False
        end
  | Throw e => lexicalError e
  | Timeout => False
  end.
Proof.
  pose proof (@scanTokens_ends src) as Hends.
  destruct (scanTokens (Lexer.new src)) as [toks l | e |] eqn:Hlex;
    [| | congruence].
  - intros fuel Hfuel.
    pose proof (parse_finishes (scanTokens_terminated Hlex) Hfuel) as H.
    pose proof (parse_plain fuel toks) as Hplain.
    destruct (Parser.parse fuel toks) as [ss c | e c | r];
      cbn [finishes] in H; [exact Hplain | apply H | exact H].
  - unfold scanTokens in Hlex.
    pose proof (scanLoop_throws (List.length (source (Lexer.new src)))
                  (Lexer.new src)) as H.
    destruct (scanLoop _ _) as [u l1 | e' |]; try discriminate.
    injection Hlex as <-. exact H.
Qed.

(** The source [x +]: the parser throws at the end of the input. *)
Lemma front_end_ends_on_every_source_witness :
  match scanTokens (Lexer.new (js "x +")) with
  | Ok toks _ =>
      match Parser.parse 4 toks with
      | Normal statements _ => All plainStmt statements
      | Abrupt e _ => exists tok msg, tok ∈ toks /\ e = Parser.error tok msg
      | NoOutcome _ => False
      end
  | _ => False
  end.
Proof.
  pose proof (front_end_ends_on_every_source (js "x +")) as H.
  destruct (scanTokens (Lexer.new (js "x +"))) as [toks l | e |] eqn:E;
    [| vm_compute in E; discriminate | exact H].
  apply H. vm_compute in E. injection E as <- _. cbn. lia.
Defined.

(** ** Lexical scoping *)

(** A built-in function does not look at the current environment. *)
Lemma builtinCall_withEnvironment b args e s :
  builtinCall b args (withEnvironment e s) =
  match builtinCall b args s with
  | Normal v s' => Normal v (withEnvironment e s')
  | Abrupt t s' => Abrupt t (withEnvironment e s')
  | NoOutcome r => NoOutcome r
  end.
Proof.
  destruct b; cbn [builtinCall].
  - reflexivity.
  - destruct (index args 0); try reflexivity.
    destruct (index args 1); try reflexivity.
    unfold arrayFrom. destruct (_ <? _)%Z; reflexivity.
  - destruct (index args 0); reflexivity.
  - reflexivity.
Qed.

(** Neither does the call of a function value: the current environment
    is only what the call sets back when it ends. *)
Lemma call_withEnvironment (ex : Stmt -> Eval unit) func args e s :
  call ex func args (withEnvironment e s) =
  match call ex func args s with
  | Normal v s' => Normal v (withEnvironment e s')
  | Abrupt t s' => Abrupt t (withEnvironment e s')
  | NoOutcome r => NoOutcome r
  end.
Proof.
  destruct func as [params body closure | b]; cbn [call];
    [| apply builtinCall_withEnvironment].
  rewrite !functionCall_outcome.
  change (heap (withEnvironment e s)) with (heap s).
  change (next (withEnvironment e s)) with (next s).
  change (globals (withEnvironment e s)) with (globals s).
  change (stdout (withEnvironment e s)) with (stdout s).
  change (environment (withEnvironment e s)) with e.
  destruct (forEach ex body _) as [[] s' | [token msg | v | err] s' | r];
    reflexivity.
Qed.

(** X18: scoping is lexical, not dynamic. Two calls of the same function
    value with the same arguments, made in the same store from two current
    environments, have the same outcome: the same value or the same thrown
    error, and the same final state, up to the current environment, which
    each call leaves as it found it. What a function body finds in scope
    depends on the closure recorded in the function value, never on the
    place of the call. *)
Theorem call_outcome_ignores_the_scope_of_the_caller
    fuel paren callee args s s1 s2 callee' args' t t1 f argv e :
  evaluate fuel callee s = Normal f s1 ->
  mapM (evaluate fuel) args s1 = Normal argv s2 ->
  evaluate fuel callee' t = Normal f t1 ->
  mapM (evaluate fuel) args' t1 = Normal argv (withEnvironment e s2) ->
  evaluate (S fuel) (CallExpr callee' paren args') t =
  match evaluate (S fuel) (CallExpr callee paren args) s with
  | Normal v s' => Normal v (withEnvironment e s')
  | Abrupt x s' => Abrupt x (withEnvironment e s')
  | NoOutcome r => NoOutcome r
  end.
Proof.
  intros Hf Hargs Hf' Hargs'.
  rewrite !evaluate_call, Hf, Hargs, Hf', Hargs'.
  destruct (getCall f) as [err | [func |]]; try reflexivity.
  destruct (bool_decide _); [reflexivity |].
  apply call_withEnvironment.
Qed.

(** [f], declared in the global scope, returns the global [x] when it is
    called from the global scope, and also when it is called from the
    scope at 2, where a variable read finds the other [x]. *)
Lemma call_outcome_ignores_the_scope_of_the_caller_witness :
  exists s',
    evaluate 4 (CallExpr (VariableExpr (nameToken "f"))
                  (operatorToken RIGHT_PAREN) [])
             (mkInterp shadowing 3 0 0 [])
    = Normal (VNumber 1) s'
    /\ evaluate 1 (VariableExpr (nameToken "x")) (mkInterp shadowing 3 0 2 [])
       = Normal (VNumber 2) (mkInterp shadowing 3 0 2 [])
    /\ evaluate 4 (CallExpr (VariableExpr (nameToken "f"))
                     (operatorToken RIGHT_PAREN) [])
                (mkInterp shadowing 3 0 2 [])
       = Normal (VNumber 1) (withEnvironment 2 s').
Proof.
  eexists. split; [vm_compute; reflexivity |].
  split; [vm_compute; reflexivity |].
  etrans.
  - eapply (@call_outcome_ignores_the_scope_of_the_caller 3
              (operatorToken RIGHT_PAREN)
              (VariableExpr (nameToken "f")) []
              (mkInterp shadowing 3 0 0 []) (mkInterp shadowing 3 0 0 [])
              (mkInterp shadowing 3 0 0 [])
              (VariableExpr (nameToken "f")) []
              (mkInterp shadowing 3 0 2 []) (mkInterp shadowing 3 0 2 [])
              _ [] 2);
      [vm_compute; reflexivity | reflexivity | vm_compute; reflexivity
      | reflexivity].
  - vm_compute. reflexivity.
Defined.

(** ** The parser makes no [While] node *)

Section NoWhile.

Variable tokens : list Token.
Variable expression : Parser.Parse Expr.
Variable declaration : Parser.Parse Stmt.
Variable statementRec : Parser.Parse Stmt.
Hypothesis expression_ends : yields (fun _ => True) expression.
Hypothesis declaration_noWhile : yields noWhile declaration.
Hypothesis statementRec_noWhile : yields noWhile statementRec.

#[local] Hint Resolve peek_yields previous_yields isAtEnd_yields check_yields
  advance_yields Pmatch_yields consume_yields synchronize_yields
  atMost255_yields : yields.

Local Tactic Notation "bind" ident(x) :=
  eapply yields_bind; [solve [auto with yields] | intros x _].

Local Tactic Notation "bind" ident(x) "with" constr(post) ident(H) :=
  apply (@yields_bind _ _ post); [| intros x H].

Lemma blockLoop_noWhile turns :
  forall acc, All noWhile acc ->
              yields (All noWhile) (Parser.blockLoop tokens declaration turns acc).
Proof.
  induction turns as [| n IH]; intros acc Hacc; cbn [Parser.blockLoop];
    bind c; (destruct c; [apply yields_ret; exact Hacc |]);
    bind e; (destruct e; [apply yields_ret; exact Hacc |]).
  - apply yields_stuck.
  - bind d with noWhile Hd; [exact declaration_noWhile |].
    apply IH. apply All_app. cbn. auto.
Qed.

Lemma block_noWhile : yields (All noWhile) (Parser.block tokens declaration).
Proof.
  unfold Parser.block.
  bind statements with (All noWhile) Hs; [apply blockLoop_noWhile; exact I |].
  bind t. apply yields_ret. exact Hs.
Qed.

Lemma statement_noWhile :
  yields noWhile (Parser.statement tokens expression declaration statementRec).
Proof.
  unfold Parser.statement.
  bind m. destruct m.
  { unfold Parser.ifStatement. bind t.
    bind condition with (fun _ : Expr => True) Hc; [exact expression_ends |].
    bind t'. bind thenBranch with noWhile Ht; [exact statementRec_noWhile |].
    bind m.
    bind elseBranch with (fun e : option Stmt =>
                            match e with Some s => noWhile s | None => True end) He.
    { destruct m; [| apply yields_ret; exact I].
      bind s with noWhile Hs; [exact statementRec_noWhile |].
      apply yields_ret. exact Hs. }
    apply yields_ret. cbn. auto. }
  bind m. destruct m.
  { unfold Parser.forStatement. bind variable. bind t.
    bind iterable with (fun _ : Expr => True) Hi; [exact expression_ends |].
    bind body with noWhile Hb; [exact statementRec_noWhile |].
    apply yields_ret. exact Hb. }
  bind m. destruct m.
  { unfold Parser.returnStatement. bind keyword. bind c.
    bind value with (fun _ : option Expr => True) Hv.
    { destruct c; [apply yields_ret; exact I |].
      bind e with (fun _ : Expr => True) He; [exact expression_ends |].
      apply yields_ret. exact I. }
    apply yields_ret. exact I. }
  bind m. destruct m.
  { bind b with (All noWhile) Hb; [apply block_noWhile |].
    apply yields_ret. exact Hb. }
  unfold Parser.expressionStatement.
  bind expr with (fun _ : Expr => True) He; [exact expression_ends |].
  apply yields_ret. exact I.
Qed.

Lemma declarationBody_noWhile :
  yields noWhile
    (Parser.declarationBody tokens expression declaration statementRec).
Proof.
  unfold Parser.declarationBody. apply yields_tryCatch.
  - bind m. destruct m.
    { unfold Parser.function. bind name. bind t. bind c.
      bind parameters with (fun _ : list Token => True) Hp.
      { destruct c; [apply yields_ret; exact I |].
        eapply yields_weaken;
          [| apply commaLoop_yields with (P := fun _ : Token => True);
             [intros; apply atMost255_yields | apply consume_yields | exact I]].
        trivial. }
      bind t1. bind t2.
      bind body with (All noWhile) Hb; [apply block_noWhile |].
      apply yields_ret. exact Hb. }
    bind m. destruct m.
    { unfold Parser.letDeclaration. bind name. bind m.
      bind initializer with (fun _ : option Expr => True) Hv.
      { destruct m; [| apply yields_ret; exact I].
        bind e with (fun _ : Expr => True) He; [exact expression_ends |].
        apply yields_ret. exact I. }
      apply yields_ret. exact I. }
    apply statement_noWhile.
  - intros e. bind u. apply yields_throw.
Qed.

End NoWhile.

Lemma declaration_noWhile_all tokens fuel :
  yields noWhile (Parser.declaration tokens fuel)
  /\ yields noWhile (Parser.statementF tokens fuel).
Proof.
  induction fuel as [| n (IH1 & IH2)]; repeat split; intros c;
    cbn [Parser.declaration Parser.statementF]; try reflexivity.
  - apply declarationBody_noWhile; try assumption.
    eapply yields_weaken; [| apply (expression_yields tokens n)]. trivial.
  - apply statement_noWhile; try assumption.
    eapply yields_weaken; [| apply (expression_yields tokens n)]. trivial.
Qed.

(** X19: whatever the tokens, no statement that [parse] returns has a
    [While] node in it, at any depth: the grammar has no loop but [对于],
    and [visitWhileStmt] is never reached from a parsed program. *)
Theorem parse_makes_no_while fuel tokens :
  match Parser.parse fuel tokens with
  | Normal statements _ => All noWhile statements
  | _ => True
  end.
Proof.
  unfold Parser.parse.
  assert (H : forall turns acc,
             All noWhile acc ->
             yields (All noWhile) (Parser.parseLoop tokens fuel turns acc)).
  { induction turns as [| n IH]; intros acc Hacc; cbn [Parser.parseLoop];
      (eapply yields_bind; [apply isAtEnd_yields | intros e _]);
      (destruct e; [apply yields_ret; exact Hacc |]).
    - apply yields_stuck.
    - apply yields_bind with (Q := noWhile);
        [apply (declaration_noWhile_all tokens fuel) | intros d Hd].
      apply IH. apply All_app. cbn. auto. }
  specialize (H (List.length tokens) [] I 0).
  destruct (Parser.parseLoop tokens fuel (List.length tokens) [] 0); trivial.
Qed.

(** ** The lines of the tokens *)

Lemma lineFeeds_app a b : lineFeeds (a ++ b) = (lineFeeds a + lineFeeds b)%nat.
Proof. unfold lineFeeds. rewrite List.filter_app, length_app. reflexivity. Qed.

Lemma lined_more toks : forall before text more,
  lined toks before text -> lined toks before (text ++ more).
Proof.
  induction toks as [| tok rest IH]; intros before text more; cbn [lined].
  - trivial.
  - intros (skipped & text' & -> & Hline & Hrest).
    exists skipped, (text' ++ more). rewrite <- !app_assoc.
    repeat split; try assumption. apply IH. exact Hrest.
Qed.

Lemma lined_snoc toks : forall before text tok,
  lined toks before text ->
  line tok = (1 + Z.of_nat (lineFeeds (before ++ text ++ lexeme tok)))%Z ->
  lined (toks ++ [tok]) before (text ++ lexeme tok).
Proof.
  induction toks as [| y rest IH]; intros before text tok; cbn [lined app].
  - intros _ Hline. exists text, []. rewrite app_nil_r.
    repeat split; assumption.
  - intros (skipped & text' & -> & Hy & Hrest) Hline.
    exists skipped, (text' ++ lexeme tok). rewrite <- !app_assoc.
    repeat split; try assumption. apply IH; try assumption.
    rewrite Hline. rewrite <- !app_assoc. reflexivity.
Qed.

(** Moving over a unit that is not a line feed. *)
Lemma advance_counts l x :
  source l !! current l = Some x -> x <> 10%N ->
  counts l -> counts (snd (advance l)).
Proof.
  unfold counts. intros Hx Hne Hl. cbn [advance snd lline current source].
  rewrite (take_S_r _ _ _ Hx), lineFeeds_app, Hl.
  unfold lineFeeds at 3. cbn [List.filter].
  destruct (N.eqb_spec 10 x) as [<- | _]; [contradiction |].
  cbn. rewrite Nat.add_0_r. reflexivity.
Qed.

(** Moving over a line feed, after the line counter has been incremented. *)
Lemma newline_counts l (l1 : Lexer) :
  source l !! current l = Some 10%N ->
  source l1 = source l -> current l1 = S (current l) ->
  lline l1 = (lline l + 1)%Z ->
  counts l -> counts l1.
Proof.
  unfold counts. intros Hx Hs Hc Hline Hl.
  rewrite Hline, Hs, Hc, (take_S_r _ _ _ Hx), lineFeeds_app, Hl.
  unfold lineFeeds at 3. cbn. lia.
Qed.

Lemma unit_of_literal (x : N) (text : jsstring) :
  [x] = text -> text <> [10%N] -> x <> 10%N.
Proof. intros <- H ->. apply H. reflexivity. Qed.

Lemma advanceWhile_counts p turns :
  p [10%N] = false -> p [0%N] = false ->
  forall l, counts l -> countsIf (advanceWhile p turns l).
Proof.
  intros Hnl Hend. induction turns as [| n IH]; intros l Hl;
    cbn [advanceWhile]; destruct (p (peek l)) eqn:Hp; try exact I;
    try exact Hl.
  destruct (isAtEnd l) eqn:Hat;
    [rewrite (peek_end Hat) in Hp; congruence |].
  destruct (peek_unit Hat) as (x & Hx & Hpeek). rewrite Hpeek in Hp.
  apply IH. apply (advance_counts Hx); [| exact Hl].
  intros ->. congruence.
Qed.

Lemma lineComment_counts turns :
  forall l, counts l -> countsIf (lineComment turns l).
Proof.
  induction turns as [| n IH]; intros l Hl; cbn [lineComment];
    destruct (str_eqb (peek l) [10%N]) eqn:Hnl; cbn [negb andb];
    try exact Hl;
    destruct (isAtEnd l) eqn:Hat; cbn [negb]; try exact Hl; try exact I.
  destruct (peek_unit Hat) as (x & Hx & Hpeek). rewrite Hpeek in Hnl.
  apply bool_decide_eq_false in Hnl.
  apply IH. apply (advance_counts Hx); [| exact Hl].
  intros ->. apply Hnl. reflexivity.
Qed.

(** One turn of the loops of [string()] and [multilineComment()]: the line
    counter is incremented at a line feed, and the cursor moves on. *)
Lemma line_turn_counts l (column : Z -> Lexer -> Lexer) :
  (forall c l0, source (column c l0) = source l0
                /\ current (column c l0) = current l0
                /\ lline (column c l0) = lline l0) ->
  isAtEnd l = false ->
  counts l ->
  counts (snd (advance (if str_eqb (peek l) [10%N]
                        then column 1%Z (setLine (lline l + 1) l) else l))).
Proof.
  intros Hcol Hat Hl. destruct (peek_unit Hat) as (x & Hx & Hpeek).
  rewrite Hpeek. destruct (str_eqb [x] [10%N]) eqn:Hnl.
  - apply bool_decide_eq_true in Hnl. injection Hnl as ->.
    destruct (Hcol 1%Z (setLine (lline l + 1) l)) as (Hs & Hc & Hline).
    apply (newline_counts (l := l)); cbn [advance snd source current lline];
      [exact Hx | rewrite Hs; reflexivity | rewrite Hc; reflexivity
      | rewrite Hline; reflexivity | exact Hl].
  - apply bool_decide_eq_false in Hnl.
    apply (advance_counts Hx); [| exact Hl]. intros ->. apply Hnl. reflexivity.
Qed.

Lemma stringLoop_counts turns :
  forall l, counts l -> countsIf (stringLoop turns l).
Proof.
  induction turns as [| n IH]; intros l Hl; cbn [stringLoop];
    destruct (str_eqb (peek l) [34%N]); cbn [negb andb]; try exact Hl;
    destruct (isAtEnd l) eqn:Hat; cbn [negb]; try exact Hl; try exact I.
  apply IH.
  apply (line_turn_counts (column := setColumn)); [| exact Hat | exact Hl].
  intros c l0. repeat split.
Qed.

Lemma multilineComment_counts turns :
  forall l, counts l -> countsIf (multilineComment turns l).
Proof.
  induction turns as [| n IH]; intros l Hl; cbn [multilineComment];
    destruct (isAtEnd l) eqn:Hat; cbn [negb]; try exact I.
  destruct (str_eqb (peek l) (js "*") && str_eqb (peekNext l) (js "/"))
    eqn:Hclose.
  - apply andb_true_iff in Hclose as [Hstar Hslash].
    destruct (peek_unit Hat) as (x & Hx & Hpeek). rewrite Hpeek in Hstar.
    apply bool_decide_eq_true in Hstar.
    unfold peekNext in Hslash.
    destruct (bool_decide (List.length (source l) <= current l + 1)%nat);
      [vm_compute in Hslash; discriminate |].
    apply bool_decide_eq_true in Hslash. unfold charAt in Hslash.
    destruct (source l !! (current l + 1)%nat) as [y |] eqn:Hy;
      [| vm_compute in Hslash; discriminate].
    cbn [countsIf].
    apply (advance_counts (x := y));
      [cbn; rewrite <- Hy; f_equal; lia
      | apply (unit_of_literal Hslash); vm_compute; discriminate |].
    apply (advance_counts Hx);
      [apply (unit_of_literal Hstar); vm_compute; discriminate | exact Hl].
  - apply IH.
    apply (line_turn_counts (column := fun _ l0 => l0)); [| exact Hat | exact Hl].
    intros c l0. repeat split.
Qed.

Lemma Lmatch_counts expected l :
  expected <> [10%N] -> counts l -> counts (snd (Lmatch expected l)).
Proof.
  intros Hne Hl.
  destruct (Lmatch_outcome expected l) as [-> | (-> & Hat & Hchar)];
    [exact Hl |].
  destruct (peek_unit Hat) as (x & Hx & _).
  unfold charAt in Hchar. rewrite Hx in Hchar.
  apply (advance_counts Hx); [| exact Hl].
  apply (unit_of_literal Hchar Hne).
Qed.

Lemma Lstring_counts turns l :
  (current l <= List.length (source l))%nat ->
  counts l -> countsIf (Lstring turns l).
Proof.
  intros Hlen Hl. unfold Lstring.
  pose proof (stringLoop_counts turns Hl) as H.
  pose proof (@stringLoop_within turns l Hlen) as Hw.
  destruct (stringLoop turns l) as [u l1 | e |]; try exact I.
  destruct (isAtEnd l1) eqn:Hat; [exact I |].
  destruct Hw as (_ & [Hstop | Hstop] & _); [congruence |].
  cbn [countsIf]. apply (advance_counts (l := l1) Hstop); [discriminate | exact H].
Qed.

Lemma number_counts turns l : counts l -> countsIf (number turns l).
Proof.
  intros Hl. unfold number.
  pose proof (@advanceWhile_counts isDigit turns ltac:(vm_compute; reflexivity)
                isDigit_sentinel l Hl) as H.
  destruct (advanceWhile isDigit turns l) as [u l1 | e |]; try exact I.
  destruct (str_eqb (peek l1) (js ".") && isDigit (peekNext l1)) eqn:Hfrac;
    [| exact H].
  apply andb_true_iff in Hfrac as [Hdot _].
  assert (Hat : isAtEnd l1 = false).
  { destruct (isAtEnd l1) eqn:Hat; [| reflexivity].
    rewrite (peek_end Hat) in Hdot. vm_compute in Hdot. discriminate. }
  destruct (peek_unit Hat) as (x & Hx & Hpeek). rewrite Hpeek in Hdot.
  apply bool_decide_eq_true in Hdot.
  assert (H1 : counts (snd (advance l1))).
  { apply (advance_counts Hx); [| exact H].
    apply (unit_of_literal Hdot). vm_compute. discriminate. }
  pose proof (@advanceWhile_counts isDigit turns ltac:(vm_compute; reflexivity)
                isDigit_sentinel (snd (advance l1)) H1) as H2.
  destruct (advanceWhile isDigit turns (snd (advance l1))); try exact I.
  exact H2.
Qed.

Lemma identifier_counts turns l : counts l -> countsIf (identifier turns l).
Proof.
  intros Hl. unfold identifier.
  pose proof (@advanceWhile_counts isAlphaNumeric turns
                ltac:(vm_compute; reflexivity) isAlphaNumeric_sentinel l Hl) as H.
  destruct (advanceWhile isAlphaNumeric turns l); try exact I. exact H.
Qed.

(** The turn of [scanToken] on a line feed. *)
Lemma scanToken_newline turns l :
  charAt (source l) (current l) = [10%N] ->
  scanToken turns l = Ok tt (setColumn 1 (setLine (lline l + 1) (snd (advance l)))).
Proof.
  intros H. unfold scanToken, advance. rewrite H.
  repeat match goal with
         | |- context [isChar [10%N] ?s] =>
             replace (isChar [10%N] s) with false by (vm_compute; reflexivity)
         end.
  replace (str_eqb [10%N] [13%N]) with false by (vm_compute; reflexivity).
  replace (str_eqb [10%N] [9%N]) with false by (vm_compute; reflexivity).
  replace (str_eqb [10%N] [10%N]) with true by (vm_compute; reflexivity).
  reflexivity.
Qed.

Lemma scanToken_counts turns l :
  isAtEnd l = false -> counts l -> countsIf (scanToken turns l).
Proof.
  intros Hat Hl. destruct (peek_unit Hat) as (x & Hx & _).
  destruct (decide (x = 10%N)) as [-> | Hne].
  - rewrite scanToken_newline by (unfold charAt; rewrite Hx; reflexivity).
    cbn [countsIf]. apply (newline_counts (l := l)); try reflexivity; assumption.
  - pose proof (advance_counts Hx Hne Hl) as Hl1.
    assert (Hlen : (current (snd (advance l))
                    <= List.length (source (snd (advance l))))%nat)
      by (apply isAtEnd_false in Hat; cbn; lia).
    unfold scanToken.
    destruct (advance l) as [c l1] eqn:E.
    assert (Hc : c = [x])
      by (unfold advance in E; injection E as <- _; unfold charAt;
          rewrite Hx; reflexivity).
    cbn [snd] in Hl1, Hlen. clear E. subst c.
    repeat match goal with
           | |- countsIf (if ?b then _ else _) => destruct b eqn:?
           end;
      try exact Hl1; try exact I;
      try (unfold addEither;
           pose proof (@Lmatch_counts (js "=") l1
                         ltac:(vm_compute; discriminate) Hl1) as Hm;
           destruct (Lmatch (js "=") l1); exact Hm);
      try (apply Lstring_counts; assumption);
      try (apply number_counts; assumption);
      try (apply identifier_counts; assumption).
    + match goal with
      | H : str_eqb [x] [10%N] = true |- _ =>
          apply bool_decide_eq_true in H; injection H as ->; contradiction
      end.
    + pose proof (@Lmatch_counts (js "/") l1 ltac:(vm_compute; discriminate) Hl1)
        as H1.
      destruct (Lmatch (js "/") l1) as [m l2]. cbn [snd] in H1.
      destruct m; [apply lineComment_counts, H1 |].
      pose proof (@Lmatch_counts (js "*") l2 ltac:(vm_compute; discriminate) H1)
        as H2.
      destruct (Lmatch (js "*") l2) as [m2 l3]. cbn [snd] in H2.
      destruct m2; [apply multilineComment_counts, H2 | exact H2].
Qed.

Lemma scanned_lexedLines l l' :
  scanned l l' -> counts l' -> lexedLines l -> lexedLines l'.
Proof.
  intros (Hs & Hc & Htok) Hl' (Hl & Hln & Hlen).
  assert (Htake : take (current l') (source l')
                  = take (current l) (source l)
                    ++ substring (source l) (current l) (current l'))
    by (rewrite Hs; apply substring_take; lia).
  unfold lexedLines. split; [exact Hl' |]. split; [| rewrite Hs; lia].
  destruct Htok as [Ht | (tok & Ht & Hlex & _ & Hline & _)]; rewrite Ht.
  - rewrite Htake. apply lined_more. exact Hln.
  - rewrite Htake, <- Hlex.
    apply lined_snoc; [exact Hln |].
    rewrite Hline, Hl', Htake, <- Hlex. reflexivity.
Qed.

Lemma scanLoop_lexedLines turns :
  forall l,
    lexedLines l ->
    match scanLoop turns l with
    | Ok _ l' => lexedLines l' /\ isAtEnd l' = true /\ source l' = source l
    | _ => True
    end.
Proof.
  induction turns as [| n IH]; intros l Hl; cbn [scanLoop];
    destruct (isAtEnd l) eqn:Hend; cbn [negb]; try exact I;
    try (split; [exact Hl | split; [exact Hend | reflexivity]]).
  pose proof (@scanToken_scanned (List.length (source l))
                (setStart (current l) l) Hend eq_refl) as H.
  pose proof (@scanToken_counts (List.length (source l))
                (setStart (current l) l) Hend (proj1 Hl)) as Hcn.
  destruct (scanToken (List.length (source l)) (setStart (current l) l))
    as [u l1 | e |]; try exact I.
  cbn [scannedIf countsIf] in H, Hcn.
  assert (Hl1 : lexedLines l1) by (apply (scanned_lexedLines H Hcn); exact Hl).
  assert (Hs1 : source l1 = source l) by (destruct H as (Hs & _); exact Hs).
  specialize (IH l1 Hl1).
  destruct (scanLoop n l1) as [u2 l2 | e |]; try exact I.
  destruct IH as (H2 & Hend2 & Hs2). split; [exact H2 |].
  split; [exact Hend2 |]. congruence.
Qed.

(** X20: on every source, the line of a token is one more than the number
    of line feeds of the source up to the end of its lexeme, whether the
    line feeds are between tokens, in comments or in strings. The line of
    a token is therefore the line on which its lexeme ends: for a string
    that spans several lines, the line of its closing quote. The line of
    the end-of-input token is the last line of the source. *)
Theorem token_lines_count_line_feeds src :
  match scanTokens (Lexer.new src) with
  | Ok toks _ =>
      exists body eof,
        toks = body ++ [eof]
        /\ lined body [] src
        /\ line eof = (1 + Z.of_nat (lineFeeds src))%Z
  | _ => True
  end.
Proof.
  unfold scanTokens.
  assert (H0 : lexedLines (Lexer.new src)).
  { split; [reflexivity |]. split; [exact I | cbn; lia]. }
  pose proof (@scanLoop_lexedLines (List.length (source (Lexer.new src)))
                (Lexer.new src) H0) as H.
  destruct (scanLoop (List.length (source (Lexer.new src))) (Lexer.new src))
    as [u l | e |]; try exact I.
  destruct H as ((Hline & Hln & Hl) & Hend & Hs).
  cbn [Lexer.new source] in Hs.
  unfold isAtEnd in Hend. apply bool_decide_eq_true in Hend.
  unfold counts in Hline.
  rewrite take_ge in Hline, Hln by exact Hend. rewrite Hs in Hline, Hln.
  eexists (tokens l), _. cbn [tokens]. split; [reflexivity |].
  cbn [line]. split; [exact Hln | exact Hline].
Qed.

(** ** The operators of a parsed program *)

Section Operators.

Variable tokens : list Token.
Variable P : Token -> Prop.
Hypothesis tokens_P : forall t, t ∈ tokens -> P t.

#[local] Hint Resolve peek_yields previous_yields isAtEnd_yields check_yields
  advance_yields Pmatch_yields consume_yields synchronize_yields
  atMost255_yields : yields.

Local Tactic Notation "bind" ident(x) :=
  eapply yields_bind; [solve [auto with yields] | intros x _].

Local Tactic Notation "bind" ident(x) "with" constr(post) ident(H) :=
  apply (@yields_bind _ _ post); [| intros x H].

(** The token that [previous()] returns is a token of the list. *)
Lemma previous_operator : yields P (Parser.previous tokens).
Proof.
  intros [| c]; unfold Parser.previous; [exact I |].
  destruct (tokens !! c) as [t |] eqn:Ht; [| exact I].
  apply tokens_P. apply list_elem_of_lookup. eauto.
Qed.

Lemma binaryLoop_operators types operand turns :
  yields (operatorsExpr P) operand ->
  forall expr,
    operatorsExpr P expr ->
    yields (operatorsExpr P) (Parser.binaryLoop tokens types operand turns expr).
Proof.
  intros Hop. induction turns as [| n IH]; intros expr Hexpr;
    cbn [Parser.binaryLoop]; bind m;
    (destruct m; [| apply yields_ret; exact Hexpr]).
  - apply yields_stuck.
  - bind operator with P Ho; [apply previous_operator |].
    bind right with (operatorsExpr P) Hr; [exact Hop |].
    apply IH. cbn. auto.
Qed.

Lemma binary_operators types operand :
  yields (operatorsExpr P) operand ->
  yields (operatorsExpr P) (Parser.binary tokens types operand).
Proof.
  intros Hop. unfold Parser.binary.
  bind expr with (operatorsExpr P) He; [exact Hop |].
  apply binaryLoop_operators; assumption.
Qed.

Variable expression : Parser.Parse Expr.
Variable assignmentRec : Parser.Parse Expr.
Variable unaryRec : Parser.Parse Expr.
Variable declaration : Parser.Parse Stmt.
Variable statementRec : Parser.Parse Stmt.
Hypothesis expression_operators : yields (operatorsExpr P) expression.
Hypothesis assignmentRec_operators : yields (operatorsExpr P) assignmentRec.
Hypothesis unaryRec_operators : yields (operatorsExpr P) unaryRec.
Hypothesis declaration_operators : yields (operatorsStmt P) declaration.
Hypothesis statementRec_operators : yields (operatorsStmt P) statementRec.

Lemma primary_operators :
  yields (operatorsExpr P) (Parser.primary tokens expression).
Proof.
  unfold Parser.primary.
  bind m. destruct m; [apply yields_ret; exact I |].
  bind m. destruct m; [apply yields_ret; exact I |].
  bind m. destruct m; [apply yields_ret; exact I |].
  bind m. destruct m; [bind p; apply yields_ret; exact I |].
  bind m. destruct m.
  { bind c.
    bind elements with (All (operatorsExpr P)) Hel.
    { destruct c; [apply yields_ret; exact I |].
      apply commaLoop_yields;
        [intros; apply yields_ret; exact I | exact expression_operators
        | exact I]. }
    bind t. apply yields_ret. exact Hel. }
  bind m. destruct m; [bind p; apply yields_ret; exact I |].
  bind m. destruct m.
  { bind expr with (operatorsExpr P) He; [exact expression_operators |].
    bind t. apply yields_ret. exact He. }
  apply errorAtPeek_yields.
Qed.

Lemma finishCall_operators callee :
  operatorsExpr P callee ->
  yields (operatorsExpr P) (Parser.finishCall tokens expression callee).
Proof.
  intros Hc. unfold Parser.finishCall. bind c.
  bind args with (All (operatorsExpr P)) Hargs.
  { destruct c; [apply yields_ret; exact I |].
    apply commaLoop_yields;
      [intros; apply atMost255_yields | exact expression_operators | exact I]. }
  bind paren. apply yields_ret. cbn. auto.
Qed.

Lemma callLoop_operators turns :
  forall expr,
    operatorsExpr P expr ->
    yields (operatorsExpr P) (Parser.callLoop tokens expression turns expr).
Proof.
  induction turns as [| n IH]; intros expr Hexpr; cbn [Parser.callLoop];
    bind m; (destruct m; [| apply yields_ret; exact Hexpr]).
  - apply yields_stuck.
  - bind expr' with (operatorsExpr P) He;
      [apply finishCall_operators; exact Hexpr |].
    apply IH, He.
Qed.

Lemma unary_operators :
  yields (operatorsExpr P) (Parser.unary tokens expression unaryRec).
Proof.
  unfold Parser.unary. bind m. destruct m.
  - bind operator with P Ho; [apply previous_operator |].
    bind right with (operatorsExpr P) Hr; [exact unaryRec_operators |].
    apply yields_ret. cbn. auto.
  - unfold Parser.call.
    bind expr with (operatorsExpr P) He; [apply primary_operators |].
    apply callLoop_operators, He.
Qed.

Lemma assignment_operators :
  yields (operatorsExpr P)
    (Parser.assignment tokens expression assignmentRec unaryRec).
Proof.
  unfold Parser.assignment.
  bind expr with (operatorsExpr P) He.
  { unfold Parser.or, Parser.and, Parser.equality, Parser.comparison,
      Parser.term, Parser.factor.
    repeat apply binary_operators. apply unary_operators. }
  bind m. destruct m; [| apply yields_ret; exact He].
  bind equals.
  bind value with (operatorsExpr P) Hv; [exact assignmentRec_operators |].
  destruct expr; first [apply yields_throw | apply yields_ret; exact Hv].
Qed.

Lemma blockLoop_operators turns :
  forall acc,
    All (operatorsStmt P) acc ->
    yields (All (operatorsStmt P))
      (Parser.blockLoop tokens declaration turns acc).
Proof.
  induction turns as [| n IH]; intros acc Hacc; cbn [Parser.blockLoop];
    bind c; (destruct c; [apply yields_ret; exact Hacc |]);
    bind e; (destruct e; [apply yields_ret; exact Hacc |]).
  - apply yields_stuck.
  - bind d with (operatorsStmt P) Hd; [exact declaration_operators |].
    apply IH. apply All_app. cbn. auto.
Qed.

Lemma block_operators :
  yields (All (operatorsStmt P)) (Parser.block tokens declaration).
Proof.
  unfold Parser.block.
  bind statements with (All (operatorsStmt P)) Hs;
    [apply blockLoop_operators; exact I |].
  bind t. apply yields_ret. exact Hs.
Qed.

Lemma statement_operators :
  yields (operatorsStmt P)
    (Parser.statement tokens expression declaration statementRec).
Proof.
  unfold Parser.statement.
  bind m. destruct m.
  { unfold Parser.ifStatement. bind t.
    bind condition with (operatorsExpr P) Hc; [exact expression_operators |].
    bind t'.
    bind thenBranch with (operatorsStmt P) Ht; [exact statementRec_operators |].
    bind m.
    bind elseBranch with (fun e : option Stmt =>
                            match e with
                            | Some s => operatorsStmt P s
                            | None => True
                            end) He.
    { destruct m; [| apply yields_ret; exact I].
      bind s with (operatorsStmt P) Hs; [exact statementRec_operators |].
      apply yields_ret. exact Hs. }
    apply yields_ret. cbn. auto. }
  bind m. destruct m.
  { unfold Parser.forStatement. bind variable. bind t.
    bind iterable with (operatorsExpr P) Hi; [exact expression_operators |].
    bind body with (operatorsStmt P) Hb; [exact statementRec_operators |].
    apply yields_ret. cbn. auto. }
  bind m. destruct m.
  { unfold Parser.returnStatement. bind keyword. bind c.
    bind value with (fun e : option Expr =>
                       match e with
                       | Some x => operatorsExpr P x
                       | None => True
                       end) Hv.
    { destruct c; [apply yields_ret; exact I |].
      bind e with (operatorsExpr P) He; [exact expression_operators |].
      apply yields_ret. exact He. }
    apply yields_ret. exact Hv. }
  bind m. destruct m.
  { bind b with (All (operatorsStmt P)) Hb; [apply block_operators |].
    apply yields_ret. exact Hb. }
  unfold Parser.expressionStatement.
  bind expr with (operatorsExpr P) He; [exact expression_operators |].
  apply yields_ret. exact He.
Qed.

Lemma declarationBody_operators :
  yields (operatorsStmt P)
    (Parser.declarationBody tokens expression declaration statementRec).
Proof.
  unfold Parser.declarationBody. apply yields_tryCatch.
  - bind m. destruct m.
    { unfold Parser.function. bind name. bind t. bind c.
      bind parameters with (fun _ : list Token => True) Hp.
      { destruct c; [apply yields_ret; exact I |].
        eapply yields_weaken;
          [| apply commaLoop_yields with (P := fun _ : Token => True);
             [intros; apply atMost255_yields | apply consume_yields | exact I]].
        trivial. }
      bind t1. bind t2.
      bind body with (All (operatorsStmt P)) Hb; [apply block_operators |].
      apply yields_ret. exact Hb. }
    bind m. destruct m.
    { unfold Parser.letDeclaration. bind name. bind m.
      bind initializer with (fun e : option Expr =>
                               match e with
                               | Some x => operatorsExpr P x
                               | None => True
                               end) Hv.
      { destruct m; [| apply yields_ret; exact I].
        bind e with (operatorsExpr P) He; [exact expression_operators |].
        apply yields_ret. exact He. }
      apply yields_ret. exact Hv. }
    apply statement_operators.
  - intros e. bind u. apply yields_throw.
Qed.

End Operators.

Lemma expression_operators_all tokens P fuel :
  (forall t, t ∈ tokens -> P t) ->
  yields (operatorsExpr P) (Parser.expression tokens fuel)
  /\ yields (operatorsExpr P) (Parser.assignmentF tokens fuel)
  /\ yields (operatorsExpr P) (Parser.unaryF tokens fuel).
Proof.
  intros HP. induction fuel as [| n (IH1 & IH2 & IH3)]; repeat split; intros c;
    cbn [Parser.expression Parser.assignmentF Parser.unaryF];
    try reflexivity.
  - apply assignment_operators; assumption.
  - apply assignment_operators; assumption.
  - apply unary_operators; assumption.
Qed.

Lemma declaration_operators_all tokens P fuel :
  (forall t, t ∈ tokens -> P t) ->
  yields (operatorsStmt P) (Parser.declaration tokens fuel)
  /\ yields (operatorsStmt P) (Parser.statementF tokens fuel).
Proof.
  intros HP. induction fuel as [| n (IH1 & IH2)]; repeat split; intros c;
    cbn [Parser.declaration Parser.statementF]; try reflexivity.
  - apply declarationBody_operators; try assumption.
    apply (expression_operators_all n HP).
  - apply statement_operators; try assumption.
    apply (expression_operators_all n HP).
Qed.

Lemma parse_operators tokens P fuel :
  (forall t, t ∈ tokens -> P t) ->
  match Parser.parse fuel tokens with
  | Normal statements _ => All (operatorsStmt P) statements
  | _ => True
  end.
Proof.
  intros HP. unfold Parser.parse.
  assert (H : forall turns acc,
             All (operatorsStmt P) acc ->
             yields (All (operatorsStmt P))
               (Parser.parseLoop tokens fuel turns acc)).
  { induction turns as [| n IH]; intros acc Hacc; cbn [Parser.parseLoop];
      (eapply yields_bind; [apply isAtEnd_yields | intros e _]);
      (destruct e; [apply yields_ret; exact Hacc |]).
    - apply yields_stuck.
    - apply yields_bind with (Q := operatorsStmt P);
        [apply (declaration_operators_all fuel HP) | intros d Hd].
      apply IH. apply All_app. cbn. auto. }
  specialize (H (List.length tokens) [] I 0).
  destruct (Parser.parseLoop tokens fuel (List.length tokens) [] 0); trivial.
Qed.

(** X21: no source text reaches the logical operators. Whatever the
    source, no binary or unary node of the statements that the lexer and
    the parser make of it has an operator of the kind [AND] or [OR]: the
    operator token of a node is a token of the list, and the lexer makes
    no token of these kinds. The cases 并 and 或 of [visitBinaryExpr] are
    therefore never reached by [run]. *)
Theorem source_programs_have_no_logical_operator src fuel :
  match scanTokens (Lexer.new src) with
  | Ok toks _ =>
      match Parser.parse fuel toks with
      | Normal statements _ => All (operatorsStmt notLogical) statements
      | _ => True
      end
  | _ => True
  end.
Proof.
  pose proof (@scanLoop_lexed (List.length (source (Lexer.new src)))
                (Lexer.new src)) as H.
  unfold scanTokens.
  destruct (scanLoop (List.length (source (Lexer.new src))) (Lexer.new src))
    as [u l | e |]; try exact I.
  destruct H as ((Hall & _) & _);
    [split; [constructor | split; [exact I | cbn; lia]] |].
  cbn [tokens]. apply parse_operators.
  intros t Ht. apply elem_of_app in Ht as [Ht | Ht].
  - rewrite Forall_forall in Hall. destruct (Hall t Ht) as (_ & _ & _ & Hk).
    unfold notLogical. destruct (type t); cbn in Hk; try contradiction;
      split; discriminate.
  - apply list_elem_of_singleton in Ht. subst t. split; discriminate.
Qed.
